(** * Goban: a shallow embedding of the Go rules engine of [Goban.py]

    The development follows the class [Board] of [Goban.py]: the coordinate
    helpers, the neighbourhood tables built by the constructor, the
    union-find string registry, the Zobrist hash, stone placement and
    capture, the suicide and super-ko tests, and the push/pop trail.

    Conventions of the embedding.
    - Python integers are [Z].  The numpy arrays of dtype int8 ([_board],
      [_stringUnionFind], [_stringLiberties], [_stringSizes]) are lists of
      [Z] whose stores go through [wrap8]; the int64 hashes are only ever
      combined with xor, which cannot leave the 64-bit range.
    - Indexing follows Python: a negative index counts from the end, an
      index outside [-len, len) raises [IndexError].
    - Python sets of integers are [gset Z]; a dictionary used as an ordered
      accumulator is an association list in insertion order; the trail is a
      list of frames, each frame a list of Python values.
    - A method that mutates the object takes the board and returns the new
      board together with its result, inside the error monad [res].  A
      [while] loop is a fixpoint on a fuel argument; running out of fuel is
      the outcome [OutOfFuel] and stands for a loop that does not stop. *)

From Stdlib Require Import ZArith List Lia Bool String Ascii Permutation.
From stdpp Require Import base tactics option list gmap sets strings pretty relations.

Local Open Scope Z_scope.

Set Default Proof Using "Type".

(** ** Exceptions and the error monad *)

Inductive exn : Type :=
| AssertionError
| KeyError
| IndexError
| TypeError
| OutOfFuel.

Inductive res (A : Type) : Type :=
| Ok (a : A)
| Raise (e : exn).
Arguments Ok {A} a.
Arguments Raise {A} e.

#[global] Instance res_ret : MRet res := fun A a => Ok a.
#[global] Instance res_bind : MBind res := fun A B f m =>
  match m with
  | Ok a => f a
  | Raise e => Raise e
  end.

Definition is_ok {A} (r : res A) : bool :=
  match r with Ok _ => true | Raise _ => false end.

Definition assert_ (c : bool) : res unit :=
  if c then Ok tt else Raise AssertionError.

(** ** Python indexing of fixed-length arrays *)

Definition wrap8 (v : Z) : Z := (v + 128) mod 256 - 128.

Definition py_index (len i : Z) : res nat :=
  if (0 <=? i) && (i <? len) then Ok (Z.to_nat i)
  else if (- len <=? i) && (i <? 0) then Ok (Z.to_nat (len + i))
  else Raise IndexError.

Definition aget {A} (l : list A) (i : Z) : res A :=
  k ← py_index (Z.of_nat (length l)) i;
  match l !! k with
  | Some x => Ok x
  | None => Raise IndexError
  end.

Definition aset {A} (l : list A) (i : Z) (v : A) : res (list A) :=
  k ← py_index (Z.of_nat (length l)) i;
  Ok (<[k := v]> l).

(** A store into an int8 array. *)
Definition aset8 (l : list Z) (i : Z) (v : Z) : res (list Z) :=
  aset l i (wrap8 v).

(** ** Constants of the class *)

Definition _BLACK : Z := 1.
Definition _WHITE : Z := 2.
Definition _EMPTY : Z := 0.
Definition _BOARDSIZE : Z := 9.
Definition _DEBUG : bool := false.

Definition ncells : Z := _BOARDSIZE * _BOARDSIZE.

(** ** Coordinates *)

Definition flatten (coord : Z * Z) : Z :=
  if decide (coord = (-1, -1)) then -1
  else _BOARDSIZE * snd coord + fst coord.

Definition unflatten (fcoord : Z) : Z * Z :=
  if fcoord =? -1 then (-1, -1)
  else (fcoord `mod` _BOARDSIZE, fcoord `div` _BOARDSIZE).

Definition letterIndex : list string :=
  ["A"; "B"; "C"; "D"; "E"; "F"; "G"; "H"; "J"]%string.

Definition coord_to_name (coord : Z * Z) : res string :=
  if decide (coord = (-1, -1)) then Ok "PASS"%string
  else
    l ← aget letterIndex (fst coord);
    Ok (l +:+ pretty (snd coord + 1)).

Definition flat_to_name (fcoord : Z) : res string :=
  if fcoord =? -1 then Ok "PASS"%string
  else coord_to_name (unflatten fcoord).

Definition flip (player : Z) : Z :=
  if player =? _BLACK then _WHITE else _BLACK.

Definition _isOnBoard (x y : Z) : bool :=
  (0 <=? x) && (x <? _BOARDSIZE) && (0 <=? y) && (y <? _BOARDSIZE).

Definition _get_neighbors (fcoord : Z) : list Z :=
  let '(x, y) := unflatten fcoord in
  let neighbors := [(x + 1, y); (x - 1, y); (x, y + 1); (x, y - 1)] in
  map flatten (filter (fun c => Is_true (_isOnBoard (fst c) (snd c))) neighbors).

(** The two tables of the constructor: [_neighbors] is the concatenation of
    the neighbour lists, each closed by the sentinel -1, and
    [_neighborsEntries] gives the index where the list of a cell starts. *)
Definition build_neighbors : list Z * list Z :=
  fold_left
    (fun '(neighbors, entries) nl =>
       (neighbors ++ nl ++ [-1], entries ++ [Z.of_nat (length neighbors)]))
    (map _get_neighbors (seqZ 0 ncells))
    ([], []).

Definition _neighbors : list Z := Eval vm_compute in fst build_neighbors.
Definition _neighborsEntries : list Z := Eval vm_compute in snd build_neighbors.

(** The loop [while self._neighbors[i] != -1: ...; i += 1], read ahead of
    the loop body (the tables never change after construction). *)
Fixpoint scan_neighbors (fuel : nat) (i : Z) : res (list Z) :=
  match fuel with
  | O => Raise OutOfFuel
  | S fuel' =>
      n ← aget _neighbors i;
      if n =? -1 then Ok []
      else
        rest ← scan_neighbors fuel' (i + 1);
        Ok (n :: rest)
  end.

Definition neighbors_of (fcoord : Z) : res (list Z) :=
  i ← aget _neighborsEntries fcoord;
  scan_neighbors (length _neighbors) i.

(** ** The board object

    One field per attribute set by the constructor of [Board], in the
    order of [__init__].  A frame of the trail is the Python list built by
    [_pushBoard]; its items are integers, booleans, arrays and sets. *)

Inductive pyval : Type :=
| PInt (z : Z)
| PBool (b : bool)
| PArr (a : list Z)
| PSet (s : gset Z).

Record Board : Type := mkBoard {
  _nbWHITE : Z;
  _nbBLACK : Z;
  _capturedWHITE : Z;
  _capturedBLACK : Z;
  _nextPlayer : Z;
  _board : list Z;
  _lastPlayerHasPassed : bool;
  _gameOver : bool;
  _stringUnionFind : list Z;
  _stringLiberties : list Z;
  _stringSizes : list Z;
  _empties : gset Z;
  _positionHashes : list (list Z);
  _currentHash : Z;
  _passHashB : Z;
  _passHashW : Z;
  _seenHashes : gset Z;
  _historyMoveNames : list string;
  _trailMoves : list (list pyval)
}.

(** Attribute assignment, one setter per mutated attribute. *)
Definition set_nbWHITE (b : Board) (v : Z) : Board :=
  mkBoard v (_nbBLACK b) (_capturedWHITE b) (_capturedBLACK b) (_nextPlayer b) (_board b) (_lastPlayerHasPassed b) (_gameOver b) (_stringUnionFind b) (_stringLiberties b) (_stringSizes b) (_empties b) (_positionHashes b) (_currentHash b) (_passHashB b) (_passHashW b) (_seenHashes b) (_historyMoveNames b) (_trailMoves b).
Definition set_nbBLACK (b : Board) (v : Z) : Board :=
  mkBoard (_nbWHITE b) v (_capturedWHITE b) (_capturedBLACK b) (_nextPlayer b) (_board b) (_lastPlayerHasPassed b) (_gameOver b) (_stringUnionFind b) (_stringLiberties b) (_stringSizes b) (_empties b) (_positionHashes b) (_currentHash b) (_passHashB b) (_passHashW b) (_seenHashes b) (_historyMoveNames b) (_trailMoves b).
Definition set_capturedWHITE (b : Board) (v : Z) : Board :=
  mkBoard (_nbWHITE b) (_nbBLACK b) v (_capturedBLACK b) (_nextPlayer b) (_board b) (_lastPlayerHasPassed b) (_gameOver b) (_stringUnionFind b) (_stringLiberties b) (_stringSizes b) (_empties b) (_positionHashes b) (_currentHash b) (_passHashB b) (_passHashW b) (_seenHashes b) (_historyMoveNames b) (_trailMoves b).
Definition set_capturedBLACK (b : Board) (v : Z) : Board :=
  mkBoard (_nbWHITE b) (_nbBLACK b) (_capturedWHITE b) v (_nextPlayer b) (_board b) (_lastPlayerHasPassed b) (_gameOver b) (_stringUnionFind b) (_stringLiberties b) (_stringSizes b) (_empties b) (_positionHashes b) (_currentHash b) (_passHashB b) (_passHashW b) (_seenHashes b) (_historyMoveNames b) (_trailMoves b).
Definition set_nextPlayer (b : Board) (v : Z) : Board :=
  mkBoard (_nbWHITE b) (_nbBLACK b) (_capturedWHITE b) (_capturedBLACK b) v (_board b) (_lastPlayerHasPassed b) (_gameOver b) (_stringUnionFind b) (_stringLiberties b) (_stringSizes b) (_empties b) (_positionHashes b) (_currentHash b) (_passHashB b) (_passHashW b) (_seenHashes b) (_historyMoveNames b) (_trailMoves b).
Definition set_board (b : Board) (v : list Z) : Board :=
  mkBoard (_nbWHITE b) (_nbBLACK b) (_capturedWHITE b) (_capturedBLACK b) (_nextPlayer b) v (_lastPlayerHasPassed b) (_gameOver b) (_stringUnionFind b) (_stringLiberties b) (_stringSizes b) (_empties b) (_positionHashes b) (_currentHash b) (_passHashB b) (_passHashW b) (_seenHashes b) (_historyMoveNames b) (_trailMoves b).
Definition set_lastPlayerHasPassed (b : Board) (v : bool) : Board :=
  mkBoard (_nbWHITE b) (_nbBLACK b) (_capturedWHITE b) (_capturedBLACK b) (_nextPlayer b) (_board b) v (_gameOver b) (_stringUnionFind b) (_stringLiberties b) (_stringSizes b) (_empties b) (_positionHashes b) (_currentHash b) (_passHashB b) (_passHashW b) (_seenHashes b) (_historyMoveNames b) (_trailMoves b).
Definition set_gameOver (b : Board) (v : bool) : Board :=
  mkBoard (_nbWHITE b) (_nbBLACK b) (_capturedWHITE b) (_capturedBLACK b) (_nextPlayer b) (_board b) (_lastPlayerHasPassed b) v (_stringUnionFind b) (_stringLiberties b) (_stringSizes b) (_empties b) (_positionHashes b) (_currentHash b) (_passHashB b) (_passHashW b) (_seenHashes b) (_historyMoveNames b) (_trailMoves b).
Definition set_stringUnionFind (b : Board) (v : list Z) : Board :=
  mkBoard (_nbWHITE b) (_nbBLACK b) (_capturedWHITE b) (_capturedBLACK b) (_nextPlayer b) (_board b) (_lastPlayerHasPassed b) (_gameOver b) v (_stringLiberties b) (_stringSizes b) (_empties b) (_positionHashes b) (_currentHash b) (_passHashB b) (_passHashW b) (_seenHashes b) (_historyMoveNames b) (_trailMoves b).
Definition set_stringLiberties (b : Board) (v : list Z) : Board :=
  mkBoard (_nbWHITE b) (_nbBLACK b) (_capturedWHITE b) (_capturedBLACK b) (_nextPlayer b) (_board b) (_lastPlayerHasPassed b) (_gameOver b) (_stringUnionFind b) v (_stringSizes b) (_empties b) (_positionHashes b) (_currentHash b) (_passHashB b) (_passHashW b) (_seenHashes b) (_historyMoveNames b) (_trailMoves b).
Definition set_stringSizes (b : Board) (v : list Z) : Board :=
  mkBoard (_nbWHITE b) (_nbBLACK b) (_capturedWHITE b) (_capturedBLACK b) (_nextPlayer b) (_board b) (_lastPlayerHasPassed b) (_gameOver b) (_stringUnionFind b) (_stringLiberties b) v (_empties b) (_positionHashes b) (_currentHash b) (_passHashB b) (_passHashW b) (_seenHashes b) (_historyMoveNames b) (_trailMoves b).
Definition set_empties (b : Board) (v : gset Z) : Board :=
  mkBoard (_nbWHITE b) (_nbBLACK b) (_capturedWHITE b) (_capturedBLACK b) (_nextPlayer b) (_board b) (_lastPlayerHasPassed b) (_gameOver b) (_stringUnionFind b) (_stringLiberties b) (_stringSizes b) v (_positionHashes b) (_currentHash b) (_passHashB b) (_passHashW b) (_seenHashes b) (_historyMoveNames b) (_trailMoves b).
Definition set_currentHash (b : Board) (v : Z) : Board :=
  mkBoard (_nbWHITE b) (_nbBLACK b) (_capturedWHITE b) (_capturedBLACK b) (_nextPlayer b) (_board b) (_lastPlayerHasPassed b) (_gameOver b) (_stringUnionFind b) (_stringLiberties b) (_stringSizes b) (_empties b) (_positionHashes b) v (_passHashB b) (_passHashW b) (_seenHashes b) (_historyMoveNames b) (_trailMoves b).
Definition set_seenHashes (b : Board) (v : gset Z) : Board :=
  mkBoard (_nbWHITE b) (_nbBLACK b) (_capturedWHITE b) (_capturedBLACK b) (_nextPlayer b) (_board b) (_lastPlayerHasPassed b) (_gameOver b) (_stringUnionFind b) (_stringLiberties b) (_stringSizes b) (_empties b) (_positionHashes b) (_currentHash b) (_passHashB b) (_passHashW b) v (_historyMoveNames b) (_trailMoves b).
Definition set_historyMoveNames (b : Board) (v : list string) : Board :=
  mkBoard (_nbWHITE b) (_nbBLACK b) (_capturedWHITE b) (_capturedBLACK b) (_nextPlayer b) (_board b) (_lastPlayerHasPassed b) (_gameOver b) (_stringUnionFind b) (_stringLiberties b) (_stringSizes b) (_empties b) (_positionHashes b) (_currentHash b) (_passHashB b) (_passHashW b) (_seenHashes b) v (_trailMoves b).
Definition set_trailMoves (b : Board) (v : list (list pyval)) : Board :=
  mkBoard (_nbWHITE b) (_nbBLACK b) (_capturedWHITE b) (_capturedBLACK b) (_nextPlayer b) (_board b) (_lastPlayerHasPassed b) (_gameOver b) (_stringUnionFind b) (_stringLiberties b) (_stringSizes b) (_empties b) (_positionHashes b) (_currentHash b) (_passHashB b) (_passHashW b) (_seenHashes b) (_historyMoveNames b) v.

(** ** The constructor

    [getProperRandom] is the only source of randomness; the constructor
    draws the two constants of every cell, then the initial hash and the
    two pass constants.  [rand k] is the value of the k-th draw. *)

Definition Board_init (rand : nat → Z) : Board :=
  let n := Z.to_nat ncells in
  {| _nbWHITE := 0; _nbBLACK := 0; _capturedWHITE := 0; _capturedBLACK := 0;
     _nextPlayer := _BLACK;
     _board := replicate n 0;
     _lastPlayerHasPassed := false; _gameOver := false;
     _stringUnionFind := replicate n (-1);
     _stringLiberties := replicate n (-1);
     _stringSizes := replicate n (-1);
     _empties := list_to_set (seqZ 0 ncells);
     _positionHashes :=
       map (fun x => [rand (2 * x)%nat; rand (2 * x + 1)%nat]) (seq 0 n);
     _currentHash := rand (2 * n)%nat;
     _passHashB := rand (2 * n + 1)%nat;
     _passHashW := rand (2 * n + 2)%nat;
     _seenHashes := ∅;
     _historyMoveNames := [];
     _trailMoves := [] |}.

Definition _getPositionHash (b : Board) (fcoord color : Z) : res Z :=
  row ← aget (_positionHashes b) fcoord;
  aget row (color - 1).

(** ** The string registry *)

(** The [while] loop of [_getStringOfStone]: follow the parents up to the
    cell whose entry is -1, recording every cell entered. *)
Fixpoint find_walk (fuel : nat) (uf : list Z) (fcoord : Z) (successives : list Z)
  : res (Z * list Z) :=
  match fuel with
  | O => Raise OutOfFuel
  | S fuel' =>
      p ← aget uf fcoord;
      if p =? -1 then Ok (fcoord, successives)
      else find_walk fuel' uf p (successives ++ [p])
  end.

(** [for fc in successives[:-1]: self._stringUnionFind[fc] = fcoord] *)
Fixpoint compress (uf : list Z) (fcs : list Z) (root : Z) : res (list Z) :=
  match fcs with
  | [] => Ok uf
  | fc :: rest =>
      uf' ← aset8 uf fc root;
      compress uf' rest root
  end.

Definition _getStringOfStone (b : Board) (fcoord : Z) : res (Z * Board) :=
  let uf := _stringUnionFind b in
  '(root, successives) ← find_walk (S (length uf)) uf fcoord [];
  if 1 <? Z.of_nat (length successives) then
    uf' ← compress uf (removelast successives) root;
    Ok (root, set_stringUnionFind b uf')
  else Ok (root, b).

Definition _merge_strings (b : Board) (str1 str2 : Z) : res Board :=
  l1 ← aget (_stringLiberties b) str1;
  l2 ← aget (_stringLiberties b) str2;
  lib ← aset8 (_stringLiberties b) str1 (l1 + l2);
  lib ← aset8 lib str2 (-1);
  s1 ← aget (_stringSizes b) str1;
  s2 ← aget (_stringSizes b) str2;
  sizes ← aset8 (_stringSizes b) str1 (s1 + s2);
  sizes ← aset8 sizes str2 (-1);
  u ← aget (_stringUnionFind b) str2;
  _ ← assert_ (u =? -1);
  uf ← aset8 (_stringUnionFind b) str2 str1;
  Ok (set_stringUnionFind (set_stringSizes (set_stringLiberties b lib) sizes) uf).

(** [self._stringLiberties[s] += d] *)
Definition add_liberties (b : Board) (s d : Z) : res Board :=
  l ← aget (_stringLiberties b) s;
  lib ← aset8 (_stringLiberties b) s (l + d);
  Ok (set_stringLiberties b lib).

(** ** Placing a stone *)

(** First loop of [_put_stone]: count the empty and same-coloured
    neighbours. *)
Fixpoint count_loop (b : Board) (color : Z) (nbrs : list Z) (nbEmpty nbSameColor : Z)
  : res (Z * Z) :=
  match nbrs with
  | [] => Ok (nbEmpty, nbSameColor)
  | ni :: rest =>
      n ← aget (_board b) ni;
      if n =? _EMPTY then count_loop b color rest (nbEmpty + 1) nbSameColor
      else if n =? color then count_loop b color rest nbEmpty (nbSameColor + 1)
      else count_loop b color rest nbEmpty nbSameColor
  end.

(** Second loop of [_put_stone]: merge with the friendly strings, take one
    liberty from every neighbouring stone's string, collect the enemy
    strings left with no liberty. *)
Fixpoint link_loop (b : Board) (color : Z) (nbrs : list Z) (currentString : Z)
    (stringWithNoLiberties : list Z) : res (list Z * Board) :=
  match nbrs with
  | [] => Ok (stringWithNoLiberties, b)
  | fn :: rest =>
      c ← aget (_board b) fn;
      if c =? color then
        '(stringNumber, b) ← _getStringOfStone b fn;
        b ← add_liberties b stringNumber (-1);
        b ← (if negb (currentString =? stringNumber)
             then _merge_strings b stringNumber currentString
             else Ok b);
        link_loop b color rest stringNumber stringWithNoLiberties
      else if negb (c =? _EMPTY) then
        '(stringNumber, b) ← _getStringOfStone b fn;
        b ← add_liberties b stringNumber (-1);
        l ← aget (_stringLiberties b) stringNumber;
        let stringWithNoLiberties :=
          if (l =? 0) && negb (bool_decide (stringNumber ∈ stringWithNoLiberties))
          then stringWithNoLiberties ++ [stringNumber]
          else stringWithNoLiberties in
        link_loop b color rest currentString stringWithNoLiberties
      else link_loop b color rest currentString stringWithNoLiberties
  end.

Definition _put_stone (b : Board) (fcoord color : Z) : res (list Z * Board) :=
  brd ← aset8 (_board b) fcoord color;
  let b := set_board b brd in
  h ← _getPositionHash b fcoord color;
  let b := set_currentHash b (Z.lxor (_currentHash b) h) in
  (* self._DEBUG is False: the membership assertion is skipped *)
  _ ← (if bool_decide (fcoord ∈ _empties b) then Ok tt else Raise KeyError);
  let b := set_empties b (_empties b ∖ {[fcoord]}) in
  nbrs ← neighbors_of fcoord;
  '(nbEmpty, nbSameColor) ← count_loop b color nbrs 0 0;
  let currentString := fcoord in
  lib ← aset8 (_stringLiberties b) currentString nbEmpty;
  let b := set_stringLiberties b lib in
  sizes ← aset8 (_stringSizes b) currentString 1;
  let b := set_stringSizes b sizes in
  link_loop b color nbrs currentString [].

(** ** Suicide *)

(** The idiom
    [if s not in d: d[s] = self._stringLiberties[s] - 1 else: d[s] -= 1]
    on a dictionary kept in insertion order. *)
Fixpoint dict_has (d : list (Z * Z)) (k : Z) : bool :=
  match d with
  | [] => false
  | (k', _) :: d' => (k' =? k) || dict_has d' k
  end.

Fixpoint dict_decr (d : list (Z * Z)) (k : Z) : list (Z * Z) :=
  match d with
  | [] => []
  | (k', v) :: d' => if k' =? k then (k', v - 1) :: d' else (k', v) :: dict_decr d' k
  end.

Definition dict_touch (b : Board) (d : list (Z * Z)) (s : Z) : res (list (Z * Z)) :=
  if dict_has d s then Ok (dict_decr d s)
  else
    l ← aget (_stringLiberties b) s;
    Ok (d ++ [(s, l - 1)]).

(** The neighbour loop of [_is_suicide]; [None] is the early
    [return False] on an empty neighbour. *)
Fixpoint suicide_loop (b : Board) (color : Z) (nbrs : list Z)
    (libertiesFriends libertiesOpponents : list (Z * Z))
  : res (option (list (Z * Z) * list (Z * Z)) * Board) :=
  match nbrs with
  | [] => Ok (Some (libertiesFriends, libertiesOpponents), b)
  | fn :: rest =>
      c ← aget (_board b) fn;
      if c =? _EMPTY then Ok (None, b)
      else
        '(string, b) ← _getStringOfStone b fn;
        if c =? color then
          d ← dict_touch b libertiesFriends string;
          suicide_loop b color rest d libertiesOpponents
        else
          (* Board._DEBUG is False: the colour assertion is skipped *)
          d ← dict_touch b libertiesOpponents string;
          suicide_loop b color rest libertiesFriends d
  end.

Definition _is_suicide (b : Board) (fcoord color : Z) : res (bool * Board) :=
  nbrs ← neighbors_of fcoord;
  '(r, b) ← suicide_loop b color nbrs [] [];
  match r with
  | None => Ok (false, b)
  | Some (libertiesFriends, libertiesOpponents) =>
      if existsb (fun kv => snd kv =? 0) libertiesOpponents then Ok (false, b)
      else if (length libertiesFriends =? 0)%nat then Ok (true, b)
      else
        let sumLibertiesFriends := foldr Z.add 0 (map snd libertiesFriends) in
        if sumLibertiesFriends =? 0 then Ok (true, b) else Ok (false, b)
  end.

(** ** Enumerating a string *)

(** [for fn in neighbours: if board[fn] == color and not fn in string:
    frontier.append(fn)]; the head of [frontier] is the top of the Python
    list used as a stack. *)
Fixpoint bfs_push (brd : list Z) (color : Z) (string : gset Z) (nbrs : list Z)
    (frontier : list Z) : res (list Z) :=
  match nbrs with
  | [] => Ok frontier
  | fn :: rest =>
      c ← aget brd fn;
      if (c =? color) && negb (bool_decide (fn ∈ string))
      then bfs_push brd color string rest (fn :: frontier)
      else bfs_push brd color string rest frontier
  end.

Fixpoint bfs_loop (fuel : nat) (brd : list Z) (color : Z) (string : gset Z)
    (frontier : list Z) : res (gset Z) :=
  match fuel with
  | O => Raise OutOfFuel
  | S fuel' =>
      match frontier with
      | [] => Ok string
      | current_fc :: frontier =>
          let string := string ∪ {[current_fc]} in
          nbrs ← neighbors_of current_fc;
          frontier ← bfs_push brd color string nbrs frontier;
          bfs_loop fuel' brd color string frontier
      end
  end.

Definition bfs_fuel : nat := 500.

Definition _breadthSearchString (b : Board) (fc : Z) : res (gset Z) :=
  color ← aget (_board b) fc;
  bfs_loop bfs_fuel (_board b) color {[fc]} [fc].

(** ** Super-ko *)

Fixpoint superko_loop (b : Board) (opponent : Z) (nbrs : list Z)
    (libertiesOpponents : list (Z * Z)) : res (list (Z * Z) * Board) :=
  match nbrs with
  | [] => Ok (libertiesOpponents, b)
  | fn :: rest =>
      c ← aget (_board b) fn;
      if c =? opponent then
        '(s, b) ← _getStringOfStone b fn;
        d ← dict_touch b libertiesOpponents s;
        superko_loop b opponent rest d
      else superko_loop b opponent rest libertiesOpponents
  end.

(** [for fn in string: assert board[fn] == opponent; tmpHash ^= ...] *)
Fixpoint xor_stones (b : Board) (opponent : Z) (stones : list Z) (tmpHash : Z) : res Z :=
  match stones with
  | [] => Ok tmpHash
  | fn :: rest =>
      c ← aget (_board b) fn;
      _ ← assert_ (c =? opponent);
      h ← _getPositionHash b fn opponent;
      xor_stones b opponent rest (Z.lxor tmpHash h)
  end.

Fixpoint superko_captures (b : Board) (opponent : Z) (d : list (Z * Z)) (tmpHash : Z)
  : res Z :=
  match d with
  | [] => Ok tmpHash
  | (s, v) :: rest =>
      if v =? 0 then
        string ← _breadthSearchString b s;
        tmpHash ← xor_stones b opponent (elements string) tmpHash;
        superko_captures b opponent rest tmpHash
      else superko_captures b opponent rest tmpHash
  end.

Definition _is_super_ko (b : Board) (fcoord color : Z) : res (bool * Z * Board) :=
  h ← _getPositionHash b fcoord color;
  let tmpHash := Z.lxor (_currentHash b) h in
  _ ← assert_ (_currentHash b =? Z.lxor tmpHash h);
  nbrs ← neighbors_of fcoord;
  let opponent := flip color in
  '(libertiesOpponents, b) ← superko_loop b opponent nbrs [];
  tmpHash ← superko_captures b opponent libertiesOpponents tmpHash;
  Ok (bool_decide (tmpHash ∈ _seenHashes b), tmpHash, b).

(** ** Capturing a string *)

Fixpoint release_loop (b : Board) (s : Z) (nbrs : list Z) : res Board :=
  match nbrs with
  | [] => Ok b
  | fn :: rest =>
      c ← aget (_board b) fn;
      if negb (c =? _EMPTY) then
        '(st, b) ← _getStringOfStone b fn;
        b ← (if negb (st =? s) then add_liberties b st 1 else Ok b);
        release_loop b s rest
      else release_loop b s rest
  end.

(** The body of [for s in string] in [_capture_string]. *)
Definition capture_stone (b : Board) (s : Z) : res Board :=
  let b :=
    if _nextPlayer b =? _WHITE
    then set_nbBLACK (set_capturedBLACK b (_capturedBLACK b + 1)) (_nbBLACK b - 1)
    else set_nbWHITE (set_capturedWHITE b (_capturedWHITE b + 1)) (_nbWHITE b - 1) in
  c ← aget (_board b) s;
  h ← _getPositionHash b s c;
  let b := set_currentHash b (Z.lxor (_currentHash b) h) in
  brd ← aset8 (_board b) s _EMPTY;
  let b := set_board b brd in
  let b := set_empties b (_empties b ∪ {[s]}) in
  nbrs ← neighbors_of s;
  b ← release_loop b s nbrs;
  uf ← aset8 (_stringUnionFind b) s (-1);
  let b := set_stringUnionFind b uf in
  sizes ← aset8 (_stringSizes b) s (-1);
  let b := set_stringSizes b sizes in
  lib ← aset8 (_stringLiberties b) s (-1);
  Ok (set_stringLiberties b lib).

Fixpoint capture_stones (b : Board) (stones : list Z) : res Board :=
  match stones with
  | [] => Ok b
  | s :: rest =>
      b ← capture_stone b s;
      capture_stones b rest
  end.

Definition _capture_string (b : Board) (fc : Z) : res Board :=
  string ← _breadthSearchString b fc;
  capture_stones b (elements string).

(** [for fc in captured: self._capture_string(fc)] *)
Fixpoint capture_all (b : Board) (captured : list Z) : res Board :=
  match captured with
  | [] => Ok b
  | fc :: rest =>
      b ← _capture_string b fc;
      capture_all b rest
  end.

(** ** Playing a move *)

(** The result of [play_move] is [None] (bare [return]), [True] or
    [False]. *)
Definition play_move (b : Board) (fcoord : Z) : res (option bool * Board) :=
  if _gameOver b then Ok (None, b)
  else
    b ← (if negb (fcoord =? -1) then
           '(alreadySeen, tmpHash, b) ← _is_super_ko b fcoord (_nextPlayer b);
           if alreadySeen : bool then
             name ← flat_to_name fcoord;
             Ok (inl (set_historyMoveNames b (_historyMoveNames b ++ [name])))
           else
             '(captured, b) ← _put_stone b fcoord (_nextPlayer b);
             b ← capture_all b captured;
             _ ← assert_ (tmpHash =? _currentHash b);
             let b := set_lastPlayerHasPassed b false in
             if _nextPlayer b =? _WHITE
             then Ok (inr (set_nbWHITE b (_nbWHITE b + 1)))
             else Ok (inr (set_nbBLACK b (_nbBLACK b + 1)))
         else
           let b :=
             if _lastPlayerHasPassed b then set_gameOver b true
             else set_lastPlayerHasPassed b true in
           let p := if _nextPlayer b =? _BLACK then _passHashB b else _passHashW b in
           Ok (inr (set_currentHash b (Z.lxor (_currentHash b) p))));
    match b with
    | inl b => Ok (Some false, b)
    | inr b =>
        let b := set_seenHashes b (_seenHashes b ∪ {[_currentHash b]}) in
        name ← flat_to_name fcoord;
        let b := set_historyMoveNames b (_historyMoveNames b ++ [name]) in
        let b := set_nextPlayer b (flip (_nextPlayer b)) in
        Ok (Some true, b)
    end.

(** ** The trail *)

Definition _pushBoard (b : Board) : Board :=
  let currentStatus :=
    [ PInt (_nbWHITE b); PInt (_nbBLACK b);
      PInt (_capturedWHITE b); PInt (_capturedBLACK b);
      PInt (_nextPlayer b); PArr (_board b);
      PBool (_gameOver b); PBool (_lastPlayerHasPassed b);
      PArr (_stringUnionFind b); PArr (_stringLiberties b); PArr (_stringSizes b);
      PSet (_empties b); PInt (_currentHash b) ] in
  set_trailMoves b (_trailMoves b ++ [currentStatus]).

(** [l.pop()]: the last item and the list without it. *)
Definition list_pop {A} (l : list A) : res (A * list A) :=
  match last l with
  | Some x => Ok (x, removelast l)
  | None => Raise IndexError
  end.

Definition as_int (v : pyval) : res Z :=
  match v with PInt z => Ok z | _ => Raise TypeError end.
Definition as_bool (v : pyval) : res bool :=
  match v with PBool b => Ok b | _ => Raise TypeError end.
Definition as_arr (v : pyval) : res (list Z) :=
  match v with PArr a => Ok a | _ => Raise TypeError end.
Definition as_set (v : pyval) : res (gset Z) :=
  match v with PSet s => Ok s | _ => Raise TypeError end.

Definition _popBoard (b : Board) : res Board :=
  '(oldStatus, trail) ← list_pop (_trailMoves b);
  let b := set_trailMoves b trail in
  '(v, oldStatus) ← list_pop oldStatus; x ← as_int v;
  let b := set_currentHash b x in
  '(v, oldStatus) ← list_pop oldStatus; x ← as_set v;
  let b := set_empties b x in
  '(v, oldStatus) ← list_pop oldStatus; x ← as_arr v;
  let b := set_stringSizes b x in
  '(v, oldStatus) ← list_pop oldStatus; x ← as_arr v;
  let b := set_stringLiberties b x in
  '(v, oldStatus) ← list_pop oldStatus; x ← as_arr v;
  let b := set_stringUnionFind b x in
  '(v, oldStatus) ← list_pop oldStatus; x ← as_bool v;
  let b := set_lastPlayerHasPassed b x in
  '(v, oldStatus) ← list_pop oldStatus; x ← as_bool v;
  let b := set_gameOver b x in
  '(v, oldStatus) ← list_pop oldStatus; x ← as_arr v;
  let b := set_board b x in
  '(v, oldStatus) ← list_pop oldStatus; x ← as_int v;
  let b := set_nextPlayer b x in
  '(v, oldStatus) ← list_pop oldStatus; x ← as_int v;
  let b := set_capturedBLACK b x in
  '(v, oldStatus) ← list_pop oldStatus; x ← as_int v;
  let b := set_capturedWHITE b x in
  '(v, oldStatus) ← list_pop oldStatus; x ← as_int v;
  let b := set_nbBLACK b x in
  '(v, oldStatus) ← list_pop oldStatus; x ← as_int v;
  let b := set_nbWHITE b x in
  '(_, names) ← list_pop (_historyMoveNames b);
  Ok (set_historyMoveNames b names).

Definition push (b : Board) (m : Z) : res (option bool * Board) :=
  _ ← assert_ (negb (_gameOver b));
  play_move (_pushBoard b) m.

Definition pop (b : Board) : res Board :=
  let hashtopop := _currentHash b in
  b ← _popBoard b;
  if bool_decide (hashtopop ∈ _seenHashes b)
  then Ok (set_seenHashes b (_seenHashes b ∖ {[hashtopop]}))
  else Ok b.

(** ** Move generation *)

(** The comprehension of [weak_legal_moves] over the set [_empties]. *)
Fixpoint weak_filter (b : Board) (ms : list Z) : res (list Z * Board) :=
  match ms with
  | [] => Ok ([], b)
  | m :: rest =>
      '(sui, b) ← _is_suicide b m (_nextPlayer b);
      '(moves, b) ← weak_filter b rest;
      Ok (if sui : bool then moves else m :: moves, b)
  end.

Definition weak_legal_moves (b : Board) : res (list Z * Board) :=
  '(moves, b) ← weak_filter b (elements (_empties b));
  Ok (moves ++ [-1], b).

(** The comprehension of [legal_moves]: the super-ko test is evaluated
    only when the move is not a suicide. *)
Fixpoint legal_filter (b : Board) (ms : list Z) : res (list Z * Board) :=
  match ms with
  | [] => Ok ([], b)
  | m :: rest =>
      '(sui, b) ← _is_suicide b m (_nextPlayer b);
      '(keep, b) ← (if sui : bool then Ok (false, b)
                    else '(seen, _, b) ← _is_super_ko b m (_nextPlayer b);
                         Ok (negb seen, b));
      '(moves, b) ← legal_filter b rest;
      Ok (if keep : bool then m :: moves else moves, b)
  end.

Definition legal_moves (b : Board) : res (list Z * Board) :=
  '(moves, b) ← legal_filter b (elements (_empties b));
  Ok (moves ++ [-1], b).

Definition is_game_over (b : Board) : bool := _gameOver b.

(** ** Accessors *)

Definition __getitem__ (b : Board) (key : Z) : res Z := aget (_board b) key.

Definition __len__ (b : Board) : Z := _BOARDSIZE ^ 2.

Definition next_player (b : Board) : Z := _nextPlayer b.

Definition diff_stones_board (b : Board) : Z := _nbBLACK b - _nbWHITE b.

Definition diff_stones_captured (b : Board) : Z := _capturedBLACK b - _capturedWHITE b.

Definition get_board (b : Board) : list Z := _board b.

Definition generate_legal_moves (b : Board) : res (list Z * Board) := legal_moves b.

Definition move_to_str (b : Board) (m : Z) : res string := flat_to_name m.

Definition player_name (player : Z) : string :=
  if player =? _BLACK then "black"
  else if player =? _WHITE then "white"
  else "???".


(** ** Counting the areas

    [to_check.pop()] takes some element out of a set; which one is not
    specified, so the loop is given the choice as a function [pick] of the
    set.  The head of [frontier] is the top of the Python list used as a
    stack. *)

(** The loop over the neighbours of [current] in [_count_areas]. *)
Fixpoint area_nbrs (b : Board) (nbrs : list Z) (to_check : gset Z) (frontier : list Z)
    (touched_blacks touched_whites : Z) : res (gset Z * list Z * Z * Z) :=
  match nbrs with
  | [] => Ok (to_check, frontier, touched_blacks, touched_whites)
  | n :: rest =>
      c ← aget (_board b) n;
      if (c =? _EMPTY) && bool_decide (n ∈ to_check) then
        area_nbrs b rest (to_check ∖ {[n]}) (n :: frontier) touched_blacks touched_whites
      else if c =? _BLACK then
        area_nbrs b rest to_check frontier (touched_blacks + 1) touched_whites
      else if c =? _WHITE then
        area_nbrs b rest to_check frontier touched_blacks (touched_whites + 1)
      else area_nbrs b rest to_check frontier touched_blacks touched_whites
  end.

(** [while frontier: ...] *)
Fixpoint area_loop (fuel : nat) (b : Board) (to_check : gset Z)
    (frontier currentstring : list Z) (ssize touched_blacks touched_whites : Z)
  : res (gset Z * list Z * Z * Z * Z) :=
  match fuel with
  | O => Raise OutOfFuel
  | S fuel' =>
      match frontier with
      | [] => Ok (to_check, currentstring, ssize, touched_blacks, touched_whites)
      | current :: frontier =>
          let currentstring := currentstring ++ [current] in
          let ssize := ssize + 1 in
          _ ← assert_ (negb (bool_decide (current ∈ to_check)));
          nbrs ← neighbors_of current;
          '(to_check, frontier, touched_blacks, touched_whites) ←
            area_nbrs b nbrs to_check frontier touched_blacks touched_whites;
          area_loop fuel' b to_check frontier currentstring ssize
            touched_blacks touched_whites
      end
  end.

Definition area_fuel : nat := 100.

(** [while len(to_check) > 0: ...] *)
Fixpoint areas_loop (pick : gset Z → Z) (fuel : nat) (b : Board) (to_check : gset Z)
    (only_blacks only_whites others : Z) : res (Z * Z * Z) :=
  match fuel with
  | O => Raise OutOfFuel
  | S fuel' =>
      if bool_decide (0 < size to_check)%nat then
        let s := pick to_check in
        let to_check := to_check ∖ {[s]} in
        c ← aget (_board b) s;
        _ ← assert_ (c =? _EMPTY);
        '(to_check, currentstring, ssize, touched_blacks, touched_whites) ←
          area_loop area_fuel b to_check [s] [] 0 0 0;
        _ ← assert_ (Z.of_nat (length currentstring) =? ssize);
        _ ← assert_ ((_nbBLACK b =? 0) && (_nbWHITE b =? 0)
                     || (0 <? touched_blacks) || (0 <? touched_whites));
        if (touched_blacks =? 0) && (0 <? touched_whites) then
          areas_loop pick fuel' b to_check only_blacks (only_whites + ssize) others
        else if (touched_whites =? 0) && (0 <? touched_blacks) then
          areas_loop pick fuel' b to_check (only_blacks + ssize) only_whites others
        else areas_loop pick fuel' b to_check only_blacks only_whites (others + ssize)
      else Ok (only_blacks, only_whites, others)
  end.

Definition _count_areas (pick : gset Z → Z) (b : Board) : res (Z * Z * Z) :=
  areas_loop pick area_fuel b (_empties b) 0 0 0.

(** ** Scores *)

Definition compute_score (pick : gset Z → Z) (b : Board) : res (Z * Z) :=
  '(only_blacks, only_whites, _) ← _count_areas pick b;
  Ok (_nbBLACK b + only_blacks, _nbWHITE b + only_whites).

Definition result (pick : gset Z → Z) (b : Board) : res string :=
  '(only_blacks, only_whites, _) ← _count_areas pick b;
  let score_black := _nbBLACK b + only_blacks in
  let score_white := _nbWHITE b + only_whites in
  if score_black <? score_white then Ok "1-0"%string
  else if score_white <? score_black then Ok "0-1"%string
  else Ok "1/2-1/2"%string.

Definition final_go_score (pick : gset Z → Z) (b : Board) : res string :=
  '(score_black, score_white) ← compute_score pick b;
  if score_black <? score_white then Ok ("W+" +:+ pretty (score_white - score_black))
  else if score_white <? score_black then Ok ("B+" +:+ pretty (score_black - score_white))
  else Ok "0"%string.

(** * Specification-level definitions *)

(** The attributes that neither the string registry nor stone placement and
    capture ever write. *)
Definition static (b : Board) :=
  (_nextPlayer b, _lastPlayerHasPassed b, _gameOver b, _positionHashes b,
   _passHashB b, _passHashW b, _seenHashes b, _historyMoveNames b, _trailMoves b).

(** The frame [_pushBoard] appends to the trail. *)
Definition frame_of (b : Board) : list pyval :=
  [ PInt (_nbWHITE b); PInt (_nbBLACK b);
    PInt (_capturedWHITE b); PInt (_capturedBLACK b);
    PInt (_nextPlayer b); PArr (_board b);
    PBool (_gameOver b); PBool (_lastPlayerHasPassed b);
    PArr (_stringUnionFind b); PArr (_stringLiberties b); PArr (_stringSizes b);
    PSet (_empties b); PInt (_currentHash b) ].

(** A run of pushes, none of which raises, and a run of pops. *)
Fixpoint pushes (b : Board) (ms : list Z) : res Board :=
  match ms with
  | [] => Ok b
  | m :: rest =>
      '(_, b) ← push b m;
      pushes b rest
  end.

Fixpoint pops (n : nat) (b : Board) : res Board :=
  match n with
  | O => Ok b
  | S n' =>
      b ← pop b;
      pops n' b
  end.

(** A sample stream of draws for [getProperRandom], used by the concrete
    examples: every value is in the range [0, 2^63 - 1) of the source. *)
Definition demo_rand (k : nat) : Z :=
  (6364136223846793005 * (Z.of_nat k + 1) + 1442695040888963407) `mod` (2 ^ 63 - 1).

Fixpoint plays (b : Board) (ms : list Z) : res Board :=
  match ms with
  | [] => Ok b
  | m :: rest =>
      '(_, b) ← play_move b m;
      plays b rest
  end.

(** ** Cells, reads and writes inside the board *)

Definition cell (i : Z) : Prop := 0 ≤ i < ncells.

Definition cells : list Z := seqZ 0 ncells.

#[global] Instance cell_dec i : Decision (cell i).
Proof. unfold cell. apply _. Defined.

#[global] Instance exn_eq_dec : EqDecision exn.
Proof. solve_decision. Defined.

#[global] Instance res_eq_dec {A} `{EqDecision A} : EqDecision (res A).
Proof. solve_decision. Defined.

(** The facts about the neighbourhood tables that the proofs use, as a
    check run once over the 81 cells: the sentinel-terminated table read
    gives the list of [_get_neighbors], neighbours are cells, the relation
    is symmetric and irreflexive, and no list repeats a cell. *)
Definition nbrs_ok (j : Z) : bool :=
  bool_decide (neighbors_of j = Ok (_get_neighbors j)) &&
  forallb (fun n => bool_decide (cell n) && bool_decide (n ≠ j) &&
                    bool_decide (j ∈ _get_neighbors n)) (_get_neighbors j) &&
  bool_decide (NoDup (_get_neighbors j)) &&
  bool_decide (length (_get_neighbors j) ≤ 4)%nat.


(** [at_ l i] is [l[i]] and [upd l i v] is [l[i] = v] for a cell [i]. *)
Definition at_ (l : list Z) (i : Z) : Z := default 0 (l !! Z.to_nat i).
Definition upd (l : list Z) (i : Z) (v : Z) : list Z := <[Z.to_nat i := v]> l.

(** ** The union-find forest *)

(** [reach uf n i r]: following the parents from cell [i] reaches the root
    [r] in [n] steps, never leaving the board. *)
Inductive reach (uf : list Z) : nat → Z → Z → Prop :=
| reach_root i :
    cell i → at_ uf i = -1 → reach uf 0 i i
| reach_step n i r :
    cell i → at_ uf i ≠ -1 → reach uf n (at_ uf i) r → reach uf (S n) i r.

Definition uf_wf (uf : list Z) : Prop :=
  length uf = Z.to_nat ncells ∧ ∀ i, cell i → ∃ n r, reach uf n i r.

Fixpoint walk (fuel : nat) (uf : list Z) (i : Z) : Z :=
  match fuel with
  | O => i
  | S fuel' => if at_ uf i =? -1 then i else walk fuel' uf (at_ uf i)
  end.

(** The root of the string of cell [i].  The definition is sealed: the
    proofs use it through [rootf_unseal] and the lemmas on [reach], never
    by unfolding a walk of 81 steps. *)
Definition rootf_def (uf : list Z) (i : Z) : Z := walk (Z.to_nat ncells) uf i.
Definition rootf_aux : seal (@rootf_def).
Proof. by eexists. Qed.
Definition rootf : list Z → Z → Z := rootf_aux.(unseal).
Definition rootf_unseal : rootf = rootf_def := rootf_aux.(seal_eq).

(** The cells entered by the walk of [n] steps from [i]. *)
Fixpoint chain (uf : list Z) (n : nat) (i : Z) : list Z :=
  match n with
  | O => []
  | S n' => at_ uf i :: chain uf n' (at_ uf i)
  end.

(** [uf'] is [uf] after some path compressions: an entry either is
    unchanged or has been redirected to the root of its cell. *)
Definition compressed (uf uf' : list Z) : Prop :=
  length uf' = length uf ∧
  ∀ j, cell j → at_ uf' j = at_ uf j ∨ (at_ uf j ≠ -1 ∧ at_ uf' j = rootf uf j).

(** ** Strings and liberties *)

Definition sumZ {A} (f : A → Z) (l : list A) : Z :=
  foldr (fun x acc => f x + acc) 0 l.

(** [j] holds a stone of the string whose root is [r]. *)
Definition in_string (brd uf : list Z) (r j : Z) : bool :=
  negb (at_ brd j =? 0) && (rootf uf j =? r).

(** The number of empty neighbours of a cell. *)
Definition nb_empty (brd : list Z) (j : Z) : Z :=
  sumZ (fun n => Z.b2z (at_ brd n =? 0)) (_get_neighbors j).

(** The liberty count the registry maintains for a string: the number of
    pairs (stone of the string, empty neighbour of that stone).  An empty
    cell next to two stones of the string counts twice. *)
Definition plib (brd uf : list Z) (r : Z) : Z :=
  sumZ (fun j => if in_string brd uf r j then nb_empty brd j else 0) cells.

(** The number of distinct empty cells next to the string. *)
Definition touches (brd uf : list Z) (r e : Z) : bool :=
  existsb (in_string brd uf r) (_get_neighbors e).

Definition true_liberties (brd uf : list Z) (r : Z) : Z :=
  sumZ (fun e => Z.b2z ((at_ brd e =? 0) && touches brd uf r e)) cells.

(** Stones of the string of [r] among the cells [rest]. *)
Definition pending (brd uf : list Z) (r : Z) (rest : list Z) : Z :=
  sumZ (fun n => Z.b2z (in_string brd uf r n)) rest.

(** Size of a class of the forest, and the number of (cell, neighbour)
    pairs leaving it. *)
Definition size_of (uf : list Z) (r : Z) : Z :=
  sumZ (fun j => Z.b2z (rootf uf j =? r)) cells.

Definition ext_of (uf : list Z) (r : Z) : Z :=
  sumZ (fun j => if rootf uf j =? r
                 then sumZ (fun n => Z.b2z (negb (rootf uf n =? r))) (_get_neighbors j)
                 else 0) cells.

(** Neighbours of a stone being placed on [c] still count [c] as a liberty
    until the loop visits them; neighbours of a stone being removed from
    [c] do not count it yet. *)
Definition pend_sign (brd : list Z) (c : Z) : Z :=
  if at_ brd c =? 0 then -1 else 1.

(** Same-colour adjacency and the connection it generates. *)
Definition adj (brd : list Z) (x y : Z) : Prop :=
  cell x ∧ y ∈ _get_neighbors x ∧ at_ brd x = at_ brd y.

Definition conn (brd : list Z) : Z → Z → Prop := rtc (adj brd).

(** ** The representation invariant

    [CoreG b c rest K] describes the registry of [b] at any point of a
    placement or of a capture.  During the placement of a stone on [c],
    [rest] lists the neighbours of [c] that the linking loop has not
    visited yet: the string of such a neighbour still counts [c] as a
    liberty and is not yet merged with [c].  During a capture, [K] is the
    set of cells of the string being removed, whose entries are being torn
    down, [c] is the cell just emptied and [rest] its neighbours not yet
    given their liberty back.  [Core b] is the invariant between
    operations. *)
Record CoreG (b : Board) (c : Z) (rest : list Z) (K : gset Z) : Prop := {
  cg_len_board : length (_board b) = Z.to_nat ncells;
  cg_len_lib : length (_stringLiberties b) = Z.to_nat ncells;
  cg_len_sizes : length (_stringSizes b) = Z.to_nat ncells;
  cg_uf : uf_wf (_stringUnionFind b);
  cg_rest : ∀ n, n ∈ rest → cell n;
  cg_colours : ∀ i, cell i → 0 ≤ at_ (_board b) i ≤ 2;
  cg_empties : ∀ i, i ∈ _empties b ↔ cell i ∧ at_ (_board b) i = 0;
  cg_sep_in : ∀ i, i ∈ K →
    cell i ∧ (at_ (_stringUnionFind b) i = -1 ∨ at_ (_stringUnionFind b) i ∈ K);
  cg_sep_out : ∀ i, cell i → i ∉ K →
    at_ (_stringUnionFind b) i ≠ -1 → at_ (_stringUnionFind b) i ∉ K;
  cg_K_closed : ∀ i n, i ∈ K → n ∈ _get_neighbors i →
    at_ (_board b) i ≠ 0 → at_ (_board b) n = at_ (_board b) i → n ∈ K;
  cg_empty_root : ∀ i, cell i → i ∉ K →
    at_ (_board b) i = 0 → at_ (_stringUnionFind b) i = -1;
  cg_parent_colour : ∀ i, cell i → i ∉ K →
    at_ (_stringUnionFind b) i ≠ -1 →
    at_ (_board b) (at_ (_stringUnionFind b) i) = at_ (_board b) i;
  cg_adj : ∀ i n, cell i → i ∉ K → n ∈ _get_neighbors i →
    at_ (_board b) i ≠ 0 → at_ (_board b) n = at_ (_board b) i →
    (i = c ∧ n ∈ rest) ∨ (n = c ∧ i ∈ rest) ∨
    rootf (_stringUnionFind b) i = rootf (_stringUnionFind b) n;
  cg_conn : ∀ i, cell i → i ∉ K → at_ (_board b) i ≠ 0 →
    conn (_board b) i (rootf (_stringUnionFind b) i);
  cg_lib : ∀ r, cell r → r ∉ K → at_ (_board b) r ≠ 0 →
    at_ (_stringUnionFind b) r = -1 →
    at_ (_stringLiberties b) r
    = plib (_board b) (_stringUnionFind b) r
      + pend_sign (_board b) c * pending (_board b) (_stringUnionFind b) r rest;
  cg_ext : ∀ r, cell r → r ∉ K → at_ (_board b) r ≠ 0 →
    at_ (_stringUnionFind b) r = -1 →
    ext_of (_stringUnionFind b) r ≤ 2 * size_of (_stringUnionFind b) r + 2
}.

Definition Core (b : Board) : Prop := CoreG b 0 [] ∅.

(** Every string on the board has a liberty. *)
Definition alive (b : Board) : Prop :=
  ∀ r, cell r → at_ (_board b) r ≠ 0 → at_ (_stringUnionFind b) r = -1 →
       0 < at_ (_stringLiberties b) r.

(** The sums over the cells are never unfolded by simplification. *)
Arguments plib : simpl never.
Arguments pending : simpl never.
Arguments nb_empty : simpl never.
Arguments true_liberties : simpl never.
Arguments size_of : simpl never.
Arguments ext_of : simpl never.
Arguments in_string : simpl never.
Arguments cells : simpl never.
Arguments ncells : simpl never.
Arguments _get_neighbors : simpl never.

(** Everything outside the three registry arrays. *)
Definition unregistry (b : Board) :=
  (_nbWHITE b, _nbBLACK b, _capturedWHITE b, _capturedBLACK b,
   _board b, _empties b, _currentHash b, static b).

(** [n] holds a stone that is not of colour [col]. *)
Definition enemy (b : Board) (col n : Z) : Prop :=
  at_ (_board b) n ≠ 0 ∧ at_ (_board b) n ≠ col.

(** The list [stringWithNoLiberties] of [_put_stone] after the neighbours
    [seen]: the roots of the enemy strings met so far whose liberty count
    is zero, each once. *)
Definition NL (b : Board) (col : Z) (seen noLib : list Z) : Prop :=
  NoDup noLib ∧
  ∀ s, s ∈ noLib ↔
       (∃ n, n ∈ seen ∧ enemy b col n ∧ rootf (_stringUnionFind b) n = s) ∧
       at_ (_stringLiberties b) s = 0.

(** The two non-trivial branches of the body of [link_loop], named so
    that each can be specified on its own. *)
Definition link_friend (b : Board) (currentString fn : Z) : res (Z * Board) :=
  '(stringNumber, b) ← _getStringOfStone b fn;
  b ← add_liberties b stringNumber (-1);
  b ← (if negb (currentString =? stringNumber)
       then _merge_strings b stringNumber currentString
       else Ok b);
  Ok (stringNumber, b).

Definition link_enemy (b : Board) (fn : Z) (stringWithNoLiberties : list Z)
  : res (list Z * Board) :=
  '(stringNumber, b) ← _getStringOfStone b fn;
  b ← add_liberties b stringNumber (-1);
  l ← aget (_stringLiberties b) stringNumber;
  Ok (if (l =? 0) && negb (bool_decide (stringNumber ∈ stringWithNoLiberties))
      then stringWithNoLiberties ++ [stringNumber]
      else stringWithNoLiberties, b).

(** ** The Zobrist table *)

Definition tables_ok (b : Board) : Prop :=
  length (_positionHashes b) = Z.to_nat ncells ∧
  ∀ row, row ∈ _positionHashes b → length row = 2%nat.

(** The constant of a stone of colour [col] on cell [i]. *)
Definition zobrist (b : Board) (i col : Z) : Z :=
  default 0 (default [] (_positionHashes b !! Z.to_nat i) !! Z.to_nat (col - 1)).

(** The board on which [_put_stone] starts its linking loop. *)
Definition put_start (b : Board) (c col : Z) : Board :=
  let brd := upd (_board b) c col in
  set_stringSizes
    (set_stringLiberties
       (set_empties
          (set_currentHash (set_board b brd) (Z.lxor (_currentHash b) (zobrist b c col)))
          (_empties b ∖ {[c]}))
       (upd (_stringLiberties b) c (nb_empty brd c)))
    (upd (_stringSizes b) c 1).

(** ** Enumerating a string *)

(** The neighbours pushed on the frontier by one round of the search. *)
Definition bfs_new (brd : list Z) (color : Z) (string : gset Z) (nbrs : list Z) : list Z :=
  List.filter (fun n => (at_ brd n =? color) && negb (bool_decide (n ∈ string))) nbrs.

(** The cells not yet in the set under construction. *)
Definition bfs_todo (string : gset Z) : Z :=
  sumZ (fun j => Z.b2z (negb (bool_decide (j ∈ string)))) cells.

(** The invariant of the search from [fc] once its first round is done:
    everything met is connected to [fc]; a cell of the set is still on the
    stack or has all its same-coloured neighbours in the set or on the
    stack; and below a cell of the set that is still on the stack, nothing
    is missing (its same-coloured neighbours are in the set or above it). *)
Record bfs_inv (brd : list Z) (fc : Z) (string : gset Z) (frontier : list Z) : Prop := {
  bi_start : fc ∈ string;
  bi_sound_set : ∀ x, x ∈ string → conn brd fc x;
  bi_sound_stack : ∀ x, x ∈ frontier → conn brd fc x;
  bi_closed : ∀ x, x ∈ string →
    x ∈ frontier ∨
    ∀ n, n ∈ _get_neighbors x → at_ brd n = at_ brd fc → n ∈ string ∨ n ∈ frontier;
  bi_stack : ∀ above x below, frontier = above ++ x :: below → x ∈ string →
    ∀ n, n ∈ _get_neighbors x → at_ brd n = at_ brd fc → n ∈ string ∨ n ∈ above
}.

(** ** Capturing *)

(** The board on which [_capture_string] starts the neighbour loop of the
    stone on [s]: the counters, the hash, the grid and the empty set are
    already updated. *)
Definition cap_start (b : Board) (s : Z) : Board :=
  let b1 :=
    if _nextPlayer b =? _WHITE
    then set_nbBLACK (set_capturedBLACK b (_capturedBLACK b + 1)) (_nbBLACK b - 1)
    else set_nbWHITE (set_capturedWHITE b (_capturedWHITE b + 1)) (_nbWHITE b - 1) in
  set_empties
    (set_board
       (set_currentHash b1
          (Z.lxor (_currentHash b) (zobrist b s (at_ (_board b) s))))
       (upd (_board b) s 0))
    (_empties b ∪ {[s]}).

(** ** The hash of the stones *)

Definition xorZ {A} (f : A → Z) (l : list A) : Z :=
  foldr (fun x acc => Z.lxor (f x) acc) 0 l.

(** The constant of the stone on cell [j], if any. *)
Definition stone_hash (b : Board) (brd : list Z) (j : Z) : Z :=
  if at_ brd j =? 0 then 0 else zobrist b j (at_ brd j).

(** The XOR of the constants of all the stones of a grid. *)
Definition xhash (b : Board) (brd : list Z) : Z := xorZ (stone_hash b brd) cells.

(** What is left of the current hash once the stones are taken out of
    it: the initial value and the pass constants folded in so far. *)
Definition hash_offset (b : Board) : Z := Z.lxor (_currentHash b) (xhash b (_board b)).

Arguments xhash : simpl never.

(** The grid as a function of the cell. *)
Definition xhashf (b : Board) (f : Z → Z) : Z :=
  xorZ (fun j => if f j =? 0 then 0 else zobrist b j (f j)) cells.

(** ** Boards that differ by path compressions only *)

Definition recompressed (b b' : Board) : Prop :=
  b' = set_stringUnionFind b (_stringUnionFind b') ∧
  compressed (_stringUnionFind b) (_stringUnionFind b').

(** ** What a move on the empty cell [c] would do *)

(** The liberty count the string of root [s] is left with once a stone
    stands on [c]: one less per stone of the string next to [c]. *)
Definition lib_after (b : Board) (c s : Z) : Z :=
  at_ (_stringLiberties b) s
  - pending (_board b) (_stringUnionFind b) s (_get_neighbors c).

(** The dictionaries of [_is_suicide] and [_is_super_ko] after the
    neighbours [seen]: one entry per string of a colour accepted by [P]
    met so far, holding its count less the stones met. *)
Definition dict_ok (b : Board) (P : Z → bool) (seen : list Z) (d : list (Z * Z)) : Prop :=
  NoDup (map fst d) ∧
  ∀ s v, (s, v) ∈ d ↔
    (∃ n, n ∈ seen ∧ P (at_ (_board b) n) = true ∧ rootf (_stringUnionFind b) n = s) ∧
    v = at_ (_stringLiberties b) s
        - pending (_board b) (_stringUnionFind b) s seen.

(** The stone on [j] belongs to an enemy string next to [c] that a stone
    of colour [col] on [c] leaves without liberty. *)
Definition captured_by (b : Board) (c col j : Z) : bool :=
  negb (at_ (_board b) j =? 0) && negb (at_ (_board b) j =? col) &&
  touches (_board b) (_stringUnionFind b) (rootf (_stringUnionFind b) j) c &&
  (lib_after b c (rootf (_stringUnionFind b) j) =? 0).

(** The grid after the move: the new stone, and the captured stones
    gone. *)
Definition board_after (b : Board) (c col : Z) (j : Z) : Z :=
  if j =? c then col
  else if captured_by b c col j then 0 else at_ (_board b) j.

(** The hash of the position the move leads to. *)
Definition sim_hash (b : Board) (c col : Z) : Z :=
  Z.lxor (hash_offset b) (xhashf b (board_after b c col)).

(** The roots of the friendly strings next to [c], each once. *)
Definition friend_roots (b : Board) (c col : Z) : list Z :=
  remove_dups
    (map (rootf (_stringUnionFind b))
       (List.filter (fun n => at_ (_board b) n =? col) (_get_neighbors c))).

(** The suicide rule in the words of the specification: not a suicide as
    soon as a neighbour is empty or an adjacent enemy string would be left
    without liberty; otherwise a suicide when there is no friendly
    neighbour or when the friendly strings, each counted once, would be
    left with no liberty in total. *)
Definition suicide_spec (b : Board) (c col : Z) : bool :=
  let nbrs := _get_neighbors c in
  if existsb (fun n => at_ (_board b) n =? 0) nbrs then false
  else if existsb (fun n => negb (at_ (_board b) n =? col) &&
                            (lib_after b c (rootf (_stringUnionFind b) n) =? 0)) nbrs
  then false
  else
    let friends := friend_roots b c col in
    if (length friends =? 0)%nat then true
    else sumZ (lib_after b c) friends =? 0.

(** ** Liberties on the grid *)

(** The string of the stone on [j] has an empty neighbour. *)
Definition has_lib (brd : list Z) (j : Z) : Prop :=
  ∃ j' n, conn brd j j' ∧ n ∈ _get_neighbors j' ∧ at_ brd n = 0.

(** ** Reachable positions *)

Definition player_ok (b : Board) : Prop := _nextPlayer b = 1 ∨ _nextPlayer b = 2.

(** A frame of the trail that holds a well-formed position. *)
Definition good_frame (f : list pyval) : Prop :=
  ∃ b0, f = frame_of b0 ∧ Core b0 ∧ alive b0 ∧ player_ok b0.

(** The invariant of the positions of a game. *)
Definition Inv (b : Board) : Prop :=
  Core b ∧ alive b ∧ tables_ok b ∧ player_ok b ∧ Forall good_frame (_trailMoves b).

(** The boards a program gets by using the class as its players do: from
    a fresh board, it asks for the moves, plays or pushes one of the moves
    that [weak_legal_moves] lists, and pops. *)
Inductive reachable : Board → Prop :=
| reachable_init rand : reachable (Board_init rand)
| reachable_weak b ms b' :
    reachable b → weak_legal_moves b = Ok (ms, b') → reachable b'
| reachable_legal b ms b' :
    reachable b → legal_moves b = Ok (ms, b') → reachable b'
| reachable_push b ms b0 m r b' :
    reachable b → weak_legal_moves b = Ok (ms, b0) → m ∈ ms →
    push b m = Ok (r, b') → reachable b'
| reachable_play b ms b0 m r b' :
    reachable b → weak_legal_moves b = Ok (ms, b0) → m ∈ ms →
    play_move b m = Ok (r, b') → reachable b'
| reachable_pop b b' :
    reachable b → pop b = Ok b' → reachable b'.

Arguments lib_after : simpl never.
Arguments xhashf : simpl never.

(** ** Concrete games *)

(** [m] is one of the moves that [weak_legal_moves] lists on [b]. *)
Definition weak_has (b : Board) (m : Z) : bool :=
  match weak_legal_moves b with
  | Ok (ms, _) => bool_decide (m ∈ ms)
  | Raise _ => false
  end.

(** Every move of the run is listed by [weak_legal_moves] and pushed
    without an exception. *)
Fixpoint legal_run (b : Board) (ms : list Z) : bool :=
  match ms with
  | [] => true
  | m :: rest =>
      weak_has b m &&
      match push b m with
      | Ok (_, b') => legal_run b' rest
      | Raise _ => false
      end
  end.

(** The board after a run of pushes from the fresh board drawn from
    [demo_rand]. *)
Definition demo_after (ms : list Z) : Board :=
  match pushes (Board_init demo_rand) ms with
  | Ok b => b
  | Raise _ => Board_init demo_rand
  end.

Definition after_push (b : Board) (m : Z) : Board :=
  match push b m with
  | Ok (_, b') => b'
  | Raise _ => b
  end.

Definition after_pop (b : Board) : Board :=
  match pop b with
  | Ok b' => b'
  | Raise _ => b
  end.

(** A game that ends in a ko: black has just taken the stone on cell 0's
    neighbour, and white may not take back on cell 0. *)
Definition ko_moves : list Z :=
  [80; 3; 79; 11; 78; 20; 77; 27; 76; 29; 75; 37; 74; 0; 2; -1; 10; -1; 1; -1;
   18; -1; 28; -1; 9; -1; 19].



Definition after_play (b : Board) (m : Z) : Board :=
  match play_move b m with
  | Ok (_, b') => b'
  | Raise _ => b
  end.

(** The number of stones of colour [col] on a grid. *)
Definition count_col (brd : list Z) (col : Z) : Z :=
  sumZ (fun j => Z.b2z (at_ brd j =? col)) cells.

(** The distance between two cells, counted in steps along the lines of
    the board. *)
Definition manhattan (c n : Z) : Z :=
  Z.abs (fst (unflatten c) - fst (unflatten n))
  + Z.abs (snd (unflatten c) - snd (unflatten n)).

(** The counters of stones agree with the grid, on the board and in every
    frame of the trail. *)
Definition counts_ok (b : Board) : Prop :=
  _nbBLACK b = count_col (_board b) _BLACK ∧ _nbWHITE b = count_col (_board b) _WHITE.

(** The counters less the stones they should count. *)
Definition excess (b : Board) : Z * Z :=
  (_nbBLACK b - count_col (_board b) _BLACK, _nbWHITE b - count_col (_board b) _WHITE).

(** The bookkeeping of a position: the counters are right, and the game
    is over only after a pass. *)
Definition book_ok (b : Board) : Prop :=
  counts_ok b ∧ (_gameOver b = true → _lastPlayerHasPassed b = true).

Definition booked_frame (f : list pyval) : Prop :=
  ∃ b0, f = frame_of b0 ∧ book_ok b0 ∧ _gameOver b0 = false.

(** The bookkeeping of a board with its trail: every frame holds a
    position on which the game was not over, and every frame has a move
    name to go with it. *)
Definition Booked (b : Board) : Prop :=
  book_ok b ∧ Forall booked_frame (_trailMoves b) ∧
  (length (_trailMoves b) ≤ length (_historyMoveNames b))%nat.


(** ** The areas of empty cells *)

(** A stone of colour [col] stands next to the region of empty cells that
    holds [e]. *)
Definition sees (brd : list Z) (col e : Z) : Prop :=
  ∃ e' n, conn brd e e' ∧ n ∈ _get_neighbors e' ∧ at_ brd n = col.

(** The cells that the exploration of the region of [s] puts on the
    stack out of the neighbours [nbrs]: the empty ones still to check. *)
Definition area_new (brd : list Z) (to_check : gset Z) (nbrs : list Z) : list Z :=
  List.filter (fun n => (at_ brd n =? 0) && bool_decide (n ∈ to_check)) nbrs.

(** The invariant of the exploration of the region of [s], started with
    [T0] left to check: the cells found are those taken out of [T0],
    each once, they belong to the region, the empty neighbours of the
    cells already counted have been found, and the two counters are
    positive exactly when a counted cell has a neighbour of the colour. *)
Record area_inv (brd : list Z) (s : Z) (T0 T : gset Z) (frontier cs : list Z)
    (tb tw : Z) : Prop := {
  ai_nodup : NoDup (cs ++ frontier);
  ai_found : ∀ x, x ∈ cs ++ frontier ↔ x = s ∨ (x ∈ T0 ∧ x ∉ T);
  ai_sub : T ⊆ T0;
  ai_conn : ∀ x, x ∈ cs ++ frontier → conn brd s x;
  ai_closed : ∀ x n, x ∈ cs → n ∈ _get_neighbors x → at_ brd n = 0 →
              n ∈ cs ++ frontier;
  ai_tb : 0 ≤ tb ∧ (0 < tb ↔ ∃ x n, x ∈ cs ∧ n ∈ _get_neighbors x ∧ at_ brd n = 1);
  ai_tw : 0 ≤ tw ∧ (0 < tw ↔ ∃ x n, x ∈ cs ∧ n ∈ _get_neighbors x ∧ at_ brd n = 2)
}.

(** The invariant of the loop over the regions: the cells left to check
    are whole regions, and the regions counted so far are split in
    those that see black stones only, white stones only, and both or
    none. *)
Record areas_inv (brd : list Z) (E T B W O : gset Z) : Prop := {
  oi_closed : ∀ x n, x ∈ T → n ∈ _get_neighbors x → at_ brd n = 0 → n ∈ T;
  oi_part : ∀ x, x ∈ E ↔ x ∈ T ∨ x ∈ B ∨ x ∈ W ∨ x ∈ O;
  oi_disj : T ## B ∧ T ## W ∧ T ## O ∧ B ## W ∧ B ## O ∧ W ## O;
  oi_B : ∀ e, e ∈ B → sees brd 1 e ∧ ¬ sees brd 2 e;
  oi_W : ∀ e, e ∈ W → sees brd 2 e ∧ ¬ sees brd 1 e;
  oi_O : ∀ e, e ∈ O → (sees brd 1 e ↔ sees brd 2 e)
}.

(** One way of taking an element out of a set: the first of its
    elements. *)
Definition pick_first (S : gset Z) : Z := default 0 (head (elements S)).

(** * Reasoning about the embedding *)

(** ** The error monad *)

Lemma bind_Ok {A B} (m : res A) (f : A → res B) r :
  (m ≫= f) = Ok r ↔ ∃ a, m = Ok a ∧ f a = Ok r.
Proof.
  destruct m; simpl; split; try done.
  - eauto.
  - by intros (? & [= <-] & ?).
  - by intros (? & ? & ?).
Qed.

Ltac inv_bind H :=
  lazymatch type of H with
  | (mbind _ ?m) = Ok _ =>
      let E := fresh "E" in
      destruct m eqn:E; [simpl in H | discriminate H]
  end.

(** Peel a monadic computation known to succeed: binds, conditionals and
    pattern matches, one layer at a time. *)
Ltac inv_step H :=
  first
    [ inv_bind H
    | lazymatch type of H with
      | (if ?c then _ else _) = Ok _ => destruct c eqn:?; simpl in H
      | (match ?x with _ => _ end) = Ok _ => destruct x eqn:?; simpl in H
      end; try discriminate H ].

Ltac inv_all H := repeat inv_step H.

Ltac inv_ok H := inv_all H; try (injection H as ?; simplify_eq/=).

(** ** Attributes left alone by the registry and placement operations *)

Lemma find_only_uf b fcoord root b' :
  _getStringOfStone b fcoord = Ok (root, b') →
  b' = set_stringUnionFind b (_stringUnionFind b').
Proof.
  unfold _getStringOfStone. intros H. destruct b. by inv_ok H.
Qed.

Lemma add_liberties_only_lib b s d b' :
  add_liberties b s d = Ok b' →
  b' = set_stringLiberties b (_stringLiberties b').
Proof. unfold add_liberties. intros H. destruct b. by inv_ok H. Qed.

Lemma find_static b fcoord root b' :
  _getStringOfStone b fcoord = Ok (root, b') → static b' = static b.
Proof. intros ->%find_only_uf. done. Qed.

Lemma add_liberties_static b s d b' :
  add_liberties b s d = Ok b' → static b' = static b.
Proof. intros ->%add_liberties_only_lib. done. Qed.

Lemma merge_static b s1 s2 b' :
  _merge_strings b s1 s2 = Ok b' → static b' = static b.
Proof. unfold _merge_strings. intros H. by inv_ok H. Qed.

Lemma link_loop_static nbrs : ∀ b color cur acc r b',
  link_loop b color nbrs cur acc = Ok (r, b') → static b' = static b.
Proof.
  induction nbrs as [|fn rest IH]; intros b color cur acc r b' H; simpl in H.
  - by inv_ok H.
  - inv_bind H. destruct (a =? color).
    + inv_bind H. destruct a0 as [sn b1]. inv_bind H. inv_bind H.
      apply IH in H. rewrite H.
      apply find_static in E0. apply add_liberties_static in E1.
      destruct (negb (cur =? sn));
        [apply merge_static in E2 | injection E2 as <-]; congruence.
    + destruct (negb (a =? _EMPTY)); [|by eauto].
      inv_bind H. destruct a0 as [sn b1]. inv_bind H. inv_bind H.
      apply IH in H. rewrite H.
      apply find_static in E0. apply add_liberties_static in E1. congruence.
Qed.

Lemma put_stone_static b fcoord color r b' :
  _put_stone b fcoord color = Ok (r, b') → static b' = static b.
Proof.
  unfold _put_stone. intros H. inv_bind H. inv_bind H. inv_bind H. inv_bind H.
  inv_bind H. destruct a3. inv_bind H. inv_bind H.
  by apply link_loop_static in H.
Qed.

Lemma release_loop_static nbrs : ∀ b s b',
  release_loop b s nbrs = Ok b' → static b' = static b.
Proof.
  induction nbrs as [|fn rest IH]; intros b s b' H; simpl in H.
  - by inv_ok H.
  - inv_bind H. destruct (negb (a =? _EMPTY)); [|by eauto].
    inv_bind H. destruct a0 as [st b1]. inv_bind H.
    apply IH in H. rewrite H. apply find_static in E0.
    destruct (negb (st =? s));
      [apply add_liberties_static in E1 | injection E1 as <-]; congruence.
Qed.

Lemma capture_stone_static b s b' :
  capture_stone b s = Ok b' → static b' = static b.
Proof.
  unfold capture_stone. intros H.
  inv_bind H. inv_bind H. inv_bind H. inv_bind H. inv_bind H.
  apply release_loop_static in E3.
  inv_bind H. inv_bind H. inv_bind H. injection H as <-.
  unfold static in *. simpl in *. rewrite E3.
  by destruct (_nextPlayer b =? _WHITE).
Qed.

Lemma capture_stones_static stones : ∀ b b',
  capture_stones b stones = Ok b' → static b' = static b.
Proof.
  induction stones as [|s rest IH]; intros b b' H; simpl in H.
  - by inv_ok H.
  - inv_bind H. apply IH in H. apply capture_stone_static in E. congruence.
Qed.

Lemma capture_all_static captured : ∀ b b',
  capture_all b captured = Ok b' → static b' = static b.
Proof.
  induction captured as [|s rest IH]; intros b b' H; simpl in H.
  - by inv_ok H.
  - inv_bind H. apply IH in H. unfold _capture_string in E. inv_bind E.
    apply capture_stones_static in E. congruence.
Qed.

Lemma dict_touch_pure b d s d' b1 :
  static b1 = static b → _stringLiberties b1 = _stringLiberties b →
  dict_touch b d s = Ok d' → dict_touch b1 d s = Ok d'.
Proof. unfold dict_touch. by intros _ ->. Qed.

Lemma superko_loop_only_uf nbrs : ∀ b opp d d' b',
  superko_loop b opp nbrs d = Ok (d', b') →
  b' = set_stringUnionFind b (_stringUnionFind b').
Proof.
  induction nbrs as [|fn rest IH]; intros b opp d d' b' H; simpl in H.
  - inv_ok H. by destruct b'.
  - inv_bind H. destruct (a =? opp); [|by eauto].
    inv_bind H. destruct a0 as [s b1]. inv_bind H.
    apply IH in H. apply find_only_uf in E0. rewrite H, E0. done.
Qed.

Lemma is_super_ko_only_uf b fcoord color seen h b' :
  _is_super_ko b fcoord color = Ok (seen, h, b') →
  b' = set_stringUnionFind b (_stringUnionFind b').
Proof.
  unfold _is_super_ko. intros H. inv_bind H. inv_bind H. inv_bind H.
  inv_bind H. destruct a2 as [d b1]. inv_bind H. injection H as _ _ <-.
  by apply superko_loop_only_uf in E2.
Qed.

Lemma suicide_loop_only_uf nbrs : ∀ b color lf lo r b',
  suicide_loop b color nbrs lf lo = Ok (r, b') →
  b' = set_stringUnionFind b (_stringUnionFind b').
Proof.
  induction nbrs as [|fn rest IH]; intros b color lf lo r b' H; simpl in H.
  - inv_ok H. by destruct b'.
  - inv_bind H. destruct (a =? _EMPTY).
    { inv_ok H. by destruct b'. }
    inv_bind H. destruct a0 as [s b1]. apply find_only_uf in E0.
    destruct (a =? color); inv_bind H; apply IH in H; rewrite H, E0; done.
Qed.

Lemma is_suicide_only_uf b fcoord color r b' :
  _is_suicide b fcoord color = Ok (r, b') →
  b' = set_stringUnionFind b (_stringUnionFind b').
Proof.
  unfold _is_suicide. intros H. inv_bind H. inv_bind H. destruct a0 as [o b1].
  apply suicide_loop_only_uf in E0.
  destruct o as [[lf lo]|]; inv_ok H; done.
Qed.

(** ** The trail: push and pop *)

Lemma list_pop_snoc {A} (l : list A) x : list_pop (l ++ [x]) = Ok (x, l).
Proof. unfold list_pop. by rewrite last_snoc, removelast_last. Qed.

Lemma is_super_ko_static b fcoord color seen h b' :
  _is_super_ko b fcoord color = Ok (seen, h, b') → static b' = static b.
Proof. intros ->%is_super_ko_only_uf. done. Qed.

(** What [play_move] does to the attributes outside the frame, when the
    game is not over: the trail and the hash constants are untouched and
    exactly one move name is appended. *)
Local Ltac outside_fin :=
  simpl; repeat split; try congruence; eexists; f_equal; congruence.

Lemma play_move_outside b m r b' :
  play_move b m = Ok (r, b') →
  _gameOver b = false →
  _trailMoves b' = _trailMoves b ∧
  (∃ name, _historyMoveNames b' = _historyMoveNames b ++ [name]) ∧
  _positionHashes b' = _positionHashes b ∧
  _passHashB b' = _passHashB b ∧ _passHashW b' = _passHashW b.
Proof.
  unfold play_move. intros H Hgo. rewrite Hgo in H.
  inv_bind H. destruct (negb (m =? -1)).
  - inv_bind E. destruct a0 as [[seen h] b1].
    pose proof (is_super_ko_static _ _ _ _ _ _ E0) as Hs.
    destruct seen.
    + inv_bind E. injection E as <-. injection H as _ <-.
      unfold static in Hs. simplify_eq/=. outside_fin.
    + inv_bind E. destruct a0 as [captured b2]. inv_bind E. inv_bind E.
      apply put_stone_static in E1. apply capture_all_static in E2.
      assert (static a0 = static b) as Ha by congruence.
      unfold static in Ha.
      destruct (_nextPlayer a0 =? _WHITE); injection E as <-;
        inv_bind H; injection H as _ <-; simplify_eq/=; outside_fin.
  - injection E as <-. inv_bind H. injection H as _ <-.
    destruct (_lastPlayerHasPassed b); outside_fin.
Qed.

(** [restore b b' t h] is [b'] with the thirteen framed attributes of [b],
    trail [t] and history [h]. *)
Lemma popBoard_frame b b' t h x :
  _trailMoves b' = t ++ [frame_of b] →
  _historyMoveNames b' = h ++ [x] →
  _popBoard b' =
    Ok (mkBoard (_nbWHITE b) (_nbBLACK b) (_capturedWHITE b) (_capturedBLACK b)
          (_nextPlayer b) (_board b) (_lastPlayerHasPassed b) (_gameOver b)
          (_stringUnionFind b) (_stringLiberties b) (_stringSizes b) (_empties b)
          (_positionHashes b') (_currentHash b) (_passHashB b') (_passHashW b')
          (_seenHashes b') h t).
Proof.
  intros Ht Hh. unfold _popBoard. rewrite Ht, list_pop_snoc. simpl.
  rewrite Hh, list_pop_snoc. reflexivity.
Qed.

Lemma pops_snoc n : ∀ b, pops (S n) b = (b' ← pops n b; pop b').
Proof.
  induction n as [|n IH]; intros b.
  - simpl. by destruct (pop b).
  - change (pops (S (S n)) b) with (b1 ← pop b; pops (S n) b1).
    change (pops (S n) b) with (b1 ← pop b; pops n b1).
    destruct (pop b) as [b1|]; simpl; [apply IH | done].
Qed.

Lemma push_pop_one b m r b1 b2 :
  push b m = Ok (r, b1) →
  b2 = set_seenHashes b1 (_seenHashes b2) →
  ∃ b3, pop b2 = Ok b3 ∧ b3 = set_seenHashes b (_seenHashes b3).
Proof.
  unfold push. intros H ->. inv_bind H.
  unfold assert_ in E. destruct (_gameOver b) eqn:Hgo; [done|]. clear E.
  apply play_move_outside in H as (Ht & [name Hh] & Hz & Hb & Hw); [|done].
  simpl in Ht, Hh, Hz, Hb, Hw.
  unfold pop.
  erewrite (popBoard_frame b); [| simpl; exact Ht | simpl; exact Hh ].
  simpl. rewrite Hz, Hb, Hw.
  case_bool_decide; eexists; (split; [reflexivity|]); by destruct b.
Qed.

(** C3. Any run of pushes that does not raise, undone by as many pops,
    gives back the board it started from: hash, stone and capture counts,
    grid, empty set, the three registry arrays, side to move, pass and
    game-over flags (and also the trail, the move-name history and the hash
    constants) are those of the starting board; only the set of seen hashes
    is outside the frame. *)
Theorem push_pop_restores (ms : list Z) : ∀ (b b1 : Board),
  pushes b ms = Ok b1 →
  ∃ b2, pops (length ms) b1 = Ok b2 ∧ b2 = set_seenHashes b (_seenHashes b2).
Proof.
  induction ms as [|m ms IH]; intros b b1 H.
  - simpl in H. injection H as <-. exists b. split; [done|]. by destruct b.
  - simpl in H. inv_bind H. destruct a as [r bm].
    apply IH in H as (b2 & Hpops & Hb2).
    cbn [length]. rewrite pops_snoc, Hpops. simpl.
    eapply push_pop_one; eauto.
Qed.

Lemma push_pop_restores_witness :
  let b := Board_init demo_rand in
  ∃ b1, pushes b [0; 1; 40; 9; -1; 0] = Ok b1 ∧
  ∃ b2, pops 6 b1 = Ok b2 ∧ b2 = set_seenHashes b (_seenHashes b2).
Proof.
  intros b.
  destruct (pushes b [0; 1; 40; 9; -1; 0]) as [b1|] eqn:E;
    [|by vm_compute in E].
  exists b1. split; [done|].
  exact (push_pop_restores [0; 1; 40; 9; -1; 0] b b1 E).
Defined.

(** ** Arrays *)

Lemma cell_to_nat i : cell i → (Z.to_nat i < Z.to_nat ncells)%nat.
Proof. unfold cell. lia. Qed.

Lemma aget_cell (l : list Z) i :
  length l = Z.to_nat ncells → cell i → aget l i = Ok (at_ l i).
Proof.
  intros Hl Hi. unfold aget, py_index, at_. rewrite Hl.
  destruct Hi as [Hi1 Hi2].
  rewrite Z2Nat.id by (unfold ncells, _BOARDSIZE; lia).
  rewrite (proj2 (Z.leb_le _ _) Hi1), (proj2 (Z.ltb_lt _ _) Hi2). simpl.
  destruct (l !! Z.to_nat i) eqn:E; [done|].
  apply lookup_ge_None in E. pose proof (cell_to_nat i (conj Hi1 Hi2)). lia.
Qed.

Lemma aset_cell (l : list Z) i v :
  length l = Z.to_nat ncells → cell i → aset l i v = Ok (upd l i v).
Proof.
  intros Hl [Hi1 Hi2]. unfold aset, py_index, upd. rewrite Hl.
  rewrite Z2Nat.id by (unfold ncells, _BOARDSIZE; lia).
  by rewrite (proj2 (Z.leb_le _ _) Hi1), (proj2 (Z.ltb_lt _ _) Hi2).
Qed.

Lemma wrap8_small v : -128 ≤ v ≤ 127 → wrap8 v = v.
Proof. intros H. unfold wrap8. rewrite Z.mod_small; lia. Qed.

Lemma aset8_cell (l : list Z) i v :
  length l = Z.to_nat ncells → cell i → -128 ≤ v ≤ 127 →
  aset8 l i v = Ok (upd l i v).
Proof. intros. unfold aset8. rewrite wrap8_small by done. by apply aset_cell. Qed.

Lemma length_upd l i v : length (upd l i v) = length l.
Proof. apply length_insert. Qed.

Lemma at_upd_eq l i v :
  length l = Z.to_nat ncells → cell i → at_ (upd l i v) i = v.
Proof.
  intros Hl Hi. unfold at_, upd.
  rewrite list_lookup_insert_eq; [done|]. rewrite Hl. by apply cell_to_nat.
Qed.

Lemma at_upd_ne l i j v :
  cell i → cell j → i ≠ j → at_ (upd l i v) j = at_ l j.
Proof.
  intros [] [] Hne. unfold at_, upd.
  rewrite list_lookup_insert_ne; [done|]. lia.
Qed.

Lemma at_upd l i j v :
  length l = Z.to_nat ncells → cell i → cell j →
  at_ (upd l i v) j = if decide (i = j) then v else at_ l j.
Proof.
  intros. case_decide; [subst; by apply at_upd_eq | by apply at_upd_ne].
Qed.

Lemma upd_same l i :
  length l = Z.to_nat ncells → cell i → upd l i (at_ l i) = l.
Proof.
  intros Hl Hi. unfold upd, at_.
  destruct (l !! Z.to_nat i) eqn:E.
  - by apply list_insert_id.
  - apply lookup_ge_None in E. pose proof (cell_to_nat i Hi). lia.
Qed.

(** ** The neighbourhood tables *)

Lemma nbrs_ok_all : forallb nbrs_ok cells = true.
Proof. vm_compute. reflexivity. Qed.

Lemma cell_in_cells i : cell i ↔ i ∈ cells.
Proof. unfold cell, cells. rewrite elem_of_seqZ. lia. Qed.

Lemma NoDup_cells : NoDup cells.
Proof. apply NoDup_seqZ. Qed.

Lemma nbrs_ok_cell j : cell j → nbrs_ok j = true.
Proof.
  intros Hj. pose proof nbrs_ok_all as H.
  rewrite forallb_forall in H. apply H. apply list_elem_of_In.
  by apply cell_in_cells.
Qed.

Lemma neighbors_of_cell j : cell j → neighbors_of j = Ok (_get_neighbors j).
Proof.
  intros H%nbrs_ok_cell. unfold nbrs_ok in H.
  repeat (apply andb_prop in H as [H ?]). by apply bool_decide_eq_true in H.
Qed.

Lemma nbrs_facts j n :
  cell j → n ∈ _get_neighbors j → cell n ∧ n ≠ j ∧ j ∈ _get_neighbors n.
Proof.
  intros H%nbrs_ok_cell Hn. unfold nbrs_ok in H.
  repeat (apply andb_prop in H as [H ?]).
  match goal with H : forallb _ _ = true |- _ => rewrite forallb_forall in H;
    specialize (H n (proj1 (list_elem_of_In _ _) Hn)) end.
  repeat match goal with H : _ && _ = true |- _ => apply andb_prop in H as [? ?] end.
  repeat match goal with H : bool_decide _ = true |- _ => apply bool_decide_eq_true in H end.
  done.
Qed.

Lemma nbrs_cell j n : cell j → n ∈ _get_neighbors j → cell n.
Proof. intros. by eapply nbrs_facts. Qed.

Lemma nbrs_sym j n : cell j → n ∈ _get_neighbors j → j ∈ _get_neighbors n.
Proof. intros. by eapply nbrs_facts. Qed.

Lemma nbrs_irrefl j : cell j → j ∉ _get_neighbors j.
Proof. intros Hj Hn. by destruct (nbrs_facts j j Hj Hn) as (_ & ? & _). Qed.

Lemma nbrs_NoDup j : cell j → NoDup (_get_neighbors j).
Proof.
  intros H%nbrs_ok_cell. unfold nbrs_ok in H.
  repeat (apply andb_prop in H as [H ?]).
  repeat match goal with H : bool_decide _ = true |- _ => apply bool_decide_eq_true in H end.
  done.
Qed.

Lemma nbrs_length j : cell j → (length (_get_neighbors j) ≤ 4)%nat.
Proof.
  intros H%nbrs_ok_cell. unfold nbrs_ok in H.
  repeat (apply andb_prop in H as [H ?]).
  repeat match goal with H : bool_decide _ = true |- _ => apply bool_decide_eq_true in H end.
  done.
Qed.

(** ** The union-find forest *)

Lemma reach_cell uf n i r : reach uf n i r → cell i ∧ cell r ∧ at_ uf r = -1.
Proof. induction 1 as [|n i r Hi Hp H IH]; [done|]. by destruct IH. Qed.

Lemma reach_det uf n i r : reach uf n i r → ∀ m r', reach uf m i r' → n = m ∧ r = r'.
Proof.
  induction 1 as [i Hi Hr | n i r Hi Hp _ IH]; intros m r' H'; inversion H'; subst;
    try done.
  by destruct (IH _ _ ltac:(eassumption)) as [-> ->].
Qed.

Lemma reach_chain_suffix uf n i r :
  reach uf n i r → ∀ k, (k < n)%nat →
  ∃ x, chain uf n i !! k = Some x ∧ reach uf (n - S k) x r.
Proof.
  induction 1 as [i Hi Hr | n i r Hi Hp H IH]; intros k Hk; [lia|].
  destruct k as [|k]; simpl.
  - eexists; split; [done|].
    match goal with |- reach _ ?k _ _ => by replace k with n by lia end.
  - destruct (IH k) as (x & ? & ?); [lia|]. eauto.
Qed.

Lemma chain_length uf n i : length (chain uf n i) = n.
Proof. revert i; induction n; intros; simpl; auto. Qed.

Lemma reach_chain_NoDup uf n i r : reach uf n i r → NoDup (i :: chain uf n i).
Proof.
  intros H. apply NoDup_alt. intros a b x Ha Hb.
  assert (∀ k y, (i :: chain uf n i) !! k = Some y → (k ≤ n)%nat ∧ reach uf (n - k) y r)
    as Hk.
  { intros [|k] y Hy; simpl in Hy.
    - injection Hy as <-. split; [lia|]. by rewrite Nat.sub_0_r.
    - assert (k < n)%nat as Hlt.
      { apply lookup_lt_Some in Hy. by rewrite chain_length in Hy. }
      destruct (reach_chain_suffix _ _ _ _ H k Hlt) as (x' & Hx' & Hr).
      split; [lia|]. congruence. }
  destruct (Hk _ _ Ha) as [? Ra], (Hk _ _ Hb) as [? Rb].
  destruct (reach_det _ _ _ _ Ra _ _ Rb). lia.
Qed.

Lemma reach_chain_cells uf n i r x : reach uf n i r → x ∈ i :: chain uf n i → cell x.
Proof.
  induction 1 as [i Hi Hr | n i r Hi Hp H IH]; simpl.
  - by intros ->%list_elem_of_singleton.
  - rewrite elem_of_cons. intros [->|Hx]; auto.
Qed.

(** A walk that reaches a root visits distinct cells, so it is shorter than
    the board. *)
Lemma length_cells : length cells = Z.to_nat ncells.
Proof. reflexivity. Qed.

Lemma reach_bound uf n i r : reach uf n i r → (n < Z.to_nat ncells)%nat.
Proof.
  intros H.
  enough (S n ≤ Z.to_nat ncells)%nat by lia.
  rewrite <- (chain_length uf n i), <- length_cells.
  apply (@NoDup_incl_length _ (i :: chain uf n i) cells).
  - apply NoDup_ListNoDup. by eapply reach_chain_NoDup.
  - intros x Hx%list_elem_of_In. apply list_elem_of_In, cell_in_cells.
    by eapply reach_chain_cells.
Qed.

Lemma walk_reach uf n i r fuel : reach uf n i r → (n ≤ fuel)%nat → walk fuel uf i = r.
Proof.
  intros H. revert fuel. induction H as [i Hi Hr | n i r Hi Hp H IH]; intros fuel Hf.
  - destruct fuel; simpl; [done|]. by rewrite Hr.
  - destruct fuel; [lia|]. simpl.
    destruct (Z.eqb_spec (at_ uf i) (-1)); [done|]. apply IH. lia.
Qed.

Lemma rootf_reach uf n i r : reach uf n i r → rootf uf i = r.
Proof.
  intros H. rewrite rootf_unseal. unfold rootf_def. eapply walk_reach; [done|].
  apply reach_bound in H. lia.
Qed.

Lemma uf_wf_reach uf i : uf_wf uf → cell i → ∃ n, reach uf n i (rootf uf i).
Proof.
  intros [_ H] Hi. destruct (H i Hi) as (n & r & Hr).
  exists n. by rewrite (rootf_reach _ _ _ _ Hr).
Qed.

Lemma rootf_cell uf i : uf_wf uf → cell i → cell (rootf uf i).
Proof.
  intros Hw Hi. destruct (uf_wf_reach _ _ Hw Hi) as [n H].
  by apply reach_cell in H as (? & ? & ?).
Qed.

Lemma rootf_is_root uf i : uf_wf uf → cell i → at_ uf (rootf uf i) = -1.
Proof.
  intros Hw Hi. destruct (uf_wf_reach _ _ Hw Hi) as [n H].
  by apply reach_cell in H as (? & ? & ?).
Qed.

Lemma rootf_root uf i : cell i → at_ uf i = -1 → rootf uf i = i.
Proof. intros. eapply rootf_reach. by constructor. Qed.

Lemma rootf_parent uf i : uf_wf uf → cell i → at_ uf i ≠ -1 →
  cell (at_ uf i) ∧ rootf uf (at_ uf i) = rootf uf i.
Proof.
  intros Hw Hi Hp. destruct (uf_wf_reach _ _ Hw Hi) as [n H].
  inversion H; subst; [congruence|].
  split; [|by eapply rootf_reach].
  by match goal with H : reach _ _ (at_ _ _) _ |- _ => apply reach_cell in H as (? & ? & ?) end.
Qed.

Lemma rootf_idem uf i : uf_wf uf → cell i → rootf uf (rootf uf i) = rootf uf i.
Proof. intros. apply rootf_root; [by apply rootf_cell | by apply rootf_is_root]. Qed.

Lemma find_walk_reach uf n i r : reach uf n i r → ∀ fuel acc,
  length uf = Z.to_nat ncells → (n < fuel)%nat →
  find_walk fuel uf i acc = Ok (r, acc ++ chain uf n i).
Proof.
  induction 1 as [i Hi Hr | n i r Hi Hp H IH]; intros fuel acc Hl Hf.
  - destruct fuel; [lia|]. simpl. rewrite aget_cell by done. simpl.
    rewrite Hr. simpl. by rewrite app_nil_r.
  - destruct fuel; [lia|]. simpl. rewrite aget_cell by done. simpl.
    destruct (Z.eqb_spec (at_ uf i) (-1)); [done|].
    rewrite IH by (done || lia). by rewrite <- app_assoc.
Qed.

Lemma chain_facts uf n i r : reach uf n i r → ∀ x,
  x ∈ removelast (chain uf n i) → cell x ∧ at_ uf x ≠ -1 ∧ rootf uf x = r.
Proof.
  induction 1 as [i Hi Hr | n i r Hi Hp H IH]; intros x Hx; simpl in Hx.
  - by apply elem_of_nil in Hx.
  - destruct n as [|n]; simpl in Hx; [by apply elem_of_nil in Hx|].
    apply elem_of_cons in Hx as [->|Hx].
    + inversion H; subst. split_and!; [done..|]. by eapply rootf_reach.
    + by apply IH.
Qed.

Lemma compressed_refl uf : compressed uf uf.
Proof. split; auto. Qed.

Lemma compressed_reach uf uf' : compressed uf uf' →
  ∀ n j r, reach uf n j r → ∃ m, reach uf' m j r.
Proof.
  intros [Hl Hc]. induction 1 as [i Hi Hr | n i r Hi Hp H [m IH]].
  - exists 0%nat. constructor; [done|]. destruct (Hc i Hi) as [->|[? _]]; done.
  - destruct (Hc i Hi) as [He|[_ He]].
    + exists (S m). constructor; [done | by rewrite He | by rewrite He].
    + assert (rootf uf i = r) as Hroot.
      { eapply rootf_reach. by econstructor. }
      rewrite Hroot in He.
      destruct (reach_cell _ _ _ _ H) as (_ & Hrc & Hrr).
      exists 1%nat. constructor; [done| |].
      * rewrite He. destruct Hrc. lia.
      * rewrite He. constructor; [done|].
        destruct (Hc r Hrc) as [->|[? _]]; done.
Qed.

Lemma compressed_wf uf uf' : uf_wf uf → compressed uf uf' → uf_wf uf'.
Proof.
  intros [Hl Hw] Hc. split; [destruct Hc; congruence|].
  intros i Hi. destruct (Hw i Hi) as (n & r & Hr).
  destruct (compressed_reach _ _ Hc _ _ _ Hr) as [m Hm]. eauto.
Qed.

Lemma compressed_rootf uf uf' j :
  uf_wf uf → compressed uf uf' → cell j → rootf uf' j = rootf uf j.
Proof.
  intros Hw Hc Hj. destruct (uf_wf_reach _ _ Hw Hj) as [n Hr].
  destruct (compressed_reach _ _ Hc _ _ _ Hr) as [m Hm].
  by eapply rootf_reach.
Qed.

Lemma compressed_trans uf uf1 uf2 :
  uf_wf uf → compressed uf uf1 → compressed uf1 uf2 → compressed uf uf2.
Proof.
  intros Hw H1 H2. split; [destruct H1, H2; congruence|].
  intros j Hj. pose proof H1 as [_ H1']. destruct H2 as [Hl2 H2].
  destruct (H2 j Hj) as [->|[Hn ->]]; [auto|].
  right. split.
  - destruct (H1' j Hj) as [<-|[? _]]; done.
  - by apply compressed_rootf.
Qed.

Lemma compress_spec uf r fcs : ∀ uf0,
  length uf = Z.to_nat ncells → cell r →
  (∀ fc, fc ∈ fcs → cell fc ∧ at_ uf fc ≠ -1 ∧ rootf uf fc = r) →
  compressed uf uf0 →
  ∃ uf1, compress uf0 fcs r = Ok uf1 ∧ compressed uf uf1.
Proof.
  induction fcs as [|fc fcs IH]; intros uf0 Hl Hr Hfcs Hc; simpl.
  - eauto.
  - destruct (Hfcs fc) as (Hfc & Hp & Hroot); [left|].
    destruct Hc as [Hl0 Hc].
    rewrite aset8_cell; [|congruence|done|].
    2:{ destruct Hr. unfold ncells, _BOARDSIZE in *. lia. }
    simpl. apply IH; [done..| |].
    + intros; apply Hfcs. by right.
    + split; [by rewrite length_upd|]. intros j Hj.
      rewrite at_upd by (done || congruence).
      case_decide as Hd; [rewrite <- Hd; right; by rewrite Hroot | auto].
Qed.

(** [_getStringOfStone] on a well-formed forest: it returns the root and
    leaves a compressed forest; nothing else changes. *)
Lemma find_spec b i :
  uf_wf (_stringUnionFind b) → cell i →
  ∃ uf', _getStringOfStone b i
         = Ok (rootf (_stringUnionFind b) i, set_stringUnionFind b uf') ∧
         compressed (_stringUnionFind b) uf'.
Proof.
  intros Hw Hi. destruct (uf_wf_reach _ _ Hw Hi) as [n Hr].
  pose proof (reach_bound _ _ _ _ Hr) as Hn. destruct (Hw) as [Hl _].
  unfold _getStringOfStone.
  rewrite (find_walk_reach _ _ _ _ Hr) by (done || lia). simpl.
  destruct (1 <? _) eqn:E.
  - destruct (compress_spec (_stringUnionFind b) (rootf (_stringUnionFind b) i)
                (removelast (chain (_stringUnionFind b) n i)) (_stringUnionFind b))
      as (uf1 & -> & Hc); [done | by apply rootf_cell | | apply compressed_refl |].
    + intros fc Hfc. by eapply chain_facts.
    + simpl. eauto.
  - exists (_stringUnionFind b). split; [|apply compressed_refl].
    by destruct b.
Qed.

(** From here on the root function and the list of cells are used through
    their lemmas only. *)
Opaque cells.

(** ** Sums over cells *)

Lemma sumZ_app {A} (f : A → Z) l1 l2 : sumZ f (l1 ++ l2) = sumZ f l1 + sumZ f l2.
Proof. induction l1; simpl; lia. Qed.

Lemma sumZ_ext {A} (f g : A → Z) l :
  (∀ x, x ∈ l → f x = g x) → sumZ f l = sumZ g l.
Proof.
  induction l as [|a l IH]; intros H; simpl; [done|].
  rewrite H by left. rewrite IH; [done|]. intros; apply H; by right.
Qed.

Lemma sumZ_le {A} (f g : A → Z) l :
  (∀ x, x ∈ l → f x ≤ g x) → sumZ f l ≤ sumZ g l.
Proof.
  induction l as [|a l IH]; intros H; simpl; [done|].
  pose proof (H a ltac:(left)). 
  assert (sumZ f l ≤ sumZ g l) by (apply IH; intros; apply H; by right). lia.
Qed.

Lemma sumZ_nonneg {A} (f : A → Z) l : (∀ x, x ∈ l → 0 ≤ f x) → 0 ≤ sumZ f l.
Proof.
  induction l as [|a l IH]; intros H; simpl; [done|].
  pose proof (H a ltac:(left)).
  assert (0 ≤ sumZ f l) by (apply IH; intros; apply H; by right). lia.
Qed.

Lemma sumZ_zero {A} (f : A → Z) l : (∀ x, x ∈ l → f x = 0) → sumZ f l = 0.
Proof.
  induction l as [|a l IH]; intros H; simpl; [done|].
  rewrite H by left. rewrite IH; [done|]. intros; apply H; by right.
Qed.

Lemma sumZ_add {A} (f g : A → Z) l : sumZ (fun x => f x + g x) l = sumZ f l + sumZ g l.
Proof. induction l; simpl; lia. Qed.

Lemma sumZ_sub {A} (f g : A → Z) l : sumZ (fun x => f x - g x) l = sumZ f l - sumZ g l.
Proof. induction l; simpl; lia. Qed.

Lemma sumZ_const {A} (k : Z) (l : list A) : sumZ (fun _ => k) l = k * Z.of_nat (length l).
Proof. induction l; simpl length; simpl sumZ; lia. Qed.

Lemma sumZ_pos {A} (f : A → Z) l x :
  (∀ y, y ∈ l → 0 ≤ f y) → x ∈ l → 0 < f x → 0 < sumZ f l.
Proof.
  induction l as [|a l IH]; intros H Hx Hf; [by apply elem_of_nil in Hx|].
  simpl. pose proof (H a ltac:(left)).
  assert (0 ≤ sumZ f l) by (apply sumZ_nonneg; intros; apply H; by right).
  apply elem_of_cons in Hx as [->|Hx]; [lia|].
  assert (0 < sumZ f l) by (apply IH; auto; intros; apply H; by right). lia.
Qed.

Lemma sumZ_zero_inv {A} (f : A → Z) l x :
  (∀ y, y ∈ l → 0 ≤ f y) → sumZ f l = 0 → x ∈ l → f x = 0.
Proof.
  intros H H0 Hx. pose proof (H x Hx).
  destruct (decide (f x = 0)); [done|].
  assert (0 < sumZ f l) by (eapply sumZ_pos; eauto; lia). lia.
Qed.

(** Summing over the members of [s] among [l]. *)
Lemma sumZ_indicator (f : Z → Z) (s l : list Z) :
  NoDup l → NoDup s → (∀ x, x ∈ s → x ∈ l) →
  sumZ (fun x => if bool_decide (x ∈ s) then f x else 0) l = sumZ f s.
Proof.
  intros Hl. revert s. induction Hl as [|a l Ha Hl IH]; intros s Hs Hsub.
  - destruct s as [|x s]; [done|]. specialize (Hsub x ltac:(left)).
    by apply elem_of_nil in Hsub.
  - simpl. case_bool_decide as Hin.
    + apply list_elem_of_split in Hin as (s1 & s2 & ->).
      apply NoDup_app in Hs as (Hs1 & Hs12 & Hs2).
      apply NoDup_cons in Hs2 as [Has2 Hs2].
      rewrite sumZ_app. simpl.
      rewrite (sumZ_ext _ (fun x => if bool_decide (x ∈ s1 ++ s2) then f x else 0) l).
      2:{ intros x Hx. assert (x ≠ a) by (intros ->; done).
          apply (f_equal (fun (c : bool) => if c then f x else 0)).
          apply bool_decide_ext. rewrite !elem_of_app, elem_of_cons. tauto. }
      rewrite (IH (s1 ++ s2)).
      * rewrite sumZ_app. lia.
      * apply NoDup_app. split_and!; [done| |done].
        intros x Hx1 Hx2. apply (Hs12 x Hx1). by right.
      * intros x Hx. assert (x ∈ s1 ++ a :: s2) as Hx'.
        { rewrite elem_of_app, elem_of_cons. apply elem_of_app in Hx. tauto. }
        specialize (Hsub x Hx'). apply elem_of_cons in Hsub as [->|]; [|done].
        apply elem_of_app in Hx as [Hx|Hx]; [|done].
        exfalso. apply (Hs12 a Hx). by left.
    + rewrite <- (IH s Hs).
      * lia.
      * intros x Hx. specialize (Hsub x Hx).
        apply elem_of_cons in Hsub as [->|]; done.
Qed.

Lemma sumZ_exchange {A B} (f : A → B → Z) (l1 : list A) (l2 : list B) :
  sumZ (fun x => sumZ (fun y => f x y) l2) l1
  = sumZ (fun y => sumZ (fun x => f x y) l1) l2.
Proof.
  induction l1 as [|a l1 IH]; simpl.
  - by rewrite sumZ_zero.
  - rewrite IH, <- sumZ_add. done.
Qed.

(** Double counting over the edges of the board: a sum over pairs
    (cell, neighbour) can be taken from either end. *)
Lemma sumZ_edges_swap (f : Z → Z → Z) :
  sumZ (fun j => sumZ (fun n => f j n) (_get_neighbors j)) cells
  = sumZ (fun n => sumZ (fun j => f j n) (_get_neighbors n)) cells.
Proof.
  transitivity (sumZ (fun j => sumZ (fun n =>
      if bool_decide (n ∈ _get_neighbors j) then f j n else 0) cells) cells).
  { apply sumZ_ext. intros j Hj%cell_in_cells. symmetry.
    apply (sumZ_indicator (f j)); [apply NoDup_cells | by apply nbrs_NoDup|].
    intros n Hn. apply cell_in_cells. by eapply nbrs_cell. }
  rewrite sumZ_exchange.
  apply sumZ_ext. intros n Hn%cell_in_cells.
  rewrite <- (sumZ_indicator (fun j => f j n) (_get_neighbors n) cells);
    [|apply NoDup_cells | by apply nbrs_NoDup|].
  2:{ intros j Hj. apply cell_in_cells. by eapply nbrs_cell. }
  apply sumZ_ext. intros j Hj%cell_in_cells.
  apply (f_equal (fun (c : bool) => if c then f j n else 0)).
  apply bool_decide_ext. split; intros; by apply nbrs_sym.
Qed.

Lemma sumZ_b2z_le_length {A} (p : A → bool) l : sumZ (fun x => Z.b2z (p x)) l ≤ Z.of_nat (length l).
Proof. induction l as [|a l IH]; simpl length; simpl sumZ; [done|]. destruct (p a); simpl; lia. Qed.

Lemma sumZ_single (f : Z → Z) (a : Z) (l : list Z) :
  NoDup l → a ∈ l →
  sumZ (fun x => if bool_decide (x = a) then f x else 0) l = f a.
Proof.
  intros Hl Ha.
  rewrite (sumZ_ext _ (fun x => if bool_decide (x ∈ [a]) then f x else 0)).
  - rewrite sumZ_indicator; [simpl; lia | done | apply NoDup_singleton |].
    by intros x ->%list_elem_of_singleton.
  - intros x _. apply (f_equal (fun (c : bool) => if c then f x else 0)).
    apply bool_decide_ext. by rewrite list_elem_of_singleton.
Qed.

(** ** Consequences of the representation invariant *)

Section core_facts.
  Context (b : Board) (c : Z) (rest : list Z) (K : gset Z).
  Hypothesis HC : CoreG b c rest K.

Let brd := _board b.
Let uf := _stringUnionFind b.

Lemma cg_reach_out n i r : reach uf n i r → i ∉ K →
    (r ∉ K) ∧ (at_ brd r = at_ brd i).
  Proof using HC.
    induction 1 as [i Hi Hr | n i r Hi Hp H IH]; intros HK; [done|].
    destruct IH as [? Hcol]; [by eapply cg_sep_out|].
    split; [done|]. rewrite Hcol. by eapply cg_parent_colour.
  Qed.

Lemma cg_reach_in n i r : reach uf n i r → i ∈ K → r ∈ K.
  Proof using HC.
    induction 1 as [i Hi Hr | n i r Hi Hp H IH]; intros HK; [done|].
    apply IH. destruct (cg_sep_in _ _ _ _ HC i HK) as [_ [?|?]]; done.
  Qed.

Lemma cg_root_out i : cell i → i ∉ K → rootf uf i ∉ K.
  Proof using HC.
    intros Hi HK. destruct (uf_wf_reach uf i (cg_uf _ _ _ _ HC) Hi) as [n Hr].
    by apply cg_reach_out in Hr as [? ?].
  Qed.

Lemma cg_root_colour i : cell i → i ∉ K → at_ brd (rootf uf i) = at_ brd i.
  Proof using HC.
    intros Hi HK. destruct (uf_wf_reach uf i (cg_uf _ _ _ _ HC) Hi) as [n Hr].
    by apply cg_reach_out in Hr as [? ?].
  Qed.

Lemma cg_root_in i : i ∈ K → rootf uf i ∈ K.
  Proof using HC.
    intros HK. destruct (cg_sep_in _ _ _ _ HC i HK) as [Hi _].
    destruct (uf_wf_reach uf i (cg_uf _ _ _ _ HC) Hi) as [n Hr].
    by eapply cg_reach_in.
  Qed.

Lemma cg_root_cell i : cell i → cell (rootf uf i).
  Proof using HC. apply rootf_cell, HC. Qed.

Lemma cg_root_is_root i : cell i → at_ uf (rootf uf i) = -1.
  Proof using HC. apply rootf_is_root, HC. Qed.

Lemma cg_empty_self i : cell i → i ∉ K → at_ brd i = 0 → rootf uf i = i.
  Proof using HC. intros. apply rootf_root; [done|]. by eapply cg_empty_root. Qed.

  (** A cell whose root is an occupied root outside [K] is itself outside
      [K] and holds a stone of the same colour. *)
Lemma cg_class_out r j : cell j → r ∉ K → rootf uf j = r → j ∉ K.
  Proof using HC. intros Hj Hr Hroot HK. apply Hr. rewrite <- Hroot. by apply cg_root_in. Qed.

Lemma cg_class_colour r j : cell j → r ∉ K → rootf uf j = r →
    at_ brd j = at_ brd r.
  Proof using HC.
    intros Hj Hr Hroot. rewrite <- Hroot. symmetry. apply cg_root_colour; [done|].
    by eapply cg_class_out.
  Qed.
End core_facts.

(** ** The derived quantities only depend on the roots *)

Lemma in_string_ext brd uf uf' r j :
  rootf uf' j = rootf uf j → in_string brd uf' r j = in_string brd uf r j.
Proof. unfold in_string. by intros ->. Qed.

Section same_roots.
  Context (brd uf uf' : list Z).
  Hypothesis Hroots : ∀ j, cell j → rootf uf' j = rootf uf j.

Lemma plib_same_roots r : plib brd uf' r = plib brd uf r.
  Proof using Hroots.
    unfold plib. apply sumZ_ext. intros j Hj%cell_in_cells.
    by rewrite (in_string_ext brd uf uf') by auto.
  Qed.

Lemma pending_same_roots r rest :
    (∀ n, n ∈ rest → cell n) → pending brd uf' r rest = pending brd uf r rest.
  Proof using Hroots.
    intros Hrest. unfold pending. apply sumZ_ext. intros n Hn.
    by rewrite (in_string_ext brd uf uf') by auto.
  Qed.

Lemma size_same_roots r : size_of uf' r = size_of uf r.
  Proof using Hroots.
    unfold size_of. apply sumZ_ext. intros j Hj%cell_in_cells. by rewrite Hroots.
  Qed.

Lemma ext_same_roots r : ext_of uf' r = ext_of uf r.
  Proof using Hroots.
    unfold ext_of. apply sumZ_ext. intros j Hj%cell_in_cells.
    rewrite Hroots by done. destruct (rootf uf j =? r); [|done].
    apply sumZ_ext. intros n Hn. rewrite Hroots; [done|]. by eapply nbrs_cell.
  Qed.

End same_roots.

Lemma compressed_root_inv uf uf' r :
  uf_wf uf → compressed uf uf' → cell r → at_ uf' r = -1 → at_ uf r = -1.
Proof.
  intros Hw [_ Hc] Hr H'. destruct (Hc r Hr) as [<-|[_ He]]; [done|].
  rewrite H' in He. pose proof (rootf_cell uf r Hw Hr) as []. lia.
Qed.

(** Path compression preserves the invariant. *)
Lemma CoreG_compressed b c rest K uf' :
  CoreG b c rest K → compressed (_stringUnionFind b) uf' →
  CoreG (set_stringUnionFind b uf') c rest K.
Proof.
  intros HC Hc. pose proof (cg_uf _ _ _ _ HC) as Hw.
  assert (∀ j, cell j → rootf uf' j = rootf (_stringUnionFind b) j) as Hroots.
  { intros. by apply compressed_rootf. }
  pose proof Hc as [Hlen Hc'].
  constructor; simpl; try (by destruct HC).
  - by eapply compressed_wf.
  - intros i HK. destruct (cg_sep_in _ _ _ _ HC i HK) as [Hi Hp]. split; [done|].
    destruct (Hc' i Hi) as [->|[_ ->]]; [done|]. right. by eapply cg_root_in.
  - intros i Hi HK Hp.
    destruct (Hc' i Hi) as [He|[? He]]; rewrite He in *.
    + by eapply cg_sep_out.
    + by eapply cg_root_out.
  - intros i Hi HK H0. pose proof (cg_empty_root _ _ _ _ HC i Hi HK H0) as Hu.
    destruct (Hc' i Hi) as [->|[? _]]; done.
  - intros i Hi HK Hp.
    destruct (Hc' i Hi) as [He|[? He]]; rewrite He in *.
    + by eapply cg_parent_colour.
    + by eapply cg_root_colour.
  - intros i n Hi HK Hn H0 Hcol.
    rewrite !Hroots by (done || by eapply nbrs_cell).
    by eapply cg_adj.
  - intros i Hi HK H0. rewrite Hroots by done. by eapply cg_conn.
  - intros r Hr HK H0 Hu.
    rewrite (plib_same_roots _ _ _ Hroots).
    rewrite (pending_same_roots _ _ _ Hroots) by (by eapply cg_rest).
    eapply cg_lib; eauto. by eapply compressed_root_inv.
  - intros r Hr HK H0 Hu.
    rewrite (ext_same_roots _ _ Hroots), (size_same_roots _ _ Hroots).
    eapply cg_ext; eauto. by eapply compressed_root_inv.
Qed.

Lemma find_CoreG b c rest K i :
  CoreG b c rest K → cell i →
  ∃ b', _getStringOfStone b i = Ok (rootf (_stringUnionFind b) i, b') ∧
        CoreG b' c rest K ∧
        b' = set_stringUnionFind b (_stringUnionFind b') ∧
        compressed (_stringUnionFind b) (_stringUnionFind b').
Proof.
  intros HC Hi.
  destruct (find_spec b i (cg_uf _ _ _ _ HC) Hi) as (uf' & Hf & Hc).
  eexists. split; [exact Hf|]. split; [by apply CoreG_compressed|].
  split; [by destruct b | done].
Qed.

(** ** Linking one root under another *)

Section link.
  Context (uf : list Z) (a t : Z).
  Hypothesis Hw : uf_wf uf.
  Hypothesis Ha : cell a.
  Hypothesis Ht : cell t.
  Hypothesis Har : at_ uf a = -1.
  Hypothesis Htr : at_ uf t = -1.
  Hypothesis Hat : a ≠ t.

Let uf' := upd uf a t.

Lemma link_reach n j r : reach uf n j r →
    ∃ m, reach uf' m j (if r =? a then t else r).
  Proof using Hw Ha Ht Har Htr Hat.
    destruct Hw as [Hl _].
    induction 1 as [i Hi Hr | n i r Hi Hp H [m IH]].
    - destruct (Z.eqb_spec i a) as [->|Hne].
      + exists 1%nat. constructor; [done| |].
        * unfold uf'. rewrite at_upd_eq by done. destruct Ht; lia.
        * unfold uf'. rewrite at_upd_eq by done. constructor; [done|].
          by rewrite at_upd_ne.
      + exists 0%nat. constructor; [done|]. unfold uf'. by rewrite at_upd_ne.
    - assert (i ≠ a) by congruence.
      exists (S m). constructor; [done|..]; unfold uf'; by rewrite at_upd_ne.
  Qed.

Lemma link_wf : uf_wf uf'.
  Proof using Hw Ha Ht Har Htr Hat.
    split; [unfold uf'; rewrite length_upd; apply Hw|].
    intros i Hi. destruct (uf_wf_reach uf i Hw Hi) as [n Hr].
    destruct (link_reach _ _ _ Hr) as [m Hm]. eauto.
  Qed.

Lemma link_rootf j : cell j →
    rootf uf' j = if rootf uf j =? a then t else rootf uf j.
  Proof using Hw Ha Ht Har Htr Hat.
    intros Hj. destruct (uf_wf_reach uf j Hw Hj) as [n Hr].
    destruct (link_reach _ _ _ Hr) as [m Hm]. by eapply rootf_reach.
  Qed.

Lemma link_rootf_eqb j r : cell j → r ≠ a →
    (rootf uf' j =? r) =
    if r =? t then (rootf uf j =? t) || (rootf uf j =? a) else (rootf uf j =? r).
  Proof using Hw Ha Ht Har Htr Hat.
    intros Hj Hr. rewrite link_rootf by done.
    destruct (Z.eqb_spec (rootf uf j) a) as [E|E].
    - rewrite E. destruct (Z.eqb_spec r t) as [->|?].
      + rewrite Z.eqb_refl. by rewrite orb_true_r.
      + destruct (Z.eqb_spec t r); [congruence|].
        destruct (Z.eqb_spec a r); [congruence|done].
    - destruct (Z.eqb_spec r t) as [->|?]; [by rewrite orb_false_r | done].
  Qed.

Lemma link_in_string brd j : cell j →
    in_string brd uf' t j = in_string brd uf t j || in_string brd uf a j.
  Proof using Hw Ha Ht Har Htr Hat.
    intros Hj. unfold in_string. rewrite link_rootf_eqb by done.
    rewrite Z.eqb_refl. destruct (negb (at_ brd j =? 0)); done.
  Qed.

Lemma link_in_string_other brd r j : cell j → r ≠ a → r ≠ t →
    in_string brd uf' r j = in_string brd uf r j.
  Proof using Hw Ha Ht Har Htr Hat.
    intros Hj Hra Hrt. unfold in_string. rewrite link_rootf_eqb by done.
    by destruct (Z.eqb_spec r t).
  Qed.

Lemma in_string_disjoint brd j :
    in_string brd uf t j && in_string brd uf a j = false.
  Proof using Hat.
    unfold in_string. destruct (Z.eqb_spec (rootf uf j) t), (Z.eqb_spec (rootf uf j) a);
      try congruence; by destruct (negb _).
  Qed.

Lemma link_plib brd : plib brd uf' t = plib brd uf t + plib brd uf a.
  Proof using Hw Ha Ht Har Htr Hat.
    unfold plib. rewrite <- sumZ_add. apply sumZ_ext. intros j Hj%cell_in_cells.
    rewrite link_in_string by done. pose proof (in_string_disjoint brd j).
    destruct (in_string brd uf t j), (in_string brd uf a j); simpl in *; try done; lia.
  Qed.

Lemma link_plib_other brd r : r ≠ a → r ≠ t → plib brd uf' r = plib brd uf r.
  Proof using Hw Ha Ht Har Htr Hat.
    intros. unfold plib. apply sumZ_ext. intros j Hj%cell_in_cells.
    by rewrite link_in_string_other.
  Qed.

Lemma link_pending brd l : (∀ n, n ∈ l → cell n) →
    pending brd uf' t l = pending brd uf t l + pending brd uf a l.
  Proof using Hw Ha Ht Har Htr Hat.
    intros Hl. unfold pending. rewrite <- sumZ_add. apply sumZ_ext. intros j Hj.
    rewrite link_in_string by auto. pose proof (in_string_disjoint brd j).
    destruct (in_string brd uf t j), (in_string brd uf a j); simpl in *; done.
  Qed.

Lemma link_pending_other brd r l : (∀ n, n ∈ l → cell n) → r ≠ a → r ≠ t →
    pending brd uf' r l = pending brd uf r l.
  Proof using Hw Ha Ht Har Htr Hat.
    intros Hl ??. unfold pending. apply sumZ_ext. intros j Hj.
    by rewrite link_in_string_other by auto.
  Qed.

Lemma link_size : size_of uf' t = size_of uf t + size_of uf a.
  Proof using Hw Ha Ht Har Htr Hat.
    unfold size_of. rewrite <- sumZ_add. apply sumZ_ext. intros j Hj%cell_in_cells.
    rewrite link_rootf_eqb, Z.eqb_refl by done.
    destruct (Z.eqb_spec (rootf uf j) t), (Z.eqb_spec (rootf uf j) a);
      simpl; try done; congruence.
  Qed.

Lemma link_size_other r : r ≠ a → r ≠ t → size_of uf' r = size_of uf r.
  Proof using Hw Ha Ht Har Htr Hat.
    intros. unfold size_of. apply sumZ_ext. intros j Hj%cell_in_cells.
    rewrite link_rootf_eqb by done. by destruct (Z.eqb_spec r t).
  Qed.

Lemma link_ext_other r : r ≠ a → r ≠ t → ext_of uf' r = ext_of uf r.
  Proof using Hw Ha Ht Har Htr Hat.
    intros Hra Hrt. unfold ext_of. apply sumZ_ext. intros j Hj%cell_in_cells.
    rewrite link_rootf_eqb by done. destruct (Z.eqb_spec r t) as [|_]; [done|].
    destruct (rootf uf j =? r); [|done].
    apply sumZ_ext. intros n Hn. rewrite link_rootf_eqb; [|by eapply nbrs_cell|done].
    by destruct (Z.eqb_spec r t).
  Qed.

  (** The pairs leaving the merged class are those leaving either class,
      less the pairs that join the two. *)
Lemma link_ext x y :
    cell x → cell y → y ∈ _get_neighbors x → rootf uf x = a → rootf uf y = t →
    ext_of uf' t ≤ ext_of uf t + ext_of uf a - 2.
  Proof using Hw Ha Ht Har Htr Hat.
    intros Hx Hy Hxy Hrx Hry.
    set (cross := fun p q => sumZ (fun j => if rootf uf j =? p
        then sumZ (fun n => Z.b2z (rootf uf n =? q)) (_get_neighbors j) else 0) cells).
    assert (ext_of uf' t = ext_of uf t + ext_of uf a - cross t a - cross a t) as ->.
    { unfold ext_of, cross. rewrite <- sumZ_add, <- !sumZ_sub.
      apply sumZ_ext. intros j Hj%cell_in_cells.
      rewrite link_rootf_eqb, Z.eqb_refl by done.
      assert (∀ l, (∀ n, n ∈ l → cell n) →
        sumZ (fun n => Z.b2z (negb (rootf uf' n =? t))) l
        = sumZ (fun n => Z.b2z (negb (rootf uf n =? t))) l
          - sumZ (fun n => Z.b2z (rootf uf n =? a)) l) as Hin_t.
      { intros l Hl. rewrite <- sumZ_sub. apply sumZ_ext. intros n Hn.
        rewrite link_rootf_eqb, Z.eqb_refl by auto.
        destruct (Z.eqb_spec (rootf uf n) t), (Z.eqb_spec (rootf uf n) a);
          simpl; try done; congruence. }
      assert (∀ l, (∀ n, n ∈ l → cell n) →
        sumZ (fun n => Z.b2z (negb (rootf uf' n =? t))) l
        = sumZ (fun n => Z.b2z (negb (rootf uf n =? a))) l
          - sumZ (fun n => Z.b2z (rootf uf n =? t)) l) as Hin_a.
      { intros l Hl. rewrite <- sumZ_sub. apply sumZ_ext. intros n Hn.
        rewrite link_rootf_eqb, Z.eqb_refl by auto.
        destruct (Z.eqb_spec (rootf uf n) t), (Z.eqb_spec (rootf uf n) a);
          simpl; try done; congruence. }
      assert (∀ n, n ∈ _get_neighbors j → cell n) as Hnb.
      { intros n Hn. by eapply nbrs_cell. }
      destruct (Z.eqb_spec (rootf uf j) t) as [Et|Et],
               (Z.eqb_spec (rootf uf j) a) as [Ea|Ea]; simpl.
      - congruence.
      - rewrite Hin_t by done. lia.
      - rewrite Hin_a by done. lia.
      - lia. }
    assert (∀ p q u v, cell u → v ∈ _get_neighbors u → rootf uf u = p → rootf uf v = q →
                       1 ≤ cross p q) as Hcross.
    { intros p q u v Hu Hv Hp Hq. unfold cross.
      assert (0 < sumZ (fun j => if rootf uf j =? p
        then sumZ (fun n => Z.b2z (rootf uf n =? q)) (_get_neighbors j) else 0) cells);
        [|lia].
      eapply (sumZ_pos _ _ u).
      - intros j _. destruct (rootf uf j =? p); [|done].
        apply sumZ_nonneg. intros n _. by destruct (rootf uf n =? q).
      - by apply cell_in_cells.
      - rewrite Hp, Z.eqb_refl. eapply (sumZ_pos _ _ v); [|done|].
        + intros n _. by destruct (rootf uf n =? q).
        + by rewrite Hq, Z.eqb_refl. }
    pose proof (Hcross a t x y Hx Hxy Hrx Hry).
    pose proof (Hcross t a y x Hy (nbrs_sym _ _ Hx Hxy) Hry Hrx).
    lia.
  Qed.
End link.

(** ** Counting liberties *)

Lemma sumZ_count_one (l : list Z) (c : Z) :
  NoDup l → sumZ (fun n => Z.b2z (n =? c)) l = Z.b2z (bool_decide (c ∈ l)).
Proof.
  induction 1 as [|a l Ha Hl IH]; simpl; [done|].
  rewrite IH. destruct (Z.eqb_spec a c) as [->|Hne].
  - rewrite (bool_decide_eq_true_2 (c ∈ c :: l)) by left.
    rewrite (bool_decide_eq_false_2 (c ∈ l)) by done. done.
  - rewrite Z.add_0_l. apply f_equal, bool_decide_ext. rewrite elem_of_cons.
    split; [by right | by intros [|]].
Qed.

(** The effect of one write to the grid on the empty-neighbour count. *)
Lemma nb_empty_upd brd x v j :
  length brd = Z.to_nat ncells → cell x → cell j →
  nb_empty (upd brd x v) j
  = nb_empty brd j
    + (if bool_decide (x ∈ _get_neighbors j)
       then Z.b2z (v =? 0) - Z.b2z (at_ brd x =? 0) else 0).
Proof.
  intros Hl Hx Hj. unfold nb_empty.
  rewrite (sumZ_ext _ (fun n => Z.b2z (at_ brd n =? 0)
               + Z.b2z (n =? x) * (Z.b2z (v =? 0) - Z.b2z (at_ brd x =? 0)))).
  - rewrite sumZ_add. f_equal.
    rewrite (sumZ_ext _ (fun n => (Z.b2z (v =? 0) - Z.b2z (at_ brd x =? 0)) * Z.b2z (n =? x)))
      by (intros; lia).
    assert (∀ k l, sumZ (fun n => k * Z.b2z (n =? x)) l = k * sumZ (fun n => Z.b2z (n =? x)) l)
      as -> by (intros k l; induction l; simpl; lia).
    rewrite sumZ_count_one by (by apply nbrs_NoDup).
    case_bool_decide; simpl; lia.
  - intros n Hn. assert (cell n) by (by eapply nbrs_cell).
    rewrite at_upd by done.
    destruct (Z.eqb_spec n x) as [->|?]; case_decide; try congruence; simpl; lia.
Qed.

Lemma nb_empty_bounds brd j : cell j → 0 ≤ nb_empty brd j ≤ 4.
Proof.
  intros Hj. unfold nb_empty. split.
  - apply sumZ_nonneg. intros n _. by destruct (_ =? _).
  - pose proof (sumZ_b2z_le_length (fun n => at_ brd n =? 0) (_get_neighbors j)).
    pose proof (nbrs_length j Hj). lia.
Qed.

Lemma plib_nonneg brd uf r : 0 ≤ plib brd uf r.
Proof.
  apply sumZ_nonneg. intros j Hj%cell_in_cells.
  destruct (in_string _ _ _ _); [by apply nb_empty_bounds | done].
Qed.

Lemma pending_bounds brd uf r l : 0 ≤ pending brd uf r l ≤ Z.of_nat (length l).
Proof.
  split; [|apply sumZ_b2z_le_length].
  apply sumZ_nonneg. intros n _. by destruct (in_string _ _ _ _).
Qed.

Lemma pending_cons brd uf r n l :
  pending brd uf r (n :: l) = Z.b2z (in_string brd uf r n) + pending brd uf r l.
Proof. done. Qed.

Lemma pend_sign_occ brd c : at_ brd c ≠ 0 → pend_sign brd c = 1.
Proof. intros H. unfold pend_sign. by destruct (Z.eqb_spec (at_ brd c) 0). Qed.

Lemma pend_sign_empty brd c : at_ brd c = 0 → pend_sign brd c = -1.
Proof. intros H. unfold pend_sign. by rewrite H. Qed.

Lemma cg_lib_placed b c rest K r :
  CoreG b c rest K → at_ (_board b) c ≠ 0 →
  cell r → r ∉ K → at_ (_board b) r ≠ 0 → at_ (_stringUnionFind b) r = -1 →
  at_ (_stringLiberties b) r
  = plib (_board b) (_stringUnionFind b) r
    + pending (_board b) (_stringUnionFind b) r rest.
Proof.
  intros HC Hc Hr HK Hocc Hroot.
  rewrite (cg_lib _ _ _ _ HC r Hr HK Hocc Hroot), pend_sign_occ by done. lia.
Qed.

Lemma cg_lib_core b c K r :
  CoreG b c [] K →
  cell r → r ∉ K → at_ (_board b) r ≠ 0 → at_ (_stringUnionFind b) r = -1 →
  at_ (_stringLiberties b) r = plib (_board b) (_stringUnionFind b) r.
Proof.
  intros HC Hr HK Hocc Hroot.
  rewrite (cg_lib _ _ _ _ HC r Hr HK Hocc Hroot).
  change (pending _ _ r []) with 0. lia.
Qed.

(** ** The liberty counts fit in a signed byte *)

Section bound.
  Context (b : Board) (c : Z) (rest : list Z) (K : gset Z).
  Hypothesis HC : CoreG b c rest K.
  Context (r : Z).
  Hypothesis Hr : cell r.
  Hypothesis HrK : r ∉ K.
  Hypothesis Hocc : at_ (_board b) r ≠ 0.
  Hypothesis Hroot : at_ (_stringUnionFind b) r = -1.

Let brd := _board b.
Let uf := _stringUnionFind b.

Lemma empty_not_in_class n : cell n → at_ brd n = 0 → rootf uf n ≠ r.
  Proof using HC HrK Hocc.
    unfold uf, brd. intros Hn H0 E. destruct (decide (n ∈ K)) as [HK|HK].
    - apply HrK. rewrite <- E. by eapply cg_root_in.
    - rewrite (cg_empty_self _ _ _ _ HC n) in E by done. congruence.
  Qed.

Lemma plib_le_ext : plib brd uf r ≤ ext_of uf r.
  Proof using HC HrK Hocc.
    unfold plib, ext_of. apply sumZ_le. intros j Hj%cell_in_cells.
    unfold in_string. destruct (Z.eqb_spec (rootf uf j) r) as [E|E].
    - destruct (negb _); simpl.
      + unfold nb_empty. apply sumZ_le. intros n Hn.
        destruct (Z.eqb_spec (at_ brd n) 0) as [E0|E0]; simpl.
        * assert (rootf uf n ≠ r) by (apply empty_not_in_class; [by eapply nbrs_cell|done]).
          by destruct (Z.eqb_spec (rootf uf n) r).
        * by destruct (negb _).
      + apply sumZ_nonneg. intros n _. by destruct (negb _).
    - by rewrite andb_false_r.
  Qed.

Let nempty := sumZ (fun n => Z.b2z (at_ brd n =? 0)) cells.

Lemma plib_le_empties : plib brd uf r ≤ 4 * nempty.
  Proof using Type.
    transitivity (sumZ (fun j => nb_empty brd j) cells).
    { apply sumZ_le. intros j Hj%cell_in_cells.
      destruct (in_string _ _ _ _); [done|]. by apply nb_empty_bounds. }
    unfold nb_empty. rewrite (sumZ_edges_swap (fun j n => Z.b2z (at_ brd n =? 0))).
    unfold nempty.
    assert (∀ l, 4 * sumZ (fun n => Z.b2z (at_ brd n =? 0)) l
                 = sumZ (fun n => 4 * Z.b2z (at_ brd n =? 0)) l) as ->
      by (intros l; induction l; simpl; lia).
    apply sumZ_le. intros n Hn%cell_in_cells.
    rewrite sumZ_const. pose proof (nbrs_length n Hn).
    destruct (at_ brd n =? 0); simpl; lia.
  Qed.

Lemma size_plus_empties : size_of uf r + nempty ≤ 81.
  Proof using HC HrK Hocc.
    unfold size_of, nempty. rewrite <- sumZ_add.
    transitivity (sumZ (fun _ : Z => 1) cells).
    - apply sumZ_le. intros j Hj%cell_in_cells.
      destruct (Z.eqb_spec (at_ brd j) 0) as [E0|E0]; simpl.
      + assert (rootf uf j ≠ r) by (by apply empty_not_in_class).
        by destruct (Z.eqb_spec (rootf uf j) r).
      + destruct (_ =? _); simpl; lia.
    - rewrite sumZ_const. done.
  Qed.

Lemma plib_bound : 0 ≤ plib brd uf r ≤ 109.
  Proof using HC Hr HrK Hocc Hroot.
    split; [apply plib_nonneg|].
    pose proof plib_le_ext. pose proof plib_le_empties. pose proof size_plus_empties.
    pose proof (cg_ext _ _ _ _ HC r Hr HrK Hocc Hroot) as Hext.
    unfold uf, brd in *. lia.
  Qed.
End bound.

(** ** Connection *)

Lemma adj_sym brd x y : adj brd x y → adj brd y x.
Proof.
  intros (Hx & Hy & Hc). split_and!; [by eapply nbrs_cell | by apply nbrs_sym | done].
Qed.

Lemma conn_sym brd x y : conn brd x y → conn brd y x.
Proof.
  induction 1 as [|x y z Hxy _ IH]; [apply rtc_refl|].
  eapply rtc_r; [exact IH|]. by apply adj_sym.
Qed.

Lemma conn_colour brd x y : conn brd x y → at_ brd x = at_ brd y.
Proof. induction 1 as [|x y z (_ & _ & Hxy) _ IH]; congruence. Qed.

Lemma conn_cell brd x y : cell x → conn brd x y → cell y.
Proof.
  intros Hx. induction 1 as [|x y z (_ & Hxy & _) _ IH]; [done|].
  apply IH. by eapply nbrs_cell.
Qed.

(** A write to the grid at a cell not connected to [x] does not disturb
    the connections of [x]. *)
Lemma conn_upd brd c v x z :
  cell c → (∀ y, conn brd x y → y ≠ c) → conn brd x z → conn (upd brd c v) x z.
Proof.
  intros Hc Hav H. revert z H. apply rtc_ind_r; [apply rtc_refl|].
  intros y z Hxy Hyz IH.
  eapply rtc_r; [exact IH|].
  destruct Hyz as (Hy & Hz & Hcol).
  assert (y ≠ c) by (by apply Hav).
  assert (z ≠ c).
  { apply Hav. eapply rtc_r; [exact Hxy|]. done. }
  split_and!; [done..|].
  rewrite !at_upd_ne; [done|done|by eapply nbrs_cell|done|done|done|done].
Qed.

Lemma conn_upd_colour brd c v x z :
  cell c → at_ brd x ≠ at_ brd c → conn brd x z → conn (upd brd c v) x z.
Proof.
  intros Hc Hne. apply conn_upd; [done|].
  intros y Hy ->. by apply conn_colour in Hy.
Qed.

(** ** The steps of the linking loop of [_put_stone] *)

(** The invariant only reads the grid, the empty set and the registry. *)
Lemma CoreG_fields b b' c rest K :
  _board b' = _board b → _empties b' = _empties b →
  _stringUnionFind b' = _stringUnionFind b →
  _stringLiberties b' = _stringLiberties b →
  length (_stringSizes b') = Z.to_nat ncells →
  CoreG b c rest K → CoreG b' c rest K.
Proof.
  intros Hb He Hu Hl Hs HC. destruct HC.
  constructor; rewrite ?Hb, ?He, ?Hu, ?Hl; done.
Qed.

Local Ltac K_empty := first [ by intros ?; rewrite elem_of_empty | set_solver ].

(** An empty neighbour: nothing to do. *)
Lemma CoreG_skip_step b c fn rest :
  CoreG b c (fn :: rest) ∅ → at_ (_board b) fn = 0 → CoreG b c rest ∅.
Proof.
  intros HC H0. constructor; try (by destruct HC).
  - intros n Hn. eapply cg_rest; [exact HC|]. by right.
  - intros i n Hi HK Hn Hocc Hcol.
    destruct (cg_adj _ _ _ _ HC i n Hi HK Hn Hocc Hcol) as [[-> Hr]|[[-> Hr]|?]];
      [| |by right; right].
    + apply elem_of_cons in Hr as [->|?]; [congruence|by left].
    + apply elem_of_cons in Hr as [->|?]; [congruence|by right; left].
  - intros r Hr HK Hocc Hroot. rewrite (cg_lib _ _ _ _ HC r) by done.
    rewrite (pending_cons _ _ r fn). unfold in_string at 1. rewrite H0.
    cbn [Z.eqb negb andb Z.b2z]. by rewrite Z.add_0_l.
Qed.

(** A neighbouring stone whose string needs no merge: one liberty less. *)
Lemma CoreG_decr_step b b' c fn rest :
  CoreG b c (fn :: rest) ∅ → cell c → fn ∈ _get_neighbors c →
  at_ (_board b) c ≠ 0 →
  at_ (_board b) fn ≠ 0 →
  (at_ (_board b) fn ≠ at_ (_board b) c ∨
   rootf (_stringUnionFind b) c = rootf (_stringUnionFind b) fn) →
  _board b' = _board b → _empties b' = _empties b →
  _stringUnionFind b' = _stringUnionFind b →
  length (_stringSizes b') = Z.to_nat ncells →
  _stringLiberties b'
  = upd (_stringLiberties b) (rootf (_stringUnionFind b) fn)
        (at_ (_stringLiberties b) (rootf (_stringUnionFind b) fn) - 1) →
  CoreG b' c rest ∅.
Proof.
  intros HC Hc Hfn Hcocc Hocc Hcase Hb He Hu Hs Hl.
  assert (cell fn) as Hfnc by (by eapply nbrs_cell).
  pose proof (cg_root_cell _ _ _ _ HC fn Hfnc) as Hsc.
  pose proof (cg_len_lib _ _ _ _ HC) as Hll.
  constructor; rewrite ?Hb, ?He, ?Hu, ?Hl, ?length_upd; try (by destruct HC).
  - intros n Hn. eapply cg_rest; [exact HC|]. by right.
  - intros i n Hi HK Hn Hocc' Hcol.
    destruct (cg_adj _ _ _ _ HC i n Hi HK Hn Hocc' Hcol) as [[-> Hr]|[[-> Hr]|?]];
      [| |by right; right].
    + apply elem_of_cons in Hr as [->|?]; [|by left].
      destruct Hcase as [Hne|Heq]; [by destruct Hne|by right; right].
    + apply elem_of_cons in Hr as [->|?]; [|by right; left].
      destruct Hcase as [Hne|Heq]; [by destruct Hne|by right; right].
  - intros r Hr HK Hocc' Hroot. rewrite at_upd by done.
    rewrite pend_sign_occ, Z.mul_1_l by done.
    pose proof (cg_lib_placed _ _ _ _ r HC Hcocc Hr HK Hocc' Hroot) as Hlib.
    rewrite pending_cons in Hlib. unfold in_string at 1 in Hlib.
    case_decide as Hd.
    + rewrite Hd, Z.eqb_refl in Hlib.
      destruct (Z.eqb_spec (at_ (_board b) fn) 0); [done|]. simpl in Hlib.
      rewrite Hd. lia.
    + destruct (Z.eqb_spec (rootf (_stringUnionFind b) fn) r); [done|].
      rewrite andb_false_r in Hlib. simpl in Hlib. lia.
Qed.

(** A friendly neighbour whose string is not yet that of the new stone:
    one liberty less, then the string of the new stone is linked under
    it. *)
Lemma CoreG_link_step b b' c fn rest :
  CoreG b c (fn :: rest) ∅ → cell c → fn ∈ _get_neighbors c →
  at_ (_board b) c ≠ 0 → at_ (_board b) fn = at_ (_board b) c →
  let uf := _stringUnionFind b in
  let lib := _stringLiberties b in
  let s := rootf uf fn in
  let cur := rootf uf c in
  s ≠ cur →
  _board b' = _board b → _empties b' = _empties b →
  _stringUnionFind b' = upd uf cur s →
  length (_stringSizes b') = Z.to_nat ncells →
  length (_stringLiberties b') = Z.to_nat ncells →
  (∀ x, cell x → at_ (_stringLiberties b') x
     = if decide (x = cur) then -1
       else if decide (x = s) then at_ lib s - 1 + at_ lib cur
       else at_ lib x) →
  CoreG b' c rest ∅.
Proof.
  intros HC Hc Hfn Hocc Hcol uf lib s cur Hne Hb He Hu Hs Hll Hl.
  assert (cell fn) as Hfnc by (by eapply nbrs_cell).
  pose proof (cg_uf _ _ _ _ HC) as Hw.
  assert (∅ ⊆ (∅ : gset Z)) as _ by done.
  assert (∀ i : Z, i ∉ (∅ : gset Z)) as HK0 by K_empty.
  assert (cell s) as Hsc by (by apply rootf_cell).
  assert (cell cur) as Hcc by (by apply rootf_cell).
  assert (at_ uf s = -1) as Hsr by (by apply rootf_is_root).
  assert (at_ uf cur = -1) as Hcr by (by apply rootf_is_root).
  assert (at_ (_board b) s = at_ (_board b) c) as Hscol.
  { unfold s. rewrite (cg_root_colour _ _ _ _ HC) by done. done. }
  assert (at_ (_board b) cur = at_ (_board b) c) as Hccol.
  { unfold cur. by rewrite (cg_root_colour _ _ _ _ HC) by done. }
  assert (cur ≠ s) as Hne' by congruence.
  pose proof (link_rootf uf cur s Hw Hcc Hsc Hcr Hsr Hne') as Hroot'.
  assert (in_string (_board b) uf s fn = true) as Hfn_s.
  { unfold in_string. fold s. rewrite Z.eqb_refl.
    destruct (Z.eqb_spec (at_ (_board b) fn) 0); [congruence|done]. }
  assert (in_string (_board b) uf cur fn = false) as Hfn_cur.
  { unfold in_string. fold s. destruct (Z.eqb_spec s cur); [done|]. by rewrite andb_false_r. }
  constructor; rewrite ?Hb, ?He, ?Hu; try (by destruct HC).
  - by apply link_wf.
  - intros n Hn. eapply cg_rest; [exact HC|]. by right.
  - intros i Hi _ H0. pose proof (cg_empty_root _ _ _ _ HC i Hi (HK0 i) H0).
    rewrite at_upd_ne; [done..|]. intros <-. congruence.
  - intros i Hi _. fold uf. destruct (decide (i = cur)) as [->|Hd].
    + rewrite at_upd_eq by (done || apply Hw). intros _. congruence.
    + rewrite at_upd_ne by done. by eapply cg_parent_colour.
  - intros i n Hi _ Hn Hocc' Hcol'. fold uf.
    assert (cell n) by (by eapply nbrs_cell).
    rewrite !Hroot' by done.
    destruct (cg_adj _ _ _ _ HC i n Hi (HK0 i) Hn Hocc' Hcol') as [[-> Hr]|[[-> Hr]|E]].
    + apply elem_of_cons in Hr as [->|?]; [|by left].
      right; right. fold uf cur s. rewrite Z.eqb_refl.
      by destruct (Z.eqb_spec s cur).
    + apply elem_of_cons in Hr as [->|?]; [|by right; left].
      right; right. fold uf cur s. rewrite Z.eqb_refl.
      by destruct (Z.eqb_spec s cur).
    + right; right. fold uf in E. by rewrite E.
  - intros i Hi _ Hocc'. fold uf. rewrite Hroot' by done.
    pose proof (cg_conn _ _ _ _ HC i Hi (HK0 i) Hocc') as Hconn. fold uf in Hconn.
    destruct (Z.eqb_spec (rootf uf i) cur) as [E|E]; [|done].
    rewrite E in Hconn.
    eapply rtc_trans; [exact Hconn|].
    eapply rtc_trans.
    { apply conn_sym. apply (cg_conn _ _ _ _ HC c Hc (HK0 c) Hocc). }
    eapply rtc_l.
    { split_and!; [exact Hc | exact Hfn | by symmetry]. }
    apply (cg_conn _ _ _ _ HC fn Hfnc (HK0 fn)). congruence.
  - intros r Hr _ Hocc' Hroot. fold uf in Hroot |- *.
    assert (r ≠ cur) as Hrc.
    { intros ->. rewrite at_upd_eq in Hroot by (done || apply Hw). destruct Hsc; lia. }
    rewrite at_upd_ne in Hroot by done.
    rewrite pend_sign_occ, Z.mul_1_l by done.
    rewrite Hl by done. rewrite decide_False by done.
    assert (∀ n, n ∈ rest → cell n) as Hrest.
    { intros n Hn. eapply cg_rest; [exact HC|]. by right. }
    case_decide as Hd.
    + subst r.
      rewrite (link_plib uf cur s) by done.
      rewrite (link_pending uf cur s) by done.
      pose proof (cg_lib_placed _ _ _ _ s HC Hocc Hsc (HK0 s) Hocc' Hsr) as L1.
      pose proof (cg_lib_placed _ _ _ _ cur HC Hocc Hcc (HK0 cur) ltac:(congruence) Hcr) as L2.
      rewrite pending_cons in L1, L2. fold uf lib in L1, L2.
      rewrite Hfn_s in L1. rewrite Hfn_cur in L2. simpl in L1, L2. lia.
    + rewrite (link_plib_other uf cur s) by done.
      rewrite (link_pending_other uf cur s) by done.
      pose proof (cg_lib_placed _ _ _ _ r HC Hocc Hr (HK0 r) Hocc' Hroot) as L1.
      rewrite pending_cons in L1. fold uf lib in L1.
      assert (in_string (_board b) uf r fn = false) as Hx.
      { unfold in_string. fold s. destruct (Z.eqb_spec s r); [congruence|].
        by rewrite andb_false_r. }
      rewrite Hx in L1. simpl in L1. lia.
  - intros r Hr _ Hocc' Hroot. fold uf in Hroot |- *.
    assert (r ≠ cur) as Hrc.
    { intros ->. rewrite at_upd_eq in Hroot by (done || apply Hw). destruct Hsc; lia. }
    rewrite at_upd_ne in Hroot by done.
    destruct (decide (r = s)) as [->|Hd].
    + rewrite (link_size uf cur s) by done.
      pose proof (link_ext uf cur s Hw Hcc Hsc Hcr Hsr Hne' c fn Hc Hfnc Hfn eq_refl eq_refl).
      pose proof (cg_ext _ _ _ _ HC s Hsc (HK0 s) Hocc' Hsr).
      pose proof (cg_ext _ _ _ _ HC cur Hcc (HK0 cur) ltac:(congruence) Hcr).
      subst uf lib s cur. lia.
    + rewrite (link_size_other uf cur s), (link_ext_other uf cur s) by done.
      by eapply cg_ext.
Qed.

(** ** The registry operations on a well-formed registry *)

Lemma find_unregistry b fcoord root b' :
  _getStringOfStone b fcoord = Ok (root, b') → unregistry b' = unregistry b.
Proof. intros ->%find_only_uf. done. Qed.

Lemma add_liberties_unregistry b s d b' :
  add_liberties b s d = Ok b' → unregistry b' = unregistry b.
Proof. intros ->%add_liberties_only_lib. done. Qed.

Lemma merge_unregistry b s1 s2 b' :
  _merge_strings b s1 s2 = Ok b' → unregistry b' = unregistry b.
Proof. unfold _merge_strings. intros H. by inv_ok H. Qed.

Lemma link_loop_unregistry nbrs : ∀ b color cur acc r b',
  link_loop b color nbrs cur acc = Ok (r, b') → unregistry b' = unregistry b.
Proof.
  induction nbrs as [|fn rest IH]; intros b color cur acc r b' H; simpl in H.
  - by inv_ok H.
  - inv_bind H. destruct (a =? color).
    + inv_bind H. destruct a0 as [sn b1]. inv_bind H. inv_bind H.
      apply IH in H. rewrite H.
      apply find_unregistry in E0. apply add_liberties_unregistry in E1.
      destruct (negb (cur =? sn));
        [apply merge_unregistry in E2 | injection E2 as <-]; congruence.
    + destruct (negb (a =? _EMPTY)); [|by eauto].
      inv_bind H. destruct a0 as [sn b1]. inv_bind H. inv_bind H.
      apply IH in H. rewrite H.
      apply find_unregistry in E0. apply add_liberties_unregistry in E1. congruence.
Qed.

Lemma aset8_cell_wrap (l : list Z) i v :
  length l = Z.to_nat ncells → cell i → aset8 l i v = Ok (upd l i (wrap8 v)).
Proof. intros. unfold aset8. by apply aset_cell. Qed.

Lemma add_liberties_spec b s d :
  length (_stringLiberties b) = Z.to_nat ncells → cell s →
  -128 ≤ at_ (_stringLiberties b) s + d ≤ 127 →
  add_liberties b s d
  = Ok (set_stringLiberties b
          (upd (_stringLiberties b) s (at_ (_stringLiberties b) s + d))).
Proof.
  intros Hl Hs Hr. unfold add_liberties.
  rewrite aget_cell by done. simpl. by rewrite aset8_cell.
Qed.

Lemma merge_spec b str1 str2 :
  length (_stringLiberties b) = Z.to_nat ncells →
  length (_stringSizes b) = Z.to_nat ncells →
  length (_stringUnionFind b) = Z.to_nat ncells →
  cell str1 → cell str2 → str1 ≠ str2 →
  at_ (_stringUnionFind b) str2 = -1 →
  -128 ≤ at_ (_stringLiberties b) str1 + at_ (_stringLiberties b) str2 ≤ 127 →
  ∃ sizes, length sizes = Z.to_nat ncells ∧
  _merge_strings b str1 str2
  = Ok (set_stringUnionFind
          (set_stringSizes
             (set_stringLiberties b
                (upd (upd (_stringLiberties b) str1
                        (at_ (_stringLiberties b) str1 + at_ (_stringLiberties b) str2))
                     str2 (-1)))
             sizes)
          (upd (_stringUnionFind b) str2 str1)).
Proof.
  intros Hl Hs Hu H1 H2 Hne Hroot Hr. unfold _merge_strings.
  rewrite !aget_cell by done. cbn [mbind res_bind].
  rewrite (aset8_cell (_stringLiberties b) str1); [|done|done|exact Hr].
  cbn [mbind res_bind].
  rewrite (aset8_cell _ str2 (-1)); [|by rewrite length_upd|done|lia].
  cbn [mbind res_bind].
  rewrite (aset8_cell_wrap (_stringSizes b) str1) by done. cbn [mbind res_bind].
  rewrite (aset8_cell_wrap _ str2 (-1)) by (by rewrite ?length_upd).
  cbn [mbind res_bind].
  rewrite Hroot. cbn [Z.eqb Pos.eqb assert_ mbind res_bind].
  rewrite (aset8_cell (_stringUnionFind b) str2 str1); [|done|done|].
  2:{ destruct H1. unfold ncells, _BOARDSIZE in *. lia. }
  cbn [mbind res_bind]. eexists. split; [|reflexivity]. by rewrite !length_upd.
Qed.

Lemma link_loop_cons b color fn rest cur acc :
  link_loop b color (fn :: rest) cur acc
  = (c ← aget (_board b) fn;
     if c =? color then
       '(sn, b') ← link_friend b cur fn;
       link_loop b' color rest sn acc
     else if negb (c =? _EMPTY) then
       '(acc', b') ← link_enemy b fn acc;
       link_loop b' color rest cur acc'
     else link_loop b color rest cur acc).
Proof.
  cbn [link_loop]. destruct (aget (_board b) fn) as [c|]; [|done].
  cbn [mbind res_bind]. unfold link_friend, link_enemy.
  destruct (c =? color).
  - destruct (_getStringOfStone b fn) as [[sn b1]|]; [|done]. cbn [mbind res_bind].
    destruct (add_liberties b1 sn (-1)) as [b2|]; [|done]. cbn [mbind res_bind].
    by destruct (if negb (cur =? sn) then _ else _).
  - destruct (negb (c =? _EMPTY)); [|done].
    destruct (_getStringOfStone b fn) as [[sn b1]|]; [|done]. cbn [mbind res_bind].
    destruct (add_liberties b1 sn (-1)) as [b2|]; [|done]. cbn [mbind res_bind].
    by destruct (aget (_stringLiberties b2) sn).
Qed.

Lemma lib_range b c rest r :
  CoreG b c rest ∅ → at_ (_board b) c ≠ 0 → (length rest ≤ 4)%nat → cell r →
  at_ (_board b) r ≠ 0 → at_ (_stringUnionFind b) r = -1 →
  pending (_board b) (_stringUnionFind b) r rest ≤ at_ (_stringLiberties b) r ≤ 113.
Proof.
  intros HC Hcocc Hlen Hr Hocc Hroot.
  assert (r ∉ (∅ : gset Z)) as HK by apply not_elem_of_empty.
  rewrite (cg_lib_placed _ _ _ _ r HC Hcocc Hr HK Hocc Hroot).
  pose proof (plib_bound _ _ _ _ HC r Hr HK Hocc Hroot).
  pose proof (pending_bounds (_board b) (_stringUnionFind b) r rest). lia.
Qed.

Lemma set_uf_fields b uf :
  let b' := set_stringUnionFind b uf in
  _board b' = _board b ∧ _empties b' = _empties b ∧
  _stringLiberties b' = _stringLiberties b ∧ _stringSizes b' = _stringSizes b ∧
  _stringUnionFind b' = uf.
Proof. done. Qed.

(** The state reached by [_getStringOfStone] on a neighbour, with the
    facts the loop needs about the root found. *)
Lemma find_neighbour b c rest fn :
  CoreG b c rest ∅ → cell fn → at_ (_board b) fn ≠ 0 →
  let s := rootf (_stringUnionFind b) fn in
  ∃ b1, _getStringOfStone b fn = Ok (s, b1) ∧ CoreG b1 c rest ∅ ∧
        _board b1 = _board b ∧ _empties b1 = _empties b ∧
        _stringLiberties b1 = _stringLiberties b ∧
        _stringSizes b1 = _stringSizes b ∧
        (∀ j, cell j → rootf (_stringUnionFind b1) j = rootf (_stringUnionFind b) j) ∧
        cell s ∧ at_ (_stringUnionFind b1) s = -1 ∧
        at_ (_board b) s = at_ (_board b) fn.
Proof.
  intros HC Hfn Hocc s.
  destruct (find_CoreG b c rest ∅ fn HC Hfn) as (b1 & Hfind & HC1 & Hb1 & Hcmp).
  assert (∀ j, cell j → rootf (_stringUnionFind b1) j = rootf (_stringUnionFind b) j)
    as Hroots.
  { intros j Hj. apply compressed_rootf; [apply HC|done|done]. }
  exists b1. split; [done|]. split; [done|].
  rewrite Hb1. cbn [set_stringUnionFind _board _empties _stringLiberties
                    _stringSizes _stringUnionFind].
  split_and!; try done.
  - by apply (cg_root_cell _ _ _ _ HC).
  - unfold s. rewrite <- (Hroots fn Hfn). apply rootf_is_root; [apply HC1|done].
  - apply (cg_root_colour _ _ _ _ HC); [done|]. apply not_elem_of_empty.
Qed.

(** ** The list of strings left without liberties *)

Lemma NL_transfer b b' col seen noLib :
  NL b col seen noLib → _board b' = _board b →
  (∀ n, n ∈ seen → enemy b col n →
        rootf (_stringUnionFind b') n = rootf (_stringUnionFind b) n ∧
        at_ (_stringLiberties b') (rootf (_stringUnionFind b) n)
        = at_ (_stringLiberties b) (rootf (_stringUnionFind b) n)) →
  NL b' col seen noLib.
Proof.
  intros [Hnd HNL] Hb Hsame. split; [done|]. intros s. rewrite HNL.
  unfold enemy. rewrite Hb. split.
  - intros [(n & Hn & He & Hr) Hl]. destruct (Hsame n Hn He) as [Hr' Hl'].
    split; [exists n; split; [done|]; split; [done|congruence]|].
    rewrite <- Hr, Hl', Hr. done.
  - intros [(n & Hn & He & Hr) Hl]. destruct (Hsame n Hn He) as [Hr' Hl'].
    split; [exists n; split; [done|]; split; [done|congruence]|].
    rewrite <- Hr, Hr', <- Hl', <- Hr', Hr. done.
Qed.

Lemma NL_snoc_other b col seen noLib fn :
  NL b col seen noLib → ¬ enemy b col fn → NL b col (seen ++ [fn]) noLib.
Proof.
  intros [Hnd HNL] Hne. split; [done|]. intros s. rewrite HNL.
  split; intros [(n & Hn & He & Hr) Hl]; (split; [|done]); exists n;
    (split; [|by split]).
  - apply elem_of_app. by left.
  - apply elem_of_app in Hn as [?|Hn]; [done|].
    apply list_elem_of_singleton in Hn as ->. done.
Qed.

Lemma link_friend_unregistry b cur fn r b' :
  link_friend b cur fn = Ok (r, b') → unregistry b' = unregistry b.
Proof.
  unfold link_friend. intros H. inv_bind H. destruct a as [sn b1].
  inv_bind H. inv_bind H. injection H as _ <-.
  apply find_unregistry in E. apply add_liberties_unregistry in E0.
  destruct (negb (cur =? sn));
    [apply merge_unregistry in E1 | injection E1 as <-]; congruence.
Qed.

Lemma link_enemy_unregistry b fn acc r b' :
  link_enemy b fn acc = Ok (r, b') → unregistry b' = unregistry b.
Proof.
  unfold link_enemy. intros H. inv_bind H. destruct a as [sn b1].
  inv_bind H. inv_bind H. injection H as _ <-.
  apply find_unregistry in E. apply add_liberties_unregistry in E0. congruence.
Qed.

Lemma in_string_root brd uf fn :
  at_ brd fn ≠ 0 → in_string brd uf (rootf uf fn) fn = true.
Proof.
  intros H. unfold in_string. rewrite Z.eqb_refl.
  by destruct (Z.eqb_spec (at_ brd fn) 0).
Qed.

(** ** A friendly neighbour *)

Lemma link_friend_spec b c fn rest :
  CoreG b c (fn :: rest) ∅ → cell c → fn ∈ _get_neighbors c →
  at_ (_board b) c ≠ 0 → at_ (_board b) fn = at_ (_board b) c →
  (length (fn :: rest) ≤ 4)%nat →
  ∃ b', link_friend b (rootf (_stringUnionFind b) c) fn
        = Ok (rootf (_stringUnionFind b) fn, b') ∧
        CoreG b' c rest ∅ ∧ _board b' = _board b ∧
        rootf (_stringUnionFind b') c = rootf (_stringUnionFind b) fn ∧
        (∀ j, cell j → at_ (_board b) j ≠ at_ (_board b) c →
           rootf (_stringUnionFind b') j = rootf (_stringUnionFind b) j ∧
           (at_ (_board b) j ≠ 0 →
            at_ (_stringLiberties b') (rootf (_stringUnionFind b) j)
            = at_ (_stringLiberties b) (rootf (_stringUnionFind b) j))).
Proof.
  intros HC Hc Hfn Hocc Hcol Hlen.
  assert (cell fn) as Hfnc by (by eapply nbrs_cell).
  assert (at_ (_board b) fn ≠ 0) as Hfocc by congruence.
  destruct (find_neighbour b c (fn :: rest) fn HC Hfnc Hfocc)
    as (b1 & Hfind & HC1 & Hb1 & He1 & Hl1 & Hs1 & Hroots & Hsc & Hsr & Hscol).
  set (s := rootf (_stringUnionFind b) fn) in *.
  set (cur := rootf (_stringUnionFind b) c) in *.
  assert (∀ i : Z, i ∉ (∅ : gset Z)) as HK0 by (intros; apply not_elem_of_empty).
  assert (at_ (_board b1) s ≠ 0) as Hsocc by congruence.
  (* the liberty count of the neighbour's string *)
  pose proof (lib_range b1 c (fn :: rest) s HC1 ltac:(by rewrite Hb1) Hlen Hsc Hsocc Hsr)
    as Hrange.
  rewrite pending_cons in Hrange.
  assert (in_string (_board b1) (_stringUnionFind b1) s fn = true) as Hin.
  { unfold s. rewrite <- (Hroots fn Hfnc). apply in_string_root. congruence. }
  rewrite Hin in Hrange. cbn [Z.b2z] in Hrange.
  pose proof (pending_bounds (_board b1) (_stringUnionFind b1) s rest) as Hpb.
  unfold link_friend. rewrite Hfind. cbn [mbind res_bind].
  rewrite add_liberties_spec; [|apply HC1|done|lia]. cbn [mbind res_bind].
  set (b2 := set_stringLiberties b1 _).
  assert (rootf (_stringUnionFind b1) c = cur) as Hcur1 by (by apply Hroots).
  assert (rootf (_stringUnionFind b1) fn = s) as Hs1' by (by apply Hroots).
  assert (∀ j, cell j → at_ (_board b) j ≠ at_ (_board b) c →
               rootf (_stringUnionFind b) j ≠ s ∧ rootf (_stringUnionFind b) j ≠ cur)
    as Hother.
  { intros j Hj Hjc.
    pose proof (cg_root_colour _ _ _ _ HC j Hj (HK0 j)) as Hrj.
    pose proof (cg_root_colour _ _ _ _ HC c Hc (HK0 c)) as Hrc.
    split; intros E; rewrite E in Hrj; fold s cur in Hrj, Hrc; congruence. }
  destruct (Z.eqb_spec cur s) as [Ecs|Ecs]; cbn [negb mbind res_bind].
  - (* the neighbour already belongs to the string of the new stone *)
    exists b2. split; [done|]. split.
    { eapply (CoreG_decr_step b1 b2 c fn rest); try done.
      - by rewrite Hb1.
      - by rewrite Hb1.
      - right. by rewrite Hcur1, Hs1'.
      - apply HC1.
      - unfold b2. cbn. by rewrite Hs1'. }
    split; [done|]. split; [cbn; congruence|].
    intros j Hj Hjc. destruct (Hother j Hj Hjc) as [Hjs Hjcur].
    split; [cbn; by apply Hroots|]. intros _. cbn.
    rewrite at_upd_ne; [by rewrite Hl1|done|by apply (cg_root_cell _ _ _ _ HC)|done].
  - (* merge: the string of the new stone goes under the neighbour's root *)
    assert (cell cur) as Hcc by (by apply (cg_root_cell _ _ _ _ HC)).
    assert (at_ (_stringUnionFind b1) cur = -1) as Hcr.
    { rewrite <- Hcur1. apply rootf_is_root; [apply HC1|done]. }
    pose proof (cg_len_lib _ _ _ _ HC1) as Hll.
    pose proof (cg_len_sizes _ _ _ _ HC1) as Hls.
    pose proof (cg_uf _ _ _ _ HC1) as [Hlu _].
    set (lib1 := _stringLiberties b1) in *.
    set (lib3 := upd (upd (upd lib1 s (at_ lib1 s + -1)) s
                        (at_ lib1 s - 1 + at_ lib1 cur)) cur (-1)).
    assert (∀ x, cell x → at_ lib3 x
       = if decide (x = rootf (_stringUnionFind b1) c) then -1
         else if decide (x = rootf (_stringUnionFind b1) fn)
              then at_ lib1 (rootf (_stringUnionFind b1) fn) - 1
                   + at_ lib1 (rootf (_stringUnionFind b1) c)
              else at_ lib1 x) as Hlib3.
    { intros x Hx. rewrite Hcur1, Hs1'. unfold lib3.
      rewrite !at_upd by (rewrite ?length_upd; done).
      repeat case_decide; try done; congruence. }
    (* the merged count, read off a board that has it *)
    set (bm := set_stringUnionFind (set_stringLiberties b1 lib3)
                 (upd (_stringUnionFind b1) cur s)).
    assert (CoreG bm c rest ∅) as HCm.
    { eapply (CoreG_link_step b1 bm c fn rest); try done.
      - by rewrite Hb1.
      - by rewrite Hb1.
      - rewrite Hs1', Hcur1. intros E. by apply Ecs.
      - cbn. by rewrite Hs1', Hcur1.
      - cbn. unfold lib3. by rewrite !length_upd. }
    assert (at_ (_board bm) s ≠ 0) as Hsoccm by (cbn; congruence).
    assert (at_ (_stringUnionFind bm) s = -1) as Hsrm.
    { cbn. rewrite at_upd_ne by done. done. }
    pose proof (lib_range bm c rest s HCm ltac:(cbn; by rewrite Hb1)
                  ltac:(simpl in Hlen; lia) Hsc Hsoccm Hsrm) as Hrm.
    pose proof (pending_bounds (_board bm) (_stringUnionFind bm) s rest) as Hpm.
    cbn [bm _stringLiberties set_stringUnionFind set_stringLiberties] in Hrm.
    rewrite Hlib3 in Hrm by done. rewrite Hcur1, Hs1' in Hrm.
    rewrite decide_False in Hrm by (intros E; by apply Ecs).
    rewrite decide_True in Hrm by done.
    destruct (merge_spec b2 s cur) as (sizes & Hsz & Hm); try done.
    { unfold b2. cbn. by rewrite length_upd. }
    { unfold b2. cbn. fold lib1.
      rewrite at_upd_eq by done.
      rewrite at_upd_ne; [lia|done|done|]. intros E. by apply Ecs. }
    rewrite Hm. cbn [mbind res_bind].
    eexists. split; [reflexivity|].
    split.
    { eapply (CoreG_link_step b1 _ c fn rest); try done.
      - congruence.
      - congruence.
      - rewrite Hs1', Hcur1. intros E. by apply Ecs.
      - cbn. by rewrite Hs1', Hcur1.
      - cbn. by rewrite !length_upd.
      - intros x Hx. rewrite <- Hlib3 by done. cbn. fold lib1. unfold lib3.
        rewrite (at_upd_eq lib1 s) by done.
        rewrite (at_upd_ne lib1 s cur); [|done|done|intros E; by apply Ecs].
        replace (at_ lib1 s + -1 + at_ lib1 cur) with (at_ lib1 s - 1 + at_ lib1 cur) by lia.
        done. }
    split; [done|].
    pose proof (link_rootf (_stringUnionFind b1) cur s (cg_uf _ _ _ _ HC1) Hcc Hsc Hcr Hsr Ecs)
      as Hlink.
    split.
    { cbn. rewrite Hlink by done. by rewrite Hcur1, Z.eqb_refl. }
    intros j Hj Hjc. destruct (Hother j Hj Hjc) as [Hjs Hjcur].
    split.
    + cbn. rewrite Hlink by done. rewrite Hroots by done.
      by destruct (Z.eqb_spec (rootf (_stringUnionFind b) j) cur).
    + intros _. cbn. fold lib1.
      assert (cell (rootf (_stringUnionFind b) j)) by (by apply (cg_root_cell _ _ _ _ HC)).
      rewrite !at_upd_ne by done. by rewrite Hl1.
Qed.

(** ** An enemy neighbour *)

Lemma link_enemy_spec b c fn rest seen noLib :
  CoreG b c (fn :: rest) ∅ → cell c → fn ∈ _get_neighbors c →
  at_ (_board b) c ≠ 0 →
  enemy b (at_ (_board b) c) fn →
  (length (fn :: rest) ≤ 4)%nat →
  (∀ n, n ∈ seen → cell n) →
  NL b (at_ (_board b) c) seen noLib →
  ∃ noLib' b', link_enemy b fn noLib = Ok (noLib', b') ∧
        CoreG b' c rest ∅ ∧ _board b' = _board b ∧
        (∀ j, cell j → rootf (_stringUnionFind b') j = rootf (_stringUnionFind b) j) ∧
        NL b' (at_ (_board b) c) (seen ++ [fn]) noLib'.
Proof.
  intros HC Hc Hfn Hcocc [Hfocc Hfcol] Hlen Hseen [Hnd HNL].
  assert (cell fn) as Hfnc by (by eapply nbrs_cell).
  destruct (find_neighbour b c (fn :: rest) fn HC Hfnc Hfocc)
    as (b1 & Hfind & HC1 & Hb1 & He1 & Hl1 & Hs1 & Hroots & Hsc & Hsr & Hscol).
  set (s := rootf (_stringUnionFind b) fn) in *.
  assert (at_ (_board b1) s ≠ 0) as Hsocc by congruence.
  pose proof (lib_range b1 c (fn :: rest) s HC1 ltac:(by rewrite Hb1) Hlen Hsc Hsocc Hsr)
    as Hrange.
  rewrite pending_cons in Hrange.
  assert (rootf (_stringUnionFind b1) fn = s) as Hs1' by (by apply Hroots).
  assert (in_string (_board b1) (_stringUnionFind b1) s fn = true) as Hin.
  { rewrite <- Hs1'. apply in_string_root. by rewrite Hb1. }
  rewrite Hin in Hrange. cbn [Z.b2z] in Hrange.
  pose proof (pending_bounds (_board b1) (_stringUnionFind b1) s rest) as Hpb.
  pose proof (cg_len_lib _ _ _ _ HC1) as Hll.
  unfold link_enemy. rewrite Hfind. cbn [mbind res_bind].
  rewrite add_liberties_spec; [|done|done|lia]. cbn [mbind res_bind].
  set (b2 := set_stringLiberties b1 _).
  rewrite aget_cell; [|unfold b2; cbn; by rewrite length_upd|done].
  cbn [mbind res_bind].
  assert (at_ (_stringLiberties b2) s = at_ (_stringLiberties b) s - 1) as Hl2.
  { unfold b2. cbn. rewrite at_upd_eq by done. rewrite Hl1. lia. }
  rewrite Hl2.
  assert (s ∉ noLib) as Hsn.
  { intros [_ H0]%HNL. rewrite Hl1 in Hrange. lia. }
  rewrite (bool_decide_eq_false_2 _ Hsn). cbn [negb]. rewrite andb_true_r.
  eexists _, b2. split; [reflexivity|]. split.
  { eapply (CoreG_decr_step b1 b2 c fn rest); try done.
    - by rewrite Hb1.
    - by rewrite Hb1.
    - left. by rewrite Hb1.
    - apply HC1.
    - unfold b2. cbn. by rewrite Hs1'. }
  split; [done|]. split; [intros j Hj; by apply Hroots|].
  assert (enemy b2 (at_ (_board b) c) fn) as Hen2.
  { split; cbn; by rewrite Hb1. }
  split.
  { destruct (_ =? 0); [|done].
    apply NoDup_app. split_and!; [done| |apply NoDup_singleton].
    by intros x Hx ->%list_elem_of_singleton. }
  intros s0. destruct (decide (s0 = s)) as [->|Hne].
  - split.
    + intros Hin'. destruct (Z.eqb_spec (at_ (_stringLiberties b) s - 1) 0) as [E|E];
        [|done].
      split; [|by rewrite Hl2].
      exists fn. split; [apply elem_of_app; right; by left|]. split; [done|].
      cbn. done.
    + intros [_ H0]. rewrite Hl2 in H0. rewrite H0. cbn.
      apply elem_of_app. right. by left.
  - assert (s0 ∈ (if at_ (_stringLiberties b) s - 1 =? 0 then noLib ++ [s] else noLib)
            ↔ s0 ∈ noLib) as ->.
    { destruct (_ =? 0); [|done]. rewrite elem_of_app, list_elem_of_singleton.
      split; [by intros [?|?]|by left]. }
    rewrite HNL. unfold enemy. cbn. rewrite Hb1.
    assert (∀ n, cell n → rootf (_stringUnionFind b) n = s0 →
                 at_ (upd (_stringLiberties b1) s (at_ (_stringLiberties b1) s + -1)) s0
                 = at_ (_stringLiberties b) s0) as Hl0.
    { intros n Hn Hr. rewrite at_upd_ne; [by rewrite Hl1|done| |done].
      rewrite <- Hr. by apply (cg_root_cell _ _ _ _ HC). }
    split.
    + intros [(n & Hn & He & Hr) H0]. split.
      * exists n. split; [apply elem_of_app; by left|]. split; [done|].
        rewrite Hroots; [done|by apply Hseen].
      * rewrite (Hl0 n); [done|by apply Hseen|done].
    + intros [(n & Hn & He & Hr) H0].
      assert (cell n) as Hnc.
      { apply elem_of_app in Hn as [?|Hx%list_elem_of_singleton];
          [by apply Hseen|by rewrite Hx]. }
      rewrite Hroots in Hr by done.
      apply elem_of_app in Hn as [Hn|Hx%list_elem_of_singleton];
        [|by rewrite Hx in Hr].
      split; [by exists n|]. by rewrite <- (Hl0 n).
Qed.

(** ** The whole linking loop *)

Lemma link_loop_spec c (Hc : cell c) : ∀ rest seen b noLib,
  CoreG b c rest ∅ →
  (∀ n, n ∈ rest → n ∈ _get_neighbors c) →
  (length rest ≤ 4)%nat →
  (∀ n, n ∈ seen → cell n) →
  at_ (_board b) c ≠ 0 →
  NL b (at_ (_board b) c) seen noLib →
  ∃ noLib' b',
    link_loop b (at_ (_board b) c) rest (rootf (_stringUnionFind b) c) noLib
    = Ok (noLib', b') ∧
    CoreG b' c [] ∅ ∧ _board b' = _board b ∧
    NL b' (at_ (_board b) c) (seen ++ rest) noLib' ∧
    (∀ j, cell j → at_ (_board b) j ≠ at_ (_board b) c →
          rootf (_stringUnionFind b') j = rootf (_stringUnionFind b) j).
Proof.
  induction rest as [|fn rest IH]; intros seen b noLib HC Hsub Hlen Hseen Hocc HNL.
  - exists noLib, b. rewrite app_nil_r. by split_and!.
  - assert (fn ∈ _get_neighbors c) as Hfn by (apply Hsub; by left).
    assert (cell fn) as Hfnc by (by eapply nbrs_cell).
    assert (∀ n, n ∈ rest → n ∈ _get_neighbors c) as Hsub'.
    { intros n Hn. apply Hsub. by right. }
    assert (length rest ≤ 4)%nat as Hlen' by (simpl in Hlen; lia).
    assert (∀ n, n ∈ seen ++ [fn] → cell n) as Hseen'.
    { intros n [?|Hx%list_elem_of_singleton]%elem_of_app;
        [by apply Hseen|by rewrite Hx]. }
    rewrite link_loop_cons. rewrite aget_cell by (done || apply HC).
    cbn [mbind res_bind].
    destruct (Z.eqb_spec (at_ (_board b) fn) (at_ (_board b) c)) as [Ef|Ef].
    + destruct (link_friend_spec b c fn rest HC Hc Hfn Hocc Ef Hlen)
        as (b' & Hstep & HC' & Hb' & Hcur & Hoth).
      rewrite Hstep. cbn [mbind res_bind].
      assert (NL b' (at_ (_board b') c) (seen ++ [fn]) noLib) as HNL'.
      { rewrite Hb'. apply NL_snoc_other.
        - eapply NL_transfer; [exact HNL|done|].
          intros n Hn [He1 He2]. destruct (Hoth n (Hseen n Hn) He2) as [? Hl].
          split; [done|by apply Hl].
        - intros [_ Hx]. rewrite Hb' in Hx. by apply Hx. }
      destruct (IH (seen ++ [fn]) b' noLib HC' Hsub' Hlen' Hseen'
                  ltac:(by rewrite Hb') HNL')
        as (noLib' & b'' & Hloop & HC'' & Hb'' & HNL'' & Hoth'').
      rewrite Hb' in Hloop. rewrite Hcur in Hloop.
      exists noLib', b''. rewrite <- app_assoc in HNL''. rewrite Hb' in HNL''.
      split_and!; [done|done|congruence|done|].
      intros j Hj Hjc. rewrite Hoth''; [|done|by rewrite Hb'].
      by apply Hoth.
    + destruct (Z.eqb_spec (at_ (_board b) fn) _EMPTY) as [E0|E0]; cbn [negb].
      * pose proof (CoreG_skip_step b c fn rest HC E0) as HC'.
        assert (NL b (at_ (_board b) c) (seen ++ [fn]) noLib) as HNL'.
        { apply NL_snoc_other; [done|]. intros [Hx _]. by apply Hx. }
        destruct (IH (seen ++ [fn]) b noLib HC' Hsub' Hlen' Hseen' Hocc HNL')
          as (noLib' & b'' & Hloop & HC'' & Hb'' & HNL'' & Hoth'').
        exists noLib', b''. rewrite <- app_assoc in HNL''. by split_and!.
      * destruct (link_enemy_spec b c fn rest seen noLib HC Hc Hfn Hocc (conj E0 Ef)
                    Hlen Hseen HNL)
          as (noLib1 & b' & Hstep & HC' & Hb' & Hroots & HNL').
        rewrite Hstep. cbn [mbind res_bind].
        rewrite <- Hb' in HNL'.
        destruct (IH (seen ++ [fn]) b' noLib1 HC' Hsub' Hlen' Hseen'
                    ltac:(by rewrite Hb') HNL')
          as (noLib' & b'' & Hloop & HC'' & Hb'' & HNL'' & Hoth'').
        rewrite Hb' in Hloop. rewrite Hroots in Hloop by done.
        exists noLib', b''. rewrite <- app_assoc in HNL''. rewrite Hb' in HNL''.
        split_and!; [done|done|congruence|done|].
        intros j Hj Hjc. rewrite Hoth''; [|done|by rewrite Hb'].
        by apply Hroots.
Qed.

(** ** Placing a stone *)

Lemma CoreG_any_cell b c c' K : CoreG b c [] K → CoreG b c' [] K.
Proof.
  intros HC. constructor; try (by destruct HC).
  - intros i n Hi HK Hn Hocc Hcol.
    destruct (cg_adj _ _ _ _ HC i n Hi HK Hn Hocc Hcol) as [[_ Hx]|[[_ Hx]|?]];
      [by apply elem_of_nil in Hx|by apply elem_of_nil in Hx|by right; right].
  - intros r Hr HK Hocc Hroot. rewrite (cg_lib_core _ _ _ r HC) by done.
    change (pending _ _ r []) with 0. lia.
Qed.

Lemma getPositionHash_spec b i col :
  tables_ok b → cell i → col = 1 ∨ col = 2 →
  _getPositionHash b i col = Ok (zobrist b i col).
Proof.
  intros [Hlen Hrows] [Hi1 Hi2] Hcol. unfold _getPositionHash, zobrist, aget, py_index.
  rewrite Hlen. rewrite Z2Nat.id by (unfold ncells, _BOARDSIZE; lia).
  rewrite (proj2 (Z.leb_le _ _) Hi1), (proj2 (Z.ltb_lt _ _) Hi2).
  cbn [andb mbind res_bind].
  destruct (_positionHashes b !! Z.to_nat i) as [row|] eqn:E.
  2:{ apply lookup_ge_None in E. unfold cell in *. lia. }
  cbn [mbind res_bind default].
  assert (length row = 2%nat) as Hr.
  { apply Hrows. by eapply list_elem_of_lookup_2. }
  rewrite Hr.
  destruct row as [|x [|y [|]]]; try done.
  by destruct Hcol as [-> | ->].
Qed.

Lemma count_loop_spec b col : ∀ nbrs e s,
  length (_board b) = Z.to_nat ncells → (∀ n, n ∈ nbrs → cell n) →
  ∃ s', count_loop b col nbrs e s
        = Ok (e + sumZ (fun n => Z.b2z (at_ (_board b) n =? 0)) nbrs, s').
Proof.
  induction nbrs as [|n nbrs IH]; intros e s Hl Hn; cbn [count_loop sumZ foldr].
  - exists s. by rewrite Z.add_0_r.
  - rewrite aget_cell by (done || apply Hn; by left). cbn [mbind res_bind].
    assert (∀ n, n ∈ nbrs → cell n) as Hn' by (intros; apply Hn; by right).
    unfold _EMPTY. destruct (at_ (_board b) n =? 0); cbn [Z.b2z].
    + destruct (IH (e + 1) s Hl Hn') as [s' ->]. exists s'. do 2 f_equal.
      unfold sumZ. lia.
    + destruct (at_ (_board b) n =? col).
      * destruct (IH e (s + 1) Hl Hn') as [s' ->]. exists s'. do 2 f_equal.
      * destruct (IH e s Hl Hn') as [s' ->]. exists s'. do 2 f_equal.
Qed.

Section put_start.
  Context (b : Board) (c col : Z).
  Hypothesis HC : Core b.
  Hypothesis Hc : cell c.
  Hypothesis Hempty : at_ (_board b) c = 0.
  Hypothesis Hcol : col = 1 ∨ col = 2.

  Local Abbreviation brd := (_board b).
  Local Abbreviation uf := (_stringUnionFind b).
  Local Abbreviation brd1 := (upd (_board b) c col).

Local Lemma HK0 : ∀ i : Z, i ∉ (∅ : gset Z).
  Proof. intros; apply not_elem_of_empty. Qed.

Lemma ps_brd1_c : at_ brd1 c = col.
  Proof using HC Hc. apply at_upd_eq; [apply HC|done]. Qed.

Lemma ps_brd1_other j : cell j → j ≠ c → at_ brd1 j = at_ brd j.
  Proof using Hc. intros. by apply at_upd_ne. Qed.

Lemma ps_root_c : rootf uf c = c.
  Proof using HC Hc Hempty. apply (cg_empty_self _ _ _ _ HC); [done|apply HK0|done]. Qed.

  (** No stone has the empty cell [c] as its root. *)
Lemma ps_class_c j : cell j → rootf uf j = c → j = c.
  Proof using HC Hc Hempty.
    intros Hj Hr. destruct (decide (at_ brd j = 0)) as [E|E].
    - rewrite (cg_empty_self _ _ _ _ HC j Hj (HK0 j) E) in Hr. done.
    - pose proof (cg_root_colour _ _ _ _ HC j Hj (HK0 j)) as Hrc.
      rewrite Hr in Hrc. congruence.
  Qed.

Lemma ps_in_string_c j : cell j →
    in_string brd1 uf c j = bool_decide (j = c).
  Proof using HC Hc Hempty Hcol.
    intros Hj. unfold in_string. case_bool_decide as E.
    - subst j. rewrite ps_brd1_c, ps_root_c, Z.eqb_refl.
      by destruct Hcol as [-> | ->].
    - destruct (Z.eqb_spec (rootf uf j) c) as [Er|Er]; [|by rewrite andb_false_r].
      by apply ps_class_c in Er.
  Qed.

Lemma ps_in_string_other r j : cell j → r ≠ c →
    in_string brd1 uf r j = in_string brd uf r j.
  Proof using HC Hc Hempty.
    intros Hj Hr. unfold in_string. destruct (decide (j = c)) as [->|E].
    - rewrite ps_root_c. destruct (Z.eqb_spec c r); [congruence|].
      by rewrite !andb_false_r.
    - by rewrite ps_brd1_other.
  Qed.

Lemma ps_nb_empty j : cell j →
    nb_empty brd1 j = nb_empty brd j - Z.b2z (bool_decide (c ∈ _get_neighbors j)).
  Proof using HC Hc Hempty Hcol.
    intros Hj. rewrite nb_empty_upd; [|apply HC|done|done].
    rewrite Hempty.
    case_bool_decide; destruct Hcol as [-> | ->]; simpl; lia.
  Qed.

Lemma ps_plib_other r : r ≠ c →
    plib brd uf r = plib brd1 uf r + pending brd1 uf r (_get_neighbors c).
  Proof using HC Hc Hempty Hcol.
    intros Hr. unfold plib, pending.
    rewrite <- (sumZ_indicator (fun n => Z.b2z (in_string brd1 uf r n))
                  (_get_neighbors c) cells);
      [|apply NoDup_cells|by apply nbrs_NoDup|].
    2:{ intros n Hn. apply cell_in_cells. by eapply nbrs_cell. }
    rewrite <- sumZ_add. apply sumZ_ext. intros j Hj%cell_in_cells.
    rewrite ps_in_string_other by done.
    rewrite ps_nb_empty by done.
    rewrite (bool_decide_ext (j ∈ _get_neighbors c) (c ∈ _get_neighbors j)).
    2:{ split; intros; by apply nbrs_sym. }
    destruct (in_string brd uf r j); case_bool_decide; simpl; lia.
  Qed.

Lemma ps_plib_c : plib brd1 uf c = nb_empty brd1 c.
  Proof using HC Hc Hempty Hcol.
    unfold plib.
    rewrite (sumZ_ext _ (fun j => if bool_decide (j = c) then nb_empty brd1 j else 0)).
    - apply sumZ_single; [apply NoDup_cells|by apply cell_in_cells].
    - intros j Hj%cell_in_cells. by rewrite ps_in_string_c.
  Qed.

Lemma ps_pending_c : pending brd1 uf c (_get_neighbors c) = 0.
  Proof using HC Hc Hempty Hcol.
    unfold pending. apply sumZ_zero. intros n Hn.
    rewrite ps_in_string_c by (by eapply nbrs_cell).
    rewrite bool_decide_eq_false_2; [done|].
    intros ->. by apply (nbrs_irrefl c).
  Qed.

Lemma ps_ext_c : ext_of uf c ≤ 2 * size_of uf c + 2.
  Proof using HC Hc Hempty.
    assert (∀ j, cell j → (rootf uf j =? c) = bool_decide (j = c)) as Hcls.
    { intros j Hj. case_bool_decide as E.
      - subst. by rewrite ps_root_c, Z.eqb_refl.
      - destruct (Z.eqb_spec (rootf uf j) c) as [Er|Er]; [|done].
        by apply ps_class_c in Er. }
    assert (size_of uf c = 1) as ->.
    { unfold size_of.
      rewrite (sumZ_ext _ (fun j => if bool_decide (j = c) then 1 else 0)).
      - apply (sumZ_single (fun _ => 1)); [apply NoDup_cells|by apply cell_in_cells].
      - intros j Hj%cell_in_cells. rewrite Hcls by done. by case_bool_decide. }
    unfold ext_of.
    rewrite (sumZ_ext _ (fun j => if bool_decide (j = c)
       then sumZ (fun n => Z.b2z (negb (rootf uf n =? c))) (_get_neighbors j) else 0)).
    - rewrite (sumZ_single (fun j => sumZ (fun n => Z.b2z (negb (rootf uf n =? c)))
                                        (_get_neighbors j)));
        [|apply NoDup_cells|by apply cell_in_cells].
      pose proof (sumZ_b2z_le_length (fun n => negb (rootf uf n =? c)) (_get_neighbors c)).
      pose proof (nbrs_length c Hc). lia.
    - intros j Hj%cell_in_cells. by rewrite Hcls.
  Qed.

Lemma put_start_CoreG : CoreG (put_start b c col) c (_get_neighbors c) ∅.
  Proof using HC Hc Hempty Hcol.
    pose proof (cg_len_board _ _ _ _ HC) as Hlb.
    pose proof (cg_len_lib _ _ _ _ HC) as Hll.
    pose proof (cg_uf _ _ _ _ HC) as Hw.
    assert (col ≠ 0) as Hcol0 by (destruct Hcol; lia).
    constructor; cbn [put_start _board _stringLiberties _stringSizes _stringUnionFind
                      _empties set_stringSizes set_stringLiberties set_empties
                      set_currentHash set_board];
      rewrite ?length_upd; try (by destruct HC).
    - intros n Hn. by eapply nbrs_cell.
    - intros i Hi. destruct (decide (i = c)) as [->|E].
      + rewrite ps_brd1_c. destruct Hcol; lia.
      + rewrite ps_brd1_other by done. by apply (cg_colours _ _ _ _ HC).
    - intros i. rewrite elem_of_difference, elem_of_singleton.
      rewrite (cg_empties _ _ _ _ HC).
      destruct (decide (i = c)) as [->|E].
      + rewrite ps_brd1_c. split; [by intros [_ ?]|]. intros [_ ?]. done.
      + split.
        * intros [[Hi H0] _]. by rewrite ps_brd1_other.
        * intros [Hi H0]. rewrite ps_brd1_other in H0 by done. done.
    - intros i Hi _ H0.
      destruct (decide (i = c)) as [->|E]; [by rewrite ps_brd1_c in H0|].
      rewrite ps_brd1_other in H0 by done.
      by apply (cg_empty_root _ _ _ _ HC).
    - intros i Hi _ Hp.
      assert (at_ brd i ≠ 0) as Hocc.
      { intros E. by apply Hp, (cg_empty_root _ _ _ _ HC). }
      assert (i ≠ c) as Hic by (intros ->; done).
      pose proof (cg_parent_colour _ _ _ _ HC i Hi (HK0 i) Hp) as Hpc.
      destruct (rootf_parent uf i Hw Hi Hp) as [Hpcell _].
      assert (at_ uf i ≠ c) as Hpne by (intros E; rewrite E in Hpc; congruence).
      by rewrite !ps_brd1_other.
    - intros i n Hi _ Hn Hocc Hcoleq.
      assert (cell n) as Hnc by (by eapply nbrs_cell).
      destruct (decide (i = c)) as [->|Ei]; [by left|].
      destruct (decide (n = c)) as [->|En].
      { right; left. split; [done|]. by apply nbrs_sym. }
      right; right. rewrite !ps_brd1_other in * by done.
      destruct (cg_adj _ _ _ _ HC i n Hi (HK0 i) Hn Hocc Hcoleq) as [[_ Hx]|[[_ Hx]|?]];
        [by apply elem_of_nil in Hx|by apply elem_of_nil in Hx|done].
    - intros i Hi _ Hocc. destruct (decide (i = c)) as [->|Ei].
      + rewrite ps_root_c. apply rtc_refl.
      + rewrite ps_brd1_other in Hocc by done.
        apply conn_upd_colour; [done|congruence|].
        by apply (cg_conn _ _ _ _ HC).
    - intros r Hr _ Hocc Hroot. destruct (decide (r = c)) as [->|Er].
      + rewrite at_upd_eq by done. rewrite ps_plib_c, ps_pending_c. lia.
      + rewrite at_upd_ne by done. rewrite ps_brd1_other in Hocc by done.
        rewrite (cg_lib_core _ _ _ r HC Hr (HK0 r) Hocc Hroot).
        rewrite (ps_plib_other r Er).
        rewrite pend_sign_occ by (rewrite ps_brd1_c; done). lia.
    - intros r Hr _ Hocc Hroot. destruct (decide (r = c)) as [->|Er].
      + apply ps_ext_c.
      + rewrite ps_brd1_other in Hocc by done. by apply (cg_ext _ _ _ _ HC).
  Qed.
End put_start.

Lemma put_stone_unfold b c col :
  Core b → tables_ok b → cell c → at_ (_board b) c = 0 → col = 1 ∨ col = 2 →
  _put_stone b c col = link_loop (put_start b c col) col (_get_neighbors c) c [].
Proof.
  intros HC Ht Hc Hempty Hcol.
  pose proof (cg_len_board _ _ _ _ HC) as Hlb.
  pose proof (cg_len_lib _ _ _ _ HC) as Hll.
  pose proof (cg_len_sizes _ _ _ _ HC) as Hls.
  unfold _put_stone.
  rewrite aset8_cell; [|done|done|destruct Hcol; lia]. cbn [mbind res_bind].
  rewrite (getPositionHash_spec (set_board b (upd (_board b) c col)) c col Ht Hc Hcol).
  cbn [mbind res_bind].
  rewrite bool_decide_eq_true_2.
  2:{ cbn. by apply (cg_empties _ _ _ _ HC). }
  cbn [mbind res_bind]. rewrite neighbors_of_cell by done. cbn [mbind res_bind].
  destruct (count_loop_spec
    (set_empties (set_currentHash (set_board b (upd (_board b) c col))
       (Z.lxor (_currentHash (set_board b (upd (_board b) c col)))
          (zobrist (set_board b (upd (_board b) c col)) c col)))
       (_empties (set_currentHash (set_board b (upd (_board b) c col))
          (Z.lxor (_currentHash (set_board b (upd (_board b) c col)))
          (zobrist (set_board b (upd (_board b) c col)) c col))) ∖ {[c]}))
    col (_get_neighbors c) 0 0) as [s' Hcount].
  { cbn. by rewrite length_upd. }
  { intros n Hn. by eapply nbrs_cell. }
  rewrite Hcount. cbn [mbind res_bind].
  rewrite Z.add_0_l.
  change (sumZ _ (_get_neighbors c)) with (nb_empty (upd (_board b) c col) c).
  pose proof (nb_empty_bounds (upd (_board b) c col) c Hc).
  rewrite aset8_cell; [|done|done|lia]. cbn [mbind res_bind].
  rewrite aset8_cell; [|done|done|lia]. cbn [mbind res_bind].
  reflexivity.
Qed.

(** [_put_stone] on an empty cell of a well-formed board: it succeeds,
    the registry is well-formed again, and the list it returns holds the
    roots of the neighbouring enemy strings that are left without
    liberty. *)
Lemma put_stone_spec b c col :
  Core b → tables_ok b → cell c → at_ (_board b) c = 0 → col = 1 ∨ col = 2 →
  ∃ noLib b',
    _put_stone b c col = Ok (noLib, b') ∧ Core b' ∧
    unregistry b' = unregistry (put_start b c col) ∧
    NL b' col (_get_neighbors c) noLib ∧
    (∀ j, cell j → at_ (upd (_board b) c col) j ≠ col →
          rootf (_stringUnionFind b') j = rootf (_stringUnionFind b) j).
Proof.
  intros HC Ht Hc Hempty Hcol.
  rewrite put_stone_unfold by done.
  pose proof (put_start_CoreG b c col HC Hc Hempty Hcol) as HC1.
  assert (at_ (_board (put_start b c col)) c = col) as Hbc.
  { cbn. apply at_upd_eq; [apply HC|done]. }
  assert (rootf (_stringUnionFind (put_start b c col)) c = c) as Hrc.
  { cbn. by apply (ps_root_c b c HC Hc Hempty). }
  destruct (link_loop_spec c Hc (_get_neighbors c) [] (put_start b c col) [] HC1)
    as (noLib & b' & Hloop & HC' & Hb' & HNL & Hoth).
  - done.
  - by apply nbrs_length.
  - intros n Hn. by apply elem_of_nil in Hn.
  - rewrite Hbc. destruct Hcol; lia.
  - split; [apply NoDup_nil_2|]. intros s. split.
    + intros Hs. by apply elem_of_nil in Hs.
    + intros [(n & Hn & _) _]. by apply elem_of_nil in Hn.
  - rewrite Hbc, Hrc in Hloop. rewrite Hbc in HNL, Hoth.
    exists noLib, b'. split; [done|]. split; [by eapply CoreG_any_cell|].
    split; [by eapply link_loop_unregistry|]. split; [done|]. done.
Qed.

(** ** Enumerating a string: [_breadthSearchString] *)

Lemma bfs_push_spec brd color string : ∀ nbrs frontier,
  length brd = Z.to_nat ncells → (∀ n, n ∈ nbrs → cell n) →
  bfs_push brd color string nbrs frontier
  = Ok (rev (bfs_new brd color string nbrs) ++ frontier).
Proof.
  induction nbrs as [|n nbrs IH]; intros frontier Hl Hn; [done|].
  cbn [bfs_push bfs_new List.filter].
  rewrite aget_cell by (done || apply Hn; by left). cbn [mbind res_bind].
  assert (∀ n, n ∈ nbrs → cell n) as Hn' by (intros; apply Hn; by right).
  destruct ((at_ brd n =? color) && negb (bool_decide (n ∈ string))).
  - rewrite IH by done. cbn [rev]. by rewrite <- app_assoc.
  - by rewrite IH.
Qed.

Lemma bfs_new_elem brd color string nbrs n :
  n ∈ bfs_new brd color string nbrs ↔ n ∈ nbrs ∧ at_ brd n = color ∧ n ∉ string.
Proof.
  unfold bfs_new. rewrite !list_elem_of_In, filter_In, andb_true_iff, negb_true_iff.
  rewrite Z.eqb_eq, bool_decide_eq_false. done.
Qed.

Lemma elem_of_rev (l : list Z) x : x ∈ rev l ↔ x ∈ l.
Proof. by rewrite !list_elem_of_In, <- in_rev. Qed.

Lemma bfs_new_length brd color string nbrs :
  (length (bfs_new brd color string nbrs) ≤ length nbrs)%nat.
Proof. unfold bfs_new. induction nbrs as [|n l IH]; simpl; [done|]. destruct (_ && _); simpl; lia. Qed.

Lemma bfs_todo_insert string x :
  cell x → x ∉ string → bfs_todo (string ∪ {[x]}) = bfs_todo string - 1.
Proof.
  intros Hx Hn. unfold bfs_todo.
  assert (sumZ (fun j => if bool_decide (j = x) then 1 else 0) cells = 1) as H1.
  { apply (sumZ_single (fun _ => 1)); [apply NoDup_cells|by apply cell_in_cells]. }
  rewrite <- H1. rewrite <- sumZ_sub. apply sumZ_ext. intros j Hj.
  rewrite (bool_decide_ext (j ∈ string ∪ {[x]}) (j ∈ string ∨ j = x))
    by (by rewrite elem_of_union, elem_of_singleton).
  case_bool_decide as E1; case_bool_decide as E2; case_bool_decide as E3; simpl;
    try lia; exfalso; try tauto; subst; tauto.
Qed.

Lemma bfs_todo_bounds string : 0 ≤ bfs_todo string ≤ 81.
Proof.
  unfold bfs_todo. split.
  - apply sumZ_nonneg. intros j _. by destruct (negb _).
  - pose proof (sumZ_b2z_le_length (fun j => negb (bool_decide (j ∈ string))) cells).
    rewrite length_cells in H. unfold ncells, _BOARDSIZE in H. lia.
Qed.

Lemma bfs_loop_S fuel brd color string x frontier :
  bfs_loop (S fuel) brd color string (x :: frontier)
  = (nbrs ← neighbors_of x;
     frontier ← bfs_push brd color (string ∪ {[x]}) nbrs frontier;
     bfs_loop fuel brd color (string ∪ {[x]}) frontier).
Proof. done. Qed.

Section bfs.
  Context (brd : list Z) (fc : Z).
  Hypothesis Hl : length brd = Z.to_nat ncells.
  Hypothesis Hfc : cell fc.

  Local Abbreviation color := (at_ brd fc).

  (** One round of the loop keeps the invariant. *)
Lemma bfs_inv_step string x below :
    bfs_inv brd fc string (x :: below) →
    bfs_inv brd fc (string ∪ {[x]})
      (rev (bfs_new brd color (string ∪ {[x]}) (_get_neighbors x)) ++ below).
  Proof using Hfc.
    intros HI.
    assert (conn brd fc x) as Hcx by (apply (bi_sound_stack _ _ _ _ HI); by left).
    assert (cell x) as Hx by (by eapply conn_cell).
    assert (at_ brd x = color) as Hxc by (symmetry; by apply conn_colour).
    set (new := bfs_new brd color (string ∪ {[x]}) (_get_neighbors x)).
    assert (∀ n, n ∈ rev new ↔ n ∈ _get_neighbors x ∧ at_ brd n = color ∧ n ∉ string ∪ {[x]})
      as Hnew.
    { intros n. rewrite elem_of_rev. apply bfs_new_elem. }
    constructor.
    - apply elem_of_union. left. apply HI.
    - intros y [Hy|Hy%elem_of_singleton]%elem_of_union; [by apply HI|by subst].
    - intros y [Hy|Hy]%elem_of_app.
      + apply Hnew in Hy as (Hn & Hc & _).
        eapply rtc_r; [exact Hcx|]. split_and!; [done|done|congruence].
      + apply (bi_sound_stack _ _ _ _ HI). by right.
    - intros y [Hy|Hy%elem_of_singleton]%elem_of_union.
      + destruct (bi_closed _ _ _ _ HI y Hy) as [Hf|Hcl].
        * apply elem_of_cons in Hf as [->|Hf].
          -- right. intros n Hn Hc.
             destruct (decide (n ∈ string ∪ {[x]})) as [?|Hni]; [by left|].
             right. apply elem_of_app. left. by apply Hnew.
          -- left. apply elem_of_app. by right.
        * right. intros n Hn Hc. destruct (Hcl n Hn Hc) as [?|Hf].
          -- left. apply elem_of_union. by left.
          -- apply elem_of_cons in Hf as [->|Hf].
             ++ left. apply elem_of_union. right. by apply elem_of_singleton.
             ++ right. apply elem_of_app. by right.
      + subst y. right. intros n Hn Hc.
        destruct (decide (n ∈ string ∪ {[x]})) as [?|Hni]; [by left|].
        right. apply elem_of_app. left. by apply Hnew.
    - intros above y below' Heq Hy n Hn Hc.
      apply app_eq_app in Heq as [l [[Hp Hb]|[Ha Hb]]].
      + (* the split point would fall among the cells just pushed *)
        destruct l as [|z l].
        * rewrite app_nil_r in Hp. simpl in Hb. subst above.
          (* [y] is the top of [below] *)
          destruct (decide (n ∈ string ∪ {[x]})) as [?|Hni]; [by left|].
          apply elem_of_union in Hy as [Hy|Hy%elem_of_singleton].
          -- destruct (bi_stack _ _ _ _ HI [x] y below' ltac:(by rewrite <- Hb) Hy n Hn Hc)
               as [?|Hx'].
             ++ left. apply elem_of_union. by left.
             ++ apply list_elem_of_singleton in Hx'. subst n.
                left. apply elem_of_union. right. by apply elem_of_singleton.
          -- subst y. right. by apply Hnew.
        * exfalso. injection Hb as <- Hb.
          assert (y ∈ rev new) as Hin.
          { rewrite Hp. apply elem_of_app. right. by left. }
          apply Hnew in Hin as (_ & _ & Hni). done.
      + subst above.
        destruct (decide (n ∈ string ∪ {[x]})) as [?|Hni]; [by left|].
        apply elem_of_union in Hy as [Hy|Hy%elem_of_singleton].
        * destruct (bi_stack _ _ _ _ HI (x :: l) y below'
                      ltac:(by rewrite Hb) Hy n Hn Hc) as [?|Hx'].
          -- left. apply elem_of_union. by left.
          -- apply elem_of_cons in Hx' as [->|Hx'].
             ++ left. apply elem_of_union. right. by apply elem_of_singleton.
             ++ right. apply elem_of_app. by right.
        * subst y. right. apply elem_of_app. left. by apply Hnew.
  Qed.

  (** At the end the set is the connected component of [fc]. *)
Lemma bfs_inv_done string j :
    bfs_inv brd fc string [] → j ∈ string ↔ conn brd fc j.
  Proof using Type.
    intros HI. split; [by apply HI|].
    intros Hc. revert j Hc. apply rtc_ind_r; [apply HI|].
    intros y z Hy (Hyc & Hz & Hcol) IH.
    destruct (bi_closed _ _ _ _ HI y IH) as [Hf|Hcl]; [by apply elem_of_nil in Hf|].
    destruct (Hcl z Hz) as [?|Hf]; [|done|by apply elem_of_nil in Hf].
    rewrite <- Hcol. symmetry. by apply conn_colour.
  Qed.

Lemma bfs_loop_spec : ∀ fuel string frontier,
    bfs_inv brd fc string frontier →
    5 * bfs_todo string + Z.of_nat (length frontier) < Z.of_nat fuel →
    ∃ S, bfs_loop fuel brd color string frontier = Ok S ∧
         ∀ j, j ∈ S ↔ conn brd fc j.
  Proof using Hl Hfc.
    induction fuel as [|fuel IH]; intros string frontier HI Hm.
    { pose proof (bfs_todo_bounds string). lia. }
    destruct frontier as [|x below]; cbn [bfs_loop].
    - exists string. split; [done|]. intros j. by apply bfs_inv_done.
    - assert (conn brd fc x) as Hcx by (apply (bi_sound_stack _ _ _ _ HI); by left).
      assert (cell x) as Hx by (by eapply conn_cell).
      rewrite neighbors_of_cell by done. cbn [mbind res_bind].
      rewrite bfs_push_spec by (done || intros; by eapply nbrs_cell).
      cbn [mbind res_bind].
      apply IH; [by apply bfs_inv_step|].
      rewrite length_app, length_rev.
      pose proof (bfs_new_length brd color (string ∪ {[x]}) (_get_neighbors x)) as Hnl.
      pose proof (nbrs_length x Hx) as Hx4.
      cbn [length] in Hm.
      destruct (decide (x ∈ string)) as [Hin|Hin].
      + (* a cell already in the set: nothing is pushed *)
        assert (bfs_new brd color (string ∪ {[x]}) (_get_neighbors x) = []) as Hnil.
        { destruct (bfs_new _ _ _ _) as [|n l] eqn:E; [done|]. exfalso.
          assert (n ∈ bfs_new brd color (string ∪ {[x]}) (_get_neighbors x)) as Hn
            by (rewrite E; by left).
          apply bfs_new_elem in Hn as (Hn & Hc & Hni).
          destruct (bi_stack _ _ _ _ HI [] x below eq_refl Hin n Hn Hc) as [?|Hf].
          - apply Hni, elem_of_union. by left.
          - by apply elem_of_nil in Hf. }
        rewrite Hnil. cbn [length].
        assert (string ∪ {[x]} = string) as ->.
        { rewrite (union_comm_L string). apply subseteq_union_1_L.
          by apply singleton_subseteq_l. }
        lia.
      + rewrite bfs_todo_insert by done. lia.
  Qed.

Lemma breadthSearchString_spec b :
    _board b = brd →
    ∃ S, _breadthSearchString b fc = Ok S ∧ ∀ j, j ∈ S ↔ conn brd fc j.
  Proof using Hl Hfc.
    intros Hb. unfold _breadthSearchString. rewrite Hb.
    rewrite aget_cell by done. cbn [mbind res_bind].
    change bfs_fuel with (S 499). rewrite bfs_loop_S.
    rewrite neighbors_of_cell by done. cbn [mbind res_bind].
    rewrite bfs_push_spec by (done || intros; by eapply nbrs_cell).
    cbn [mbind res_bind]. rewrite app_nil_r.
    rewrite (union_idemp_L ({[fc]} : gset Z)).
    set (new := bfs_new brd color {[fc]} (_get_neighbors fc)).
    assert (∀ n, n ∈ rev new ↔ n ∈ _get_neighbors fc ∧ at_ brd n = color ∧ n ∉ ({[fc]} : gset Z))
      as Hnew.
    { intros n. rewrite elem_of_rev. apply bfs_new_elem. }
    apply bfs_loop_spec.
    - constructor.
      + by apply elem_of_singleton.
      + intros x ->%elem_of_singleton. apply rtc_refl.
      + intros x (Hn & Hc & _)%Hnew. apply rtc_once. by split_and!.
      + intros x ->%elem_of_singleton. right. intros n Hn Hc.
        right. apply Hnew. split_and!; [done|done|].
        intros ->%elem_of_singleton. by apply (nbrs_irrefl fc).
      + intros above x below Heq ->%elem_of_singleton.
        exfalso.
        assert (fc ∈ rev new) as Hin by (rewrite Heq; apply elem_of_app; right; by left).
        apply Hnew in Hin as (_ & _ & Hni). apply Hni. by apply elem_of_singleton.
    - rewrite length_rev.
      pose proof (bfs_new_length brd color {[fc]} (_get_neighbors fc)).
      pose proof (nbrs_length fc Hfc). pose proof (bfs_todo_bounds {[fc]}).
      fold new in H. lia.
  Qed.
End bfs.

(** ** Capturing: the registry while a string is torn down *)

(** Two forests that agree on which cells belong to the class of [r] give
    that class the same counts. *)
Section same_class.
  Context (brd uf uf' : list Z) (r : Z).
  Hypothesis Hcls : ∀ j, cell j → (rootf uf' j =? r) = (rootf uf j =? r).

Lemma in_string_same_class j :
    cell j → in_string brd uf' r j = in_string brd uf r j.
  Proof using Hcls. intros Hj. unfold in_string. by rewrite Hcls. Qed.

Lemma plib_same_class : plib brd uf' r = plib brd uf r.
  Proof using Hcls.
    unfold plib. apply sumZ_ext. intros j Hj%cell_in_cells.
    by rewrite in_string_same_class.
  Qed.

Lemma pending_same_class rest :
    (∀ n, n ∈ rest → cell n) → pending brd uf' r rest = pending brd uf r rest.
  Proof using Hcls.
    intros Hrest. unfold pending. apply sumZ_ext. intros n Hn.
    rewrite in_string_same_class; [done|]. by apply Hrest.
  Qed.

Lemma size_same_class : size_of uf' r = size_of uf r.
  Proof using Hcls.
    unfold size_of. apply sumZ_ext. intros j Hj%cell_in_cells. by rewrite Hcls.
  Qed.

Lemma ext_same_class : ext_of uf' r = ext_of uf r.
  Proof using Hcls.
    unfold ext_of. apply sumZ_ext. intros j Hj%cell_in_cells.
    rewrite Hcls by done. destruct (rootf uf j =? r); [|done].
    apply sumZ_ext. intros n Hn. rewrite Hcls; [done|]. by eapply nbrs_cell.
  Qed.
End same_class.

(** A stone outside [K] has no same-coloured neighbour inside [K]. *)
Lemma cg_out_closed b c rest K i n :
  CoreG b c rest K → cell i → i ∉ K → n ∈ _get_neighbors i →
  at_ (_board b) i ≠ 0 → at_ (_board b) n = at_ (_board b) i → n ∉ K.
Proof.
  intros HC Hi HK Hn Hocc Hcol HnK. apply HK.
  apply (cg_K_closed _ _ _ _ HC n i HnK); [by apply nbrs_sym|congruence|congruence].
Qed.

(** Writes to the entries of the cells of [K] do not disturb the
    invariant, as long as the parents of the cells of [K] stay in [K]. *)
Lemma CoreG_inside b b' c rest K :
  CoreG b c rest K →
  _board b' = _board b → _empties b' = _empties b →
  uf_wf (_stringUnionFind b') →
  length (_stringLiberties b') = Z.to_nat ncells →
  length (_stringSizes b') = Z.to_nat ncells →
  (∀ i, cell i → i ∉ K → at_ (_stringUnionFind b') i = at_ (_stringUnionFind b) i) →
  (∀ i, i ∈ K → at_ (_stringUnionFind b') i = -1 ∨ at_ (_stringUnionFind b') i ∈ K) →
  (∀ i, cell i → i ∉ K → at_ (_stringLiberties b') i = at_ (_stringLiberties b) i) →
  CoreG b' c rest K.
Proof.
  intros HC Hb He Hw Hll Hls Hout Hin Hlib.
  assert (∀ n i r, reach (_stringUnionFind b) n i r → i ∉ K →
                   reach (_stringUnionFind b') n i r) as Hreach.
  { induction 1 as [i Hi Hr | n i r Hi Hp H IH]; intros HK.
    - apply reach_root; [done|]. by rewrite Hout.
    - apply reach_step; [done|by rewrite Hout|]. rewrite Hout by done.
      apply IH. by eapply cg_sep_out. }
  assert (∀ i, cell i → i ∉ K →
               rootf (_stringUnionFind b') i = rootf (_stringUnionFind b) i) as Hroots.
  { intros i Hi HK.
    destruct (uf_wf_reach _ i (cg_uf _ _ _ _ HC) Hi) as [n Hr].
    eapply rootf_reach. by apply Hreach. }
  assert (∀ n i r, reach (_stringUnionFind b') n i r → i ∈ K → r ∈ K) as Hstay.
  { induction 1 as [i Hi Hr | n i r Hi Hp H IH]; intros HK; [done|].
    apply IH. by destruct (Hin i HK). }
  assert (∀ i, i ∈ K → rootf (_stringUnionFind b') i ∈ K) as HrootK.
  { intros i HK. destruct (cg_sep_in _ _ _ _ HC i HK) as [Hi _].
    destruct (uf_wf_reach _ i Hw Hi) as [n Hr].
    by eapply Hstay. }
  assert (∀ r, r ∉ K → ∀ j, cell j →
            (rootf (_stringUnionFind b') j =? r) = (rootf (_stringUnionFind b) j =? r))
    as Hcls.
  { intros r Hr j Hj. destruct (decide (j ∈ K)) as [HK|HK].
    - pose proof (HrootK j HK). pose proof (cg_root_in _ _ _ _ HC j HK).
      destruct (Z.eqb_spec (rootf (_stringUnionFind b') j) r) as [E|_];
        [by rewrite E in *|].
      destruct (Z.eqb_spec (rootf (_stringUnionFind b) j) r) as [E|_];
        [by rewrite E in *|done].
    - by rewrite Hroots. }
  constructor; rewrite ?Hb, ?He; try (by destruct HC).
  - intros i HK. split; [by destruct (cg_sep_in _ _ _ _ HC i HK)|by apply Hin].
  - intros i Hi HK. rewrite Hout by done. by eapply cg_sep_out.
  - intros i Hi HK H0. rewrite Hout by done. by eapply cg_empty_root.
  - intros i Hi HK. rewrite Hout by done. by eapply cg_parent_colour.
  - intros i n Hi HK Hn H0 Hcol.
    rewrite (Hroots i) by done.
    rewrite (Hroots n); [by eapply cg_adj|by eapply nbrs_cell|by eapply cg_out_closed].
  - intros i Hi HK H0. rewrite Hroots by done. by eapply cg_conn.
  - intros r Hr HK H0 Hu. rewrite Hout in Hu by done. rewrite Hlib by done.
    rewrite (plib_same_class _ _ _ r (Hcls r HK)).
    rewrite (pending_same_class _ _ _ r (Hcls r HK)) by (by eapply cg_rest).
    by eapply cg_lib.
  - intros r Hr HK H0 Hu. rewrite Hout in Hu by done.
    rewrite (ext_same_class _ _ r (Hcls r HK)), (size_same_class _ _ r (Hcls r HK)).
    by eapply cg_ext.
Qed.

(** Making a cell a root keeps the forest a forest. *)
Lemma cut_wf uf s : uf_wf uf → cell s → uf_wf (upd uf s (-1)).
Proof.
  intros [Hlen Hw] Hs. split; [by rewrite length_upd|].
  intros i Hi. destruct (Hw i Hi) as (n & r & Hr).
  induction Hr as [i Hi' Hr | n i r Hi' Hp H IH].
  - exists 0%nat, i. apply reach_root; [done|].
    rewrite at_upd by done. by case_decide.
  - destruct (decide (i = s)) as [->|Hne].
    + exists 0%nat, s. apply reach_root; [done|]. by rewrite at_upd_eq.
    + destruct IH as (n' & r' & Hr'); [by eapply reach_cell in H as (? & ? & ?)|].
      exists (S n'), r'.
      apply reach_step; [done|by rewrite at_upd_ne|by rewrite at_upd_ne].
Qed.

(** An empty neighbour of the freed cell, or one inside [K]: no string
    outside [K] is waiting for it. *)
Lemma CoreG_drop_step b c fn rest K :
  CoreG b c (fn :: rest) K → at_ (_board b) c = 0 →
  at_ (_board b) fn = 0 ∨ fn ∈ K → CoreG b c rest K.
Proof.
  intros HC Hc0 Hfn. constructor; try (by destruct HC).
  - intros n Hn. eapply cg_rest; [exact HC|]. by right.
  - intros i n Hi HK Hn Hocc Hcol.
    destruct (cg_adj _ _ _ _ HC i n Hi HK Hn Hocc Hcol) as [[E _]|[[E _]|?]];
      [by rewrite E in Hocc|by rewrite E in Hcol; rewrite <- Hcol in Hocc|by right; right].
  - intros r Hr HK Hocc Hroot. rewrite (cg_lib _ _ _ _ HC r) by done.
    rewrite (pending_cons _ _ r fn).
    assert (in_string (_board b) (_stringUnionFind b) r fn = false) as ->.
    { unfold in_string. destruct Hfn as [E|HfK]; [by rewrite E|].
      destruct (Z.eqb_spec (rootf (_stringUnionFind b) fn) r) as [E|_];
        [|by rewrite andb_false_r].
      exfalso. apply HK. rewrite <- E. by eapply cg_root_in. }
    by rewrite Z.add_0_l.
Qed.

(** A stone outside [K] next to the freed cell: its string gets the
    liberty back. *)
Lemma CoreG_release_step b b' c fn rest K :
  CoreG b c (fn :: rest) K → cell fn → fn ∉ K →
  at_ (_board b) c = 0 → at_ (_board b) fn ≠ 0 →
  _board b' = _board b → _empties b' = _empties b →
  _stringUnionFind b' = _stringUnionFind b →
  length (_stringSizes b') = Z.to_nat ncells →
  _stringLiberties b'
  = upd (_stringLiberties b) (rootf (_stringUnionFind b) fn)
        (at_ (_stringLiberties b) (rootf (_stringUnionFind b) fn) + 1) →
  CoreG b' c rest K.
Proof.
  intros HC Hfnc HfK Hc0 Hocc Hb He Hu Hs Hl.
  pose proof (cg_root_cell _ _ _ _ HC fn Hfnc) as Hsc.
  pose proof (cg_len_lib _ _ _ _ HC) as Hll.
  constructor; rewrite ?Hb, ?He, ?Hu, ?Hl, ?length_upd; try (by destruct HC).
  - intros n Hn. eapply cg_rest; [exact HC|]. by right.
  - intros i n Hi HK Hn Hocc' Hcol.
    destruct (cg_adj _ _ _ _ HC i n Hi HK Hn Hocc' Hcol) as [[E _]|[[E _]|?]];
      [by rewrite E in Hocc'|by rewrite E in Hcol; rewrite <- Hcol in Hocc'
      |by right; right].
  - intros r Hr HK Hocc' Hroot. rewrite at_upd by done.
    pose proof (cg_lib _ _ _ _ HC r Hr HK Hocc' Hroot) as Hlib.
    rewrite pend_sign_empty in Hlib |- * by done.
    rewrite pending_cons in Hlib. unfold in_string at 1 in Hlib.
    case_decide as Hd.
    + rewrite Hd, Z.eqb_refl in Hlib.
      destruct (Z.eqb_spec (at_ (_board b) fn) 0); [done|].
      cbn [negb andb Z.b2z] in Hlib. rewrite Hd. lia.
    + destruct (Z.eqb_spec (rootf (_stringUnionFind b) fn) r); [done|].
      rewrite andb_false_r in Hlib. cbn [Z.b2z] in Hlib. lia.
Qed.

Lemma unregistry_fields b b' :
  unregistry b' = unregistry b →
  _board b' = _board b ∧ _empties b' = _empties b ∧
  _currentHash b' = _currentHash b ∧ static b' = static b.
Proof.
  intros H. split_and!;
    [exact (f_equal (fun u => u.1.1.1.2) H) | exact (f_equal (fun u => u.1.1.2) H)
    |exact (f_equal (fun u => u.1.2) H) | exact (f_equal snd H)].
Qed.

Lemma add_liberties_wrap b s d :
  length (_stringLiberties b) = Z.to_nat ncells → cell s →
  add_liberties b s d
  = Ok (set_stringLiberties b
          (upd (_stringLiberties b) s (wrap8 (at_ (_stringLiberties b) s + d)))).
Proof.
  intros Hl Hs. unfold add_liberties.
  rewrite aget_cell by done. cbn [mbind res_bind]. by rewrite aset8_cell_wrap.
Qed.

(** The neighbour loop of the capture of the stone on [s]. *)
Lemma release_loop_spec s K : ∀ rest b,
  CoreG b s rest K → s ∈ K → at_ (_board b) s = 0 → (length rest ≤ 4)%nat →
  ∃ b', release_loop b s rest = Ok b' ∧ CoreG b' s [] K ∧
        unregistry b' = unregistry b ∧
        compressed (_stringUnionFind b) (_stringUnionFind b').
Proof.
  induction rest as [|fn rest IH]; intros b HC Hs Hs0 Hlen.
  { exists b. split; [done|]. split; [done|]. split; [done|].
    apply compressed_refl. }
  assert (cell fn) as Hfnc by (eapply cg_rest; [exact HC|by left]).
  assert (length rest ≤ 4)%nat as Hlen' by (cbn [length] in Hlen; lia).
  cbn [release_loop]. rewrite aget_cell by (done || apply HC).
  cbn [mbind res_bind]. unfold _EMPTY.
  destruct (Z.eqb_spec (at_ (_board b) fn) 0) as [E0|E0]; cbn [negb].
  { apply IH; try done. eapply CoreG_drop_step; [exact HC|done|by left]. }
  destruct (find_CoreG b s (fn :: rest) K fn HC Hfnc) as (b1 & Hfind & HC1 & Hb1 & Hcmp).
  rewrite Hfind. cbn [mbind res_bind].
  set (st := rootf (_stringUnionFind b) fn) in *.
  assert (_board b1 = _board b) as Hbrd1 by (by rewrite Hb1).
  assert (unregistry b1 = unregistry b) as Hun1 by (by rewrite Hb1).
  assert (rootf (_stringUnionFind b1) fn = st) as Hst1.
  { apply compressed_rootf; [apply HC|done|done]. }
  assert (cell st) as Hstc by (by apply (cg_root_cell _ _ _ _ HC)).
  assert (∃ b2, (if negb (st =? s) then add_liberties b1 st 1 else Ok b1) = Ok b2 ∧
                CoreG b2 s rest K ∧ unregistry b2 = unregistry b1 ∧
                _stringUnionFind b2 = _stringUnionFind b1) as (b2 & -> & HC2 & Hun2 & Hu2).
  { destruct (decide (fn ∈ K)) as [HfK|HfK].
    - assert (CoreG b1 s rest K) as HCd.
      { eapply CoreG_drop_step; [exact HC1|by rewrite Hbrd1|by right]. }
      destruct (st =? s); cbn [negb]; [by exists b1|].
      rewrite add_liberties_wrap by (done || apply HC1).
      eexists. split; [reflexivity|]. split; [|done].
      assert (st ∈ K) as HstK by (by apply (cg_root_in _ _ _ _ HC)).
      eapply CoreG_inside; [exact HCd|done|done|apply HC1| |apply HC1|done| |].
      + cbn. rewrite length_upd. apply HC1.
      + intros i Hi. cbn. by destruct (cg_sep_in _ _ _ _ HC1 i Hi).
      + intros i Hi HiK. cbn. apply at_upd_ne; [done|done|by intros ->].
    - assert (st ∉ K) as HstK by (by apply (cg_root_out _ _ _ _ HC)).
      destruct (Z.eqb_spec st s) as [E|_]; [by rewrite E in HstK|]. cbn [negb].
      assert (at_ (_board b1) st ≠ 0) as Hstocc.
      { rewrite Hbrd1. unfold st. by rewrite (cg_root_colour _ _ _ _ HC). }
      assert (at_ (_stringUnionFind b1) st = -1) as Hstr.
      { rewrite <- Hst1. by apply (cg_root_is_root _ _ _ _ HC1). }
      pose proof (cg_lib _ _ _ _ HC1 st Hstc HstK Hstocc Hstr) as Hlib.
      rewrite pend_sign_empty in Hlib by (by rewrite Hbrd1).
      pose proof (plib_bound _ _ _ _ HC1 st Hstc HstK Hstocc Hstr) as Hpl.
      pose proof (pending_bounds (_board b1) (_stringUnionFind b1) st (fn :: rest)) as Hpb.
      rewrite add_liberties_wrap by (done || apply HC1).
      rewrite wrap8_small by lia.
      eexists. split; [reflexivity|]. split; [|done].
      eapply (CoreG_release_step b1 _ s fn rest K); try done.
      + by rewrite Hbrd1.
      + by rewrite Hbrd1.
      + apply HC1.
      + cbn. by rewrite Hst1. }
  destruct (IH b2 HC2 Hs) as (b' & Hrel & HC' & Hun' & Hcmp').
  { apply unregistry_fields in Hun2 as (Hbrd2 & _). by rewrite Hbrd2, Hbrd1. }
  { done. }
  exists b'. split; [done|]. split; [done|]. split; [congruence|].
  eapply compressed_trans; [apply HC|exact Hcmp|]. by rewrite <- Hu2.
Qed.

(** ** Capturing one stone *)

Lemma cap_start_fields b s :
  let b1 := cap_start b s in
  _board b1 = upd (_board b) s 0 ∧ _empties b1 = _empties b ∪ {[s]} ∧
  _stringUnionFind b1 = _stringUnionFind b ∧
  _stringLiberties b1 = _stringLiberties b ∧ _stringSizes b1 = _stringSizes b ∧
  _currentHash b1 = Z.lxor (_currentHash b) (zobrist b s (at_ (_board b) s)) ∧
  static b1 = static b.
Proof. unfold cap_start. by destruct (_nextPlayer b =? _WHITE). Qed.

(** The stones connected to a stone outside [K] are outside [K]. *)
Lemma conn_out b c rest K i y :
  CoreG b c rest K → cell i → i ∉ K → at_ (_board b) i ≠ 0 →
  conn (_board b) i y → y ∉ K.
Proof.
  intros HC Hi HK Hocc H. revert Hi HK Hocc.
  induction H as [|x y z (Hx & Hy & Hcol) _ IH]; intros Hi HK Hocc; [done|].
  apply IH; [by eapply nbrs_cell| |congruence].
  eapply cg_out_closed; [exact HC|exact Hi|done|done|done|done].
Qed.

Section cap_start.
  Context (b : Board) (c0 : Z) (K : gset Z) (s : Z).
  Hypothesis HC : CoreG b c0 [] K.
  Hypothesis Hs : s ∈ K.
  Hypothesis Hocc : at_ (_board b) s ≠ 0.

  Local Abbreviation brd := (_board b).
  Local Abbreviation uf := (_stringUnionFind b).
  Local Abbreviation brd1 := (upd (_board b) s 0).

Lemma cs_cell : cell s.
  Proof using HC Hs. by destruct (cg_sep_in _ _ _ _ HC s Hs). Qed.

Lemma cs_brd1_s : at_ brd1 s = 0.
  Proof using HC Hs. apply at_upd_eq; [apply HC|apply cs_cell]. Qed.

Lemma cs_brd1_other j : cell j → j ≠ s → at_ brd1 j = at_ brd j.
  Proof using HC Hs. intros. apply at_upd_ne; [apply cs_cell|done|done]. Qed.

Lemma cs_in_string r j : cell j → r ∉ K →
    in_string brd1 uf r j = in_string brd uf r j.
  Proof using HC Hs Hocc.
    intros Hj Hr. unfold in_string. destruct (decide (j = s)) as [->|E].
    - rewrite cs_brd1_s.
      destruct (Z.eqb_spec (rootf uf s) r) as [Er|_]; [|by rewrite !andb_false_r].
      exfalso. apply Hr. rewrite <- Er. by apply (cg_root_in _ _ _ _ HC).
    - by rewrite cs_brd1_other.
  Qed.

Lemma cs_nb_empty j : cell j →
    nb_empty brd1 j = nb_empty brd j + Z.b2z (bool_decide (s ∈ _get_neighbors j)).
  Proof using HC Hs Hocc.
    intros Hj. rewrite nb_empty_upd; [|apply HC|apply cs_cell|done].
    destruct (Z.eqb_spec (at_ brd s) 0) as [E|_]; [done|].
    case_bool_decide; simpl; lia.
  Qed.

Lemma cs_plib r : r ∉ K →
    plib brd1 uf r = plib brd uf r + pending brd1 uf r (_get_neighbors s).
  Proof using HC Hs Hocc.
    intros Hr. pose proof cs_cell as Hsc. unfold plib, pending.
    rewrite <- (sumZ_indicator (fun n => Z.b2z (in_string brd1 uf r n))
                  (_get_neighbors s) cells);
      [|apply NoDup_cells|by apply nbrs_NoDup|].
    2:{ intros n Hn. apply cell_in_cells. by eapply nbrs_cell. }
    rewrite <- sumZ_add. apply sumZ_ext. intros j Hj%cell_in_cells.
    rewrite cs_in_string by done.
    rewrite cs_nb_empty by done.
    rewrite (bool_decide_ext (j ∈ _get_neighbors s) (s ∈ _get_neighbors j)).
    2:{ split; intros; by apply nbrs_sym. }
    destruct (in_string brd uf r j); case_bool_decide; simpl; lia.
  Qed.

Lemma cap_start_CoreG : CoreG (cap_start b s) s (_get_neighbors s) K.
  Proof using HC Hs Hocc.
    pose proof (cg_len_board _ _ _ _ HC) as Hlb.
    pose proof cs_cell as Hsc.
    destruct (cap_start_fields b s) as (Hb & He & Hu & Hl & Hz & _).
    constructor; rewrite ?Hb, ?He, ?Hu, ?Hl, ?Hz, ?length_upd; try (by destruct HC).
    - intros n Hn. by eapply nbrs_cell.
    - intros i Hi. destruct (decide (i = s)) as [->|E].
      + by rewrite cs_brd1_s.
      + rewrite cs_brd1_other by done. by apply (cg_colours _ _ _ _ HC).
    - intros i. rewrite elem_of_union, elem_of_singleton.
      rewrite (cg_empties _ _ _ _ HC).
      destruct (decide (i = s)) as [->|E].
      + rewrite cs_brd1_s. split; [done|]. intros _. by right.
      + split.
        * intros [[Hi H0]|?]; [|done]. by rewrite cs_brd1_other.
        * intros [Hi H0]. rewrite cs_brd1_other in H0 by done. by left.
    - intros i n Hi Hn H0 Hcol.
      assert (cell i) as Hic by (by destruct (cg_sep_in _ _ _ _ HC i Hi)).
      destruct (decide (i = s)) as [->|Ei]; [by rewrite cs_brd1_s in H0|].
      destruct (decide (n = s)) as [->|En]; [done|].
      rewrite cs_brd1_other in H0 by done.
      rewrite !cs_brd1_other in Hcol by (done || by eapply nbrs_cell).
      by eapply cg_K_closed.
    - intros i Hi HK H0.
      assert (i ≠ s) as Ei by (by intros ->).
      rewrite cs_brd1_other in H0 by done. by eapply cg_empty_root.
    - intros i Hi HK Hp.
      assert (i ≠ s) as Ei by (by intros ->).
      pose proof (cg_sep_out _ _ _ _ HC i Hi HK Hp) as HpK.
      destruct (rootf_parent uf i (cg_uf _ _ _ _ HC) Hi Hp) as [Hpcell _].
      assert (at_ uf i ≠ s) as Ep by (intros E; rewrite E in HpK; done).
      rewrite !cs_brd1_other by done. by eapply cg_parent_colour.
    - intros i n Hi HK Hn H0 Hcol.
      assert (i ≠ s) as Ei by (by intros ->).
      assert (cell n) as Hnc by (by eapply nbrs_cell).
      rewrite (cs_brd1_other i) in H0, Hcol by done.
      destruct (decide (n = s)) as [->|En];
        [rewrite cs_brd1_s in Hcol; rewrite <- Hcol in H0; done|].
      rewrite cs_brd1_other in Hcol by done.
      destruct (cg_adj _ _ _ _ HC i n Hi HK Hn H0 Hcol) as [[_ Hx]|[[_ Hx]|?]];
        [by apply elem_of_nil in Hx|by apply elem_of_nil in Hx|by right; right].
    - intros i Hi HK H0.
      assert (i ≠ s) as Ei by (by intros ->).
      rewrite cs_brd1_other in H0 by done.
      apply conn_upd; [done| |by eapply cg_conn].
      intros y Hy ->. by eapply (conn_out b c0 [] K i s).
    - intros r Hr HK H0 Hroot.
      assert (r ≠ s) as Er by (by intros ->).
      rewrite cs_brd1_other in H0 by done.
      rewrite (cg_lib_core _ _ _ r HC Hr HK H0 Hroot).
      rewrite (cs_plib r HK), pend_sign_empty by apply cs_brd1_s. lia.
    - intros r Hr HK H0 Hroot.
      assert (r ≠ s) as Er by (by intros ->).
      rewrite cs_brd1_other in H0 by done. by apply (cg_ext _ _ _ _ HC).
  Qed.
End cap_start.

Lemma capture_stone_unfold b s :
  length (_board b) = Z.to_nat ncells → tables_ok b → cell s →
  at_ (_board b) s = 1 ∨ at_ (_board b) s = 2 →
  capture_stone b s
  = (b ← release_loop (cap_start b s) s (_get_neighbors s);
     uf ← aset8 (_stringUnionFind b) s (-1);
     let b := set_stringUnionFind b uf in
     sizes ← aset8 (_stringSizes b) s (-1);
     let b := set_stringSizes b sizes in
     lib ← aset8 (_stringLiberties b) s (-1);
     Ok (set_stringLiberties b lib)).
Proof.
  intros Hlb Ht Hs Hcol. unfold capture_stone, cap_start.
  destruct (_nextPlayer b =? _WHITE);
    cbn [_board set_nbBLACK set_capturedBLACK set_nbWHITE set_capturedWHITE];
    rewrite aget_cell by done; cbn [mbind res_bind];
    (erewrite getPositionHash_spec; [|exact Ht|done|done]);
    cbn [mbind res_bind _board set_currentHash];
    rewrite aset8_cell by (done || lia); cbn [mbind res_bind];
    rewrite neighbors_of_cell by done; cbn [mbind res_bind];
    reflexivity.
Qed.

Lemma capture_stone_spec b c0 K s :
  CoreG b c0 [] K → tables_ok b → s ∈ K → at_ (_board b) s ≠ 0 →
  ∃ b', capture_stone b s = Ok b' ∧ CoreG b' c0 [] K ∧
        unregistry b' = unregistry (cap_start b s) ∧
        at_ (_stringUnionFind b') s = -1 ∧
        (∀ j, cell j → at_ (_stringUnionFind b) j = -1 →
              at_ (_stringUnionFind b') j = -1) ∧
        (∀ j, cell j → j ∉ K →
              rootf (_stringUnionFind b') j = rootf (_stringUnionFind b) j).
Proof.
  intros HC Ht Hs Hocc.
  pose proof (cs_cell b c0 K s HC Hs) as Hsc.
  pose proof (cap_start_CoreG b c0 K s HC Hs Hocc) as HC1.
  destruct (cap_start_fields b s) as (Hb1 & He1 & Hu1 & Hl1 & Hz1 & Hh1 & Hst1).
  destruct (release_loop_spec s K (_get_neighbors s) (cap_start b s) HC1 Hs)
    as (b2 & Hrel & HC2 & Hun2 & Hcmp).
  { rewrite Hb1. by apply (cs_brd1_s b c0 K s). }
  { by apply nbrs_length. }
  rewrite capture_stone_unfold; [|apply HC|done|done|].
  2:{ pose proof (cg_colours _ _ _ _ HC s Hsc). lia. }
  rewrite Hrel. cbn [mbind res_bind].
  pose proof (cg_uf _ _ _ _ HC2) as Hw2.
  rewrite aset8_cell by (done || apply Hw2 || lia). cbn [mbind res_bind].
  rewrite aset8_cell by (done || apply HC2 || lia). cbn [mbind res_bind].
  rewrite aset8_cell by (done || apply HC2 || lia). cbn [mbind res_bind].
  eexists. split; [reflexivity|].
  assert (∀ j, cell j → at_ (_stringUnionFind b) j = -1 →
               at_ (_stringUnionFind b2) j = -1) as Hroot2.
  { intros j Hj Hr. rewrite <- Hu1 in Hr.
    destruct Hcmp as [_ Hcmp]. destruct (Hcmp j Hj) as [->|[? _]]; done. }
  assert (∀ j, cell j → j ∉ K →
            rootf (_stringUnionFind b2) j = rootf (_stringUnionFind b) j) as Hroots2.
  { intros j Hj _. rewrite <- Hu1. apply compressed_rootf; [apply HC1|done|done]. }
  assert (CoreG (set_stringLiberties
                   (set_stringSizes (set_stringUnionFind b2 (upd (_stringUnionFind b2) s (-1)))
                      (upd (_stringSizes b2) s (-1)))
                   (upd (_stringLiberties b2) s (-1))) s [] K) as HC3.
  { eapply CoreG_inside; [exact HC2|done|done| | | | | |]; cbn.
    - by apply cut_wf.
    - rewrite length_upd. apply HC2.
    - rewrite length_upd. apply HC2.
    - intros i Hi HiK. apply at_upd_ne; [done|done|by intros ->].
    - intros i Hi. destruct (decide (i = s)) as [->|E].
      + left. apply at_upd_eq; [apply Hw2|done].
      + rewrite at_upd_ne; [|done|by destruct (cg_sep_in _ _ _ _ HC2 i Hi)|done].
        by destruct (cg_sep_in _ _ _ _ HC2 i Hi).
    - intros i Hi HiK. apply at_upd_ne; [done|done|by intros ->]. }
  split; [by eapply CoreG_any_cell|].
  split; [by rewrite <- Hun2|].
  split; [cbn; apply at_upd_eq; [apply Hw2|done]|].
  split.
  - intros j Hj Hr. cbn. rewrite at_upd by (done || apply Hw2).
    case_decide; [done|by apply Hroot2].
  - intros j Hj HjK. rewrite <- Hroots2 by done.
    destruct (uf_wf_reach _ j Hw2 Hj) as [n Hr].
    eapply rootf_reach. cbn.
    assert (∀ n i r, reach (_stringUnionFind b2) n i r → i ∉ K →
               reach (upd (_stringUnionFind b2) s (-1)) n i r) as Hreach.
    { clear n Hr. induction 1 as [i Hi Hr | n i r Hi Hp H IH]; intros HK.
      - apply reach_root; [done|]. rewrite at_upd_ne; [done|done|done|by intros ->].
      - assert (at_ (upd (_stringUnionFind b2) s (-1)) i = at_ (_stringUnionFind b2) i)
          as E by (apply at_upd_ne; [done|done|by intros ->]).
        apply reach_step; [done|by rewrite E|]. rewrite E.
        apply IH. by eapply cg_sep_out. }
    by apply Hreach.
Qed.

(** ** The hash of the stones under a write to the grid *)

Lemma xorZ_ext {A} (f g : A → Z) l :
  (∀ x, x ∈ l → f x = g x) → xorZ f l = xorZ g l.
Proof.
  induction l as [|a l IH]; intros H; simpl; [done|].
  rewrite H by left. rewrite IH; [done|]. intros; apply H; by right.
Qed.

Lemma xorZ_app {A} (f : A → Z) l1 l2 :
  xorZ f (l1 ++ l2) = Z.lxor (xorZ f l1) (xorZ f l2).
Proof.
  induction l1 as [|a l IH]; simpl; [done|].
  by rewrite IH, Z.lxor_assoc.
Qed.

(** Changing the summand of one cell. *)
Lemma xorZ_change (f g : Z → Z) (a : Z) (l : list Z) :
  NoDup l → a ∈ l → (∀ x, x ∈ l → x ≠ a → g x = f x) →
  xorZ g l = Z.lxor (Z.lxor (xorZ f l) (f a)) (g a).
Proof.
  induction 1 as [|b l Hb Hl IH]; intros Ha Hfg; [by apply elem_of_nil in Ha|].
  simpl. destruct (decide (b = a)) as [->|Hne].
  - rewrite (xorZ_ext g f l).
    2:{ intros x Hx. apply Hfg; [by right|]. by intros ->. }
    rewrite (Z.lxor_comm (f a) (xorZ f l)), (Z.lxor_assoc (xorZ f l) (f a) (f a)).
    rewrite Z.lxor_nilpotent, Z.lxor_0_r.
    apply Z.lxor_comm.
  - apply elem_of_cons in Ha as [?|Ha]; [done|].
    rewrite IH; [|done|intros; apply Hfg; [by right|done]].
    rewrite Hfg by (done || by left).
    by rewrite !Z.lxor_assoc.
Qed.

Lemma zobrist_static b b' i col :
  static b' = static b → zobrist b' i col = zobrist b i col.
Proof.
  intros H. unfold zobrist.
  by rewrite (f_equal (fun u => u.1.1.1.1.1.2) H : _positionHashes b' = _positionHashes b).
Qed.

Lemma tables_ok_static b b' : static b' = static b → tables_ok b → tables_ok b'.
Proof.
  intros H. unfold tables_ok.
  by rewrite (f_equal (fun u => u.1.1.1.1.1.2) H : _positionHashes b' = _positionHashes b).
Qed.

Lemma xhash_static b b' brd : static b' = static b → xhash b' brd = xhash b brd.
Proof.
  intros H. unfold xhash. apply xorZ_ext. intros j _. unfold stone_hash.
  by rewrite (zobrist_static b b').
Qed.

Lemma xhash_ext b brd brd' :
  (∀ j, cell j → at_ brd' j = at_ brd j) → xhash b brd' = xhash b brd.
Proof.
  intros H. unfold xhash. apply xorZ_ext. intros j Hj%cell_in_cells.
  unfold stone_hash. by rewrite H.
Qed.

Lemma xhash_upd b brd s v :
  length brd = Z.to_nat ncells → cell s →
  xhash b (upd brd s v)
  = Z.lxor (Z.lxor (xhash b brd) (stone_hash b brd s)) (stone_hash b (upd brd s v) s).
Proof.
  intros Hl Hs. unfold xhash.
  apply xorZ_change; [apply NoDup_cells|by apply cell_in_cells|].
  intros j Hj%cell_in_cells Hne. unfold stone_hash. by rewrite at_upd_ne.
Qed.

(** Removing a stone takes its constant out of both the hash and the
    stones' part of it. *)
Lemma hash_offset_cap_start b s :
  length (_board b) = Z.to_nat ncells → cell s → at_ (_board b) s ≠ 0 →
  hash_offset (cap_start b s) = hash_offset b.
Proof.
  intros Hl Hs Hocc.
  destruct (cap_start_fields b s) as (Hb1 & _ & _ & _ & _ & Hh1 & Hst1).
  unfold hash_offset. rewrite Hb1, Hh1, (xhash_static b _ _ Hst1).
  rewrite xhash_upd by done. unfold stone_hash at 1 2.
  rewrite at_upd_eq by done. cbn [Z.eqb].
  destruct (Z.eqb_spec (at_ (_board b) s) 0) as [?|_]; [done|].
  rewrite Z.lxor_0_r.
  set (h := _currentHash b). set (z := zobrist b s _). set (x := xhash b _).
  rewrite (Z.lxor_comm x z), <- Z.lxor_assoc, (Z.lxor_assoc h z z).
  by rewrite Z.lxor_nilpotent, Z.lxor_0_r.
Qed.

(** ** Classes of the registry and connected groups of stones *)

Lemma class_conn b i j :
  Core b → cell i → at_ (_board b) i ≠ 0 →
  conn (_board b) i j ↔
  cell j ∧ at_ (_board b) j ≠ 0 ∧
  rootf (_stringUnionFind b) j = rootf (_stringUnionFind b) i.
Proof.
  intros HC Hi Hocc. split.
  - intros H. revert Hi Hocc.
    induction H as [|x y z (Hx & Hy & Hcol) _ IH]; intros Hi Hocc; [done|].
    assert (cell y) as Hyc by (by eapply nbrs_cell).
    destruct IH as (Hz & Hzocc & Hr); [done|congruence|].
    split; [done|]. split; [done|]. rewrite Hr. symmetry.
    destruct (cg_adj _ _ _ _ HC x y Hi ltac:(apply not_elem_of_empty) Hy Hocc
                ltac:(by symmetry)) as [[_ Hn]|[[_ Hn]|?]];
      [by apply elem_of_nil in Hn|by apply elem_of_nil in Hn|done].
  - intros (Hj & Hjocc & Hr).
    eapply rtc_trans.
    + apply (cg_conn _ _ _ _ HC i Hi); [apply not_elem_of_empty|done].
    + rewrite <- Hr. apply conn_sym.
      apply (cg_conn _ _ _ _ HC j Hj); [apply not_elem_of_empty|done].
Qed.

(** Opening the invariant on a whole string, and closing it once every
    stone of the string is gone. *)
Lemma CoreG_open b fc (K : gset Z) :
  Core b → cell fc → at_ (_board b) fc ≠ 0 →
  (∀ j, j ∈ K ↔ conn (_board b) fc j) → CoreG b 0 [] K.
Proof.
  intros HC Hfc Hocc HK.
  assert (∀ j, j ∈ K ↔ cell j ∧ at_ (_board b) j ≠ 0 ∧
            rootf (_stringUnionFind b) j = rootf (_stringUnionFind b) fc) as HK'.
  { intros j. rewrite HK. by apply class_conn. }
  pose proof (cg_uf _ _ _ _ HC) as Hw.
  assert (∀ i, i ∉ (∅ : gset Z)) as H0 by (intros; apply not_elem_of_empty).
  constructor; try (by destruct HC).
  - intros i [Hi [Hiocc Hr]]%HK'. split; [done|].
    destruct (decide (at_ (_stringUnionFind b) i = -1)) as [?|Hp]; [by left|right].
    destruct (rootf_parent _ i Hw Hi Hp) as [Hpc Hpr].
    apply HK'. split; [done|]. split; [|congruence].
    rewrite (cg_parent_colour _ _ _ _ HC i Hi (H0 i) Hp). done.
  - intros i Hi HiK Hp [Hpc [Hpocc Hr]]%HK'. apply HiK, HK'.
    destruct (rootf_parent _ i Hw Hi Hp) as [_ Hpr].
    split; [done|]. split; [|congruence].
    rewrite <- (cg_parent_colour _ _ _ _ HC i Hi (H0 i) Hp). done.
  - intros i n [Hi [Hiocc Hr]]%HK' Hn Hocc' Hcol. apply HK'.
    assert (cell n) as Hnc by (by eapply nbrs_cell).
    split; [done|]. split; [congruence|]. rewrite <- Hr. symmetry.
    destruct (cg_adj _ _ _ _ HC i n Hi (H0 i) Hn Hocc' Hcol) as [[_ Hx]|[[_ Hx]|?]];
      [by apply elem_of_nil in Hx|by apply elem_of_nil in Hx|done].
  - intros i Hi _. by apply (cg_empty_root _ _ _ _ HC).
  - intros i Hi _. by apply (cg_parent_colour _ _ _ _ HC).
  - intros i n Hi _. by apply (cg_adj _ _ _ _ HC).
  - intros i Hi _. by apply (cg_conn _ _ _ _ HC).
  - intros r Hr _. by apply (cg_lib _ _ _ _ HC).
  - intros r Hr _. by apply (cg_ext _ _ _ _ HC).
Qed.

Lemma CoreG_close b c (K : gset Z) :
  CoreG b c [] K →
  (∀ i, i ∈ K → at_ (_board b) i = 0 ∧ at_ (_stringUnionFind b) i = -1) →
  Core b.
Proof.
  intros HC HK.
  assert (∀ i, at_ (_board b) i ≠ 0 → i ∉ K) as Hocc.
  { intros i Hi HiK. by destruct (HK i HiK). }
  assert (∀ i, at_ (_stringUnionFind b) i ≠ -1 → i ∉ K) as Hnr.
  { intros i Hi HiK. by destruct (HK i HiK). }
  constructor; try (by destruct HC).
  - intros i Hi _ H0. destruct (decide (i ∈ K)) as [HiK|HiK].
    + by destruct (HK i HiK).
    + by apply (cg_empty_root _ _ _ _ HC).
  - intros i Hi _ Hp. apply (cg_parent_colour _ _ _ _ HC); [done|by apply Hnr|done].
  - intros i n Hi _ Hn H0 Hcol. right; right.
    destruct (cg_adj _ _ _ _ HC i n Hi (Hocc i H0) Hn H0 Hcol) as [[_ Hx]|[[_ Hx]|?]];
      [by apply elem_of_nil in Hx|by apply elem_of_nil in Hx|done].
  - intros i Hi _ H0. apply (cg_conn _ _ _ _ HC); [done|by apply Hocc|done].
  - intros r Hr _ H0 Hroot.
    rewrite (cg_lib_core _ _ _ r HC Hr (Hocc r H0) H0 Hroot).
    change (pending _ _ r []) with 0. lia.
  - intros r Hr _ H0 Hroot. apply (cg_ext _ _ _ _ HC); [done|by apply Hocc|done|done].
Qed.

(** ** Capturing a string, and the strings a move leaves without liberty *)

Lemma capture_stones_spec K : ∀ todo b c0,
  CoreG b c0 [] K → tables_ok b → NoDup todo →
  (∀ s, s ∈ todo → s ∈ K ∧ at_ (_board b) s ≠ 0) →
  ∃ b', capture_stones b todo = Ok b' ∧ CoreG b' c0 [] K ∧
    (∀ j, cell j → at_ (_board b') j
                   = if bool_decide (j ∈ todo) then 0 else at_ (_board b) j) ∧
    hash_offset b' = hash_offset b ∧ static b' = static b ∧
    (∀ j, j ∈ todo → at_ (_stringUnionFind b') j = -1) ∧
    (∀ j, cell j → at_ (_stringUnionFind b) j = -1 →
          at_ (_stringUnionFind b') j = -1) ∧
    (∀ j, cell j → j ∉ K →
          rootf (_stringUnionFind b') j = rootf (_stringUnionFind b) j).
Proof.
  induction todo as [|s rest IH]; intros b c0 HC Ht Hnd Htodo.
  { exists b. split; [done|]. split; [done|]. split_and!; try done.
    intros j Hj. by apply elem_of_nil in Hj. }
  apply NoDup_cons in Hnd as [Hs Hnd].
  destruct (Htodo s ltac:(left)) as [HsK Hsocc].
  pose proof (cs_cell b c0 K s HC HsK) as Hsc.
  destruct (capture_stone_spec b c0 K s HC Ht HsK Hsocc)
    as (b1 & Hcap & HC1 & Hun1 & Hr1 & Hroot1 & Hroots1).
  apply unregistry_fields in Hun1 as (Hb1 & _ & Hh1 & Hst1).
  destruct (cap_start_fields b s) as (Hbs & _ & _ & _ & _ & Hhs & Hsts).
  rewrite Hbs in Hb1. rewrite Hsts in Hst1.
  assert (hash_offset b1 = hash_offset b) as Hoff1.
  { rewrite <- (hash_offset_cap_start b s) by (done || apply HC).
    unfold hash_offset. rewrite Hb1, Hh1, Hbs.
    by rewrite (xhash_static b b1), (xhash_static b (cap_start b s)). }
  destruct (IH b1 c0 HC1) as (b' & Hcaps & HC' & Hb' & Hoff' & Hst' & Hr' & Hroot' & Hroots').
  { by eapply tables_ok_static. }
  { done. }
  { intros s' Hs'. destruct (Htodo s' ltac:(by right)) as [? ?]. split; [done|].
    rewrite Hb1, at_upd_ne; [done|done|by destruct (cg_sep_in _ _ _ _ HC s')|].
    by intros ->. }
  exists b'. cbn [capture_stones]. rewrite Hcap. cbn [mbind res_bind].
  split; [done|]. split; [done|]. split_and!.
  - intros j Hj. rewrite Hb' by done. rewrite Hb1.
    destruct (decide (j = s)) as [->|Hne].
    + rewrite (bool_decide_eq_true_2 (s ∈ s :: rest)) by left.
      rewrite at_upd_eq by (done || apply HC). by case_bool_decide.
    + rewrite at_upd_ne by done.
      apply (f_equal (fun t : bool => if t then 0 else at_ (_board b) j)).
      apply bool_decide_ext. rewrite elem_of_cons. split; [by right|by intros [?|?]].
  - congruence.
  - congruence.
  - intros j [->|Hj]%elem_of_cons; [|by apply Hr'].
    by apply Hroot'.
  - intros j Hj Hr. by apply Hroot', Hroot1.
  - intros j Hj HjK. rewrite Hroots' by done. by apply Hroots1.
Qed.

Lemma capture_string_spec b fc :
  Core b → tables_ok b → cell fc → at_ (_board b) fc ≠ 0 →
  ∃ b', _capture_string b fc = Ok b' ∧ Core b' ∧
    (∀ j, cell j → at_ (_board b') j
       = if bool_decide (at_ (_board b) j ≠ 0 ∧
                         rootf (_stringUnionFind b) j = rootf (_stringUnionFind b) fc)
         then 0 else at_ (_board b) j) ∧
    hash_offset b' = hash_offset b ∧ static b' = static b ∧
    (∀ j, cell j → at_ (_stringUnionFind b) j = -1 →
          at_ (_stringUnionFind b') j = -1) ∧
    (∀ j, cell j →
          ¬ (at_ (_board b) j ≠ 0 ∧
             rootf (_stringUnionFind b) j = rootf (_stringUnionFind b) fc) →
          rootf (_stringUnionFind b') j = rootf (_stringUnionFind b) j).
Proof.
  intros HC Ht Hfc Hocc.
  destruct (breadthSearchString_spec (_board b) fc (cg_len_board _ _ _ _ HC) Hfc b eq_refl)
    as (S & HS & HSconn).
  assert (∀ j, j ∈ S ↔ cell j ∧ at_ (_board b) j ≠ 0 ∧
            rootf (_stringUnionFind b) j = rootf (_stringUnionFind b) fc) as HS'.
  { intros j. rewrite HSconn. by apply class_conn. }
  pose proof (CoreG_open b fc S HC Hfc Hocc HSconn) as HCG.
  destruct (capture_stones_spec S (elements S) b 0 HCG Ht (NoDup_elements S))
    as (b' & Hcap & HC' & Hb' & Hoff' & Hst' & Hr' & Hroot' & Hroots').
  { intros s Hs%elem_of_elements. split; [done|]. by apply HS' in Hs as (_ & ? & _). }
  exists b'. unfold _capture_string. rewrite HS. cbn [mbind res_bind].
  split; [done|]. split.
  { eapply CoreG_close; [exact HC'|]. intros i Hi. split.
    - rewrite Hb' by (by apply HS' in Hi as (? & _)).
      rewrite bool_decide_eq_true_2; [done|by apply elem_of_elements].
    - apply Hr'. by apply elem_of_elements. }
  split_and!; try done.
  - intros j Hj. rewrite Hb' by done.
    apply (f_equal (fun t : bool => if t then 0 else at_ (_board b) j)).
    apply bool_decide_ext. rewrite elem_of_elements, HS'. tauto.
  - intros j Hj Hn. apply Hroots'; [done|]. rewrite HS'. tauto.
Qed.

(** [for fc in captured: self._capture_string(fc)] over distinct roots of
    strings on the board. *)
Lemma capture_all_spec : ∀ l b,
  Core b → tables_ok b → NoDup l →
  (∀ s, s ∈ l → cell s ∧ at_ (_board b) s ≠ 0 ∧ at_ (_stringUnionFind b) s = -1) →
  ∃ b', capture_all b l = Ok b' ∧ Core b' ∧
    (∀ j, cell j → at_ (_board b') j
       = if bool_decide (at_ (_board b) j ≠ 0 ∧ rootf (_stringUnionFind b) j ∈ l)
         then 0 else at_ (_board b) j) ∧
    hash_offset b' = hash_offset b ∧ static b' = static b ∧
    (∀ j, cell j → at_ (_board b') j ≠ 0 →
          rootf (_stringUnionFind b') j = rootf (_stringUnionFind b) j).
Proof.
  induction l as [|s l IH]; intros b HC Ht Hnd Hl.
  { exists b. split; [done|]. split; [done|]. split_and!; try done.
    intros j Hj. rewrite bool_decide_eq_false_2; [done|].
    intros [_ Hx]. by apply elem_of_nil in Hx. }
  apply NoDup_cons in Hnd as [Hs Hnd].
  destruct (Hl s ltac:(left)) as (Hsc & Hsocc & Hsr).
  pose proof (rootf_root _ s Hsc Hsr) as Hsroot.
  destruct (capture_string_spec b s HC Ht Hsc Hsocc)
    as (b1 & Hcap & HC1 & Hb1 & Hoff1 & Hst1 & Hroot1 & Hroots1).
  rewrite Hsroot in Hb1, Hroots1.
  assert (∀ s', s' ∈ l → cell s' ∧ at_ (_board b1) s' ≠ 0 ∧
                          at_ (_stringUnionFind b1) s' = -1) as Hl1.
  { intros s' Hs'. destruct (Hl s' ltac:(by right)) as (Hc' & Hocc' & Hr').
    split; [done|]. split; [|by apply Hroot1].
    rewrite Hb1 by done. rewrite bool_decide_eq_false_2; [done|].
    intros [_ E]. rewrite rootf_root in E by done. by rewrite E in Hs'. }
  destruct (IH b1 HC1 (tables_ok_static _ _ Hst1 Ht) Hnd Hl1)
    as (b' & Hcaps & HC' & Hb' & Hoff' & Hst' & Hroots').
  exists b'. cbn [capture_all]. rewrite Hcap. cbn [mbind res_bind].
  split; [done|]. split; [done|].
  assert (∀ j, cell j → at_ (_board b1) j ≠ 0 →
            at_ (_board b1) j = at_ (_board b) j ∧
            rootf (_stringUnionFind b1) j = rootf (_stringUnionFind b) j) as Hkeep.
  { intros j Hj H1. rewrite Hb1 in H1 |- * by done.
    case_bool_decide as E; [done|]. split; [done|]. by apply Hroots1. }
  split_and!.
  - intros j Hj. rewrite Hb' by done.
    destruct (decide (at_ (_board b1) j = 0)) as [E1|E1].
    + rewrite bool_decide_eq_false_2 by (by intros [? _]).
      rewrite E1. rewrite Hb1 in E1 by done.
      case_bool_decide as E; [|by rewrite E1; case_bool_decide].
      rewrite bool_decide_eq_true_2; [done|].
      destruct E as [? E]. split; [done|]. rewrite E. by left.
    + destruct (Hkeep j Hj E1) as [Eb Er]. rewrite Eb, Er.
      apply (f_equal (fun t : bool => if t then 0 else at_ (_board b) j)).
      apply bool_decide_ext. rewrite elem_of_cons.
      split; [intros [? ?]; split; [done|by right]|].
      intros [? [E|?]]; [|done]. exfalso.
      rewrite Hb1 in E1 by done. rewrite bool_decide_eq_true_2 in E1; done.
  - congruence.
  - congruence.
  - intros j Hj H'. rewrite Hb' in H' by done.
    case_bool_decide as E; [done|].
    rewrite Hroots'; [by apply Hkeep|done|].
    rewrite Hb' by done. by rewrite bool_decide_eq_false_2.
Qed.

(** ** Boards that differ by path compressions only *)

Lemma recompressed_refl b : recompressed b b.
Proof. split; [by destruct b|apply compressed_refl]. Qed.

Lemma recompressed_trans b b1 b2 :
  uf_wf (_stringUnionFind b) →
  recompressed b b1 → recompressed b1 b2 → recompressed b b2.
Proof.
  intros Hw [E1 C1] [E2 C2]. split; [|by eapply compressed_trans].
  rewrite E2. rewrite E1 at 1. done.
Qed.

Lemma recompressed_fields b b' :
  recompressed b b' →
  unregistry b' = unregistry b ∧
  _stringLiberties b' = _stringLiberties b ∧ _stringSizes b' = _stringSizes b.
Proof. intros [-> _]. done. Qed.

Lemma recompressed_board b b' : recompressed b b' → _board b' = _board b.
Proof. intros [-> _]. done. Qed.

Lemma recompressed_lib b b' :
  recompressed b b' → _stringLiberties b' = _stringLiberties b.
Proof. intros [-> _]. done. Qed.

Lemma recompressed_static b b' : recompressed b b' → static b' = static b.
Proof. intros [-> _]. done. Qed.

Lemma recompressed_rootf b b' j :
  uf_wf (_stringUnionFind b) → recompressed b b' → cell j →
  rootf (_stringUnionFind b') j = rootf (_stringUnionFind b) j.
Proof. intros Hw [_ C] Hj. by apply compressed_rootf. Qed.

Lemma recompressed_CoreG b b' c rest K :
  CoreG b c rest K → recompressed b b' → CoreG b' c rest K.
Proof. intros HC [-> C]. by apply CoreG_compressed. Qed.

Lemma recompressed_alive b b' :
  uf_wf (_stringUnionFind b) → recompressed b b' → alive b → alive b'.
Proof.
  intros Hw HR Ha r Hr Hocc Hroot.
  rewrite (recompressed_board _ _ HR) in Hocc. rewrite (recompressed_lib _ _ HR).
  apply Ha; [done|done|]. destruct HR as [_ C]. by eapply compressed_root_inv.
Qed.

Lemma recompressed_hash_offset b b' : recompressed b b' → hash_offset b' = hash_offset b.
Proof. intros [-> _]. done. Qed.

Lemma find_recompressed b c rest K i :
  CoreG b c rest K → cell i →
  ∃ b', _getStringOfStone b i = Ok (rootf (_stringUnionFind b) i, b') ∧
        recompressed b b'.
Proof.
  intros HC Hi. destruct (find_CoreG b c rest K i HC Hi) as (b' & Hf & _ & E & C).
  by exists b'.
Qed.

(** What the checks read is the same on both boards. *)
Lemma recompressed_in_string b b' r j :
  uf_wf (_stringUnionFind b) → recompressed b b' → cell j →
  in_string (_board b') (_stringUnionFind b') r j
  = in_string (_board b) (_stringUnionFind b) r j.
Proof.
  intros Hw HR Hj. unfold in_string.
  by rewrite (recompressed_board _ _ HR), (recompressed_rootf b b').
Qed.

Lemma recompressed_pending b b' r l :
  uf_wf (_stringUnionFind b) → recompressed b b' → (∀ n, n ∈ l → cell n) →
  pending (_board b') (_stringUnionFind b') r l
  = pending (_board b) (_stringUnionFind b) r l.
Proof.
  intros Hw HR Hl. unfold pending. apply sumZ_ext. intros n Hn.
  by rewrite (recompressed_in_string b b') by auto.
Qed.

Lemma recompressed_lib_after b b' c s :
  uf_wf (_stringUnionFind b) → recompressed b b' → cell c →
  lib_after b' c s = lib_after b c s.
Proof.
  intros Hw HR Hc. unfold lib_after.
  rewrite (recompressed_lib _ _ HR), (recompressed_pending b b'); [done|done|done|].
  intros n Hn. by eapply nbrs_cell.
Qed.

(** ** The dictionaries of the two checks *)

Lemma dict_has_spec d k : dict_has d k = true ↔ k ∈ map fst d.
Proof.
  induction d as [|[k' v] d IH]; simpl.
  - split; [done|]. intros H. by apply elem_of_nil in H.
  - rewrite orb_true_iff, IH, elem_of_cons, Z.eqb_eq. split; intros [?|?]; auto.
Qed.

Lemma dict_decr_keys d k : map fst (dict_decr d k) = map fst d.
Proof.
  induction d as [|[k' v] d IH]; simpl; [done|].
  destruct (k' =? k); simpl; [done|]. by rewrite IH.
Qed.

Lemma dict_decr_spec d k s v :
  NoDup (map fst d) →
  (s, v) ∈ dict_decr d k ↔
  (s = k ∧ (s, v + 1) ∈ d) ∨ (s ≠ k ∧ (s, v) ∈ d).
Proof.
  induction d as [|[k' v'] d IH]; simpl; intros Hnd.
  - split; [intros H; by apply elem_of_nil in H|].
    intros [[_ H]|[_ H]]; by apply elem_of_nil in H.
  - apply NoDup_cons in Hnd as [Hk' Hnd].
    assert (∀ w, (k', w) ∉ d) as Hnot.
    { intros w Hw. apply Hk'. apply list_elem_of_fmap. by exists (k', w). }
    destruct (Z.eqb_spec k' k) as [->|Hne].
    + rewrite !elem_of_cons. split.
      * intros [E|H]; [injection E as -> ->|].
        -- left. split; [done|]. left. f_equal. lia.
        -- destruct (decide (s = k)) as [->|?]; [by apply Hnot in H|].
           right. split; [done|by right].
      * intros [[-> [E|H]]|[Hs [E|H]]].
        -- injection E as E. left. f_equal. lia.
        -- by apply Hnot in H.
        -- by injection E as -> ->.
        -- by right.
    + rewrite !elem_of_cons, IH by done. split.
      * intros [E|[[-> H]|[Hs H]]].
        -- injection E as -> ->. right. split; [done|by left].
        -- left. split; [done|by right].
        -- right. split; [done|by right].
      * intros [[-> [E|H]]|[Hs [E|H]]].
        -- by injection E as ->.
        -- right. left. done.
        -- left. done.
        -- right. right. done.
Qed.

Lemma pending_snoc brd uf r l n :
  pending brd uf r (l ++ [n]) = pending brd uf r l + Z.b2z (in_string brd uf r n).
Proof. unfold pending. rewrite sumZ_app. simpl. lia. Qed.

Lemma dict_transfer b b' P seen d :
  uf_wf (_stringUnionFind b) → recompressed b b' → (∀ n, n ∈ seen → cell n) →
  dict_ok b' P seen d ↔ dict_ok b P seen d.
Proof.
  intros Hw HR Hseen.
  assert (∀ s v,
    ((∃ n, n ∈ seen ∧ P (at_ (_board b') n) = true ∧ rootf (_stringUnionFind b') n = s) ∧
     v = at_ (_stringLiberties b') s
         - pending (_board b') (_stringUnionFind b') s seen) ↔
    ((∃ n, n ∈ seen ∧ P (at_ (_board b) n) = true ∧ rootf (_stringUnionFind b) n = s) ∧
     v = at_ (_stringLiberties b) s
         - pending (_board b) (_stringUnionFind b) s seen)) as H.
  { intros s v. rewrite (recompressed_pending b b') by done.
    rewrite (recompressed_lib _ _ HR), (recompressed_board _ _ HR).
    split; intros [(n & Hn & HP & Hr) Hv]; (split; [|done]); exists n;
      (split; [done|]); (split; [done|]).
    - by rewrite (recompressed_rootf b b') in Hr by auto.
    - by rewrite (recompressed_rootf b b') by auto. }
  unfold dict_ok. split; intros [Hnd Hd]; (split; [done|]); intros s v;
    rewrite Hd; [|symmetry]; apply H.
Qed.

(** A stone of the string of a key has a colour that [P] accepts. *)
Lemma key_colour b (P : Z → bool) n fn :
  Core b → cell n → cell fn → P (at_ (_board b) n) = true →
  in_string (_board b) (_stringUnionFind b) (rootf (_stringUnionFind b) n) fn = true →
  P (at_ (_board b) fn) = true.
Proof.
  intros HC Hn Hfn HP Hin. unfold in_string in Hin.
  apply andb_true_iff in Hin as [_ Hr%Z.eqb_eq].
  assert (∀ i, i ∉ (∅ : gset Z)) as H0 by (intros; apply not_elem_of_empty).
  rewrite <- (cg_root_colour _ _ _ _ HC fn Hfn (H0 fn)), Hr.
  by rewrite (cg_root_colour _ _ _ _ HC n Hn (H0 n)).
Qed.

Lemma dict_skip b P seen d fn :
  Core b → cell fn → (∀ n, n ∈ seen → cell n) →
  dict_ok b P seen d → P (at_ (_board b) fn) = false →
  dict_ok b P (seen ++ [fn]) d.
Proof.
  intros HC Hfn Hseen [Hnd Hd] HP. split; [done|]. intros s v. rewrite Hd.
  assert (∀ n, n ∈ seen → P (at_ (_board b) n) = true →
            rootf (_stringUnionFind b) n = s →
            pending (_board b) (_stringUnionFind b) s (seen ++ [fn])
            = pending (_board b) (_stringUnionFind b) s seen) as Hp.
  { intros n Hn HPn Hr. rewrite pending_snoc.
    destruct (in_string _ _ s fn) eqn:E; [|simpl; lia].
    rewrite <- Hr in E. apply (key_colour b P n fn) in E; [congruence|done|auto|done|done]. }
  split.
  - intros [(n & Hn & HPn & Hr) Hv]. split.
    + exists n. split; [apply elem_of_app; by left|done].
    + by rewrite (Hp n).
  - intros [(n & Hn & HPn & Hr) Hv].
    apply elem_of_app in Hn as [Hn|Hx%list_elem_of_singleton];
      [|rewrite Hx in HPn; congruence].
    split; [by exists n|]. by rewrite <- (Hp n).
Qed.

Lemma dict_touch_spec b P seen d fn :
  Core b → cell fn → (∀ n, n ∈ seen → cell n) → P 0 = false →
  dict_ok b P seen d → P (at_ (_board b) fn) = true →
  ∃ d', dict_touch b d (rootf (_stringUnionFind b) fn) = Ok d' ∧
        dict_ok b P (seen ++ [fn]) d'.
Proof.
  intros HC Hfn Hseen HP0 [Hnd Hd] HP.
  set (s := rootf (_stringUnionFind b) fn).
  assert (at_ (_board b) fn ≠ 0) as Hocc by (intros E; rewrite E in HP; congruence).
  assert (cell s) as Hsc by (by apply (cg_root_cell _ _ _ _ HC)).
  assert (in_string (_board b) (_stringUnionFind b) s fn = true) as Hin.
  { by apply in_string_root. }
  assert (∀ s', s' ≠ s → in_string (_board b) (_stringUnionFind b) s' fn = false) as Hin'.
  { intros s' Hne. unfold in_string. fold s.
    destruct (Z.eqb_spec s s'); [congruence|by rewrite andb_false_r]. }
  unfold dict_touch. destruct (dict_has d s) eqn:Ehas.
  - exists (dict_decr d s). split; [done|]. split; [by rewrite dict_decr_keys|].
    intros s' v. rewrite dict_decr_spec by done. rewrite !Hd, pending_snoc.
    split.
    + intros [[-> [(n & Hn & HPn & Hr) Hv]]|[Hne [(n & Hn & HPn & Hr) Hv]]].
      * split; [exists n; split; [apply elem_of_app; by left|done]|].
        rewrite Hin. simpl. lia.
      * split; [exists n; split; [apply elem_of_app; by left|done]|].
        rewrite Hin' by done. simpl. lia.
    + intros [(n & Hn & HPn & Hr) Hv]. destruct (decide (s' = s)) as [->|Hne].
      * left. split; [done|]. rewrite Hin in Hv. simpl in Hv. split; [|lia].
        apply dict_has_spec in Ehas. apply list_elem_of_fmap in Ehas as ([k w] & Ek & Hkw).
        simpl in Ek. subst k. by apply Hd in Hkw as [? _].
      * right. split; [done|]. rewrite Hin' in Hv by done. simpl in Hv.
        split; [|lia].
        apply elem_of_app in Hn as [Hn|Hx%list_elem_of_singleton]; [by exists n|].
        rewrite Hx in Hr. done.
  - assert (s ∉ map fst d) as Hnk.
    { intros H. apply dict_has_spec in H. congruence. }
    assert (pending (_board b) (_stringUnionFind b) s seen = 0) as Hp0.
    { unfold pending. apply sumZ_zero. intros n Hn.
      destruct (in_string _ _ s n) eqn:E; [|done]. exfalso. apply Hnk.
      assert (rootf (_stringUnionFind b) n = s) as Hr.
      { unfold in_string in E. by apply andb_true_iff in E as [_ ?%Z.eqb_eq]. }
      assert (P (at_ (_board b) n) = true) as HPn.
      { apply (key_colour b P fn n); [done|done|auto|done|].
        fold s. done. }
      apply list_elem_of_fmap.
      exists (s, at_ (_stringLiberties b) s - pending (_board b) (_stringUnionFind b) s seen).
      split; [done|]. apply Hd. split; [by exists n|done]. }
    rewrite aget_cell by (done || apply HC). cbn [mbind res_bind].
    eexists. split; [reflexivity|]. split.
    + rewrite map_app. apply NoDup_app. split; [done|]. split; [|apply NoDup_singleton].
      intros x Hx Hx'%list_elem_of_singleton. simpl in Hx'. by rewrite Hx' in Hx.
    + intros s' v. rewrite elem_of_app, list_elem_of_singleton, Hd, pending_snoc. split.
      * intros [[(n & Hn & HPn & Hr) Hv]|E].
        -- split; [exists n; split; [apply elem_of_app; by left|done]|].
           rewrite Hin'; [simpl; lia|]. intros ->. apply Hnk.
           apply list_elem_of_fmap. exists (s, v). split; [done|]. apply Hd.
           split; [by exists n|done].
        -- injection E as -> ->. split.
           ++ exists fn. split; [apply elem_of_app; right; by left|done].
           ++ rewrite Hin, Hp0. simpl. lia.
      * intros [(n & Hn & HPn & Hr) Hv].
        apply elem_of_app in Hn as [Hn|Hx%list_elem_of_singleton].
        -- left. split; [by exists n|].
           rewrite Hin' in Hv; [simpl in Hv; lia|]. intros ->. apply Hnk.
           apply list_elem_of_fmap.
           exists (s, at_ (_stringLiberties b) s
                      - pending (_board b) (_stringUnionFind b) s seen).
           split; [done|]. apply Hd. split; [by exists n|done].
        -- right. rewrite Hx in Hr. fold s in Hr. subst s'.
           rewrite Hin, Hp0 in Hv. simpl in Hv. f_equal. lia.
Qed.

(** ** The super-ko simulation *)

Lemma xorZ_lxor {A} (f g : A → Z) l :
  xorZ (fun x => Z.lxor (f x) (g x)) l = Z.lxor (xorZ f l) (xorZ g l).
Proof.
  induction l as [|a l IH]; simpl; [done|]. rewrite IH.
  rewrite !Z.lxor_assoc. f_equal.
  rewrite <- !Z.lxor_assoc. f_equal. apply Z.lxor_comm.
Qed.

Lemma xorZ_zero {A} (f : A → Z) l : (∀ x, x ∈ l → f x = 0) → xorZ f l = 0.
Proof.
  induction l as [|a l IH]; intros H; simpl; [done|].
  rewrite H by left. rewrite IH; [done|]. intros; apply H; by right.
Qed.

(** Folding over the members of [s] among [l]. *)
Lemma xorZ_indicator (f : Z → Z) (s l : list Z) :
  NoDup l → NoDup s → (∀ x, x ∈ s → x ∈ l) →
  xorZ (fun x => if bool_decide (x ∈ s) then f x else 0) l = xorZ f s.
Proof.
  intros Hl. revert s. induction Hl as [|a l Ha Hl IH]; intros s Hs Hsub.
  - destruct s as [|x s]; [done|]. specialize (Hsub x ltac:(left)).
    by apply elem_of_nil in Hsub.
  - simpl. case_bool_decide as Hin.
    + apply list_elem_of_split in Hin as (s1 & s2 & ->).
      apply NoDup_app in Hs as (Hs1 & Hs12 & Hs2).
      apply NoDup_cons in Hs2 as [Has2 Hs2].
      rewrite xorZ_app. simpl.
      rewrite (xorZ_ext _ (fun x => if bool_decide (x ∈ s1 ++ s2) then f x else 0) l).
      2:{ intros x Hx. assert (x ≠ a) by (intros ->; done).
          apply (f_equal (fun (c : bool) => if c then f x else 0)).
          apply bool_decide_ext. rewrite !elem_of_app, elem_of_cons. tauto. }
      rewrite (IH (s1 ++ s2)).
      * rewrite xorZ_app, <- !Z.lxor_assoc. f_equal. apply Z.lxor_comm.
      * apply NoDup_app. split_and!; [done| |done].
        intros x Hx1 Hx2. apply (Hs12 x Hx1). by right.
      * intros x Hx. assert (x ∈ s1 ++ a :: s2) as Hx'.
        { rewrite elem_of_app, elem_of_cons. apply elem_of_app in Hx. tauto. }
        specialize (Hsub x Hx'). apply elem_of_cons in Hsub as [->|]; [|done].
        apply elem_of_app in Hx as [Hx|Hx]; [|done].
        exfalso. apply (Hs12 a Hx). by left.
    + rewrite Z.lxor_0_l. apply IH; [done|].
      intros x Hx. specialize (Hsub x Hx).
      apply elem_of_cons in Hsub as [->|]; done.
Qed.

Lemma xorZ_single (f : Z → Z) (a : Z) (l : list Z) :
  NoDup l → a ∈ l →
  xorZ (fun x => if bool_decide (x = a) then f x else 0) l = f a.
Proof.
  intros Hl Ha.
  rewrite (xorZ_ext _ (fun x => if bool_decide (x ∈ [a]) then f x else 0)).
  - rewrite xorZ_indicator; [simpl; apply Z.lxor_0_r | done | apply NoDup_singleton |].
    by intros x ->%list_elem_of_singleton.
  - intros x _. apply (f_equal (fun (c : bool) => if c then f x else 0)).
    apply bool_decide_ext. by rewrite list_elem_of_singleton.
Qed.

Lemma sumZ_perm {A} (f : A → Z) l l' : l ≡ₚ l' → sumZ f l = sumZ f l'.
Proof. induction 1; simpl; lia. Qed.

Lemma flip_spec col : col = 1 ∨ col = 2 → flip col = 3 - col.
Proof. by intros [-> | ->]. Qed.

(** The neighbour survey of [_is_super_ko]. *)
Lemma superko_loop_spec opp : ∀ rest b seen d,
  Core b → opp ≠ 0 → (∀ n, n ∈ seen → cell n) → (∀ n, n ∈ rest → cell n) →
  dict_ok b (fun c => c =? opp) seen d →
  ∃ d' b', superko_loop b opp rest d = Ok (d', b') ∧ recompressed b b' ∧
           dict_ok b' (fun c => c =? opp) (seen ++ rest) d'.
Proof.
  induction rest as [|fn rest IH]; intros b seen d HC Hopp Hseen Hrest Hd.
  { exists d, b. rewrite app_nil_r. split; [done|]. split; [apply recompressed_refl|done]. }
  assert (cell fn) as Hfn by (apply Hrest; by left).
  assert (∀ n, n ∈ seen ++ [fn] → cell n) as Hseen'.
  { intros n [?|Hx%list_elem_of_singleton]%elem_of_app; [auto|by rewrite Hx]. }
  assert (∀ n, n ∈ rest → cell n) as Hrest' by (intros; apply Hrest; by right).
  cbn [superko_loop]. rewrite aget_cell by (done || apply HC). cbn [mbind res_bind].
  rewrite (cons_middle fn seen rest), app_assoc.
  destruct (at_ (_board b) fn =? opp) eqn:E.
  - destruct (find_recompressed b 0 [] ∅ fn HC Hfn) as (b1 & Hfind & HR1).
    rewrite Hfind. cbn [mbind res_bind].
    pose proof (cg_uf _ _ _ _ HC) as Hw.
    pose proof (recompressed_CoreG _ _ _ _ _ HC HR1) as HC1.
    destruct (dict_touch_spec b1 (fun c => c =? opp) seen d fn HC1 Hfn Hseen)
      as (d1 & Ht & Hd1).
    { by apply Z.eqb_neq. }
    { by apply (dict_transfer b b1). }
    { by rewrite (recompressed_board _ _ HR1). }
    rewrite (recompressed_rootf b b1) in Ht by done. rewrite Ht. cbn [mbind res_bind].
    destruct (IH b1 (seen ++ [fn]) d1 HC1 Hopp Hseen' Hrest' Hd1) as (d' & b' & Hl & HR' & Hd').
    exists d', b'. split; [done|]. split; [|done].
    by eapply recompressed_trans.
  - destruct (IH b (seen ++ [fn]) d HC Hopp Hseen' Hrest') as (d' & b' & Hl & HR' & Hd').
    { by apply dict_skip. }
    by exists d', b'.
Qed.

(** [for fn in string: tmpHash ^= positionHash(fn, opponent)] *)
Lemma xor_stones_spec b opp : ∀ l tmp,
  length (_board b) = Z.to_nat ncells → tables_ok b → opp = 1 ∨ opp = 2 →
  (∀ j, j ∈ l → cell j ∧ at_ (_board b) j = opp) →
  xor_stones b opp l tmp = Ok (Z.lxor tmp (xorZ (fun j => zobrist b j opp) l)).
Proof.
  induction l as [|j l IH]; intros tmp Hlb Ht Hopp Hl.
  { simpl. by rewrite Z.lxor_0_r. }
  destruct (Hl j ltac:(left)) as [Hj Hc].
  cbn [xor_stones]. rewrite aget_cell by done. cbn [mbind res_bind].
  rewrite Hc, Z.eqb_refl. cbn [assert_ mbind res_bind].
  rewrite getPositionHash_spec by done. cbn [mbind res_bind].
  rewrite IH; [|done|done|done|intros; apply Hl; by right].
  simpl. by rewrite Z.lxor_assoc.
Qed.

(** The hash folded over the strings whose entry is zero. *)
Lemma superko_captures_spec b opp : ∀ d tmp,
  Core b → tables_ok b → opp = 1 ∨ opp = 2 → NoDup (map fst d) →
  (∀ s v, (s, v) ∈ d → cell s ∧ at_ (_board b) s = opp ∧
                        at_ (_stringUnionFind b) s = -1) →
  superko_captures b opp d tmp
  = Ok (Z.lxor tmp
          (xorZ (fun j => if (at_ (_board b) j =? opp) &&
                             existsb (fun kv => (snd kv =? 0) &&
                                        (rootf (_stringUnionFind b) j =? fst kv)) d
                          then zobrist b j opp else 0) cells)).
Proof.
  induction d as [|[s v] d IH]; intros tmp HC Ht Hopp Hnd Hd.
  { cbn [superko_captures]. rewrite xorZ_zero; [by rewrite Z.lxor_0_r|].
    intros j _. cbn [existsb]. by rewrite andb_false_r. }
  apply NoDup_cons in Hnd as [Hs Hnd]. simpl in Hs.
  assert (∀ s' v', (s', v') ∈ d → cell s' ∧ at_ (_board b) s' = opp ∧
                                   at_ (_stringUnionFind b) s' = -1) as Hd'.
  { intros s' v' H. apply (Hd s' v'). by right. }
  destruct (Hd s v ltac:(left)) as (Hsc & Hscol & Hsr).
  assert (opp ≠ 0) as Hopp0 by (destruct Hopp; lia).
  cbn [superko_captures]. destruct (Z.eqb_spec v 0) as [->|Hv].
  2:{ rewrite IH by done. do 2 f_equal. apply xorZ_ext. intros j _.
      cbn [existsb fst snd]. destruct (Z.eqb_spec v 0); [done|]. done. }
  destruct (breadthSearchString_spec (_board b) s (cg_len_board _ _ _ _ HC) Hsc b eq_refl)
    as (S & HS & HSconn).
  assert (∀ j, j ∈ S ↔ cell j ∧ at_ (_board b) j ≠ 0 ∧
                        rootf (_stringUnionFind b) j = s) as HS'.
  { intros j. rewrite HSconn, (class_conn b s j HC Hsc) by congruence.
    by rewrite (rootf_root _ s Hsc Hsr). }
  assert (∀ j, j ∈ S → at_ (_board b) j = opp) as HScol.
  { intros j Hj%HSconn. apply conn_colour in Hj. congruence. }
  rewrite HS. cbn [mbind res_bind].
  rewrite xor_stones_spec; [|apply HC|done|done|].
  2:{ intros j Hj%elem_of_elements. split; [by apply HS' in Hj as (? & _)|by apply HScol]. }
  cbn [mbind res_bind]. rewrite IH by done. rewrite Z.lxor_assoc. do 2 f_equal.
  rewrite <- (xorZ_indicator (fun j => zobrist b j opp) (elements S) cells);
    [|apply NoDup_cells|apply NoDup_elements|].
  2:{ intros j Hj%elem_of_elements. apply cell_in_cells. by apply HS' in Hj as (? & _). }
  rewrite <- xorZ_lxor. apply xorZ_ext. intros j Hj%cell_in_cells.
  cbn [existsb fst snd]. rewrite Z.eqb_refl. cbn [andb].
  case_bool_decide as HjS; rewrite elem_of_elements in HjS.
  - rewrite (HScol j HjS), Z.eqb_refl. apply HS' in HjS as (_ & _ & Hr).
    rewrite Hr, Z.eqb_refl. cbn [orb andb].
    assert (existsb (fun kv => (snd kv =? 0) && (s =? fst kv)) d = false) as ->.
    { apply not_true_is_false. intros (kv & Hkv & Hx)%existsb_exists.
      apply andb_true_iff in Hx as [_ ->%Z.eqb_eq]. apply Hs.
      apply list_elem_of_fmap. exists kv. split; [done|by apply list_elem_of_In]. }
    by rewrite Z.lxor_0_r.
  - rewrite Z.lxor_0_l.
    destruct (Z.eqb_spec (at_ (_board b) j) opp) as [Ec|Ec]; [|done]. cbn [andb].
    destruct (Z.eqb_spec (rootf (_stringUnionFind b) j) s) as [Er|Er]; [|done].
    exfalso. apply HjS, HS'. split; [done|]. split; [congruence|done].
Qed.

(** The entries at zero are the strings the move captures. *)
Lemma zcap_captured b c col d j :
  Core b → cell c → cell j → col = 1 ∨ col = 2 →
  dict_ok b (fun x => x =? flip col) (_get_neighbors c) d →
  (at_ (_board b) j =? flip col) &&
  existsb (fun kv => (snd kv =? 0) && (rootf (_stringUnionFind b) j =? fst kv)) d
  = captured_by b c col j.
Proof.
  intros HC Hc Hj Hcol [Hnd Hd].
  assert (∀ i, i ∉ (∅ : gset Z)) as H0 by (intros; apply not_elem_of_empty).
  pose proof (cg_colours _ _ _ _ HC j Hj) as Hjc.
  pose proof (flip_spec col Hcol) as Hflip.
  apply eq_iff_eq_true. unfold captured_by, touches.
  rewrite !andb_true_iff, !negb_true_iff, !Z.eqb_eq, !Z.eqb_neq, !existsb_exists.
  split.
  - intros [Hjo ([s v] & Hin%list_elem_of_In & Hx)]. cbn [fst snd] in Hx.
    apply andb_true_iff in Hx as [->%Z.eqb_eq ->%Z.eqb_eq].
    apply Hd in Hin as [(n & Hn & HPn%Z.eqb_eq & Hr) Hv].
    split; [split; [split; [destruct Hcol; lia|destruct Hcol; lia]|]|].
    + exists n. split; [by apply list_elem_of_In|]. unfold in_string.
      rewrite Hr, Z.eqb_refl, andb_true_r. apply negb_true_iff, Z.eqb_neq.
      destruct Hcol; lia.
    + unfold lib_after. lia.
  - intros [[[Hj0 Hjcol] (n & Hn%list_elem_of_In & Hin)] Hl].
    assert (cell n) as Hnc by (by apply (nbrs_cell c)).
    unfold in_string in Hin. apply andb_true_iff in Hin as [Hn0 Hr%Z.eqb_eq].
    apply negb_true_iff, Z.eqb_neq in Hn0.
    assert (at_ (_board b) j = flip col) as Hjo by (destruct Hcol; lia).
    split; [done|].
    exists (rootf (_stringUnionFind b) j, 0). split.
    + apply list_elem_of_In, Hd. split; [|unfold lib_after in Hl; lia].
      exists n. split; [done|]. split; [|done]. apply Z.eqb_eq.
      rewrite <- (cg_root_colour _ _ _ _ HC n Hnc (H0 n)), Hr.
      by rewrite (cg_root_colour _ _ _ _ HC j Hj (H0 j)).
    + cbn [fst snd]. by rewrite !Z.eqb_refl.
Qed.

(** The stones' hash of the grid the move leads to. *)
Lemma board_after_hash b c col :
  Core b → cell c → at_ (_board b) c = 0 → col = 1 ∨ col = 2 →
  xhashf b (board_after b c col)
  = Z.lxor (Z.lxor (xhash b (_board b)) (zobrist b c col))
      (xorZ (fun j => if captured_by b c col j then zobrist b j (flip col) else 0) cells).
Proof.
  intros HC Hc Hempty Hcol.
  rewrite <- (xorZ_single (fun j => zobrist b j col) c cells);
    [|apply NoDup_cells|by apply cell_in_cells].
  unfold xhash, xhashf. rewrite <- !xorZ_lxor. apply xorZ_ext.
  intros j Hj%cell_in_cells. unfold stone_hash, board_after.
  pose proof (cg_colours _ _ _ _ HC j Hj) as Hjc.
  pose proof (flip_spec col Hcol) as Hflip.
  destruct (Z.eqb_spec j c) as [->|Hne].
  - rewrite bool_decide_eq_true_2 by done.
    unfold captured_by. rewrite Hempty. cbn [Z.eqb negb andb].
    destruct (Z.eqb_spec col 0) as [?|_]; [destruct Hcol; lia|].
    by rewrite Z.lxor_0_l, Z.lxor_0_r.
  - rewrite bool_decide_eq_false_2 by done. rewrite Z.lxor_0_r.
    destruct (captured_by b c col j) eqn:E.
    + unfold captured_by in E. rewrite !andb_true_iff, !negb_true_iff, !Z.eqb_neq in E.
      destruct E as [[[Hj0 Hjcol] _] _].
      assert (at_ (_board b) j = flip col) as -> by (destruct Hcol; lia).
      cbn [Z.eqb]. destruct (Z.eqb_spec (flip col) 0) as [?|_]; [destruct Hcol; lia|].
      by rewrite Z.lxor_nilpotent.
    + by rewrite Z.lxor_0_r.
Qed.

Lemma is_super_ko_spec b c col :
  Core b → tables_ok b → cell c → at_ (_board b) c = 0 → col = 1 ∨ col = 2 →
  ∃ b', _is_super_ko b c col
        = Ok (bool_decide (sim_hash b c col ∈ _seenHashes b), sim_hash b c col, b') ∧
        recompressed b b'.
Proof.
  intros HC Ht Hc Hempty Hcol.
  pose proof (cg_uf _ _ _ _ HC) as Hw.
  pose proof (flip_spec col Hcol) as Hflip.
  assert (∀ i, i ∉ (∅ : gset Z)) as H0 by (intros; apply not_elem_of_empty).
  assert (∀ n, n ∈ _get_neighbors c → cell n) as Hnb by (intros; by eapply nbrs_cell).
  unfold _is_super_ko. rewrite getPositionHash_spec by done. cbn [mbind res_bind].
  rewrite Z.lxor_assoc, Z.lxor_nilpotent, Z.lxor_0_r, Z.eqb_refl.
  cbn [assert_ mbind res_bind]. rewrite neighbors_of_cell by done. cbn [mbind res_bind].
  destruct (superko_loop_spec (flip col) (_get_neighbors c) b [] [] HC)
    as (d & b' & Hloop & HR & Hd); [destruct Hcol; lia| |done| |].
  { intros n Hn. by apply elem_of_nil in Hn. }
  { split; [constructor|]. intros s v. split; [intros H; by apply elem_of_nil in H|].
    intros [(n & Hn & _) _]. by apply elem_of_nil in Hn. }
  rewrite app_nil_l in Hd. rewrite Hloop. cbn [mbind res_bind].
  pose proof (recompressed_CoreG _ _ _ _ _ HC HR) as HC'.
  pose proof (recompressed_static _ _ HR) as Hst.
  pose proof (recompressed_board _ _ HR) as Hb'.
  rewrite superko_captures_spec; [|done|by eapply tables_ok_static|destruct Hcol; lia
                                  |apply Hd|].
  2:{ intros s v [(n & Hn & HPn%Z.eqb_eq & Hr) _]%Hd. rewrite <- Hr.
      split; [by apply (cg_root_cell _ _ _ _ HC'), Hnb|].
      split; [|by apply (cg_root_is_root _ _ _ _ HC'), Hnb].
      rewrite (cg_root_colour _ _ _ _ HC' n) by auto. done. }
  cbn [mbind res_bind].
  assert (_seenHashes b' = _seenHashes b) as ->
    by exact (f_equal (fun u => u.1.1.2) Hst).
  apply (dict_transfer b b') in Hd; [|done|done|done].
  assert (Z.lxor (Z.lxor (_currentHash b) (zobrist b c col))
            (xorZ (fun j => if (at_ (_board b') j =? flip col) &&
                existsb (fun kv => (snd kv =? 0) &&
                           (rootf (_stringUnionFind b') j =? fst kv)) d
              then zobrist b' j (flip col) else 0) cells)
          = sim_hash b c col) as ->; [|by exists b'].
  unfold sim_hash, hash_offset. rewrite board_after_hash by done.
  rewrite (xorZ_ext _ (fun j => if captured_by b c col j
                                then zobrist b j (flip col) else 0)).
  2:{ intros j Hj%cell_in_cells.
      rewrite Hb', (recompressed_rootf b b'), (zobrist_static b b') by done.
      by rewrite (zcap_captured b c col d j). }
  set (h := _currentHash b). set (x := xhash b _). set (z := zobrist b c col).
  set (k := xorZ _ _).
  rewrite <- !Z.lxor_assoc. f_equal. f_equal.
  rewrite (Z.lxor_assoc h x x), Z.lxor_nilpotent, Z.lxor_0_r. done.
Qed.

(** ** A stone placed and its captures: the position the move leads to *)

Lemma hash_offset_put_start b c col :
  length (_board b) = Z.to_nat ncells → cell c → at_ (_board b) c = 0 → col ≠ 0 →
  hash_offset (put_start b c col) = hash_offset b.
Proof.
  intros Hl Hc Hempty Hcol. unfold hash_offset.
  cbn [put_start _board _currentHash set_stringSizes set_stringLiberties set_empties
       set_currentHash set_board].
  rewrite (xhash_static b (put_start b c col)) by done.
  rewrite xhash_upd by done. unfold stone_hash at 1 2.
  rewrite at_upd_eq, Hempty by done. cbn [Z.eqb].
  destruct (Z.eqb_spec col 0) as [?|_]; [done|]. rewrite Z.lxor_0_r.
  set (h := _currentHash b). set (z := zobrist b c col). set (x := xhash b _).
  rewrite (Z.lxor_comm x z), <- Z.lxor_assoc, (Z.lxor_assoc h z z).
  by rewrite Z.lxor_nilpotent, Z.lxor_0_r.
Qed.

(** The count a string is left with once the stone stands on [c] is its
    number of liberties on the new grid. *)
Lemma lib_after_plib b c col r :
  Core b → cell c → at_ (_board b) c = 0 → col = 1 ∨ col = 2 →
  cell r → at_ (_board b) r ≠ 0 → at_ (_stringUnionFind b) r = -1 →
  lib_after b c r = plib (upd (_board b) c col) (_stringUnionFind b) r.
Proof.
  intros HC Hc Hempty Hcol Hr Hocc Hroot.
  assert (r ≠ c) as Hrc by (intros ->; done).
  unfold lib_after.
  rewrite (cg_lib_core _ _ _ r HC Hr ltac:(apply not_elem_of_empty) Hocc Hroot).
  rewrite (ps_plib_other b c col HC Hc Hempty Hcol r Hrc).
  assert (pending (upd (_board b) c col) (_stringUnionFind b) r (_get_neighbors c)
          = pending (_board b) (_stringUnionFind b) r (_get_neighbors c)) as ->; [|lia].
  unfold pending. apply sumZ_ext. intros n Hn. f_equal.
  apply (ps_in_string_other b c col HC Hc Hempty); [by apply (nbrs_cell c)|done].
Qed.

Section move.
  Context (b : Board) (c col : Z) (noLib : list Z) (b2 : Board).
  Hypothesis HC : Core b.
  Hypothesis Hc : cell c.
  Hypothesis Hempty : at_ (_board b) c = 0.
  Hypothesis Hcol : col = 1 ∨ col = 2.
  Hypothesis HC2 : Core b2.
  Hypothesis Hbrd2 : _board b2 = upd (_board b) c col.
  Hypothesis HNL : NL b2 col (_get_neighbors c) noLib.
  Hypothesis Hkeep : ∀ j, cell j → at_ (upd (_board b) c col) j ≠ col →
    rootf (_stringUnionFind b2) j = rootf (_stringUnionFind b) j.

  Local Abbreviation brd := (_board b).
  Local Abbreviation uf := (_stringUnionFind b).
  Local Abbreviation brd1 := (upd (_board b) c col).
  Local Abbreviation uf2 := (_stringUnionFind b2).

Local Lemma mv_K0 : ∀ i : Z, i ∉ (∅ : gset Z).
  Proof. intros; apply not_elem_of_empty. Qed.

Lemma mv_brd1_c : at_ brd1 c = col.
  Proof using HC Hc. apply at_upd_eq; [apply HC|done]. Qed.

Lemma mv_brd1_other j : cell j → j ≠ c → at_ brd1 j = at_ brd j.
  Proof using Hc. intros. by apply at_upd_ne. Qed.

  (** An enemy root of the new position is an enemy root of the old one,
      with the same class. *)
Lemma mv_enemy_root r :
    cell r → at_ brd1 r ≠ 0 → at_ brd1 r ≠ col → at_ uf2 r = -1 →
    r ≠ c ∧ at_ brd r ≠ 0 ∧ at_ brd r ≠ col ∧ at_ uf r = -1.
  Proof using HC Hc Hempty Hcol HC2 Hbrd2 Hkeep.
    intros Hr Hocc Hen Hroot.
    assert (r ≠ c) as Hrc by (intros ->; by rewrite mv_brd1_c in Hen).
    rewrite mv_brd1_other in Hocc, Hen by done.
    split; [done|]. split; [done|]. split; [done|].
    rewrite <- (rootf_root uf2 r Hr Hroot).
    rewrite Hkeep by (done || by rewrite mv_brd1_other).
    apply rootf_is_root; [apply HC|done].
  Qed.

Lemma mv_enemy_class r j :
    cell r → at_ brd1 r ≠ 0 → at_ brd1 r ≠ col → at_ uf2 r = -1 → cell j →
    (rootf uf2 j =? r) = (rootf uf j =? r).
  Proof using HC Hc Hempty Hcol HC2 Hbrd2 Hkeep.
    intros Hr Hocc Hen Hroot Hj.
    destruct (mv_enemy_root r Hr Hocc Hen Hroot) as (Hrc & Hocc' & Hen' & Hroot').
    destruct (decide (at_ brd1 j = col)) as [E|E]; [|by rewrite Hkeep].
    assert (rootf uf2 j ≠ r) as N2.
    { intros Er. pose proof (cg_root_colour _ _ _ _ HC2 j Hj (mv_K0 j)) as Hcj.
      rewrite Er, Hbrd2 in Hcj. congruence. }
    assert (rootf uf j ≠ r) as N1.
    { intros Er. destruct (decide (j = c)) as [->|Hjc].
      - rewrite (ps_root_c b c HC Hc Hempty) in Er. congruence.
      - pose proof (cg_root_colour _ _ _ _ HC j Hj (mv_K0 j)) as Hcj.
        rewrite Er in Hcj. rewrite mv_brd1_other in E by done. congruence. }
    destruct (Z.eqb_spec (rootf uf2 j) r); [done|].
    by destruct (Z.eqb_spec (rootf uf j) r).
  Qed.

  (** The count of an enemy string after the placement is the count the
      checks predicted. *)
Lemma mv_enemy_lib r :
    cell r → at_ brd1 r ≠ 0 → at_ brd1 r ≠ col → at_ uf2 r = -1 →
    at_ (_stringLiberties b2) r = lib_after b c r.
  Proof using HC Hc Hempty Hcol HC2 Hbrd2 Hkeep.
    intros Hr Hocc Hen Hroot.
    destruct (mv_enemy_root r Hr Hocc Hen Hroot) as (Hrc & Hocc' & Hen' & Hroot').
    rewrite (cg_lib_core _ _ _ r HC2 Hr (mv_K0 r)) by (by rewrite ?Hbrd2).
    rewrite Hbrd2.
    rewrite (plib_same_class brd1 uf uf2 r)
      by (intros j Hj; by apply mv_enemy_class).
    symmetry. by apply lib_after_plib.
  Qed.

Lemma mv_captured j :
    cell j → j ≠ c →
    (at_ brd1 j ≠ 0 ∧ rootf uf2 j ∈ noLib) ↔ captured_by b c col j = true.
  Proof using HC Hc Hempty Hcol HC2 Hbrd2 HNL Hkeep.
    intros Hj Hjc. destruct HNL as [_ HN]. rewrite mv_brd1_other by done.
    unfold captured_by, touches, enemy in *.
    rewrite !andb_true_iff, !negb_true_iff, !Z.eqb_eq, !Z.eqb_neq, existsb_exists.
    rewrite Hbrd2 in HN.
    pose proof (cg_root_colour _ _ _ _ HC2 j Hj (mv_K0 j)) as Hcj.
    rewrite Hbrd2, (mv_brd1_other j) in Hcj by done.
    pose proof (cg_root_cell _ _ _ _ HC2 j Hj) as Hrcell.
    pose proof (cg_root_is_root _ _ _ _ HC2 j Hj) as Hrroot.
    split.
    - intros [Hocc [(n & Hn & [Hn0 Hncol] & Hr) Hl]%HN].
      assert (cell n) as Hnc by (by apply (nbrs_cell c)).
      pose proof (cg_root_colour _ _ _ _ HC2 n Hnc (mv_K0 n)) as Hcn.
      rewrite Hbrd2, Hr in Hcn.
      assert (at_ brd j ≠ col) as Hjcol by congruence.
      assert (rootf uf2 j = rootf uf j) as Ej
        by (apply Hkeep; [done|by rewrite mv_brd1_other]).
      assert (n ≠ c) as Hnne by (intros ->; by apply (nbrs_irrefl c)).
      split; [split; [done|]|].
      + exists n. split; [by apply list_elem_of_In|]. unfold in_string.
        rewrite <- (mv_brd1_other n) by done.
        rewrite <- (Hkeep n Hnc Hncol), Hr, Ej, Z.eqb_refl, andb_true_r.
        by apply negb_true_iff, Z.eqb_neq.
      + rewrite <- Ej, <- Hl. symmetry. apply mv_enemy_lib; [done| | |done];
          rewrite Hcj; by rewrite ?mv_brd1_other.
    - intros [[[Hocc Hjcol] (n & Hn%list_elem_of_In & Hin)] Hl].
      assert (cell n) as Hnc by (by apply (nbrs_cell c)).
      assert (n ≠ c) as Hnne by (intros ->; by apply (nbrs_irrefl c)).
      unfold in_string in Hin. apply andb_true_iff in Hin as [Hn0 Hr%Z.eqb_eq].
      apply negb_true_iff, Z.eqb_neq in Hn0.
      assert (rootf uf2 j = rootf uf j) as Ej
        by (apply Hkeep; [done|by rewrite mv_brd1_other]).
      assert (at_ brd n = at_ brd j) as Hnj.
      { rewrite <- (cg_root_colour _ _ _ _ HC n Hnc (mv_K0 n)), Hr.
        by apply (cg_root_colour _ _ _ _ HC). }
      split; [done|]. apply HN. split.
      + exists n. split; [done|]. rewrite mv_brd1_other by done.
        split; [split; congruence|].
        rewrite Hkeep by (done || rewrite mv_brd1_other by done; congruence).
        congruence.
      + rewrite mv_enemy_lib; [by rewrite Ej|done| | |done];
          rewrite Hcj; by rewrite ?mv_brd1_other.
  Qed.

Lemma mv_c_not_captured : rootf uf2 c ∉ noLib.
  Proof using HC Hc Hcol HC2 Hbrd2 HNL.
    destruct HNL as [_ HN]. intros [(n & Hn & [Hn0 Hncol] & Hr) _]%HN.
    assert (cell n) as Hnc by (by apply (nbrs_cell c)).
    pose proof (cg_root_colour _ _ _ _ HC2 n Hnc (mv_K0 n)) as Hcn.
    pose proof (cg_root_colour _ _ _ _ HC2 c Hc (mv_K0 c)) as Hcc.
    rewrite Hr, Hcc, Hbrd2, mv_brd1_c in Hcn. rewrite Hbrd2 in Hncol. congruence.
  Qed.

  (** The grid once the strings of [noLib] are gone. *)
Lemma mv_board_after j :
    cell j →
    (if bool_decide (at_ brd1 j ≠ 0 ∧ rootf uf2 j ∈ noLib) then 0 else at_ brd1 j)
    = board_after b c col j.
  Proof using HC Hc Hempty Hcol HC2 Hbrd2 HNL Hkeep.
    intros Hj. unfold board_after. destruct (Z.eqb_spec j c) as [->|Hjc].
    - rewrite bool_decide_eq_false_2; [apply mv_brd1_c|].
      intros [_ ?]. by apply mv_c_not_captured.
    - rewrite (bool_decide_ext _ _ (mv_captured j Hj Hjc)).
      rewrite mv_brd1_other by done.
      destruct (captured_by b c col j); by case_bool_decide.
  Qed.
End move.

Lemma hash_offset_unregistry b b' :
  unregistry b' = unregistry b → hash_offset b' = hash_offset b.
Proof.
  intros (Hb & _ & Hh & Hst)%unregistry_fields. unfold hash_offset.
  by rewrite Hb, Hh, (xhash_static b b').
Qed.

Lemma currentHash_offset b :
  _currentHash b = Z.lxor (hash_offset b) (xhash b (_board b)).
Proof.
  unfold hash_offset. by rewrite Z.lxor_assoc, Z.lxor_nilpotent, Z.lxor_0_r.
Qed.

(** Placing a stone on an empty cell and capturing the strings it leaves
    without liberty never fails, and leads to the position and to the hash
    that the super-ko simulation computes. *)
Lemma move_spec b c col :
  Core b → tables_ok b → cell c → at_ (_board b) c = 0 → col = 1 ∨ col = 2 →
  ∃ noLib b2 b3,
    _put_stone b c col = Ok (noLib, b2) ∧ capture_all b2 noLib = Ok b3 ∧
    (Core b2 ∧ _board b2 = upd (_board b) c col ∧
     NL b2 col (_get_neighbors c) noLib ∧
     (∀ j, cell j → at_ (upd (_board b) c col) j ≠ col →
           rootf (_stringUnionFind b2) j = rootf (_stringUnionFind b) j)) ∧
    Core b3 ∧ static b3 = static b ∧
    (∀ j, cell j → at_ (_board b3) j = board_after b c col j) ∧
    _currentHash b3 = sim_hash b c col ∧
    (∀ j, cell j → at_ (_board b3) j
       = if bool_decide (at_ (_board b2) j ≠ 0 ∧ rootf (_stringUnionFind b2) j ∈ noLib)
         then 0 else at_ (_board b2) j).
Proof.
  intros HC Ht Hc Hempty Hcol.
  destruct (put_stone_spec b c col HC Ht Hc Hempty Hcol)
    as (noLib & b2 & Hput & HC2 & Hun2 & HNL & Hkeep).
  pose proof Hun2 as (Hb2 & _ & _ & Hst2)%unregistry_fields.
  change (_board (put_start b c col)) with (upd (_board b) c col) in Hb2.
  change (static (put_start b c col)) with (static b) in Hst2.
  assert (∀ i, i ∉ (∅ : gset Z)) as H0 by (intros; apply not_elem_of_empty).
  destruct (capture_all_spec noLib b2 HC2 (tables_ok_static _ _ Hst2 Ht))
    as (b3 & Hcap & HC3 & Hb3 & Hoff3 & Hst3 & Hroots3).
  { apply HNL. }
  { intros s [(n & Hn & [Hn0 Hncol] & Hr) _]%HNL.
    assert (cell n) as Hnc by (by apply (nbrs_cell c)).
    rewrite <- Hr. split; [by apply (cg_root_cell _ _ _ _ HC2)|].
    split; [|by apply (cg_root_is_root _ _ _ _ HC2)].
    by rewrite (cg_root_colour _ _ _ _ HC2 n Hnc (H0 n)). }
  exists noLib, b2, b3. split; [done|]. split; [done|]. split; [done|].
  split; [done|]. split; [congruence|].
  assert (∀ j, cell j → at_ (_board b3) j = board_after b c col j) as Hafter.
  { intros j Hj. rewrite Hb3, Hb2 by done.
    by apply (mv_board_after b c col noLib b2). }
  split; [done|]. split; [|done].
  rewrite currentHash_offset, Hoff3, (hash_offset_unregistry _ _ Hun2).
  rewrite hash_offset_put_start; [|apply HC|done|done|destruct Hcol; lia].
  unfold sim_hash. f_equal.
  rewrite (xhash_static b b3) by congruence.
  unfold xhash, xhashf. apply xorZ_ext. intros j Hj%cell_in_cells.
  unfold stone_hash. by rewrite Hafter.
Qed.

(** ** Liberties on the grid and in the registry *)

Lemma sumZ_pos_inv {A} (f : A → Z) l : 0 < sumZ f l → ∃ x, x ∈ l ∧ 0 < f x.
Proof.
  induction l as [|a l IH]; simpl; [lia|]. intros H.
  destruct (decide (0 < f a)) as [?|?]; [exists a; split; [by left|done]|].
  destruct IH as (x & Hx & Hfx); [lia|]. exists x. split; [by right|done].
Qed.

Lemma nb_empty_pos brd j : 0 < nb_empty brd j ↔ ∃ n, n ∈ _get_neighbors j ∧ at_ brd n = 0.
Proof.
  unfold nb_empty. split.
  - intros (n & Hn & Hp)%sumZ_pos_inv. exists n. split; [done|].
    by destruct (Z.eqb_spec (at_ brd n) 0).
  - intros (n & Hn & H0). apply (sumZ_pos _ _ n); [|done|by rewrite H0].
    intros y _. by destruct (_ =? _).
Qed.

(** The count of a string is positive exactly when one of its stones has
    an empty neighbour. *)
Lemma lib_pos_iff b j :
  Core b → cell j → at_ (_board b) j ≠ 0 →
  0 < at_ (_stringLiberties b) (rootf (_stringUnionFind b) j) ↔ has_lib (_board b) j.
Proof.
  intros HC Hj Hocc.
  assert (∀ i, i ∉ (∅ : gset Z)) as H0 by (intros; apply not_elem_of_empty).
  pose proof (cg_root_cell _ _ _ _ HC j Hj) as Hrc.
  rewrite (cg_lib_core _ _ _ _ HC Hrc (H0 _));
    [|by rewrite (cg_root_colour _ _ _ _ HC j Hj (H0 j))
     |by apply (cg_root_is_root _ _ _ _ HC)].
  unfold plib. split.
  - intros (j' & Hj'%cell_in_cells & Hp)%sumZ_pos_inv.
    destruct (in_string _ _ _ j') eqn:Ein; [|lia].
    apply nb_empty_pos in Hp as (n & Hn & Hn0).
    exists j', n. split; [|done]. apply (class_conn b j j' HC Hj Hocc).
    unfold in_string in Ein. apply andb_true_iff in Ein as [E1 E2%Z.eqb_eq].
    split; [done|]. split; [|done]. by apply negb_true_iff, Z.eqb_neq in E1.
  - intros (j' & n & Hconn & Hn & Hn0).
    apply (class_conn b j j' HC Hj Hocc) in Hconn as (Hj' & Hocc' & Hr).
    apply (sumZ_pos _ _ j'); [|by apply cell_in_cells|].
    + intros y Hy%cell_in_cells. destruct (in_string _ _ _ y); [|done].
      by apply nb_empty_bounds.
    + rewrite <- Hr, in_string_root by done. apply nb_empty_pos. by exists n.
Qed.

Lemma alive_iff b :
  Core b → alive b ↔ ∀ j, cell j → at_ (_board b) j ≠ 0 → has_lib (_board b) j.
Proof.
  intros HC.
  assert (∀ i, i ∉ (∅ : gset Z)) as H0 by (intros; apply not_elem_of_empty).
  split.
  - intros Ha j Hj Hocc. apply lib_pos_iff; [done..|].
    apply Ha; [by apply (cg_root_cell _ _ _ _ HC)| |by apply (cg_root_is_root _ _ _ _ HC)].
    by rewrite (cg_root_colour _ _ _ _ HC j Hj (H0 j)).
  - intros H r Hr Hocc Hroot. rewrite <- (rootf_root _ r Hr Hroot).
    apply lib_pos_iff; [done..|]. by apply H.
Qed.

Lemma lib_nonneg b j :
  Core b → cell j → at_ (_board b) j ≠ 0 →
  0 ≤ at_ (_stringLiberties b) (rootf (_stringUnionFind b) j).
Proof.
  intros HC Hj Hocc.
  assert (∀ i, i ∉ (∅ : gset Z)) as H0 by (intros; apply not_elem_of_empty).
  rewrite (cg_lib_core _ _ _ _ HC (cg_root_cell _ _ _ _ HC j Hj) (H0 _));
    [apply plib_nonneg
    |by rewrite (cg_root_colour _ _ _ _ HC j Hj (H0 j))
    |by apply (cg_root_is_root _ _ _ _ HC)].
Qed.

(** What a move that is not a suicide offers its own string. *)
Lemma not_suicide_cases b c col :
  Core b → cell c → at_ (_board b) c = 0 → col = 1 ∨ col = 2 →
  suicide_spec b c col = false →
  (∃ n, n ∈ _get_neighbors c ∧ at_ (_board b) n = 0) ∨
  (∃ n, n ∈ _get_neighbors c ∧ at_ (_board b) n ≠ 0 ∧ at_ (_board b) n ≠ col ∧
        lib_after b c (rootf (_stringUnionFind b) n) = 0) ∨
  (∃ n, n ∈ _get_neighbors c ∧ at_ (_board b) n = col ∧
        0 < lib_after b c (rootf (_stringUnionFind b) n)).
Proof.
  intros HC Hc Hempty Hcol Hs. unfold suicide_spec in Hs.
  assert (∀ i, i ∉ (∅ : gset Z)) as H0 by (intros; apply not_elem_of_empty).
  destruct (existsb _ _) eqn:E1 in Hs.
  { left. apply existsb_exists in E1 as (n & Hn%list_elem_of_In & ?%Z.eqb_eq).
    by exists n. }
  assert (∀ n, n ∈ _get_neighbors c → at_ (_board b) n ≠ 0) as Hocc.
  { intros n Hn E. apply not_true_iff_false in E1. apply E1, existsb_exists.
    exists n. split; [by apply list_elem_of_In|by apply Z.eqb_eq]. }
  right. destruct (existsb _ _) eqn:E2 in Hs.
  { left. apply existsb_exists in E2 as (n & Hn%list_elem_of_In & Hx).
    apply andb_true_iff in Hx as [Hx1%negb_true_iff%Z.eqb_neq Hx2%Z.eqb_eq].
    exists n. split; [done|]. split; [by apply Hocc|done]. }
  right. destruct (length _ =? 0)%nat eqn:E3 in Hs; [done|].
  apply Z.eqb_neq in Hs.
  assert (∀ f, f ∈ friend_roots b c col →
            ∃ n, n ∈ _get_neighbors c ∧ at_ (_board b) n = col ∧
                 rootf (_stringUnionFind b) n = f) as Hfr.
  { intros f Hf. unfold friend_roots in Hf.
    apply elem_of_remove_dups, list_elem_of_fmap in Hf as (n & -> & Hn).
    apply list_elem_of_In, filter_In in Hn as [Hn%list_elem_of_In Hx%Z.eqb_eq].
    by exists n. }
  assert (∀ f, f ∈ friend_roots b c col → 0 ≤ lib_after b c f) as Hnn.
  { intros f (n & Hn & Hncol & <-)%Hfr.
    assert (cell n) as Hnc by (by apply (nbrs_cell c)).
    rewrite (lib_after_plib b c col); [apply plib_nonneg|done..| | |].
    - by apply (cg_root_cell _ _ _ _ HC).
    - rewrite (cg_root_colour _ _ _ _ HC n Hnc (H0 n)). by apply Hocc.
    - by apply (cg_root_is_root _ _ _ _ HC). }
  assert (0 < sumZ (lib_after b c) (friend_roots b c col)) as Hpos.
  { pose proof (sumZ_nonneg (lib_after b c) (friend_roots b c col) Hnn). lia. }
  apply sumZ_pos_inv in Hpos as (f & (n & Hn & Hncol & <-)%Hfr & Hp).
  by exists n.
Qed.

(** ** A legal move leaves every string with a liberty *)

Section alive_move.
  Context (b : Board) (c col : Z) (noLib : list Z) (b2 b3 : Board).
  Hypothesis HC : Core b.
  Hypothesis Ha : alive b.
  Hypothesis Hc : cell c.
  Hypothesis Hempty : at_ (_board b) c = 0.
  Hypothesis Hcol : col = 1 ∨ col = 2.
  Hypothesis HC2 : Core b2.
  Hypothesis Hbrd2 : _board b2 = upd (_board b) c col.
  Hypothesis HNL : NL b2 col (_get_neighbors c) noLib.
  Hypothesis Hkeep : ∀ j, cell j → at_ (upd (_board b) c col) j ≠ col →
    rootf (_stringUnionFind b2) j = rootf (_stringUnionFind b) j.
  Hypothesis HC3 : Core b3.
  Hypothesis Hb3 : ∀ j, cell j → at_ (_board b3) j
    = if bool_decide (at_ (_board b2) j ≠ 0 ∧ rootf (_stringUnionFind b2) j ∈ noLib)
      then 0 else at_ (_board b2) j.
  Hypothesis Hns : suicide_spec b c col = false.

  Local Abbreviation brd := (_board b).
  Local Abbreviation uf := (_stringUnionFind b).
  Local Abbreviation brd2 := (_board b2).
  Local Abbreviation uf2 := (_stringUnionFind b2).
  Local Abbreviation brd3 := (_board b3).

Local Lemma am_K0 : ∀ i : Z, i ∉ (∅ : gset Z).
  Proof. intros; apply not_elem_of_empty. Qed.

Lemma am_brd2_c : at_ brd2 c = col.
  Proof using HC Hc Hbrd2. rewrite Hbrd2. apply at_upd_eq; [apply HC|done]. Qed.

Lemma am_brd2_other j : cell j → j ≠ c → at_ brd2 j = at_ brd j.
  Proof using Hc Hbrd2. intros. rewrite Hbrd2. by apply at_upd_ne. Qed.

Lemma am_keep j : cell j → at_ brd3 j ≠ 0 →
    at_ brd3 j = at_ brd2 j ∧ at_ brd2 j ≠ 0 ∧ rootf uf2 j ∉ noLib.
  Proof using Hb3.
    intros Hj H3. rewrite Hb3 in H3 |- * by done.
    case_bool_decide as E; [done|]. split; [done|]. split; [done|].
    intros Hin. by apply E.
  Qed.

Lemma am_empty n : cell n → at_ brd2 n = 0 → at_ brd3 n = 0.
  Proof using Hb3. intros Hn H2. rewrite Hb3 by done. by case_bool_decide. Qed.

Lemma am_captured n : cell n → at_ brd2 n ≠ 0 → rootf uf2 n ∈ noLib → at_ brd3 n = 0.
  Proof using Hb3. intros Hn H2 Hin. rewrite Hb3 by done. by rewrite bool_decide_eq_true_2. Qed.

Lemma am_conn j j' : cell j → at_ brd3 j ≠ 0 → conn brd2 j j' → conn brd3 j j'.
  Proof using HC2 Hb3.
    intros Hj H3 Hconn.
    destruct (am_keep j Hj H3) as (E3 & H2 & Hnot).
    assert (∀ y, conn brd2 j y → cell y ∧ at_ brd3 y = at_ brd2 y) as Hsame.
    { intros y (Hy & Hyocc & Hr)%(class_conn b2 j y HC2 Hj H2). split; [done|].
      rewrite Hb3 by done. rewrite bool_decide_eq_false_2; [done|].
      intros [_ Hin]. rewrite Hr in Hin. done. }
    revert j' Hconn. apply rtc_ind_r; [apply rtc_refl|].
    intros y z Hjy Hyz IH. eapply rtc_r; [exact IH|].
    assert (conn brd2 j z) as Hjz by (eapply rtc_r; done).
    destruct Hyz as (Hy & Hz & Hcol').
    split; [done|]. split; [done|].
    destruct (Hsame y Hjy) as [_ ->]. destruct (Hsame z Hjz) as [_ ->]. done.
  Qed.

Lemma am_has_lib2 j : cell j → at_ brd3 j ≠ 0 → has_lib brd2 j → has_lib brd3 j.
  Proof using HC2 Hb3.
    intros Hj H3 (j' & n & Hconn & Hn & Hn0).
    exists j', n. split; [by apply am_conn|]. split; [done|].
    apply am_empty; [|done]. apply (nbrs_cell j'); [|done].
    by apply (conn_cell brd2 j).
  Qed.

  (** The new stone's string has, or gets, a liberty. *)
Lemma am_own : has_lib brd2 c ∨ ∃ n, n ∈ _get_neighbors c ∧ at_ brd3 n = 0.
  Proof using HC Hc Hempty Hcol HC2 Hbrd2 HNL Hkeep Hb3 Hns.
    destruct (not_suicide_cases b c col HC Hc Hempty Hcol Hns)
      as [(n & Hn & Hn0)|[(n & Hn & Hn0 & Hncol & Hl)|(n & Hn & Hncol & Hl)]];
      assert (cell n) as Hnc by (by apply (nbrs_cell c));
      assert (n ≠ c) as Hnne by (intros ->; by apply (nbrs_irrefl c)).
    - left. exists c, n. split; [apply rtc_refl|]. split; [done|].
      by rewrite am_brd2_other.
    - right. exists n. split; [done|].
      assert (at_ (upd brd c col) n ≠ col) as Hn1 by (by rewrite at_upd_ne).
      pose proof (Hkeep n Hnc Hn1) as Er.
      assert (at_ (upd brd c col) (rootf uf2 n) ≠ 0 ∧
              at_ (upd brd c col) (rootf uf2 n) ≠ col) as [Hr0 Hrcol].
      { rewrite <- Hbrd2, (cg_root_colour _ _ _ _ HC2 n Hnc (am_K0 n)).
        by rewrite am_brd2_other. }
      apply am_captured; [done|by rewrite am_brd2_other|].
      apply HNL. split.
      + exists n. split; [done|]. split; [|done]. split; by rewrite am_brd2_other.
      + rewrite (mv_enemy_lib b c col b2 HC Hc Hempty Hcol HC2 Hbrd2 Hkeep);
          [by rewrite Er|by apply (cg_root_cell _ _ _ _ HC2)|done|done
          |by apply (cg_root_is_root _ _ _ _ HC2)].
    - left. set (f := rootf uf n) in *.
      assert (cell f) as Hfc by (by apply (cg_root_cell _ _ _ _ HC)).
      assert (at_ brd f = col) as Hfcol
        by (unfold f; by rewrite (cg_root_colour _ _ _ _ HC n Hnc (am_K0 n))).
      rewrite (lib_after_plib b c col) in Hl;
        [|done|done|done|done|done|destruct Hcol; lia
         |by apply (cg_root_is_root _ _ _ _ HC)].
      unfold plib in Hl. apply sumZ_pos_inv in Hl as (j' & Hj'%cell_in_cells & Hp).
      destruct (in_string _ _ f j') eqn:Ein; [|lia].
      apply nb_empty_pos in Hp as (e & He & He0).
      unfold in_string in Ein. apply andb_true_iff in Ein as [E1 E2%Z.eqb_eq].
      apply negb_true_iff, Z.eqb_neq in E1.
      assert (j' ≠ c) as Hj'c.
      { intros ->. rewrite (ps_root_c b c HC Hc Hempty) in E2.
        rewrite <- E2 in Hfcol. destruct Hcol; lia. }
      rewrite at_upd_ne in E1 by done.
      exists j', e. rewrite Hbrd2. split; [|done].
      eapply rtc_l.
      + split; [done|]. split; [exact Hn|].
        rewrite at_upd_eq by (done || apply HC). by rewrite at_upd_ne.
      + apply conn_upd_colour; [done|destruct Hcol; lia|].
        apply (class_conn b n j' HC Hnc); [destruct Hcol; lia|]. done.
  Qed.

Lemma move_alive : alive b3.
  Proof using All.
    apply (alive_iff b3 HC3). intros j Hj H3.
    destruct (am_keep j Hj H3) as (E3 & H2 & Hnot).
    pose proof (lib_nonneg b2 j HC2 Hj H2) as Hl2.
    destruct (decide (0 < at_ (_stringLiberties b2) (rootf uf2 j))) as [Hpos|Hzero].
    { apply am_has_lib2; [done|done|]. by apply lib_pos_iff. }
    assert (¬ has_lib brd2 j) as Hno.
    { intros H. apply Hzero. by apply lib_pos_iff. }
    assert (at_ (_stringLiberties b2) (rootf uf2 j) = 0) as Hl0 by lia.
    pose proof (cg_root_cell _ _ _ _ HC2 j Hj) as Hrc.
    pose proof (cg_root_is_root _ _ _ _ HC2 j Hj) as Hrr.
    pose proof (cg_root_colour _ _ _ _ HC2 j Hj (am_K0 j)) as Hrcol.
    destruct (decide (at_ brd2 j = col)) as [Ef|Ee].
    - assert (at_ brd2 c ≠ 0) as Hc2 by (rewrite am_brd2_c; destruct Hcol; lia).
      destruct (decide (rootf uf2 j = rootf uf2 c)) as [Erc|Erc].
      + assert (conn brd2 j c) as Hjc by (by apply (class_conn b2 j c HC2 Hj H2)).
        destruct am_own as [(j' & n & Hconn & Hn & Hn0)|(n & Hn & Hn3)].
        * exfalso. apply Hno. exists j', n. split; [by eapply rtc_trans|done].
        * exists c, n. split; [by apply am_conn|done].
      + exfalso. assert (j ≠ c) as Hjne by (by intros ->).
        assert (at_ brd j = col) as Hjcol by (by rewrite <- am_brd2_other).
        assert (at_ brd j ≠ 0) as Hj0 by (destruct Hcol; lia).
        destruct (proj1 (alive_iff b HC) Ha j Hj Hj0) as (j' & n & Hconn & Hn & Hn0).
        assert (conn brd2 j j') as Hconn2.
        { rewrite Hbrd2. apply conn_upd_colour; [done|congruence|done]. }
        assert (cell j') as Hj' by (by apply (conn_cell brd j)).
        assert (at_ brd2 j' = col) as Hj'col.
        { apply conn_colour in Hconn2. congruence. }
        destruct (decide (n = c)) as [->|Hnne].
        * apply Erc. symmetry.
          apply (class_conn b2 j c HC2 Hj H2). eapply rtc_r; [exact Hconn2|].
          split; [done|]. split; [done|]. by rewrite am_brd2_c.
        * apply Hno. exists j', n. split; [done|]. split; [done|].
          rewrite am_brd2_other; [done|by apply (nbrs_cell j')|done].
    - exfalso. set (r := rootf uf2 j) in *.
      assert (at_ (upd brd c col) r ≠ 0 ∧ at_ (upd brd c col) r ≠ col) as [Hr0 Hrcol'].
      { rewrite <- Hbrd2, Hrcol. done. }
      destruct (mv_enemy_root b c col b2 HC Hc Hempty Hcol HC2 Hbrd2 Hkeep r
                  Hrc Hr0 Hrcol' Hrr) as (Hrne & Hrocc & Hrcol0 & Hrroot).
      pose proof (mv_enemy_lib b c col b2 HC Hc Hempty Hcol HC2 Hbrd2 Hkeep r
                    Hrc Hr0 Hrcol' Hrr) as Hla.
      pose proof (Ha r Hrc Hrocc Hrroot) as Hlpos.
      unfold lib_after in Hla.
      assert (0 < pending brd uf r (_get_neighbors c)) as Hpend by lia.
      unfold pending in Hpend. apply sumZ_pos_inv in Hpend as (n & Hn & Hp).
      destruct (in_string brd uf r n) eqn:Ein; [|simpl in Hp; lia].
      unfold in_string in Ein. apply andb_true_iff in Ein as [E1 E2%Z.eqb_eq].
      apply negb_true_iff, Z.eqb_neq in E1.
      assert (cell n) as Hnc by (by apply (nbrs_cell c)).
      assert (n ≠ c) as Hnne by (intros ->; by apply (nbrs_irrefl c)).
      assert (at_ brd n ≠ col) as Hncol.
      { rewrite <- (cg_root_colour _ _ _ _ HC n Hnc (am_K0 n)), E2. done. }
      apply Hnot, HNL. split; [|done].
      exists n. split; [done|]. split; [split; by rewrite am_brd2_other|].
      rewrite Hkeep; [done|done|by rewrite at_upd_ne].
  Qed.
End alive_move.

(** The move of [move_spec] keeps the position alive when it is not a
    suicide. *)
Lemma move_spec_alive b c col :
  Core b → alive b → tables_ok b → cell c → at_ (_board b) c = 0 → col = 1 ∨ col = 2 →
  suicide_spec b c col = false →
  ∃ noLib b2 b3,
    _put_stone b c col = Ok (noLib, b2) ∧ capture_all b2 noLib = Ok b3 ∧
    Core b3 ∧ alive b3 ∧ static b3 = static b ∧
    (∀ j, cell j → at_ (_board b3) j = board_after b c col j) ∧
    _currentHash b3 = sim_hash b c col.
Proof.
  intros HC Ha Ht Hc Hempty Hcol Hns.
  destruct (move_spec b c col HC Ht Hc Hempty Hcol)
    as (noLib & b2 & b3 & Hput & Hcap & (HC2 & Hb2 & HNL & Hkeep) & HC3 & Hst & Hafter
        & Hhash & Hb3).
  exists noLib, b2, b3. split_and!; try done.
  by apply (move_alive b c col noLib b2 b3).
Qed.

(** ** The suicide check *)

Lemma suicide_loop_spec col : ∀ rest b seen dF dO,
  Core b → col ≠ 0 → (∀ n, n ∈ seen → cell n) → (∀ n, n ∈ rest → cell n) →
  dict_ok b (fun x => x =? col) seen dF →
  dict_ok b (fun x => negb (x =? 0) && negb (x =? col)) seen dO →
  ∃ r b', suicide_loop b col rest dF dO = Ok (r, b') ∧ recompressed b b' ∧
    match r with
    | None => ∃ n, n ∈ rest ∧ at_ (_board b) n = 0
    | Some (dF', dO') =>
        (∀ n, n ∈ rest → at_ (_board b) n ≠ 0) ∧
        dict_ok b' (fun x => x =? col) (seen ++ rest) dF' ∧
        dict_ok b' (fun x => negb (x =? 0) && negb (x =? col)) (seen ++ rest) dO'
    end.
Proof.
  induction rest as [|fn rest IH]; intros b seen dF dO HC Hcol Hseen Hrest HdF HdO.
  { exists (Some (dF, dO)), b. rewrite app_nil_r. split; [done|].
    split; [apply recompressed_refl|]. split; [|done].
    intros n Hn. by apply elem_of_nil in Hn. }
  assert (cell fn) as Hfn by (apply Hrest; by left).
  assert (∀ n, n ∈ seen ++ [fn] → cell n) as Hseen'.
  { intros n [?|Hx%list_elem_of_singleton]%elem_of_app; [auto|by rewrite Hx]. }
  assert (∀ n, n ∈ rest → cell n) as Hrest' by (intros; apply Hrest; by right).
  cbn [suicide_loop]. rewrite aget_cell by (done || apply HC). cbn [mbind res_bind].
  unfold _EMPTY. destruct (Z.eqb_spec (at_ (_board b) fn) 0) as [E0|E0].
  { exists None, b. split; [done|]. split; [apply recompressed_refl|].
    exists fn. split; [by left|done]. }
  destruct (find_recompressed b 0 [] ∅ fn HC Hfn) as (b1 & Hfind & HR1).
  rewrite Hfind. cbn [mbind res_bind].
  pose proof (cg_uf _ _ _ _ HC) as Hw.
  pose proof (recompressed_CoreG _ _ _ _ _ HC HR1) as HC1.
  pose proof (recompressed_board _ _ HR1) as Hb1.
  apply (dict_transfer b b1) in HdF; [|done|done|done].
  apply (dict_transfer b b1) in HdO; [|done|done|done].
  rewrite (cons_middle fn seen rest), app_assoc.
  assert (∀ (r : option (list (Z * Z) * list (Z * Z))) b',
    recompressed b1 b' →
    match r with
    | None => ∃ n, n ∈ rest ∧ at_ (_board b1) n = 0
    | Some (dF', dO') =>
        (∀ n, n ∈ rest → at_ (_board b1) n ≠ 0) ∧
        dict_ok b' (fun x => x =? col) ((seen ++ [fn]) ++ rest) dF' ∧
        dict_ok b' (fun x => negb (x =? 0) && negb (x =? col)) ((seen ++ [fn]) ++ rest) dO'
    end →
    recompressed b b' ∧
    match r with
    | None => ∃ n, n ∈ fn :: rest ∧ at_ (_board b) n = 0
    | Some (dF', dO') =>
        (∀ n, n ∈ fn :: rest → at_ (_board b) n ≠ 0) ∧
        dict_ok b' (fun x => x =? col) ((seen ++ [fn]) ++ rest) dF' ∧
        dict_ok b' (fun x => negb (x =? 0) && negb (x =? col)) ((seen ++ [fn]) ++ rest) dO'
    end) as Hfin.
  { intros r b' HR' Hr. split; [by eapply recompressed_trans|].
    rewrite Hb1 in Hr. destruct r as [[dF' dO']|].
    - destruct Hr as (Hocc & ? & ?). split; [|done].
      intros n [->|?]%elem_of_cons; [done|by apply Hocc].
    - destruct Hr as (n & Hn & Hn0). exists n. split; [by right|done]. }
  destruct (Z.eqb_spec (at_ (_board b) fn) col) as [Ec|Ec].
  - destruct (dict_touch_spec b1 (fun x => x =? col) seen dF fn HC1 Hfn Hseen)
      as (d1 & Ht & Hd1); [by apply Z.eqb_neq|done|by rewrite Hb1, Ec, Z.eqb_refl|].
    rewrite (recompressed_rootf b b1) in Ht by done. rewrite Ht. cbn [mbind res_bind].
    destruct (IH b1 (seen ++ [fn]) d1 dO HC1 Hcol Hseen' Hrest' Hd1)
      as (r & b' & Hl & HR' & Hr).
    { apply dict_skip; [done..|]. by rewrite Hb1, Ec, Z.eqb_refl, andb_false_r. }
    exists r, b'. split; [done|]. by apply Hfin.
  - destruct (dict_touch_spec b1 (fun x => negb (x =? 0) && negb (x =? col))
                seen dO fn HC1 Hfn Hseen) as (d1 & Ht & Hd1); [done|done| |].
    { rewrite Hb1. by destruct (Z.eqb_spec (at_ (_board b) fn) 0),
                               (Z.eqb_spec (at_ (_board b) fn) col). }
    rewrite (recompressed_rootf b b1) in Ht by done. rewrite Ht. cbn [mbind res_bind].
    destruct (IH b1 (seen ++ [fn]) dF d1 HC1 Hcol Hseen' Hrest')
      as (r & b' & Hl & HR' & Hr); [|done|].
    { apply dict_skip; [done..|]. rewrite Hb1. by apply Z.eqb_neq. }
    exists r, b'. split; [done|]. by apply Hfin.
Qed.

Lemma foldr_add_map {A} (f : A → Z) l : foldr Z.add 0 (map f l) = sumZ f l.
Proof. induction l as [|a l IH]; simpl; [done|]. by rewrite IH. Qed.

Lemma sumZ_map {A B} (f : B → Z) (g : A → B) l :
  sumZ f (map g l) = sumZ (fun x => f (g x)) l.
Proof. induction l as [|a l IH]; simpl; [done|]. by rewrite IH. Qed.

Lemma friend_roots_spec b c col f :
  f ∈ friend_roots b c col ↔
  ∃ n, n ∈ _get_neighbors c ∧ at_ (_board b) n = col ∧
       rootf (_stringUnionFind b) n = f.
Proof.
  unfold friend_roots. rewrite elem_of_remove_dups, list_elem_of_fmap. split.
  - intros (n & -> & Hn).
    apply list_elem_of_In, filter_In in Hn as [Hn%list_elem_of_In Hx%Z.eqb_eq].
    by exists n.
  - intros (n & Hn & Hcol & <-). exists n. split; [done|].
    apply list_elem_of_In, filter_In. split; [by apply list_elem_of_In|by apply Z.eqb_eq].
Qed.

(** The friends' dictionary lists the friendly roots, each once. *)
Lemma friends_dict_perm b c col dF :
  dict_ok b (fun x => x =? col) (_get_neighbors c) dF →
  map fst dF ≡ₚ friend_roots b c col.
Proof.
  intros [Hnd Hd]. apply NoDup_Permutation; [done|apply NoDup_remove_dups|].
  intros f. rewrite friend_roots_spec, list_elem_of_fmap. split.
  - intros ([s v] & -> & [(n & Hn & HP%Z.eqb_eq & Hr) _]%Hd). by exists n.
  - intros (n & Hn & Hcol & Hr).
    exists (f, at_ (_stringLiberties b) f
               - pending (_board b) (_stringUnionFind b) f (_get_neighbors c)).
    split; [done|]. apply Hd. split; [|done]. exists n.
    split; [done|]. split; [by apply Z.eqb_eq|done].
Qed.

Lemma is_suicide_spec b c col :
  Core b → cell c → col = 1 ∨ col = 2 →
  ∃ b', _is_suicide b c col = Ok (suicide_spec b c col, b') ∧ recompressed b b'.
Proof.
  intros HC Hc Hcol.
  pose proof (cg_uf _ _ _ _ HC) as Hw.
  assert (∀ n, n ∈ _get_neighbors c → cell n) as Hnb by (intros; by eapply nbrs_cell).
  unfold _is_suicide. rewrite neighbors_of_cell by done. cbn [mbind res_bind].
  destruct (suicide_loop_spec col (_get_neighbors c) b [] [] [] HC)
    as (r & b' & Hloop & HR & Hr); [destruct Hcol; lia| |done| | |].
  { intros n Hn. by apply elem_of_nil in Hn. }
  { split; [constructor|]. intros s v. split; [intros H; by apply elem_of_nil in H|].
    intros [(n & Hn & _) _]. by apply elem_of_nil in Hn. }
  { split; [constructor|]. intros s v. split; [intros H; by apply elem_of_nil in H|].
    intros [(n & Hn & _) _]. by apply elem_of_nil in Hn. }
  rewrite Hloop. cbn [mbind res_bind]. exists b'. split; [|done].
  unfold suicide_spec. destruct r as [[dF dO]|].
  2:{ destruct Hr as (n & Hn & Hn0).
      rewrite (proj2 (existsb_exists _ _)); [done|].
      exists n. split; [by apply list_elem_of_In|by apply Z.eqb_eq]. }
  rewrite app_nil_l in Hr. destruct Hr as (Hocc & HdF & HdO).
  apply (dict_transfer b b') in HdF; [|done|done|done].
  apply (dict_transfer b b') in HdO; [|done|done|done].
  assert (existsb (fun n => at_ (_board b) n =? 0) (_get_neighbors c) = false) as ->.
  { apply not_true_is_false. intros (n & Hn%list_elem_of_In & ?%Z.eqb_eq)%existsb_exists.
    by apply (Hocc n). }
  assert (existsb (fun kv : Z * Z => snd kv =? 0) dO
          = existsb (fun n => negb (at_ (_board b) n =? col) &&
                        (lib_after b c (rootf (_stringUnionFind b) n) =? 0))
              (_get_neighbors c)) as ->.
  { apply eq_iff_eq_true. rewrite !existsb_exists. destruct HdO as [_ HdO]. split.
    - intros ([s v] & Hin%list_elem_of_In & Hv%Z.eqb_eq). cbn [snd] in Hv. subst v.
      apply HdO in Hin as [(n & Hn & HP & Hr) Hv].
      exists n. split; [by apply list_elem_of_In|].
      apply andb_true_iff in HP as [_ ->]. cbn [andb].
      apply Z.eqb_eq. unfold lib_after. rewrite Hr. lia.
    - intros (n & Hn%list_elem_of_In & Hx).
      apply andb_true_iff in Hx as [Hx1 Hx2%Z.eqb_eq].
      exists (rootf (_stringUnionFind b) n, 0). split; [|done].
      apply list_elem_of_In, HdO. split; [|unfold lib_after in Hx2; lia].
      exists n. split; [done|]. split; [|done]. rewrite Hx1, andb_true_r.
      apply negb_true_iff, Z.eqb_neq. by apply Hocc. }
  destruct (existsb _ _); [done|].
  pose proof (friends_dict_perm b c col dF HdF) as Hperm.
  assert (length dF = length (friend_roots b c col)) as Hlen.
  { by rewrite <- (Permutation_length Hperm), length_map. }
  rewrite Hlen. destruct (_ =? 0)%nat; [done|].
  assert (foldr Z.add 0 (map snd dF) = sumZ (lib_after b c) (friend_roots b c col)) as ->.
  { rewrite <- (sumZ_perm _ _ _ Hperm), sumZ_map, foldr_add_map.
    apply sumZ_ext. intros [s v] [_ Hv]%HdF. cbn [fst snd]. by rewrite Hv. }
  by destruct (_ =? 0).
Qed.

(** ** The checks do not depend on path compressions *)

Lemma existsb_ext_in {A} (f g : A → bool) l :
  (∀ x, In x l → f x = g x) → existsb f l = existsb g l.
Proof.
  induction l as [|a l IH]; intros H; simpl; [done|].
  rewrite H by (by left). rewrite IH; [done|]. intros; apply H; by right.
Qed.

Section recompressed.
  Context (b b' : Board) (c col : Z).
  Hypothesis Hw : uf_wf (_stringUnionFind b).
  Hypothesis HR : recompressed b b'.
  Hypothesis Hc : cell c.

Lemma recompressed_captured_by j :
    cell j → captured_by b' c col j = captured_by b c col j.
  Proof using Hw HR Hc.
    intros Hj. unfold captured_by, touches.
    rewrite (recompressed_board _ _ HR), (recompressed_rootf b b'),
      (recompressed_lib_after b b') by done.
    f_equal. f_equal. apply existsb_ext_in. intros n Hn%list_elem_of_In.
    unfold in_string.
    by rewrite (recompressed_rootf b b' n) by (done || by apply (nbrs_cell c)).
  Qed.

Lemma recompressed_board_after j :
    cell j → board_after b' c col j = board_after b c col j.
  Proof using Hw HR Hc.
    intros Hj. unfold board_after.
    by rewrite recompressed_captured_by, (recompressed_board _ _ HR).
  Qed.

Lemma recompressed_sim_hash : sim_hash b' c col = sim_hash b c col.
  Proof using Hw HR Hc.
    unfold sim_hash. rewrite (recompressed_hash_offset _ _ HR). f_equal.
    unfold xhashf. apply xorZ_ext. intros j Hj%cell_in_cells.
    rewrite recompressed_board_after by done.
    by rewrite (zobrist_static b b') by (by apply recompressed_static).
  Qed.

Lemma recompressed_friend_roots : friend_roots b' c col = friend_roots b c col.
  Proof using Hw HR Hc.
    unfold friend_roots. rewrite (recompressed_board _ _ HR). f_equal.
    apply map_ext_in. intros n Hn%filter_In. destruct Hn as [Hn%list_elem_of_In _].
    apply recompressed_rootf; [done|done|by apply (nbrs_cell c)].
  Qed.

Lemma recompressed_suicide_spec : suicide_spec b' c col = suicide_spec b c col.
  Proof using Hw HR Hc.
    unfold suicide_spec. rewrite recompressed_friend_roots.
    rewrite (recompressed_board _ _ HR).
    rewrite (existsb_ext_in
      (fun n => negb (at_ (_board b) n =? col) &&
                (lib_after b' c (rootf (_stringUnionFind b') n) =? 0))
      (fun n => negb (at_ (_board b) n =? col) &&
                (lib_after b c (rootf (_stringUnionFind b) n) =? 0))).
    2:{ intros n Hn%list_elem_of_In.
        rewrite (recompressed_rootf b b'), (recompressed_lib_after b b');
          [done|done|done|done|done|done|by apply (nbrs_cell c)]. }
    rewrite (sumZ_ext (lib_after b' c) (lib_after b c)); [done|].
    intros s _. by apply recompressed_lib_after.
  Qed.
End recompressed.

(** ** Names of the moves *)

Lemma flat_to_name_cells : forallb (fun j => is_ok (flat_to_name j)) cells = true.
Proof. vm_compute. reflexivity. Qed.

Lemma flat_to_name_ok m : cell m ∨ m = -1 → ∃ name, flat_to_name m = Ok name.
Proof.
  intros [Hm | ->]; [|by eexists].
  pose proof flat_to_name_cells as H. rewrite forallb_forall in H.
  specialize (H m ltac:(by apply list_elem_of_In, cell_in_cells)).
  destruct (flat_to_name m) as [name|e]; [by exists name|done].
Qed.

(** ** Move generation *)

Lemma recompressed_player b b' : recompressed b b' → _nextPlayer b' = _nextPlayer b.
Proof. intros [-> _]. done. Qed.

Lemma recompressed_empties b b' : recompressed b b' → _empties b' = _empties b.
Proof. intros [-> _]. done. Qed.

Lemma recompressed_seen b b' : recompressed b b' → _seenHashes b' = _seenHashes b.
Proof. intros [-> _]. done. Qed.

Lemma weak_filter_spec : ∀ ms b,
  Core b → player_ok b → (∀ m, m ∈ ms → cell m) →
  ∃ b', weak_filter b ms
        = Ok (List.filter (fun m => negb (suicide_spec b m (_nextPlayer b))) ms, b') ∧
        recompressed b b'.
Proof.
  induction ms as [|m ms IH]; intros b HC Hp Hms.
  { exists b. split; [done|apply recompressed_refl]. }
  pose proof (cg_uf _ _ _ _ HC) as Hw.
  assert (cell m) as Hm by (apply Hms; by left).
  destruct (is_suicide_spec b m (_nextPlayer b) HC Hm Hp) as (b1 & Hs & HR1).
  destruct (IH b1) as (b' & Hf & HR').
  { by eapply recompressed_CoreG. }
  { unfold player_ok. by rewrite (recompressed_player _ _ HR1). }
  { intros; apply Hms; by right. }
  exists b'. split; [|by eapply recompressed_trans].
  cbn [weak_filter]. rewrite Hs. cbn [mbind res_bind]. rewrite Hf. cbn [mbind res_bind].
  rewrite (recompressed_player _ _ HR1).
  rewrite (List.filter_ext_in
             (fun m0 => negb (suicide_spec b1 m0 (_nextPlayer b)))
             (fun m0 => negb (suicide_spec b m0 (_nextPlayer b)))).
  2:{ intros m0 Hm0%list_elem_of_In. f_equal.
      apply recompressed_suicide_spec; [done|done|]. apply Hms. by right. }
  cbn [List.filter]. by destruct (suicide_spec b m (_nextPlayer b)).
Qed.

Lemma empties_cells b m : Core b → m ∈ elements (_empties b) → cell m ∧ at_ (_board b) m = 0.
Proof. intros HC Hm%elem_of_elements. by apply (cg_empties _ _ _ _ HC). Qed.

(** [weak_legal_moves] lists the empty cells on which a stone is not a
    suicide, then the pass; the position is untouched but for path
    compressions. *)
Lemma weak_legal_moves_spec b :
  Core b → player_ok b →
  ∃ b', weak_legal_moves b
        = Ok (List.filter (fun m => negb (suicide_spec b m (_nextPlayer b)))
                (elements (_empties b)) ++ [-1], b') ∧
        recompressed b b'.
Proof.
  intros HC Hp.
  destruct (weak_filter_spec (elements (_empties b)) b HC Hp) as (b' & Hf & HR).
  { intros m Hm. by apply (empties_cells b m HC). }
  exists b'. split; [|done]. unfold weak_legal_moves. by rewrite Hf.
Qed.

Lemma legal_filter_spec : ∀ ms b,
  Core b → tables_ok b → player_ok b →
  (∀ m, m ∈ ms → cell m ∧ at_ (_board b) m = 0) →
  ∃ b', legal_filter b ms
        = Ok (List.filter
                (fun m => negb (suicide_spec b m (_nextPlayer b)) &&
                          negb (bool_decide (sim_hash b m (_nextPlayer b) ∈ _seenHashes b)))
                ms, b') ∧
        recompressed b b'.
Proof.
  induction ms as [|m ms IH]; intros b HC Ht Hp Hms.
  { exists b. split; [done|apply recompressed_refl]. }
  pose proof (cg_uf _ _ _ _ HC) as Hw.
  destruct (Hms m ltac:(left)) as [Hm Hm0].
  destruct (is_suicide_spec b m (_nextPlayer b) HC Hm Hp) as (b1 & Hs & HR1).
  pose proof (recompressed_CoreG _ _ _ _ _ HC HR1) as HC1.
  pose proof (cg_uf _ _ _ _ HC1) as Hw1.
  assert (∃ b2, (if suicide_spec b m (_nextPlayer b) then Ok (false, b1)
                 else '(seen, _, b0) ← _is_super_ko b1 m (_nextPlayer b1);
                      Ok (negb seen, b0))
                = Ok (negb (suicide_spec b m (_nextPlayer b)) &&
                      negb (bool_decide (sim_hash b m (_nextPlayer b) ∈ _seenHashes b)), b2) ∧
                recompressed b1 b2) as (b2 & Hk & HR2).
  { destruct (suicide_spec b m (_nextPlayer b)).
    { exists b1. split; [done|apply recompressed_refl]. }
    destruct (is_super_ko_spec b1 m (_nextPlayer b1) HC1) as (b2 & Hk & HR2).
    - apply (tables_ok_static b b1); [by apply recompressed_static|done].
    - done.
    - by rewrite (recompressed_board _ _ HR1).
    - unfold player_ok in Hp. by rewrite (recompressed_player _ _ HR1).
    - exists b2. split; [|done]. rewrite Hk. cbn [mbind res_bind andb negb].
      rewrite (recompressed_player _ _ HR1), (recompressed_seen _ _ HR1).
      by rewrite (recompressed_sim_hash b b1). }
  assert (recompressed b b2) as HR02 by (by eapply recompressed_trans).
  destruct (IH b2) as (b' & Hf & HR').
  { by eapply recompressed_CoreG. }
  { apply (tables_ok_static b b2); [by apply recompressed_static|done]. }
  { unfold player_ok. by rewrite (recompressed_player _ _ HR02). }
  { intros m' Hm'. rewrite (recompressed_board _ _ HR02). apply Hms. by right. }
  exists b'. split; [|by eapply recompressed_trans].
  cbn [legal_filter]. rewrite Hs. cbn [mbind res_bind]. rewrite Hk.
  cbn [mbind res_bind]. rewrite Hf. cbn [mbind res_bind].
  rewrite (recompressed_player _ _ HR02), (recompressed_seen _ _ HR02).
  rewrite (List.filter_ext_in
     (fun m0 => negb (suicide_spec b2 m0 (_nextPlayer b)) &&
                negb (bool_decide (sim_hash b2 m0 (_nextPlayer b) ∈ _seenHashes b)))
     (fun m0 => negb (suicide_spec b m0 (_nextPlayer b)) &&
                negb (bool_decide (sim_hash b m0 (_nextPlayer b) ∈ _seenHashes b)))).
  2:{ intros m1 Hm1%list_elem_of_In.
      destruct (Hms m1 ltac:(by right)) as [Hm1c _].
      by rewrite (recompressed_suicide_spec b b2), (recompressed_sim_hash b b2). }
  cbn [List.filter]. by destruct (_ && _).
Qed.

(** [legal_moves] lists the empty cells on which a stone is neither a
    suicide nor the return to a position already seen, then the pass. *)
Lemma legal_moves_spec b :
  Core b → tables_ok b → player_ok b →
  ∃ b', legal_moves b
        = Ok (List.filter
                (fun m => negb (suicide_spec b m (_nextPlayer b)) &&
                          negb (bool_decide (sim_hash b m (_nextPlayer b) ∈ _seenHashes b)))
                (elements (_empties b)) ++ [-1], b') ∧
        recompressed b b'.
Proof.
  intros HC Ht Hp.
  destruct (legal_filter_spec (elements (_empties b)) b HC Ht Hp) as (b' & Hf & HR).
  { intros m Hm. by apply (empties_cells b m HC). }
  exists b'. split; [|done]. unfold legal_moves. by rewrite Hf.
Qed.

(** ** Playing a move *)

Lemma static_fields b b' :
  static b' = static b →
  _nextPlayer b' = _nextPlayer b ∧ _lastPlayerHasPassed b' = _lastPlayerHasPassed b ∧
  _gameOver b' = _gameOver b ∧ _positionHashes b' = _positionHashes b ∧
  _passHashB b' = _passHashB b ∧ _passHashW b' = _passHashW b ∧
  _seenHashes b' = _seenHashes b ∧ _historyMoveNames b' = _historyMoveNames b ∧
  _trailMoves b' = _trailMoves b.
Proof. unfold static. intros H. injection H as ?????????. done. Qed.

Lemma alive_fields b b' :
  _board b' = _board b → _stringUnionFind b' = _stringUnionFind b →
  _stringLiberties b' = _stringLiberties b → alive b → alive b'.
Proof. unfold alive. intros -> -> ->. done. Qed.

Lemma tables_ok_fields b b' :
  _positionHashes b' = _positionHashes b → tables_ok b → tables_ok b'.
Proof. unfold tables_ok. by intros ->. Qed.

(** A stone on an empty cell: [play_move] refuses it exactly when the
    position it leads to has been seen, and commits it otherwise. *)
Lemma play_move_stone b c :
  Core b → tables_ok b → player_ok b → _gameOver b = false →
  cell c → at_ (_board b) c = 0 →
  ∃ b1 name, recompressed b b1 ∧ flat_to_name c = Ok name ∧
   if bool_decide (sim_hash b c (_nextPlayer b) ∈ _seenHashes b)
   then play_move b c
        = Ok (Some false, set_historyMoveNames b1 (_historyMoveNames b ++ [name]))
   else ∃ b', play_move b c = Ok (Some true, b') ∧ Core b' ∧
        (alive b → suicide_spec b c (_nextPlayer b) = false → alive b') ∧
        (∀ j, cell j → at_ (_board b') j = board_after b c (_nextPlayer b) j) ∧
        _currentHash b' = sim_hash b c (_nextPlayer b) ∧
        _seenHashes b' = _seenHashes b ∪ {[sim_hash b c (_nextPlayer b)]} ∧
        _nextPlayer b' = flip (_nextPlayer b) ∧
        _trailMoves b' = _trailMoves b ∧ _positionHashes b' = _positionHashes b ∧
        _passHashB b' = _passHashB b ∧ _passHashW b' = _passHashW b ∧
        _gameOver b' = false ∧ _lastPlayerHasPassed b' = false ∧
        _historyMoveNames b' = _historyMoveNames b ++ [name].
Proof.
  intros HC Ht Hp Hgo Hc Hempty.
  pose proof (cg_uf _ _ _ _ HC) as Hw.
  destruct (is_super_ko_spec b c (_nextPlayer b) HC Ht Hc Hempty Hp) as (b1 & Hsk & HR1).
  destruct (flat_to_name_ok c ltac:(by left)) as (name & Hname).
  exists b1, name. split; [done|]. split; [done|].
  pose proof (recompressed_static _ _ HR1) as Hst1.
  pose proof (static_fields _ _ Hst1) as (Hp1 & Hlp1 & Hgo1 & Hph1 & HpB1 & HpW1 & Hs1 & Hh1 & Htr1).
  assert (play_move b c
          = (bx ← ('(alreadySeen, tmpHash, b0) ← _is_super_ko b c (_nextPlayer b);
                   if alreadySeen : bool then
                     name ← flat_to_name c;
                     Ok (inl (set_historyMoveNames b0 (_historyMoveNames b0 ++ [name])))
                   else
                     '(captured, b0) ← _put_stone b0 c (_nextPlayer b0);
                     b0 ← capture_all b0 captured;
                     _ ← assert_ (tmpHash =? _currentHash b0);
                     let b0 := set_lastPlayerHasPassed b0 false in
                     if _nextPlayer b0 =? _WHITE
                     then Ok (inr (set_nbWHITE b0 (_nbWHITE b0 + 1)))
                     else Ok (inr (set_nbBLACK b0 (_nbBLACK b0 + 1))));
             match bx with
             | inl b0 => Ok (Some false, b0)
             | inr b0 =>
                 let b0 := set_seenHashes b0 (_seenHashes b0 ∪ {[_currentHash b0]}) in
                 name ← flat_to_name c;
                 let b0 := set_historyMoveNames b0 (_historyMoveNames b0 ++ [name]) in
                 let b0 := set_nextPlayer b0 (flip (_nextPlayer b0)) in
                 Ok (Some true, b0)
             end)) as ->.
  { unfold play_move. rewrite Hgo.
    destruct (Z.eqb_spec c (-1)) as [E|_]; [unfold cell in Hc; lia|]. done. }
  rewrite Hsk. cbn [mbind res_bind].
  case_bool_decide as Hseen.
  { rewrite Hname. cbn [mbind res_bind]. by rewrite Hh1. }
  pose proof (recompressed_CoreG _ _ _ _ _ HC HR1) as HC1.
  destruct (move_spec b1 c (_nextPlayer b1) HC1) as
    (noLib & b2 & b3 & Hput & Hcap & (HC2 & Hb2 & HNL & Hkeep) & HC3 & Hst3 & Hafter
     & Hhash & Hb3).
  { by apply (tables_ok_static b b1). }
  { done. }
  { by rewrite (recompressed_board _ _ HR1). }
  { by rewrite Hp1. }
  rewrite Hput. cbn [mbind res_bind]. rewrite Hcap. cbn [mbind res_bind].
  rewrite Hhash, Hp1, (recompressed_sim_hash b b1), Z.eqb_refl by done.
  cbn [assert_ mbind res_bind].
  pose proof (static_fields _ _ Hst3) as (Hp3 & Hlp3 & Hgo3 & Hph3 & HpB3 & HpW3 & Hs3 & Hh3 & Htr3).
  set (b4 := set_lastPlayerHasPassed b3 false).
  assert (∃ b5, (if _nextPlayer b4 =? _WHITE
                 then Ok (inr (set_nbWHITE b4 (_nbWHITE b4 + 1)))
                 else Ok (inr (set_nbBLACK b4 (_nbBLACK b4 + 1))))
                = (Ok (inr b5) : res (Board + Board)) ∧
                unregistry b5 = unregistry b5 ∧
                _board b5 = _board b3 ∧ _empties b5 = _empties b3 ∧
                _stringUnionFind b5 = _stringUnionFind b3 ∧
                _stringLiberties b5 = _stringLiberties b3 ∧
                _stringSizes b5 = _stringSizes b3 ∧
                _currentHash b5 = _currentHash b3 ∧
                static b5 = static b4) as (b5 & -> & _ & E1 & E2 & E3 & E4 & E5 & E6 & E7).
  { destruct (_nextPlayer b4 =? _WHITE); eexists; (split; [reflexivity|done]). }
  cbn [mbind res_bind]. rewrite Hname. cbn [mbind res_bind].
  pose proof (static_fields _ _ E7) as (Hp5 & Hlp5 & Hgo5 & Hph5 & HpB5 & HpW5 & Hs5 & Hh5 & Htr5).
  unfold b4 in *. cbn in Hp5, Hlp5, Hgo5, Hph5, HpB5, HpW5, Hs5, Hh5, Htr5.
  eexists. split; [reflexivity|].
  cbn [_board _empties _stringUnionFind _stringLiberties _stringSizes _currentHash
       _seenHashes _nextPlayer _trailMoves _positionHashes _passHashB _passHashW
       _gameOver _lastPlayerHasPassed _historyMoveNames
       set_seenHashes set_historyMoveNames set_nextPlayer].
  split.
  { eapply (CoreG_fields b3); [| | | | |exact HC3]; cbn; try done.
    rewrite E5. apply HC3. }
  split.
  { intros Ha Hns.
    apply (alive_fields b3); [done|done|done|].
    apply (move_alive b1 c (_nextPlayer b1) noLib b2 b3); try done.
    - by apply (recompressed_alive b b1).
    - by rewrite (recompressed_board _ _ HR1).
    - by rewrite Hp1.
    - by rewrite Hp1, (recompressed_suicide_spec b b1). }
  split.
  { intros j Hj. rewrite E1, Hafter, Hp1 by done. by apply recompressed_board_after. }
  rewrite E6, Hhash, Hp1, (recompressed_sim_hash b b1) by done.
  split; [done|]. split; [congruence|]. split; [congruence|].
  split; [congruence|]. split; [congruence|]. split; [congruence|].
  split; [congruence|]. split; [congruence|]. split; [done|]. congruence.
Qed.

(** ** The invariant of the positions of a game *)

Lemma at_replicate v i :
  cell i → at_ (replicate (Z.to_nat ncells) v) i = v.
Proof.
  intros [H1 H2]. unfold at_. rewrite lookup_replicate_2; [done|].
  unfold ncells, _BOARDSIZE in *. lia.
Qed.

Lemma Core_init rand : Core (Board_init rand).
Proof.
  assert (∀ i, cell i → at_ (_board (Board_init rand)) i = 0) as Hb.
  { intros i Hi. by apply at_replicate. }
  assert (∀ i, cell i → at_ (_stringUnionFind (Board_init rand)) i = -1) as Hu.
  { intros i Hi. by apply (at_replicate (-1)). }
  constructor.
  - apply length_replicate.
  - apply length_replicate.
  - apply length_replicate.
  - split; [apply length_replicate|]. intros i Hi. exists 0%nat, i.
    apply reach_root; [done|by apply Hu].
  - intros n Hn. by apply elem_of_nil in Hn.
  - intros i Hi. rewrite Hb by done. lia.
  - intros i. cbn [_empties Board_init]. rewrite elem_of_list_to_set, elem_of_seqZ.
    unfold cell. split.
    + intros Hi. split; [lia|]. apply Hb. unfold cell. lia.
    + intros [Hi _]. lia.
  - intros i Hi. by apply elem_of_empty in Hi.
  - intros i Hi _ Hp. by rewrite Hu in Hp.
  - intros i n Hi. by apply elem_of_empty in Hi.
  - intros i Hi _ _. by apply Hu.
  - intros i Hi _ Hp. by rewrite Hu in Hp.
  - intros i n Hi _ _ Hocc. by rewrite Hb in Hocc.
  - intros i Hi _ Hocc. by rewrite Hb in Hocc.
  - intros r Hr _ Hocc. by rewrite Hb in Hocc.
  - intros r Hr _ Hocc. by rewrite Hb in Hocc.
Qed.

Lemma tables_ok_init rand : tables_ok (Board_init rand).
Proof.
  split.
  - cbn [_positionHashes Board_init]. by rewrite length_map, length_seq.
  - intros row Hrow. cbn [_positionHashes Board_init] in Hrow.
    by apply list_elem_of_fmap in Hrow as (x & -> & _).
Qed.

Lemma Inv_init rand : Inv (Board_init rand).
Proof.
  split; [apply Core_init|]. split.
  { intros r Hr Hocc. exfalso. apply Hocc. by apply at_replicate. }
  split; [apply tables_ok_init|]. split; [by left|]. constructor.
Qed.

Lemma Inv_recompressed b b' : Inv b → recompressed b b' → Inv b'.
Proof.
  intros (HC & Ha & Ht & Hp & Hf) HR.
  pose proof (static_fields _ _ (recompressed_static _ _ HR))
    as (Hp1 & _ & _ & Hph1 & _ & _ & _ & _ & Htr1).
  split; [by eapply recompressed_CoreG|].
  split; [eapply recompressed_alive; [apply HC|done|done]|].
  split; [by apply (tables_ok_fields b)|].
  split; [unfold player_ok; by rewrite Hp1|]. by rewrite Htr1.
Qed.

Lemma flip_player_ok p : p = 1 ∨ p = 2 → flip p = 1 ∨ flip p = 2.
Proof. intros [-> | ->]; [by right|by left]. Qed.

(** The moves that [weak_legal_moves] lists. *)
Lemma weak_moves_elem b ms b0 m :
  Core b → player_ok b → weak_legal_moves b = Ok (ms, b0) → m ∈ ms →
  m = -1 ∨ (cell m ∧ at_ (_board b) m = 0 ∧ suicide_spec b m (_nextPlayer b) = false).
Proof.
  intros HC Hp Hw Hm.
  destruct (weak_legal_moves_spec b HC Hp) as (b' & Hw' & _).
  rewrite Hw' in Hw. injection Hw as <- _.
  apply elem_of_app in Hm as [Hm|Hm%list_elem_of_singleton]; [right|by left].
  apply list_elem_of_In, filter_In in Hm as [Hm%list_elem_of_In Hs%negb_true_iff].
  destruct (empties_cells b m HC Hm). done.
Qed.

Lemma Inv_play_move b m r b' :
  Inv b →
  m = -1 ∨ (cell m ∧ at_ (_board b) m = 0 ∧ suicide_spec b m (_nextPlayer b) = false) →
  play_move b m = Ok (r, b') → Inv b'.
Proof.
  intros (HC & Ha & Ht & Hp & Hf) Hm Hplay.
  destruct (_gameOver b) eqn:Hgo.
  { unfold play_move in Hplay. rewrite Hgo in Hplay. by injection Hplay as _ <-. }
  destruct Hm as [->|(Hm & Hm0 & Hns)].
  - unfold play_move in Hplay. rewrite Hgo in Hplay.
    cbn [Z.eqb negb mbind res_bind flat_to_name] in Hplay.
    injection Hplay as _ <-.
    split.
    { eapply (CoreG_fields b); [| | | | |exact HC];
        try (by destruct (_lastPlayerHasPassed b)).
      destruct (_lastPlayerHasPassed b); apply HC. }
    split.
    { apply (alive_fields b); try done; by destruct (_lastPlayerHasPassed b). }
    split.
    { apply (tables_ok_fields b); [|done]. by destruct (_lastPlayerHasPassed b). }
    split.
    { unfold player_ok. cbn. assert (_nextPlayer
        (if _lastPlayerHasPassed b then set_gameOver b true
         else set_lastPlayerHasPassed b true) = _nextPlayer b) as ->
        by (by destruct (_lastPlayerHasPassed b)).
      by apply flip_player_ok. }
    cbn. by destruct (_lastPlayerHasPassed b).
  - destruct (play_move_stone b m HC Ht Hp Hgo Hm Hm0) as (b1 & name & HR1 & Hname & Hcase).
    case_bool_decide as Hseen.
    + rewrite Hcase in Hplay. injection Hplay as _ <-.
      pose proof (Inv_recompressed b b1 (conj HC (conj Ha (conj Ht (conj Hp Hf)))) HR1)
        as (HC1 & Ha1 & Ht1 & Hp1 & Hf1).
      split; [eapply (CoreG_fields b1); [| | | | |exact HC1]; try done; apply HC1|].
      split; [by apply (alive_fields b1)|].
      split; [by apply (tables_ok_fields b1)|]. done.
    + destruct Hcase as (b2 & Hplay2 & HC2 & Ha2 & _ & _ & _ & Hp2 & Htr2 & Hph2 & _).
      rewrite Hplay2 in Hplay. injection Hplay as _ <-.
      split; [done|]. split; [by apply Ha2|].
      split; [by apply (tables_ok_fields b)|].
      split; [unfold player_ok; rewrite Hp2; by apply flip_player_ok|].
      by rewrite Htr2.
Qed.

Lemma Inv_pushBoard b : Inv b → Inv (_pushBoard b).
Proof.
  intros (HC & Ha & Ht & Hp & Hf).
  split; [by eapply (CoreG_fields b); [| | | | |exact HC]; try done; apply HC|].
  split; [by apply (alive_fields b)|]. split; [done|]. split; [done|].
  cbn [_pushBoard _trailMoves set_trailMoves]. apply Forall_app. split; [done|].
  apply Forall_singleton. by exists b.
Qed.

Lemma Inv_push b m r b' :
  Inv b →
  m = -1 ∨ (cell m ∧ at_ (_board b) m = 0 ∧ suicide_spec b m (_nextPlayer b) = false) →
  push b m = Ok (r, b') → Inv b'.
Proof.
  intros HI Hm Hpush. unfold push in Hpush.
  destruct (_gameOver b); [done|]. cbn [negb assert_ mbind res_bind] in Hpush.
  apply (Inv_play_move (_pushBoard b) m r b'); [by apply Inv_pushBoard|done|done].
Qed.

Lemma Inv_of b0 b' :
  Core b0 → alive b0 → player_ok b0 →
  _board b' = _board b0 → _empties b' = _empties b0 →
  _stringUnionFind b' = _stringUnionFind b0 →
  _stringLiberties b' = _stringLiberties b0 →
  _stringSizes b' = _stringSizes b0 →
  _nextPlayer b' = _nextPlayer b0 →
  tables_ok b' → Forall good_frame (_trailMoves b') → Inv b'.
Proof.
  intros HC Ha Hp E1 E2 E3 E4 E5 E6 Ht Hf.
  split; [eapply (CoreG_fields b0); [done|done|done|done| |exact HC]|].
  { rewrite E5. apply HC. }
  split; [by apply (alive_fields b0)|]. split; [done|].
  split; [unfold player_ok; by rewrite E6|done].
Qed.

Lemma popBoard_nohist b b0 t :
  _trailMoves b = t ++ [frame_of b0] → _historyMoveNames b = [] →
  _popBoard b = Raise IndexError.
Proof.
  intros Ht Hh. unfold _popBoard. rewrite Ht, list_pop_snoc. simpl.
  rewrite Hh. reflexivity.
Qed.

Lemma popBoard_notrail b : _trailMoves b = [] → _popBoard b = Raise IndexError.
Proof. intros Ht. unfold _popBoard. rewrite Ht. reflexivity. Qed.

Lemma Inv_pop b b' : Inv b → pop b = Ok b' → Inv b'.
Proof.
  intros (HC & Ha & Ht & Hp & Hf) Hpop. unfold pop in Hpop.
  destruct (_trailMoves b) as [|f0 tr0 _] eqn:Etr using rev_ind.
  { by rewrite (popBoard_notrail b Etr) in Hpop. }
  apply Forall_app in Hf as [Hf Hf0].
  apply Forall_singleton in Hf0 as (b0 & -> & HC0 & Ha0 & Hp0).
  destruct (_historyMoveNames b) as [|x0 h0 _] eqn:Eh using rev_ind.
  { by rewrite (popBoard_nohist b b0 tr0 Etr Eh) in Hpop. }
  rewrite (popBoard_frame b0 b tr0 h0 x0 Etr Eh) in Hpop.
  cbn [mbind res_bind] in Hpop.
  case_bool_decide; injection Hpop as <-; by apply (Inv_of b0).
Qed.

(** Every board a program reaches is well formed: the registry
    represents the grid, every string has a liberty, and the frames of the
    trail hold such positions. *)
Lemma reachable_Inv b : reachable b → Inv b.
Proof.
  induction 1 as [rand|b ms b' _ IH Hw|b ms b' _ IH Hl
                 |b ms b0 m r b' _ IH Hw Hm Hpush|b ms b0 m r b' _ IH Hw Hm Hplay
                 |b b' _ IH Hpop].
  - apply Inv_init.
  - destruct IH as (HC & Ha & Ht & Hp & Hf).
    destruct (weak_legal_moves_spec b HC Hp) as (b1 & Hw' & HR).
    rewrite Hw' in Hw. injection Hw as _ <-. by eapply Inv_recompressed.
  - destruct IH as (HC & Ha & Ht & Hp & Hf).
    destruct (legal_moves_spec b HC Ht Hp) as (b1 & Hl' & HR).
    rewrite Hl' in Hl. injection Hl as _ <-. by eapply Inv_recompressed.
  - eapply Inv_push; [exact IH| |exact Hpush].
    destruct IH as (HC & _ & _ & Hp & _). by eapply weak_moves_elem.
  - eapply Inv_play_move; [exact IH| |exact Hplay].
    destruct IH as (HC & _ & _ & Hp & _). by eapply weak_moves_elem.
  - by eapply Inv_pop.
Qed.

(** ** Maintained count and distinct liberties *)

Lemma existsb_le_count {A} (p : A → bool) l :
  Z.b2z (existsb p l) ≤ sumZ (fun x => Z.b2z (p x)) l.
Proof.
  induction l as [|a l IH]; simpl; [done|].
  destruct (p a); simpl; [|done].
  assert (0 ≤ sumZ (fun x => Z.b2z (p x)) l); [|lia].
  apply sumZ_nonneg. intros x _. destruct (p x); simpl; lia.
Qed.

Lemma count_zero_existsb {A} (p : A → bool) l :
  existsb p l = false → sumZ (fun x => Z.b2z (p x)) l = 0.
Proof.
  induction l as [|a l IH]; simpl; [done|].
  intros [-> H]%orb_false_iff. rewrite IH by done. done.
Qed.

(** The maintained count, summed by empty cell: an empty cell counts once
    per stone of the string next to it. *)
Lemma plib_by_empty brd uf r :
  plib brd uf r
  = sumZ (fun e => sumZ (fun j => Z.b2z (in_string brd uf r j && (at_ brd e =? 0)))
                     (_get_neighbors e)) cells.
Proof.
  unfold plib, nb_empty.
  rewrite <- (sumZ_edges_swap (fun j n => Z.b2z (in_string brd uf r j && (at_ brd n =? 0)))).
  apply sumZ_ext. intros j _. destruct (in_string brd uf r j); [done|].
  symmetry. by apply sumZ_zero.
Qed.

Lemma true_liberties_nonneg brd uf r : 0 ≤ true_liberties brd uf r.
Proof. apply sumZ_nonneg. intros e _. by destruct (_ && _). Qed.

Lemma true_le_plib brd uf r : true_liberties brd uf r ≤ plib brd uf r.
Proof.
  rewrite plib_by_empty. unfold true_liberties, touches.
  apply sumZ_le. intros e _.
  destruct (at_ brd e =? 0); cbn [andb].
  - etransitivity; [apply existsb_le_count|]. apply Z.eq_le_incl.
    apply sumZ_ext. intros j _. by rewrite andb_true_r.
  - apply sumZ_nonneg. intros j _. by rewrite andb_false_r.
Qed.

Lemma plib_zero_iff brd uf r : plib brd uf r = 0 ↔ true_liberties brd uf r = 0.
Proof.
  split.
  - intros H. pose proof (true_le_plib brd uf r).
    pose proof (true_liberties_nonneg brd uf r). lia.
  - intros H. rewrite plib_by_empty. apply sumZ_zero. intros e He.
    unfold true_liberties in H.
    apply (sumZ_zero_inv _ _ e) in H; [|intros y _; by destruct (_ && _)|done].
    cbv beta in H. destruct (at_ brd e =? 0); cbn [andb] in H.
    + unfold touches in H. destruct (existsb (in_string brd uf r) (_get_neighbors e)) eqn:E; [simpl in H; lia|].
      rewrite <- (count_zero_existsb _ _ E). apply sumZ_ext. intros j _.
      by rewrite andb_true_r.
    + apply sumZ_zero. intros j _. by rewrite andb_false_r.
Qed.

(** ** Concrete games are reachable *)

Lemma weak_has_spec b m :
  weak_has b m = true → ∃ ms b0, weak_legal_moves b = Ok (ms, b0) ∧ m ∈ ms.
Proof.
  unfold weak_has. destruct (weak_legal_moves b) as [[ms b0]|]; [|done].
  intros H%bool_decide_eq_true. by exists ms, b0.
Qed.

Lemma legal_run_reachable ms : ∀ b,
  reachable b → legal_run b ms = true →
  ∃ b', pushes b ms = Ok b' ∧ reachable b'.
Proof.
  induction ms as [|m ms IH]; intros b Hb Hrun; [by exists b|].
  cbn [legal_run] in Hrun. apply andb_true_iff in Hrun as [Hw Hrun].
  apply weak_has_spec in Hw as (l & b0 & Hw & Hm).
  destruct (push b m) as [[r b1]|] eqn:Hpush; [|done].
  destruct (IH b1) as (b' & Hp & Hr); [by eapply reachable_push|done|].
  exists b'. split; [|done]. cbn [pushes]. by rewrite Hpush.
Qed.

Lemma demo_after_reachable ms :
  legal_run (Board_init demo_rand) ms = true →
  pushes (Board_init demo_rand) ms = Ok (demo_after ms) ∧ reachable (demo_after ms).
Proof.
  intros H. destruct (legal_run_reachable ms _ (reachable_init demo_rand) H)
    as (b' & Hp & Hr).
  unfold demo_after. by rewrite Hp.
Qed.

(** ** The checks only read the grid, the registry and the hash tables *)

Lemma sim_hash_pushBoard b c col : sim_hash (_pushBoard b) c col = sim_hash b c col.
Proof. reflexivity. Qed.

Lemma suicide_spec_pushBoard b c col :
  suicide_spec (_pushBoard b) c col = suicide_spec b c col.
Proof. reflexivity. Qed.

(** * The claims *)

Lemma Core_string_facts b j :
  Core b → cell j → at_ (_board b) j ≠ 0 →
  ∃ r b', _getStringOfStone b j = Ok (r, b') ∧
    r = rootf (_stringUnionFind b) j ∧
    0 ≤ at_ (_stringLiberties b) r ∧
    true_liberties (_board b) (_stringUnionFind b) r ≤ at_ (_stringLiberties b) r ∧
    (at_ (_stringLiberties b) r = 0 ↔
     true_liberties (_board b) (_stringUnionFind b) r = 0).
Proof.
  intros HC Hj Hocc.
  destruct (find_recompressed b 0 [] ∅ j HC Hj) as (b' & Hfind & _).
  exists (rootf (_stringUnionFind b) j), b'. split; [done|]. split; [done|].
  assert (∀ i, i ∉ (∅ : gset Z)) as H0 by (intros; apply not_elem_of_empty).
  rewrite (cg_lib_core _ _ _ _ HC (cg_root_cell _ _ _ _ HC j Hj) (H0 _));
    [|by rewrite (cg_root_colour _ _ _ _ HC j Hj (H0 j))
     |by apply (cg_root_is_root _ _ _ _ HC)].
  split; [apply plib_nonneg|]. split; [apply true_le_plib|apply plib_zero_iff].
Qed.

(** C8. On every reachable committed position, [find] on an occupied cell
    returns a root whose maintained liberty count is positive (so it is
    never negative and no string without liberty is left on the board);
    the count is an upper bound on the number of distinct empty cells next
    to the string, and it is zero exactly when that number is zero.  The
    last two facts, with a count that is never negative, also hold on the
    position between [_put_stone] and the captures, where the comparison
    with zero triggers the captures. *)
Theorem reachable_strings_alive b :
  reachable b →
  (∀ j, cell j → at_ (_board b) j ≠ 0 →
     ∃ r b', _getStringOfStone b j = Ok (r, b') ∧
       0 < at_ (_stringLiberties b) r ∧
       true_liberties (_board b) (_stringUnionFind b) r
       ≤ at_ (_stringLiberties b) r ∧
       (at_ (_stringLiberties b) r = 0 ↔
        true_liberties (_board b) (_stringUnionFind b) r = 0)) ∧
  (∀ c col noLib b2, cell c → at_ (_board b) c = 0 → col = 1 ∨ col = 2 →
     _put_stone b c col = Ok (noLib, b2) →
     ∀ j, cell j → at_ (_board b2) j ≠ 0 →
       ∃ r b', _getStringOfStone b2 j = Ok (r, b') ∧
         0 ≤ at_ (_stringLiberties b2) r ∧
         true_liberties (_board b2) (_stringUnionFind b2) r
         ≤ at_ (_stringLiberties b2) r ∧
         (at_ (_stringLiberties b2) r = 0 ↔
          true_liberties (_board b2) (_stringUnionFind b2) r = 0)).
Proof.
  intros (HC & Ha & Ht & Hp & _)%reachable_Inv. split.
  - intros j Hj Hocc.
    destruct (Core_string_facts b j HC Hj Hocc) as (r & b' & Hf & -> & H0 & Hle & Hiff).
    exists (rootf (_stringUnionFind b) j), b'. split; [done|]. split; [|done].
    apply Ha; [by apply (cg_root_cell _ _ _ _ HC)| |by apply (cg_root_is_root _ _ _ _ HC)].
    by rewrite (cg_root_colour _ _ _ _ HC j Hj ltac:(apply not_elem_of_empty)).
  - intros c col noLib b2 Hc Hempty Hcol Hput j Hj Hocc.
    destruct (put_stone_spec b c col HC Ht Hc Hempty Hcol) as (nl & b2' & Hput' & HC2 & _).
    rewrite Hput' in Hput. injection Hput as _ <-.
    destruct (Core_string_facts b2' j HC2 Hj Hocc) as (r & b' & Hf & _ & H0 & Hle & Hiff).
    by exists r, b'.
Qed.

Lemma ko_run : legal_run (Board_init demo_rand) ko_moves = true.
Proof. vm_compute. reflexivity. Qed.

Lemma reachable_strings_alive_witness :
  let b := demo_after ko_moves in
  reachable b ∧
  (∀ j, cell j → at_ (_board b) j ≠ 0 →
     ∃ r b', _getStringOfStone b j = Ok (r, b') ∧
       0 < at_ (_stringLiberties b) r ∧
       true_liberties (_board b) (_stringUnionFind b) r
       ≤ at_ (_stringLiberties b) r ∧
       (at_ (_stringLiberties b) r = 0 ↔
        true_liberties (_board b) (_stringUnionFind b) r = 0)).
Proof.
  split; [apply demo_after_reachable, ko_run|].
  apply (reachable_strings_alive (demo_after ko_moves)).
  apply demo_after_reachable, ko_run.
Defined.

Lemma sim_hash_xor b c col :
  Core b → cell c → at_ (_board b) c = 0 → col = 1 ∨ col = 2 →
  sim_hash b c col
  = Z.lxor (Z.lxor (_currentHash b) (zobrist b c col))
      (xorZ (fun j => if captured_by b c col j then zobrist b j (flip col) else 0) cells).
Proof.
  intros HC Hc Hempty Hcol. unfold sim_hash, hash_offset.
  rewrite board_after_hash by done.
  set (h := _currentHash b). set (x := xhash b _). set (z := zobrist b c col).
  set (k := xorZ _ _).
  rewrite <- !Z.lxor_assoc. f_equal. f_equal.
  rewrite (Z.lxor_assoc h x x), Z.lxor_nilpotent, Z.lxor_0_r. done.
Qed.

(** C2. On every reachable position, for a stone of either colour on an
    empty cell, the hash that [_is_super_ko] predicts is the current hash
    of the board once [_put_stone] has placed the stone and every string
    whose count reached zero has been captured: the XOR of the current
    hash, of the constant of the placed stone and of the constants of the
    stones of the enemy strings predicted to be captured. *)
Theorem superko_hash_is_committed_hash b c col :
  reachable b → cell c → at_ (_board b) c = 0 → col = 1 ∨ col = 2 →
  ∃ seen h b1 noLib b2 b3,
    _is_super_ko b c col = Ok (seen, h, b1) ∧
    _put_stone b1 c col = Ok (noLib, b2) ∧
    capture_all b2 noLib = Ok b3 ∧
    _currentHash b3 = h ∧
    h = Z.lxor (Z.lxor (_currentHash b) (zobrist b c col))
          (xorZ (fun j => if captured_by b c col j
                          then zobrist b j (flip col) else 0) cells) ∧
    (∀ s, s ∈ noLib → at_ (_stringLiberties b2) s = 0) ∧
    (∀ j, cell j → at_ (_board b3) j = board_after b c col j).
Proof.
  intros (HC & Ha & Ht & Hp & _)%reachable_Inv Hc Hempty Hcol.
  pose proof (cg_uf _ _ _ _ HC) as Hw.
  destruct (is_super_ko_spec b c col HC Ht Hc Hempty Hcol) as (b1 & Hsk & HR1).
  pose proof (recompressed_CoreG _ _ _ _ _ HC HR1) as HC1.
  destruct (move_spec b1 c col HC1) as
    (noLib & b2 & b3 & Hput & Hcap & (HC2 & Hb2 & HNL & Hkeep) & HC3 & Hst3 & Hafter
     & Hhash & Hb3).
  { apply (tables_ok_static b b1); [by apply recompressed_static|done]. }
  { done. }
  { by rewrite (recompressed_board _ _ HR1). }
  { done. }
  exists (bool_decide (sim_hash b c col ∈ _seenHashes b)), (sim_hash b c col),
    b1, noLib, b2, b3.
  split; [done|]. split; [done|]. split; [done|].
  split; [by rewrite Hhash, (recompressed_sim_hash b b1)|].
  split; [by apply sim_hash_xor|]. split.
  - intros s Hs. by apply HNL in Hs as [_ ?].
  - intros j Hj. rewrite Hafter by done. by apply recompressed_board_after.
Qed.

Lemma superko_hash_is_committed_hash_witness :
  let b := demo_after ko_moves in
  reachable b ∧ cell 0 ∧ at_ (_board b) 0 = 0 ∧
  ∃ seen h b1 noLib b2 b3,
    _is_super_ko b 0 2 = Ok (seen, h, b1) ∧
    _put_stone b1 0 2 = Ok (noLib, b2) ∧
    capture_all b2 noLib = Ok b3 ∧
    _currentHash b3 = h.
Proof.
  assert (reachable (demo_after ko_moves)) as Hr by apply demo_after_reachable, ko_run.
  assert (cell 0) as Hc by (unfold cell, ncells, _BOARDSIZE; lia).
  assert (at_ (_board (demo_after ko_moves)) 0 = 0) as H0 by (vm_compute; reflexivity).
  split; [exact Hr|]. split; [exact Hc|]. split; [exact H0|].
  destruct (superko_hash_is_committed_hash (demo_after ko_moves) 0 2 Hr Hc H0
              (or_intror eq_refl))
    as (seen & h & b1 & noLib & b2 & b3 & H1 & H2 & H3 & H4 & _).
  exists seen, h, b1, noLib, b2, b3.
  split; [exact H1|]. split; [exact H2|]. split; [exact H3|exact H4].
Defined.

(** ** Super-ko and suicide *)

Lemma push_unfold b m : _gameOver b = false → push b m = play_move (_pushBoard b) m.
Proof. intros H. unfold push. by rewrite H. Qed.

Lemma not_in_moves (p : Z → bool) l m : cell m → p m = false → m ∉ List.filter p l ++ [-1].
Proof.
  intros Hm Hp [H|H%list_elem_of_singleton]%elem_of_app.
  - apply list_elem_of_In, filter_In in H as [_ H]. congruence.
  - destruct Hm. lia.
Qed.

Lemma ko_reachable : reachable (demo_after ko_moves).
Proof. apply demo_after_reachable, ko_run. Qed.

Lemma ko_weak : weak_has (demo_after ko_moves) 0 = true.
Proof. vm_compute. reflexivity. Qed.

Lemma ko_push :
  push (demo_after ko_moves) 0 = Ok (Some false, after_push (demo_after ko_moves) 0).
Proof. vm_compute. reflexivity. Qed.



Lemma filter_none {A} (p : A → bool) l :
  (∀ x, x ∈ l → p x = false) → List.filter p l = [].
Proof.
  induction l as [|x l IH]; intros H; [done|]. cbn [List.filter].
  rewrite (H x) by left. apply IH. intros y Hy. apply H. by right.
Qed.

Lemma lone_stone_suicide b c col :
  (∀ n, n ∈ _get_neighbors c →
        at_ (_board b) n ≠ 0 ∧ at_ (_board b) n ≠ col ∧
        lib_after b c (rootf (_stringUnionFind b) n) ≠ 0) →
  suicide_spec b c col = true.
Proof.
  intros H. unfold suicide_spec.
  destruct (existsb (fun n => at_ _ n =? 0) _) eqn:E1.
  { apply existsb_exists in E1 as (n & Hn%list_elem_of_In & Hx%Z.eqb_eq).
    by destruct (H n Hn) as (? & ? & ?). }
  destruct (existsb (fun n => negb _ && _) _) eqn:E2.
  { apply existsb_exists in E2 as (n & Hn%list_elem_of_In & [_ Hx%Z.eqb_eq]%andb_true_iff).
    by destruct (H n Hn) as (? & ? & ?). }
  unfold friend_roots. rewrite filter_none; [done|].
  intros n Hn. apply Z.eqb_neq. by destruct (H n Hn) as (_ & ? & _).
Qed.

(** C6. On a reachable position, [_is_suicide] returns what the rule says
    in the words of the specification ([suicide_spec]: not a suicide as
    soon as a neighbour is empty or an adjacent enemy string would be left
    without liberty, else a suicide when there is no friendly neighbour or
    when the friendly strings, each root counted once, would be left with
    no liberty in total).  A stone all of whose neighbours are enemy stones
    none of whose strings it captures is a suicide, and a suicide of the
    player to move on an empty cell is listed neither by
    [weak_legal_moves] nor by [legal_moves]. *)
Theorem suicide_check_refines b c col :
  reachable b → cell c → col = 1 ∨ col = 2 →
  (∃ b', _is_suicide b c col = Ok (suicide_spec b c col, b')) ∧
  ((∀ n, n ∈ _get_neighbors c →
         at_ (_board b) n ≠ 0 ∧ at_ (_board b) n ≠ col ∧
         lib_after b c (rootf (_stringUnionFind b) n) ≠ 0) →
   suicide_spec b c col = true) ∧
  (col = _nextPlayer b → at_ (_board b) c = 0 → suicide_spec b c col = true →
   (∃ ms b', weak_legal_moves b = Ok (ms, b') ∧ c ∉ ms) ∧
   (∃ ms b', legal_moves b = Ok (ms, b') ∧ c ∉ ms)).
Proof.
  intros (HC & Ha & Ht & Hp & _)%reachable_Inv Hc Hcol.
  split.
  { destruct (is_suicide_spec b c col HC Hc Hcol) as (b' & Hs & _). by exists b'. }
  split; [apply lone_stone_suicide|].
  intros -> Hempty Hs. split.
  - destruct (weak_legal_moves_spec b HC Hp) as (b' & Hw & _).
    eexists _, b'. split; [exact Hw|]. apply not_in_moves; [done|]. by rewrite Hs.
  - destruct (legal_moves_spec b HC Ht Hp) as (b' & Hl & _).
    eexists _, b'. split; [exact Hl|]. apply not_in_moves; [done|]. by rewrite Hs.
Qed.

Lemma suicide_check_refines_witness :
  let b := demo_after ko_moves in
  reachable b ∧ cell 0 ∧
  ∃ b', _is_suicide b 0 2 = Ok (suicide_spec b 0 2, b').
Proof.
  assert (reachable (demo_after ko_moves)) as Hr by apply demo_after_reachable, ko_run.
  assert (cell 0) as Hc by (unfold cell, ncells, _BOARDSIZE; lia).
  split; [exact Hr|]. split; [exact Hc|].
  exact (proj1 (suicide_check_refines (demo_after ko_moves) 0 2 Hr Hc
                  (or_intror eq_refl))).
Defined.

(** ** Rejected pushes, pops and usage errors *)



(** The simulation never fails on a cell of a well-formed position, empty
    or not. *)
Lemma is_super_ko_total b c col :
  Core b → tables_ok b → cell c → col = 1 ∨ col = 2 →
  ∃ h b', _is_super_ko b c col = Ok (bool_decide (h ∈ _seenHashes b), h, b') ∧
          recompressed b b'.
Proof.
  intros HC Ht Hc Hcol.
  assert (∀ i, i ∉ (∅ : gset Z)) as H0 by (intros; apply not_elem_of_empty).
  assert (∀ n, n ∈ _get_neighbors c → cell n) as Hnb by (intros n ?; by apply (nbrs_cell c)).
  unfold _is_super_ko. rewrite getPositionHash_spec by done. cbn [mbind res_bind].
  rewrite Z.lxor_assoc, Z.lxor_nilpotent, Z.lxor_0_r, Z.eqb_refl.
  cbn [assert_ mbind res_bind]. rewrite neighbors_of_cell by done. cbn [mbind res_bind].
  destruct (superko_loop_spec (flip col) (_get_neighbors c) b [] [] HC)
    as (d & b' & Hloop & HR & Hd).
  { unfold flip, _BLACK, _WHITE. destruct (col =? 1); lia. }
  { intros n Hn. by apply elem_of_nil in Hn. }
  { done. }
  { split; [constructor|]. intros s v. split; [intros H; by apply elem_of_nil in H|].
    intros [(n & Hn & _) _]. by apply elem_of_nil in Hn. }
  rewrite app_nil_l in Hd. rewrite Hloop. cbn [mbind res_bind].
  pose proof (recompressed_CoreG _ _ _ _ _ HC HR) as HC'.
  pose proof (recompressed_static _ _ HR) as Hst.
  rewrite superko_captures_spec; [|done|by eapply tables_ok_static| |apply Hd|].
  2:{ unfold flip, _BLACK, _WHITE. destruct (col =? 1); [by right|by left]. }
  2:{ intros s v [(n & Hn & HPn%Z.eqb_eq & Hr) _]%Hd. rewrite <- Hr.
      split; [by apply (cg_root_cell _ _ _ _ HC'), Hnb|].
      split; [|by apply (cg_root_is_root _ _ _ _ HC'), Hnb].
      rewrite (cg_root_colour _ _ _ _ HC' n) by auto. done. }
  cbn [mbind res_bind].
  assert (_seenHashes b' = _seenHashes b) as ->
    by exact (f_equal (fun u => u.1.1.2) Hst).
  by eexists _, b'.
Qed.

(** A push that returns [False] went through the simulation, which saw
    the hash, and stopped there. *)
Lemma rejected_push_inv b m b' :
  push b m = Ok (Some false, b') →
  _gameOver b = false ∧ m ≠ -1 ∧
  ∃ h b1 name, _is_super_ko (_pushBoard b) m (_nextPlayer b) = Ok (true, h, b1) ∧
    flat_to_name m = Ok name ∧
    b' = set_historyMoveNames b1 (_historyMoveNames b1 ++ [name]).
Proof.
  unfold push. intros H. destruct (_gameOver b) eqn:Hgo; [done|].
  cbn [negb assert_ mbind res_bind] in H. split; [done|].
  unfold play_move in H.
  change (_gameOver (_pushBoard b)) with (_gameOver b) in H. rewrite Hgo in H.
  change (_nextPlayer (_pushBoard b)) with (_nextPlayer b) in H.
  destruct (Z.eqb_spec m (-1)) as [->|Hm].
  { cbn [negb mbind res_bind flat_to_name Z.eqb] in H. simpl in H. discriminate H. }
  split; [done|]. cbn [negb] in H.
  inv_bind H. inv_bind E. destruct a0 as [[seen h] b1].
  destruct seen.
  - inv_bind E. injection E as <-. injection H as <-. by exists h, b1, a0.
  - exfalso. inv_bind E. destruct a0 as [cap b2]. inv_bind E. inv_bind E.
    destruct (_nextPlayer _ =? _WHITE); injection E as <-;
      cbn [mbind res_bind] in H; inv_bind H; discriminate H.
Qed.



(** ** What a rejected push leaves behind *)

(** C5. A push that returns [False] leaves the grid, the hash, the empty
    set, the counts, the flags, the liberty and size arrays and the set of
    seen hashes as they were, but not the whole board: the trail has the
    frame that [_pushBoard] appended, the history has the name of the
    move, and the parent array may have been rewritten by the path
    compressions of the simulation, which on a reachable position keep the
    root of every cell. *)
Theorem rejected_push_leaves b m b' :
  push b m = Ok (Some false, b') →
  (∃ name, flat_to_name m = Ok name ∧
     b' = set_historyMoveNames
            (set_stringUnionFind (_pushBoard b) (_stringUnionFind b'))
            (_historyMoveNames b ++ [name])) ∧
  (reachable b → cell m →
     compressed (_stringUnionFind b) (_stringUnionFind b') ∧
     ∀ j, cell j → rootf (_stringUnionFind b') j = rootf (_stringUnionFind b) j).
Proof.
  intros (Hgo & Hm & h & b1 & name & Hsk & Hname & Hb')%rejected_push_inv.
  pose proof (is_super_ko_only_uf _ _ _ _ _ _ Hsk) as Hb1.
  assert (_stringUnionFind b' = _stringUnionFind b1) as Huf by (by rewrite Hb').
  split.
  - exists name. split; [done|]. rewrite Huf, Hb'. rewrite Hb1 at 1 2. done.
  - intros Hr Hc. apply reachable_Inv, Inv_pushBoard in Hr as (HC & _ & Ht & Hp & _).
    destruct (is_super_ko_total (_pushBoard b) m (_nextPlayer b) HC Ht Hc Hp)
      as (h' & b2 & Hsk' & HR).
    rewrite Hsk' in Hsk. injection Hsk as _ _ ->.
    rewrite Huf. split; [apply HR|].
    intros j Hj. apply (recompressed_rootf (_pushBoard b) b1 j); [apply HC|done|done].
Qed.

Lemma rejected_push_leaves_witness :
  let b := demo_after ko_moves in
  let b' := after_push b 0 in
  push b 0 = Ok (Some false, b') ∧
  ∃ name, flat_to_name 0 = Ok name ∧
     b' = set_historyMoveNames
            (set_stringUnionFind (_pushBoard b) (_stringUnionFind b'))
            (_historyMoveNames b ++ [name]).
Proof.
  split; [exact ko_push|].
  exact (proj1 (rejected_push_leaves (demo_after ko_moves) 0
                  (after_push (demo_after ko_moves) 0) ko_push)).
Defined.

Lemma rejected_push_changes_board :
  let b := demo_after ko_moves in
  let b' := after_push b 0 in
  reachable b ∧ push b 0 = Ok (Some false, b') ∧
  length (_trailMoves b') = S (length (_trailMoves b)) ∧
  length (_historyMoveNames b') = S (length (_historyMoveNames b)) ∧
  at_ (_stringUnionFind b) 2 = 18 ∧ at_ (_stringUnionFind b') 2 = 28.
Proof.
  split; [exact ko_reachable|]. split; [exact ko_push|].
  split; [vm_compute; reflexivity|]. split; [vm_compute; reflexivity|].
  split; vm_compute; reflexivity.
Qed.

(** ** Usage errors *)

Lemma getPositionHash_out b m col :
  tables_ok b → m < - ncells ∨ ncells ≤ m → _getPositionHash b m col = Raise IndexError.
Proof.
  intros [Hlen _] Hm. unfold _getPositionHash, aget, py_index. rewrite Hlen.
  rewrite Z2Nat.id by (unfold ncells, _BOARDSIZE; lia).
  unfold ncells, _BOARDSIZE in *.
  destruct (Z.leb_spec 0 m), (Z.ltb_spec m (9 * 9)), (Z.leb_spec (- (9 * 9)) m),
    (Z.ltb_spec m 0); simpl; try lia; done.
Qed.

Lemma play_move_out b m :
  _gameOver b = false → tables_ok b → m < - ncells ∨ ncells ≤ m →
  play_move b m = Raise IndexError.
Proof.
  intros Hgo Ht Hm. unfold play_move. rewrite Hgo.
  destruct (Z.eqb_spec m (-1)) as [->|_].
  { unfold ncells, _BOARDSIZE in Hm. lia. }
  cbn [negb]. unfold _is_super_ko. by rewrite getPositionHash_out.
Qed.

Lemma put_stone_occupied b m col :
  Core b → tables_ok b → cell m → col = 1 ∨ col = 2 → at_ (_board b) m ≠ 0 →
  _put_stone b m col = Raise KeyError.
Proof.
  intros HC Ht Hm Hcol Hocc. unfold _put_stone.
  rewrite aset8_cell; [|apply HC|done|destruct Hcol; lia]. cbn [mbind res_bind].
  rewrite (getPositionHash_spec _ m col); [|done|done|done].
  cbn [mbind res_bind].
  rewrite bool_decide_eq_false_2; [done|].
  cbn [_empties set_currentHash set_board].
  intros [_ H0]%(cg_empties _ _ _ _ HC). done.
Qed.

Lemma play_move_occupied b m :
  Core b → tables_ok b → player_ok b → _gameOver b = false →
  cell m → at_ (_board b) m ≠ 0 →
  ∃ h b1, _is_super_ko b m (_nextPlayer b)
          = Ok (bool_decide (h ∈ _seenHashes b), h, b1) ∧
    if bool_decide (h ∈ _seenHashes b)
    then ∃ b', play_move b m = Ok (Some false, b')
    else play_move b m = Raise KeyError.
Proof.
  intros HC Ht Hp Hgo Hm Hocc.
  destruct (is_super_ko_total b m (_nextPlayer b) HC Ht Hm Hp) as (h & b1 & Hsk & HR).
  exists h, b1. split; [done|].
  unfold play_move. rewrite Hgo.
  destruct (Z.eqb_spec m (-1)) as [->|_]; [destruct Hm; lia|].
  cbn [negb]. rewrite Hsk. cbn [mbind res_bind].
  destruct (bool_decide _).
  - destruct (flat_to_name_ok m (or_introl Hm)) as (name & ->). cbn [mbind res_bind]. by eexists.
  - pose proof (recompressed_CoreG _ _ _ _ _ HC HR) as HC1.
    rewrite (recompressed_player b b1 HR).
    rewrite put_stone_occupied; [done|done| |done|done|].
    + apply (tables_ok_static b b1); [by apply recompressed_static|done].
    + by rewrite (recompressed_board _ _ HR).
Qed.

(** C9. Usage errors are not all loud.  After the game is over,
    [play_move] returns without a value and leaves the board as it is,
    while [push] fails on its assertion.  A move beyond the cells raises
    [IndexError] from both.  On an occupied cell of a reachable position
    the simulation runs first: when it reports the hash as seen the move
    is answered by [False], else placing the stone raises [KeyError]. *)
Theorem usage_errors b m :
  (_gameOver b = true →
     play_move b m = Ok (None, b) ∧ push b m = Raise AssertionError) ∧
  (_gameOver b = false → tables_ok b → m < - ncells ∨ ncells ≤ m →
     play_move b m = Raise IndexError ∧ push b m = Raise IndexError) ∧
  (reachable b → _gameOver b = false → cell m → at_ (_board b) m ≠ 0 →
     (∃ h b1, _is_super_ko b m (_nextPlayer b)
              = Ok (bool_decide (h ∈ _seenHashes b), h, b1) ∧
        if bool_decide (h ∈ _seenHashes b)
        then ∃ b', play_move b m = Ok (Some false, b')
        else play_move b m = Raise KeyError) ∧
     ((∃ b', push b m = Ok (Some false, b')) ∨ push b m = Raise KeyError)).
Proof.
  split; [|split].
  - intros Hgo. unfold push, play_move. by rewrite Hgo.
  - intros Hgo Ht Hm. split; [by apply play_move_out|].
    rewrite push_unfold by done. by apply play_move_out.
  - intros Hr Hgo Hm Hocc.
    pose proof (reachable_Inv b Hr) as HI.
    pose proof (Inv_pushBoard b HI) as (HCp & _ & Htp & Hpp & _).
    destruct HI as (HC & _ & Ht & Hp & _).
    split; [by apply play_move_occupied|].
    rewrite push_unfold by done.
    destruct (play_move_occupied (_pushBoard b) m HCp Htp Hpp Hgo Hm Hocc)
      as (h & b1 & _ & H).
    destruct (bool_decide _); [by left|by right].
Qed.

Lemma usage_errors_witness :
  let b := demo_after ko_moves in
  reachable b ∧ _gameOver b = false ∧ cell 80 ∧ at_ (_board b) 80 = 1 ∧
  ((∃ b', push b 80 = Ok (Some false, b')) ∨ push b 80 = Raise KeyError).
Proof.
  assert (_gameOver (demo_after ko_moves) = false) as Hgo by (vm_compute; reflexivity).
  assert (cell 80) as Hc by (unfold cell, ncells, _BOARDSIZE; lia).
  assert (at_ (_board (demo_after ko_moves)) 80 = 1) as H1 by (vm_compute; reflexivity).
  split; [exact ko_reachable|]. split; [exact Hgo|]. split; [exact Hc|].
  split; [exact H1|].
  refine (proj2 (proj2 (proj2 (usage_errors (demo_after ko_moves) 80))
                   ko_reachable Hgo Hc _)).
  rewrite H1. discriminate.
Defined.

Lemma two_passes_run : legal_run (Board_init demo_rand) [-1; -1] = true.
Proof. vm_compute. reflexivity. Qed.

Lemma play_after_game_over_is_silent :
  let b := demo_after [-1; -1] in
  reachable b ∧ _gameOver b = true ∧ play_move b 40 = Ok (None, b).
Proof.
  split; [apply demo_after_reachable, two_passes_run|].
  split; vm_compute; reflexivity.
Qed.

(** ** The hash, the stones and the passes *)









(** ** Capturing a single stone *)





Lemma capture_run : legal_run (Board_init demo_rand) [1; 0; 10; -1] = true.
Proof. vm_compute. reflexivity. Qed.




(** * Further properties of the code *)

(** ** Coordinates and move names *)

(** [flatten] undoes [unflatten] on every integer, and [unflatten] undoes
    [flatten] on the coordinates of the board and on the pass. *)
Theorem flatten_unflatten_round_trip :
  (∀ m, flatten (unflatten m) = m) ∧
  (∀ x y, _isOnBoard x y = true →
     unflatten (flatten (x, y)) = (x, y) ∧ cell (flatten (x, y))) ∧
  unflatten (flatten (-1, -1)) = (-1, -1).
Proof.
  split; [|split; [|reflexivity]].
  - intros m. unfold unflatten, flatten, _BOARDSIZE.
    destruct (Z.eqb_spec m (-1)) as [->|Hm]; [done|].
    pose proof (Z.mod_pos_bound m 9 ltac:(lia)).
    rewrite decide_False by (intros [= ? ?]; lia). cbn [fst snd].
    pose proof (Z.div_mod m 9 ltac:(lia)). lia.
  - intros x y H. unfold _isOnBoard, _BOARDSIZE in H.
    repeat (apply andb_prop in H as [H ?]).
    apply Z.leb_le in H. repeat match goal with
      | H : (_ <=? _) = true |- _ => apply Z.leb_le in H
      | H : (_ <? _) = true |- _ => apply Z.ltb_lt in H end.
    unfold unflatten, flatten, cell, ncells, _BOARDSIZE.
    rewrite decide_False by (intros [= ? ?]; lia). cbn [fst snd].
    destruct (Z.eqb_spec (9 * y + x) (-1)); [lia|].
    split; [|lia]. f_equal.
    + rewrite Z.add_comm, Z.mul_comm, Z_mod_plus_full. by apply Z.mod_small.
    + rewrite Z.add_comm, Z.mul_comm, Z_div_plus_full by lia.
      rewrite Z.div_small by lia. lia.
Qed.

Lemma flatten_unflatten_round_trip_witness :
  _isOnBoard 3 4 = true ∧ unflatten (flatten (3, 4)) = (3, 4).
Proof.
  split; [reflexivity|].
  exact (proj1 (proj1 (proj2 flatten_unflatten_round_trip) 3 4 eq_refl)).
Defined.





(** ** The neighbourhood tables *)

Lemma nbrs_manhattan_all :
  forallb (fun c => forallb (fun n =>
    bool_decide (bool_decide (n ∈ _get_neighbors c) = (manhattan c n =? 1))) cells
    && bool_decide (2 ≤ length (_get_neighbors c))%nat) cells = true.
Proof. vm_compute. reflexivity. Qed.

(** The sentinel-terminated table of the constructor, read from the entry
    of a cell, gives the neighbours of the cell: the cells of the board at
    distance one, each once, between two and four of them. *)
Theorem neighbors_table c :
  cell c →
  neighbors_of c = Ok (_get_neighbors c) ∧
  NoDup (_get_neighbors c) ∧
  (2 ≤ length (_get_neighbors c) ≤ 4)%nat ∧
  ∀ n, n ∈ _get_neighbors c ↔ cell n ∧ manhattan c n = 1.
Proof.
  intros Hc. split; [by apply neighbors_of_cell|]. split; [by apply nbrs_NoDup|].
  pose proof nbrs_manhattan_all as H. rewrite forallb_forall in H.
  specialize (H c ltac:(by apply list_elem_of_In, cell_in_cells)).
  apply andb_prop in H as [H Hlen]. apply bool_decide_eq_true in Hlen.
  split; [split; [done|by apply nbrs_length]|].
  rewrite forallb_forall in H. intros n. split.
  - intros Hn. assert (cell n) as Hnc by (by apply (nbrs_cell c)).
    split; [done|].
    specialize (H n ltac:(by apply list_elem_of_In, cell_in_cells)).
    apply bool_decide_eq_true in H. rewrite bool_decide_eq_true_2 in H by done.
    symmetry in H. by apply Z.eqb_eq in H.
  - intros [Hnc Hm].
    specialize (H n ltac:(by apply list_elem_of_In, cell_in_cells)).
    apply bool_decide_eq_true in H. rewrite Hm in H. by apply bool_decide_eq_true in H.
Qed.

Lemma neighbors_table_witness :
  cell 40 ∧ neighbors_of 40 = Ok (_get_neighbors 40).
Proof.
  assert (cell 40) as Hc by (unfold cell, ncells, _BOARDSIZE; lia).
  split; [exact Hc|]. exact (proj1 (neighbors_table 40 Hc)).
Defined.

(** ** The string registry on reachable positions *)

(** On a reachable position, [_getStringOfStone] never fails on a cell; it
    returns a root of the parent array, it changes nothing but the parent
    array, and the path compression it performs leaves the answer for
    every cell, asked before or after, the same. *)
Theorem find_keeps_answers b i :
  reachable b → cell i →
  ∃ r b1, _getStringOfStone b i = Ok (r, b1) ∧
    cell r ∧ at_ (_stringUnionFind b) r = -1 ∧
    at_ (_stringUnionFind b1) r = -1 ∧
    b1 = set_stringUnionFind b (_stringUnionFind b1) ∧
    ∀ j, cell j →
      ∃ rj b2 b3, _getStringOfStone b j = Ok (rj, b2) ∧
                  _getStringOfStone b1 j = Ok (rj, b3).
Proof.
  intros (HC & _)%reachable_Inv Hi.
  pose proof (cg_uf _ _ _ _ HC) as Hw.
  destruct (find_recompressed b 0 [] ∅ i HC Hi) as (b1 & Hf & HR).
  pose proof (recompressed_CoreG _ _ _ _ _ HC HR) as HC1.
  exists (rootf (_stringUnionFind b) i), b1.
  split; [done|]. split; [by apply rootf_cell|]. split; [by apply rootf_is_root|].
  split.
  { rewrite <- (recompressed_rootf b b1 i Hw HR Hi).
    apply rootf_is_root; [apply HC1|done]. }
  split; [apply HR|].
  intros j Hj.
  destruct (find_recompressed b 0 [] ∅ j HC Hj) as (b2 & Hf2 & _).
  destruct (find_recompressed b1 0 [] ∅ j HC1 Hj) as (b3 & Hf3 & _).
  exists (rootf (_stringUnionFind b) j), b2, b3. split; [done|].
  by rewrite <- (recompressed_rootf b b1 j Hw HR Hj).
Qed.

Lemma find_keeps_answers_witness :
  let b := demo_after ko_moves in
  reachable b ∧ cell 2 ∧
  ∃ r b1, _getStringOfStone b 2 = Ok (r, b1) ∧ at_ (_stringUnionFind b) r = -1.
Proof.
  assert (cell 2) as Hc by (unfold cell, ncells, _BOARDSIZE; lia).
  split; [exact ko_reachable|]. split; [exact Hc|].
  destruct (find_keeps_answers (demo_after ko_moves) 2 ko_reachable Hc)
    as (r & b1 & H1 & _ & H2 & _).
  exists r, b1. split; [exact H1|exact H2].
Defined.

(** On a reachable position the classes of the registry are the strings
    of the grid: two stones have the same root exactly when a chain of
    neighbouring stones of one colour joins them. *)
Theorem same_root_iff_connected b i j :
  reachable b → cell i → cell j →
  at_ (_board b) i ≠ 0 → at_ (_board b) j ≠ 0 →
  (∃ r bi bj, _getStringOfStone b i = Ok (r, bi) ∧ _getStringOfStone b j = Ok (r, bj))
  ↔ conn (_board b) i j.
Proof.
  intros (HC & _)%reachable_Inv Hi Hj Hio Hjo.
  destruct (find_recompressed b 0 [] ∅ i HC Hi) as (bi & Hfi & _).
  destruct (find_recompressed b 0 [] ∅ j HC Hj) as (bj & Hfj & _).
  rewrite (class_conn b i j HC Hi Hio). split.
  - intros (r & bi' & bj' & Hi' & Hj'). rewrite Hfi in Hi'. rewrite Hfj in Hj'.
    injection Hi' as Hr _. injection Hj' as Hr' _. split; [done|]. split; [done|].
    congruence.
  - intros (_ & _ & Hr). exists (rootf (_stringUnionFind b) i), bi, bj.
    split; [done|]. by rewrite <- Hr.
Qed.

Lemma same_root_iff_connected_witness :
  let b := demo_after ko_moves in
  reachable b ∧ cell 79 ∧ cell 80 ∧
  at_ (_board b) 79 = 1 ∧ at_ (_board b) 80 = 1 ∧
  ∃ r bi bj, _getStringOfStone b 79 = Ok (r, bi) ∧ _getStringOfStone b 80 = Ok (r, bj).
Proof.
  assert (cell 79) as Hi by (unfold cell, ncells, _BOARDSIZE; lia).
  assert (cell 80) as Hj by (unfold cell, ncells, _BOARDSIZE; lia).
  assert (at_ (_board (demo_after ko_moves)) 79 = 1) as H79 by (vm_compute; reflexivity).
  assert (at_ (_board (demo_after ko_moves)) 80 = 1) as H80 by (vm_compute; reflexivity).
  split; [exact ko_reachable|]. split; [exact Hi|]. split; [exact Hj|].
  split; [exact H79|]. split; [exact H80|].
  apply (same_root_iff_connected (demo_after ko_moves) 79 80 ko_reachable Hi Hj).
  - rewrite H79. discriminate.
  - rewrite H80. discriminate.
  - apply rtc_once. split; [exact Hi|]. split.
    + assert (_get_neighbors 79 = [80; 78; 70]) as -> by (vm_compute; reflexivity).
      apply elem_of_cons. left. reflexivity.
    + rewrite H79, H80. reflexivity.
Defined.

(** On a reachable position the arrays have one entry per cell, the grid
    holds the three colours only, the set of empty cells is exactly the
    set of cells whose entry is empty, an empty cell is a root of the
    parent array, and the player to move is black or white. *)
Theorem reachable_well_formed b :
  reachable b →
  length (_board b) = 81%nat ∧ length (_stringUnionFind b) = 81%nat ∧
  length (_stringLiberties b) = 81%nat ∧ length (_stringSizes b) = 81%nat ∧
  (∀ i, cell i → 0 ≤ at_ (_board b) i ≤ 2) ∧
  (∀ i, i ∈ _empties b ↔ cell i ∧ at_ (_board b) i = 0) ∧
  (∀ i, cell i → at_ (_board b) i = 0 → at_ (_stringUnionFind b) i = -1) ∧
  (_nextPlayer b = _BLACK ∨ _nextPlayer b = _WHITE).
Proof.
  intros (HC & _ & _ & Hp & _)%reachable_Inv.
  split; [apply HC|]. split; [apply (cg_uf _ _ _ _ HC)|].
  split; [apply HC|]. split; [apply HC|]. split; [apply HC|]. split; [apply HC|].
  split; [|exact Hp].
  intros i Hi H0. by apply (cg_empty_root _ _ _ _ HC i Hi ltac:(apply not_elem_of_empty)).
Qed.

Lemma reachable_well_formed_witness :
  let b := demo_after ko_moves in
  reachable b ∧ length (_board b) = 81%nat.
Proof.
  split; [exact ko_reachable|].
  exact (proj1 (reachable_well_formed (demo_after ko_moves) ko_reachable)).
Defined.



(** ** Placing a stone, enumerating and capturing a string *)

(** [_put_stone] on an empty cell of a reachable position: it never
    fails, writes the stone, takes the cell out of the empty set, folds the
    constant of the stone into the hash and leaves the counters alone; the
    list it returns holds, each once, the roots of the enemy strings next
    to the cell whose liberty count the stone brings down to zero, and
    afterwards every root holds the number of pairs of a stone of its
    string and an empty neighbour. *)
Theorem put_stone_places b c col :
  reachable b → cell c → at_ (_board b) c = 0 → col = 1 ∨ col = 2 →
  ∃ noLib b',
    _put_stone b c col = Ok (noLib, b') ∧
    _board b' = upd (_board b) c col ∧
    _empties b' = _empties b ∖ {[c]} ∧
    _currentHash b' = Z.lxor (_currentHash b) (zobrist b c col) ∧
    (_nbBLACK b', _nbWHITE b', _capturedBLACK b', _capturedWHITE b')
    = (_nbBLACK b, _nbWHITE b, _capturedBLACK b, _capturedWHITE b) ∧
    NoDup noLib ∧
    (∀ s, s ∈ noLib ↔
       (∃ n, n ∈ _get_neighbors c ∧ at_ (_board b) n ≠ 0 ∧ at_ (_board b) n ≠ col ∧
             rootf (_stringUnionFind b) n = s) ∧
       lib_after b c s = 0) ∧
    (∀ r, cell r → at_ (_board b') r ≠ 0 → at_ (_stringUnionFind b') r = -1 →
       at_ (_stringLiberties b') r = plib (_board b') (_stringUnionFind b') r).
Proof.
  intros (HC & _ & Ht & _)%reachable_Inv Hc Hempty Hcol.
  assert (∀ i, i ∉ (∅ : gset Z)) as H0 by (intros; apply not_elem_of_empty).
  destruct (put_stone_spec b c col HC Ht Hc Hempty Hcol)
    as (noLib & b' & Hput & HC' & Hun & HNL & Hkeep).
  pose proof Hun as (Hb & He & Hh & _)%unregistry_fields.
  change (_board (put_start b c col)) with (upd (_board b) c col) in Hb.
  exists noLib, b'. split; [done|]. split; [done|]. split; [exact He|].
  split; [exact Hh|]. split.
  { pose proof (f_equal (fun u => u.1.1.1.1.1.1.1) Hun) as HnW.
    pose proof (f_equal (fun u => u.1.1.1.1.1.1.2) Hun) as HnB.
    pose proof (f_equal (fun u => u.1.1.1.1.1.2) Hun) as HcW.
    pose proof (f_equal (fun u => u.1.1.1.1.2) Hun) as HcB.
    cbn in HnW, HnB, HcW, HcB. by rewrite HnW, HnB, HcW, HcB. }
  split; [apply HNL|]. split.
  - intros s. destruct HNL as [_ HN]. rewrite HN. unfold enemy. rewrite Hb.
    assert (∀ n, n ∈ _get_neighbors c →
              cell n ∧ at_ (upd (_board b) c col) n = at_ (_board b) n) as Hnb.
    { intros n Hn. assert (cell n) as Hnc by (by apply (nbrs_cell c)).
      split; [done|]. apply at_upd_ne; [done|done|].
      intros E. apply (nbrs_irrefl n Hnc). congruence. }
    assert (∀ n, n ∈ _get_neighbors c → at_ (_board b) n ≠ 0 → at_ (_board b) n ≠ col →
              rootf (_stringUnionFind b') n = s →
              at_ (_stringLiberties b') s = lib_after b c s) as Hlib.
    { intros n Hn Hn0 Hncol Hr. destruct (Hnb n Hn) as [Hnc Hbn].
      assert (at_ (upd (_board b) c col) s = at_ (_board b) n) as Hs.
      { rewrite <- Hr, <- Hb, (cg_root_colour _ _ _ _ HC' n Hnc (H0 n)). by rewrite Hb. }
      apply (mv_enemy_lib b c col b' HC Hc Hempty Hcol HC' Hb Hkeep).
      - rewrite <- Hr. by apply (cg_root_cell _ _ _ _ HC').
      - by rewrite Hs.
      - by rewrite Hs.
      - rewrite <- Hr. by apply (cg_root_is_root _ _ _ _ HC'). }
    split.
    + intros [(n & Hn & [Hn0 Hncol] & Hr) Hz]. destruct (Hnb n Hn) as [Hnc Hbn].
      rewrite Hbn in Hn0, Hncol. split.
      * exists n. split; [done|]. split; [done|]. split; [done|].
        rewrite <- Hr. symmetry. apply Hkeep; [done|by rewrite Hbn].
      * by rewrite <- (Hlib n Hn Hn0 Hncol Hr).
    + intros [(n & Hn & Hn0 & Hncol & Hr) Hz]. destruct (Hnb n Hn) as [Hnc Hbn].
      assert (rootf (_stringUnionFind b') n = s) as Hr'.
      { rewrite <- Hr. apply Hkeep; [done|by rewrite Hbn]. }
      split.
      * exists n. rewrite Hbn. done.
      * by rewrite (Hlib n Hn Hn0 Hncol Hr').
  - intros r Hr Hocc Hroot. by apply (cg_lib_core b' 0 ∅ r HC' Hr (H0 r)).
Qed.

Lemma put_stone_places_witness :
  let b := demo_after [1; 0; 10; -1] in
  reachable b ∧ cell 9 ∧ at_ (_board b) 9 = 0 ∧
  ∃ noLib b', _put_stone b 9 1 = Ok (noLib, b') ∧ _board b' = upd (_board b) 9 1.
Proof.
  pose proof (demo_after_reachable _ capture_run) as [_ Hr].
  assert (cell 9) as Hc by (unfold cell, ncells, _BOARDSIZE; lia).
  assert (at_ (_board (demo_after [1; 0; 10; -1])) 9 = 0) as H9
    by (vm_compute; reflexivity).
  split; [exact Hr|]. split; [exact Hc|]. split; [exact H9|].
  destruct (put_stone_places (demo_after [1; 0; 10; -1]) 9 1 Hr Hc H9
              (or_introl eq_refl)) as (noLib & b' & H1 & H2 & _).
  exists noLib, b'. split; [exact H1|exact H2].
Defined.

(** [_breadthSearchString] on a grid of 81 entries returns the set of the
    cells that a chain of neighbouring cells of the colour of the start
    joins to it: the search neither runs out of steps nor misses a cell. *)
Theorem breadth_search_is_component b fc :
  length (_board b) = 81%nat → cell fc →
  ∃ S, _breadthSearchString b fc = Ok S ∧ ∀ j, j ∈ S ↔ conn (_board b) fc j.
Proof.
  intros Hl Hfc. by apply (breadthSearchString_spec (_board b) fc Hl Hfc b).
Qed.

Lemma breadth_search_is_component_witness :
  let b := demo_after ko_moves in
  length (_board b) = 81%nat ∧ cell 80 ∧
  ∃ S, _breadthSearchString b 80 = Ok S ∧ ∀ j, j ∈ S ↔ conn (_board b) 80 j.
Proof.
  assert (length (_board (demo_after ko_moves)) = 81%nat) as Hl
    by (vm_compute; reflexivity).
  assert (cell 80) as Hc by (unfold cell, ncells, _BOARDSIZE; lia).
  split; [exact Hl|]. split; [exact Hc|].
  exact (breadth_search_is_component (demo_after ko_moves) 80 Hl Hc).
Defined.

Lemma conn_occupied brd i j : at_ brd i ≠ 0 → conn brd i j → at_ brd j ≠ 0.
Proof. intros Hi H. by rewrite <- (conn_colour brd i j H). Qed.




(** ** The checks leave the position alone *)

Lemma only_uf_trans b b1 b2 :
  b1 = set_stringUnionFind b (_stringUnionFind b1) →
  b2 = set_stringUnionFind b1 (_stringUnionFind b2) →
  b2 = set_stringUnionFind b (_stringUnionFind b2).
Proof. intros H1 H2. rewrite H2 at 1. rewrite H1 at 1. done. Qed.

Lemma weak_filter_only_uf ms : ∀ b r b',
  weak_filter b ms = Ok (r, b') → b' = set_stringUnionFind b (_stringUnionFind b').
Proof.
  induction ms as [|m ms IH]; intros b r b' H.
  { injection H as _ <-. by destruct b. }
  cbn [weak_filter] in H. inv_bind H. destruct a as [sui b1].
  inv_bind H. destruct a as [moves b2]. injection H as _ <-.
  apply is_suicide_only_uf in E. apply IH in E0. by apply (only_uf_trans b b1 b2).
Qed.

Lemma legal_filter_only_uf ms : ∀ b r b',
  legal_filter b ms = Ok (r, b') → b' = set_stringUnionFind b (_stringUnionFind b').
Proof.
  induction ms as [|m ms IH]; intros b r b' H.
  { injection H as _ <-. by destruct b. }
  cbn [legal_filter] in H. inv_bind H. destruct a as [sui b1].
  inv_bind H. destruct a as [keep b2]. inv_bind H. destruct a as [moves b3].
  injection H as _ <-.
  apply is_suicide_only_uf in E. apply IH in E1.
  apply (only_uf_trans b b2 b3); [|done].
  destruct sui.
  - by injection E0 as _ <-.
  - inv_bind E0. destruct a as [[seen h] b4]. injection E0 as _ <-.
    apply is_super_ko_only_uf in E2. by apply (only_uf_trans b b1 b4).
Qed.

Lemma weak_legal_moves_only_uf b ms b' :
  weak_legal_moves b = Ok (ms, b') → b' = set_stringUnionFind b (_stringUnionFind b').
Proof.
  intros H. unfold weak_legal_moves in H. inv_bind H. destruct a as [l b1].
  injection H as _ <-. by apply weak_filter_only_uf in E.
Qed.

Lemma legal_moves_only_uf b ms b' :
  legal_moves b = Ok (ms, b') → b' = set_stringUnionFind b (_stringUnionFind b').
Proof.
  intros H. unfold legal_moves in H. inv_bind H. destruct a as [l b1].
  injection H as _ <-. by apply legal_filter_only_uf in E.
Qed.

(** Whatever the board, the suicide test, the super-ko simulation and the
    two move generators change nothing but the parent array of the
    registry, which they may compress: the grid, the counts, the hash,
    the sets and the trail are those of the board they were given. *)
Theorem checks_touch_only_parents b :
  (∀ c col r b', _is_suicide b c col = Ok (r, b') →
     b' = set_stringUnionFind b (_stringUnionFind b')) ∧
  (∀ c col seen h b', _is_super_ko b c col = Ok (seen, h, b') →
     b' = set_stringUnionFind b (_stringUnionFind b')) ∧
  (∀ ms b', weak_legal_moves b = Ok (ms, b') →
     b' = set_stringUnionFind b (_stringUnionFind b')) ∧
  (∀ ms b', legal_moves b = Ok (ms, b') →
     b' = set_stringUnionFind b (_stringUnionFind b')).
Proof.
  split; [intros c col r b'; apply is_suicide_only_uf|].
  split; [intros c col seen h b'; apply is_super_ko_only_uf|]. split.
  - intros ms b'. apply weak_legal_moves_only_uf.
  - intros ms b'. apply legal_moves_only_uf.
Qed.

Lemma checks_touch_only_parents_witness :
  let b := demo_after ko_moves in
  ∃ ms b', weak_legal_moves b = Ok (ms, b') ∧
           b' = set_stringUnionFind b (_stringUnionFind b').
Proof.
  destruct (weak_has_spec _ _ ko_weak) as (ms & b' & Hw & _).
  exists ms, b'. split; [exact Hw|].
  exact (proj1 (proj2 (proj2 (checks_touch_only_parents (demo_after ko_moves)))) ms b' Hw).
Defined.

(** ** The move generators *)

Lemma NoDup_moves (p : Z → bool) (S : gset Z) :
  (∀ m, m ∈ S → cell m) → NoDup (List.filter p (elements S) ++ [-1]).
Proof.
  intros HS. apply NoDup_app. split; [|split].
  - apply NoDup_ListNoDup, List.NoDup_filter, NoDup_ListNoDup, NoDup_elements.
  - intros m Hm ->%list_elem_of_singleton.
    apply list_elem_of_In, filter_In in Hm as [Hm%list_elem_of_In%elem_of_elements _].
    destruct (HS _ Hm). lia.
  - apply NoDup_singleton.
Qed.

(** [weak_legal_moves] on a reachable position never fails; the list it
    returns has no duplicate, ends with the pass and holds, besides the
    pass, exactly the empty cells on which [_is_suicide] answers [False]
    for the player to move. *)
Theorem weak_legal_moves_lists b :
  reachable b →
  ∃ ms b', weak_legal_moves b = Ok (ms, b') ∧
    NoDup ms ∧ last ms = Some (-1) ∧
    ∀ m, m ∈ ms ↔
         m = -1 ∨ (m ∈ _empties b ∧
                   ∃ b1, _is_suicide b m (_nextPlayer b) = Ok (false, b1)).
Proof.
  intros (HC & _ & _ & Hp & _)%reachable_Inv.
  destruct (weak_legal_moves_spec b HC Hp) as (b' & Hw & _).
  eexists _, b'. split; [exact Hw|]. split.
  { apply NoDup_moves. intros m Hm. by apply (cg_empties _ _ _ _ HC). }
  split; [apply last_snoc|].
  intros m. rewrite elem_of_app, list_elem_of_singleton. split.
  - intros [Hm| ->]; [right|by left].
    apply list_elem_of_In, filter_In in Hm
      as [Hm%list_elem_of_In%elem_of_elements Hs%negb_true_iff].
    split; [done|].
    destruct (is_suicide_spec b m (_nextPlayer b) HC) as (b1 & H1 & _);
      [by apply (cg_empties _ _ _ _ HC)|done|].
    exists b1. by rewrite H1, Hs.
  - intros [->|[Hm (b1 & H1)]]; [by right|left].
    apply list_elem_of_In, filter_In. split; [by apply list_elem_of_In, elem_of_elements|].
    destruct (is_suicide_spec b m (_nextPlayer b) HC) as (b2 & H2 & _);
      [by apply (cg_empties _ _ _ _ HC)|done|].
    rewrite H2 in H1. injection H1 as -> _. done.
Qed.

Lemma weak_legal_moves_lists_witness :
  let b := demo_after ko_moves in
  reachable b ∧ ∃ ms b', weak_legal_moves b = Ok (ms, b') ∧ last ms = Some (-1).
Proof.
  split; [exact ko_reachable|].
  destruct (weak_legal_moves_lists (demo_after ko_moves) ko_reachable)
    as (ms & b' & H1 & _ & H2 & _).
  exists ms, b'. split; [exact H1|exact H2].
Defined.

Lemma push_pass b :
  _gameOver b = false → ∃ b', push b (-1) = Ok (Some true, b').
Proof.
  intros Hgo. rewrite push_unfold by done. unfold play_move.
  change (_gameOver (_pushBoard b)) with (_gameOver b). rewrite Hgo.
  cbn [Z.eqb negb mbind res_bind flat_to_name]. by eexists.
Qed.

(** On a reachable position on which the game is not over, the moves
    that [legal_moves] lists are the moves of [weak_legal_moves] that
    [push] accepts: [push] returns [True] on every listed move, and a move
    of [weak_legal_moves] that [push] accepts is listed. *)
Theorem legal_moves_are_accepted b :
  reachable b → _gameOver b = false →
  ∃ ms b1 ws b2,
    legal_moves b = Ok (ms, b1) ∧ weak_legal_moves b = Ok (ws, b2) ∧
    ∀ m, m ∈ ms ↔ m ∈ ws ∧ ∃ b', push b m = Ok (Some true, b').
Proof.
  intros Hr Hgo. pose proof (reachable_Inv b Hr) as HI.
  pose proof (Inv_pushBoard b HI) as (HCp & _ & Htp & Hpp & _).
  destruct HI as (HC & _ & Ht & Hp & _).
  destruct (legal_moves_spec b HC Ht Hp) as (b1 & Hl & _).
  destruct (weak_legal_moves_spec b HC Hp) as (b2 & Hw & _).
  eexists _, b1, _, b2. split; [exact Hl|]. split; [exact Hw|].
  intros m. rewrite !elem_of_app, !list_elem_of_singleton.
  assert (∀ m, m ∈ elements (_empties b) →
            (∃ b', push b m = Ok (Some true, b'))
            ↔ bool_decide (sim_hash b m (_nextPlayer b) ∈ _seenHashes b) = false) as Hpush.
  { intros c Hc. destruct (empties_cells b c HC Hc) as [Hcc Hc0].
    rewrite push_unfold by done.
    destruct (play_move_stone (_pushBoard b) c HCp Htp Hpp Hgo Hcc Hc0)
      as (b3 & name & _ & _ & Hcase).
    rewrite sim_hash_pushBoard in Hcase.
    change (_seenHashes (_pushBoard b)) with (_seenHashes b) in Hcase.
    change (_nextPlayer (_pushBoard b)) with (_nextPlayer b) in Hcase.
    destruct (bool_decide _).
    - rewrite Hcase. split; [by intros [? ?]|done].
    - destruct Hcase as (b' & -> & _). split; [done|by eexists]. }
  split.
  - intros [Hm| ->]; [|split; [by right|by apply push_pass]].
    apply list_elem_of_In, filter_In in Hm as [Hm%list_elem_of_In Hk].
    apply andb_true_iff in Hk as [Hs Hk%negb_true_iff].
    split; [|by apply Hpush]. left. apply list_elem_of_In, filter_In.
    split; [by apply list_elem_of_In|done].
  - intros [[Hm| ->] Hacc]; [left|by right].
    apply list_elem_of_In, filter_In in Hm as [Hm%list_elem_of_In Hs].
    apply list_elem_of_In, filter_In. split; [by apply list_elem_of_In|].
    apply andb_true_iff. split; [done|]. apply negb_true_iff. by apply Hpush.
Qed.

Lemma legal_moves_are_accepted_witness :
  let b := demo_after ko_moves in
  reachable b ∧ _gameOver b = false ∧
  ∃ ms b1, legal_moves b = Ok (ms, b1) ∧
    ∀ m, m ∈ ms → ∃ b', push b m = Ok (Some true, b').
Proof.
  assert (_gameOver (demo_after ko_moves) = false) as Hgo by (vm_compute; reflexivity).
  split; [exact ko_reachable|]. split; [exact Hgo|].
  destruct (legal_moves_are_accepted (demo_after ko_moves) ko_reachable Hgo)
    as (ms & b1 & ws & b2 & H1 & _ & H2).
  exists ms, b1. split; [exact H1|].
  intros m Hm. exact (proj2 (proj1 (H2 m) Hm)).
Defined.

(** ** The counters of stones *)

Lemma sumZ_change (f g : Z → Z) (a : Z) (l : list Z) :
  NoDup l → a ∈ l → (∀ x, x ∈ l → x ≠ a → g x = f x) →
  sumZ g l = sumZ f l - f a + g a.
Proof.
  induction 1 as [|b l Hb Hl IH]; intros Ha Hfg; [by apply elem_of_nil in Ha|].
  simpl. destruct (decide (b = a)) as [->|Hne].
  - rewrite (sumZ_ext g f l); [lia|].
    intros x Hx. apply Hfg; [by right|]. by intros ->.
  - apply elem_of_cons in Ha as [?|Ha]; [done|].
    rewrite IH; [|done|intros; apply Hfg; [by right|done]].
    rewrite (Hfg b); [lia|by left|done].
Qed.

Lemma count_col_upd brd s v col :
  length brd = Z.to_nat ncells → cell s →
  count_col (upd brd s v) col
  = count_col brd col - Z.b2z (at_ brd s =? col) + Z.b2z (v =? col).
Proof.
  intros Hl Hs. unfold count_col.
  rewrite (sumZ_change (fun j => Z.b2z (at_ brd j =? col)) _ s cells);
    [|apply NoDup_cells|by apply cell_in_cells|].
  - by rewrite at_upd_eq.
  - intros x Hx%cell_in_cells Hne. by rewrite at_upd_ne.
Qed.

Lemma release_loop_unregistry nbrs : ∀ b s b',
  release_loop b s nbrs = Ok b' → unregistry b' = unregistry b.
Proof.
  induction nbrs as [|fn rest IH]; intros b s b' H; simpl in H.
  - by inv_ok H.
  - inv_bind H. destruct (negb (a =? _EMPTY)); [|by eauto].
    inv_bind H. destruct a0 as [st b1]. inv_bind H.
    apply IH in H. rewrite H. apply find_unregistry in E0.
    destruct (negb (st =? s));
      [apply add_liberties_unregistry in E1 | injection E1 as <-]; congruence.
Qed.

Lemma capture_stone_unregistry b s b' :
  length (_board b) = Z.to_nat ncells → tables_ok b → cell s →
  at_ (_board b) s = 1 ∨ at_ (_board b) s = 2 →
  capture_stone b s = Ok b' → unregistry b' = unregistry (cap_start b s).
Proof.
  intros Hl Ht Hs Hcol H. rewrite capture_stone_unfold in H by done.
  inv_bind H. apply release_loop_unregistry in E. inv_all H.
  injection H as <-. by rewrite <- E.
Qed.

Lemma flip_cases p : p = 1 ∨ p = 2 →
  (p = 1 ∧ flip p = 2) ∨ (p = 2 ∧ flip p = 1).
Proof. intros [->| ->]; [by left|by right]. Qed.

Lemma capture_stone_excess b s b' :
  length (_board b) = Z.to_nat ncells → tables_ok b → cell s → player_ok b →
  at_ (_board b) s = flip (_nextPlayer b) →
  capture_stone b s = Ok b' →
  excess b' = excess b ∧ _board b' = upd (_board b) s 0 ∧ static b' = static b ∧
  (_nbBLACK b' + _capturedBLACK b' = _nbBLACK b + _capturedBLACK b ∧
   _nbWHITE b' + _capturedWHITE b' = _nbWHITE b + _capturedWHITE b).
Proof.
  intros Hl Ht Hs Hp Hcol H.
  assert (at_ (_board b) s = 1 ∨ at_ (_board b) s = 2) as Hc12.
  { rewrite Hcol. destruct (flip_cases _ Hp) as [[_ ->]|[_ ->]]; [by right|by left]. }
  pose proof (capture_stone_unregistry b s b' Hl Ht Hs Hc12 H) as Hun.
  pose proof (f_equal (fun u => u.1.1.1.1.1.1.1) Hun) as HnW.
  pose proof (f_equal (fun u => u.1.1.1.1.1.1.2) Hun) as HnB.
  pose proof (f_equal (fun u => u.1.1.1.1.1.2) Hun) as HcW.
  pose proof (f_equal (fun u => u.1.1.1.1.2) Hun) as HcB.
  pose proof Hun as (Hb & _ & _ & Hst)%unregistry_fields.
  destruct (cap_start_fields b s) as (Hb1 & _ & _ & _ & _ & _ & Hst1).
  rewrite Hb1 in Hb. rewrite Hst1 in Hst.
  cbn [fst snd unregistry] in HnW, HnB, HcW, HcB.
  split; [|split; [done|split; [done|]]].
  - unfold excess.
    rewrite HnW, HnB, Hb, !count_col_upd by done. unfold cap_start.
    destruct (flip_cases _ Hp) as [[E1 E2]|[E1 E2]]; rewrite E2 in Hcol;
      rewrite E1, Hcol; unfold _WHITE, _BLACK;
      cbn [Z.eqb Pos.eqb Z.b2z _nbBLACK _nbWHITE set_empties set_board set_currentHash
           set_nbBLACK set_nbWHITE set_capturedBLACK set_capturedWHITE];
      f_equal; lia.
  - rewrite HnW, HnB, HcW, HcB. unfold cap_start.
    destruct (_nextPlayer b =? _WHITE);
      cbn [_nbBLACK _nbWHITE _capturedBLACK _capturedWHITE set_empties set_board
           set_currentHash set_nbBLACK set_nbWHITE set_capturedBLACK set_capturedWHITE];
      lia.
Qed.

Lemma capture_stones_excess todo : ∀ b b',
  length (_board b) = Z.to_nat ncells → tables_ok b → player_ok b → NoDup todo →
  (∀ s, s ∈ todo → cell s ∧ at_ (_board b) s = flip (_nextPlayer b)) →
  capture_stones b todo = Ok b' →
  excess b' = excess b ∧ static b' = static b ∧
  (_nbBLACK b' + _capturedBLACK b' = _nbBLACK b + _capturedBLACK b ∧
   _nbWHITE b' + _capturedWHITE b' = _nbWHITE b + _capturedWHITE b).
Proof.
  induction todo as [|s rest IH]; intros b b' Hl Ht Hp Hnd Htodo H.
  { by injection H as <-. }
  apply NoDup_cons in Hnd as [Hs Hnd].
  destruct (Htodo s ltac:(left)) as [Hsc Hscol].
  cbn [capture_stones] in H. inv_bind H.
  destruct (capture_stone_excess b s a Hl Ht Hsc Hp Hscol E) as (Hex & Hb & Hst & Hpl).
  pose proof (static_fields _ _ Hst) as (Hp1 & _).
  destruct (IH a b') as (Hex' & Hst' & Hpl'); try done.
  - by rewrite Hb, length_upd.
  - by apply (tables_ok_static b a).
  - unfold player_ok. by rewrite Hp1.
  - intros s' Hs'. destruct (Htodo s' ltac:(by right)) as [Hc' Hcol'].
    split; [done|]. rewrite Hb, Hp1, at_upd_ne; [done|done|done|]. by intros ->.
  - split; [congruence|]. split; [congruence|lia].
Qed.

Lemma capture_string_excess b fc b' :
  length (_board b) = Z.to_nat ncells → tables_ok b → player_ok b → cell fc →
  at_ (_board b) fc = flip (_nextPlayer b) →
  _capture_string b fc = Ok b' →
  excess b' = excess b ∧ static b' = static b ∧
  (_nbBLACK b' + _capturedBLACK b' = _nbBLACK b + _capturedBLACK b ∧
   _nbWHITE b' + _capturedWHITE b' = _nbWHITE b + _capturedWHITE b).
Proof.
  intros Hl Ht Hp Hfc Hcol H.
  destruct (breadthSearchString_spec (_board b) fc Hl Hfc b eq_refl) as (S & HS & HSconn).
  unfold _capture_string in H. rewrite HS in H. cbn [mbind res_bind] in H.
  apply (capture_stones_excess (elements S) b b'); try done; [apply NoDup_elements|].
  intros s Hs%elem_of_elements%HSconn.
  split; [by apply (conn_cell (_board b) fc)|].
  by rewrite <- (conn_colour (_board b) fc s Hs).
Qed.

Lemma capture_all_excess : ∀ l b b',
  Core b → tables_ok b → player_ok b → NoDup l →
  (∀ s, s ∈ l → cell s ∧ at_ (_board b) s = flip (_nextPlayer b) ∧
                at_ (_stringUnionFind b) s = -1) →
  capture_all b l = Ok b' →
  excess b' = excess b ∧ static b' = static b ∧
  (_nbBLACK b' + _capturedBLACK b' = _nbBLACK b + _capturedBLACK b ∧
   _nbWHITE b' + _capturedWHITE b' = _nbWHITE b + _capturedWHITE b).
Proof.
  induction l as [|s l IH]; intros b b' HC Ht Hp Hnd Hl H.
  { by injection H as <-. }
  apply NoDup_cons in Hnd as [Hs Hnd].
  destruct (Hl s ltac:(left)) as (Hsc & Hscol & Hsr).
  assert (∀ p, p = 1 ∨ p = 2 → flip p ≠ 0) as Hflip0.
  { intros p [->| ->]; done. }
  assert (at_ (_board b) s ≠ 0) as Hsocc by (rewrite Hscol; by apply Hflip0).
  pose proof (rootf_root _ s Hsc Hsr) as Hsroot.
  destruct (capture_string_spec b s HC Ht Hsc Hsocc)
    as (b1 & Hcap & HC1 & Hb1 & _ & Hst1 & Hroot1 & _).
  cbn [capture_all] in H. rewrite Hcap in H. cbn [mbind res_bind] in H.
  destruct (capture_string_excess b s b1 (cg_len_board _ _ _ _ HC) Ht Hp Hsc Hscol Hcap)
    as (Hex1 & _ & Hpl1).
  pose proof (static_fields _ _ Hst1) as (Hp1 & _).
  destruct (IH b1 b' HC1) as (Hex' & Hst' & Hpl'); try done.
  - by apply (tables_ok_static b b1).
  - unfold player_ok. by rewrite Hp1.
  - intros s' Hs'. destruct (Hl s' ltac:(by right)) as (Hc' & Hcol' & Hr').
    split; [done|]. split; [|by apply Hroot1].
    rewrite Hb1, Hp1 by done. rewrite bool_decide_eq_false_2; [done|].
    intros [_ E]. rewrite Hsroot, rootf_root in E by done. by rewrite E in Hs'.
  - split; [congruence|]. split; [congruence|lia].
Qed.

(** ** The bookkeeping of reachable positions *)

Lemma excess_fields b b' :
  _board b' = _board b → _nbBLACK b' = _nbBLACK b → _nbWHITE b' = _nbWHITE b →
  excess b' = excess b.
Proof. intros E1 E2 E3. unfold excess. by rewrite E1, E2, E3. Qed.

Lemma counts_excess b : counts_ok b ↔ excess b = (0, 0).
Proof.
  unfold counts_ok, excess. split.
  - intros [-> ->]. f_equal; lia.
  - intros [= H1 H2]. lia.
Qed.

Lemma play_move_stone_excess b c b' :
  Core b → tables_ok b → player_ok b → _gameOver b = false →
  cell c → at_ (_board b) c = 0 →
  play_move b c = Ok (Some true, b') →
  excess b' = excess b ∧
  _nbBLACK b' + _capturedBLACK b'
  = _nbBLACK b + _capturedBLACK b + Z.b2z (_nextPlayer b =? _BLACK) ∧
  _nbWHITE b' + _capturedWHITE b'
  = _nbWHITE b + _capturedWHITE b + Z.b2z (_nextPlayer b =? _WHITE).
Proof.
  intros HC Ht Hp Hgo Hc Hempty Hplay.
  pose proof (cg_uf _ _ _ _ HC) as Hw.
  assert (∀ i, i ∉ (∅ : gset Z)) as H0 by (intros; apply not_elem_of_empty).
  destruct (is_super_ko_spec b c (_nextPlayer b) HC Ht Hc Hempty Hp) as (b1 & Hsk & HR1).
  destruct (flat_to_name_ok c ltac:(by left)) as (name & Hname).
  pose proof (recompressed_static _ _ HR1) as Hst1.
  pose proof (static_fields _ _ Hst1) as (Hp1 & _).
  pose proof (recompressed_CoreG _ _ _ _ _ HC HR1) as HC1.
  pose proof (recompressed_board _ _ HR1) as Hb1.
  assert (tables_ok b1) as Ht1 by (by apply (tables_ok_static b b1)).
  assert (col12 : _nextPlayer b1 = 1 ∨ _nextPlayer b1 = 2) by (by rewrite Hp1).
  assert (at_ (_board b1) c = 0) as Hempty1 by (by rewrite Hb1).
  destruct (move_spec b1 c (_nextPlayer b1) HC1 Ht1 Hc Hempty1 col12) as
    (noLib & b2 & b3 & Hput & Hcap & (HC2 & Hb2 & HNL & Hkeep) & HC3 & Hst3 & _ & Hhash & _).
  destruct (put_stone_spec b1 c (_nextPlayer b1) HC1 Ht1 Hc Hempty1 col12)
    as (noLib' & b2' & Hput' & _ & Hun2 & _).
  rewrite Hput in Hput'. injection Hput' as <- <-.
  pose proof (f_equal (fun u => u.1.1.1.1.1.1.1) Hun2) as HnW.
  pose proof (f_equal (fun u => u.1.1.1.1.1.1.2) Hun2) as HnB.
  pose proof (f_equal (fun u => u.1.1.1.1.1.2) Hun2) as HcW.
  pose proof (f_equal (fun u => u.1.1.1.1.2) Hun2) as HcB.
  pose proof Hun2 as (_ & _ & _ & Hst2)%unregistry_fields.
  change (static (put_start b1 c (_nextPlayer b1))) with (static b1) in Hst2.
  pose proof (static_fields _ _ Hst2) as (Hp2 & _).
  cbn [fst snd unregistry put_start _nbWHITE _nbBLACK _capturedWHITE _capturedBLACK
       set_stringSizes set_stringLiberties
       set_empties set_currentHash set_board] in HnW, HnB, HcW, HcB.
  destruct (capture_all_excess noLib b2 b3 HC2) as (Hex3 & _ & HplB & HplW); try done.
  { by apply (tables_ok_static b1 b2). }
  { unfold player_ok. by rewrite Hp2. }
  { apply HNL. }
  { intros s [(n & Hn & [Hn0 Hncol] & Hr) _]%HNL.
    assert (cell n) as Hnc by (by apply (nbrs_cell c)).
    rewrite <- Hr. split; [by apply (cg_root_cell _ _ _ _ HC2)|].
    split; [|by apply (cg_root_is_root _ _ _ _ HC2)].
    rewrite (cg_root_colour _ _ _ _ HC2 n Hnc (H0 n)), Hp2.
    pose proof (cg_colours _ _ _ _ HC2 n Hnc).
    destruct (flip_cases _ col12) as [[E1 ->]|[E1 ->]]; rewrite E1 in Hncol; lia. }
  pose proof (static_fields _ _ Hst3) as (Hp3 & _).
  unfold play_move in Hplay. rewrite Hgo in Hplay.
  destruct (Z.eqb_spec c (-1)) as [E|_]; [unfold cell in Hc; lia|].
  cbn [negb] in Hplay. rewrite Hsk in Hplay. cbn [mbind res_bind] in Hplay.
  destruct (bool_decide _).
  { rewrite Hname in Hplay. discriminate Hplay. }
  rewrite Hput in Hplay. cbn [mbind res_bind] in Hplay.
  rewrite Hcap in Hplay. cbn [mbind res_bind] in Hplay.
  rewrite Hhash, Hp1, (recompressed_sim_hash b b1), Z.eqb_refl in Hplay by done.
  cbn [assert_ mbind res_bind _nextPlayer set_lastPlayerHasPassed] in Hplay.
  rewrite Hp3, Hp1 in Hplay.
  destruct (recompressed_fields _ _ HR1) as (Hun1 & _).
  pose proof (f_equal (fun u => u.1.1.1.1.1.1.1) Hun1) as HnW1.
  pose proof (f_equal (fun u => u.1.1.1.1.1.1.2) Hun1) as HnB1.
  pose proof (f_equal (fun u => u.1.1.1.1.1.2) Hun1) as HcW1.
  pose proof (f_equal (fun u => u.1.1.1.1.2) Hun1) as HcB1.
  cbn [fst snd unregistry] in HnW1, HnB1, HcW1, HcB1.
  assert (excess b2
          = (_nbBLACK b - (count_col (_board b) _BLACK + Z.b2z (_nextPlayer b =? _BLACK)),
             _nbWHITE b - (count_col (_board b) _WHITE + Z.b2z (_nextPlayer b =? _WHITE))))
    as Hex2.
  { unfold excess. rewrite HnW, HnB, Hb2, Hb1, Hp1.
    rewrite !count_col_upd by (done || apply HC). rewrite Hempty.
    rewrite HnW1, HnB1.
    unfold _BLACK, _WHITE. cbn [Z.eqb Z.b2z]. f_equal; lia. }
  rewrite Hex2 in Hex3. unfold excess in Hex3 |- *. injection Hex3 as HeB HeW.
  rewrite ?HnW, ?HnB, ?HcW, ?HcB, ?HnW1, ?HnB1, ?HcW1, ?HcB1 in HplB, HplW.
  destruct (flip_cases _ Hp) as [[E1 _]|[E1 _]]; rewrite E1 in Hplay, HeB, HeW;
    rewrite E1;
    unfold _WHITE, _BLACK in *; cbn [Z.eqb Pos.eqb Z.b2z] in Hplay, HeB, HeW;
    cbn [Z.eqb Pos.eqb Z.b2z];
    rewrite Hname in Hplay; cbn [mbind res_bind] in Hplay;
    injection Hplay as <-;
    cbn [_nbBLACK _nbWHITE _capturedBLACK _capturedWHITE _board set_nextPlayer
         set_historyMoveNames set_seenHashes
         set_nbBLACK set_nbWHITE set_lastPlayerHasPassed];
    (split; [f_equal; lia|lia]).
Qed.

Lemma Booked_init rand : Booked (Board_init rand).
Proof.
  split; [|split; [constructor|done]].
  split; [|done]. split; vm_compute; reflexivity.
Qed.

Lemma book_play_move b m r b' :
  Inv b → book_ok b →
  m = -1 ∨ (cell m ∧ at_ (_board b) m = 0) →
  play_move b m = Ok (r, b') → book_ok b'.
Proof.
  intros (HC & _ & Ht & Hp & _) [Hcnt Hg] Hm Hplay.
  destruct (_gameOver b) eqn:Hgo.
  { unfold play_move in Hplay. rewrite Hgo in Hplay. injection Hplay as _ <-.
    split; [done|]. by rewrite Hgo. }
  destruct Hm as [->|[Hm Hm0]].
  - unfold play_move in Hplay. rewrite Hgo in Hplay.
    cbn [Z.eqb negb mbind res_bind flat_to_name] in Hplay.
    injection Hplay as _ <-. destruct Hcnt as [HcB HcW].
    destruct (_lastPlayerHasPassed b) eqn:Elp;
      (split; [split; cbn; [exact HcB|exact HcW]|cbn; rewrite ?Hgo, ?Elp; done]).
  - destruct (play_move_stone b m HC Ht Hp Hgo Hm Hm0) as (b1 & nm & HR1 & _ & Hcase).
    destruct (bool_decide _).
    + rewrite Hcase in Hplay. injection Hplay as _ <-. destruct HR1 as [-> _].
      split; [exact Hcnt|]. cbn. by rewrite Hgo.
    + destruct Hcase as (b2 & Hplay2 & Hrest).
      pose proof (play_move_stone_excess b m b2 HC Ht Hp Hgo Hm Hm0 Hplay2) as [Hex _].
      rewrite Hplay2 in Hplay. injection Hplay as _ <-.
      apply counts_excess in Hcnt. rewrite <- Hex in Hcnt. apply counts_excess in Hcnt.
      split; [done|].
      destruct Hrest as (_ & _ & _ & _ & _ & _ & _ & _ & _ & _ & Hgo2 & _).
      by rewrite Hgo2.
Qed.

Lemma Booked_play_move b m r b' :
  Inv b → Booked b →
  m = -1 ∨ (cell m ∧ at_ (_board b) m = 0) →
  play_move b m = Ok (r, b') → Booked b'.
Proof.
  intros HI (Hbk & Hf & Hlen) Hm Hplay.
  split; [by apply (book_play_move b m r b')|].
  destruct (_gameOver b) eqn:Hgo.
  { unfold play_move in Hplay. rewrite Hgo in Hplay. by injection Hplay as _ <-. }
  pose proof (play_move_outside b m r b' Hplay Hgo) as (Htr & [name Hh] & _).
  rewrite Htr, Hh, length_app. split; [done|]. simpl. lia.
Qed.

Lemma Booked_push b m r b' :
  Inv b → Booked b →
  m = -1 ∨ (cell m ∧ at_ (_board b) m = 0) →
  push b m = Ok (r, b') → Booked b'.
Proof.
  intros HI (Hbk & Hf & Hlen) Hm Hpush. unfold push in Hpush.
  destruct (_gameOver b) eqn:Hgo; [done|]. cbn [negb assert_ mbind res_bind] in Hpush.
  pose proof (play_move_outside _ m r b' Hpush Hgo) as (Htr & [name Hh] & _).
  cbn [_pushBoard _trailMoves _historyMoveNames set_trailMoves] in Htr, Hh.
  split; [|split].
  - apply (book_play_move (_pushBoard b) m r b'); [by apply Inv_pushBoard|done|done|done].
  - rewrite Htr. apply Forall_app. split; [done|].
    apply Forall_singleton. by exists b.
  - rewrite Htr, Hh, !length_app. simpl. lia.
Qed.

Lemma Booked_only_uf b b' :
  Booked b → b' = set_stringUnionFind b (_stringUnionFind b') → Booked b'.
Proof. intros HB ->. exact HB. Qed.

Lemma pop_booked b b' :
  Booked b → pop b = Ok b' →
  ∃ b0 t h x, _trailMoves b = t ++ [frame_of b0] ∧ _historyMoveNames b = h ++ [x] ∧
    book_ok b0 ∧ _gameOver b0 = false ∧
    b' = set_seenHashes
           (mkBoard (_nbWHITE b0) (_nbBLACK b0) (_capturedWHITE b0) (_capturedBLACK b0)
              (_nextPlayer b0) (_board b0) (_lastPlayerHasPassed b0) (_gameOver b0)
              (_stringUnionFind b0) (_stringLiberties b0) (_stringSizes b0) (_empties b0)
              (_positionHashes b) (_currentHash b0) (_passHashB b) (_passHashW b)
              (_seenHashes b) h t)
           (_seenHashes b ∖ {[_currentHash b]}).
Proof.
  intros (Hbk & Hf & Hlen) Hpop. unfold pop in Hpop.
  destruct (_trailMoves b) as [|f0 tr0 _] eqn:Etr using rev_ind.
  { by rewrite (popBoard_notrail b Etr) in Hpop. }
  apply Forall_app in Hf as [Hf Hf0].
  apply Forall_singleton in Hf0 as (b0 & -> & Hbk0 & Hgo0).
  destruct (_historyMoveNames b) as [|x0 h0 _] eqn:Eh using rev_ind.
  { by rewrite (popBoard_nohist b b0 tr0 Etr Eh) in Hpop. }
  rewrite (popBoard_frame b0 b tr0 h0 x0 Etr Eh) in Hpop.
  cbn [mbind res_bind] in Hpop.
  exists b0, tr0, h0, x0. split; [done|]. split; [done|]. split; [done|].
  split; [done|].
  case_bool_decide as Hin; injection Hpop as <-; [done|].
  cbn in Hin. unfold set_seenHashes. cbn.
  assert (_seenHashes b ∖ {[_currentHash b]} = _seenHashes b) as ->; [|done].
  apply leibniz_equiv. set_solver.
Qed.

Lemma Booked_pop b b' : Booked b → pop b = Ok b' → Booked b'.
Proof.
  intros HB Hpop.
  destruct (pop_booked b b' HB Hpop) as (b0 & t & h & x & Etr & Eh & Hbk0 & Hgo0 & ->).
  destruct HB as (_ & Hf & Hlen). rewrite Etr in Hf, Hlen. rewrite Eh in Hlen.
  apply Forall_app in Hf as [Hf _]. rewrite !length_app in Hlen. simpl in Hlen.
  split; [exact Hbk0|]. split; [exact Hf|]. cbn. lia.
Qed.

(** Every board a program reaches keeps its books. *)
Lemma reachable_Booked b : reachable b → Booked b.
Proof.
  induction 1 as [rand|b ms b' Hr IH Hw|b ms b' Hr IH Hl
                 |b ms b0 m r b' Hr IH Hw Hm Hpush|b ms b0 m r b' Hr IH Hw Hm Hplay
                 |b b' Hr IH Hpop].
  - apply Booked_init.
  - apply (Booked_only_uf b); [done|].
    by apply (weak_legal_moves_only_uf b ms).
  - apply (Booked_only_uf b); [done|].
    by apply (legal_moves_only_uf b ms).
  - pose proof (reachable_Inv b Hr) as HI.
    apply (Booked_push b m r b' HI IH); [|done].
    destruct HI as (HC & _ & _ & Hp & _).
    destruct (weak_moves_elem b ms b0 m HC Hp Hw Hm) as [?|(? & ? & _)]; [by left|by right].
  - pose proof (reachable_Inv b Hr) as HI.
    apply (Booked_play_move b m r b' HI IH); [|done].
    destruct HI as (HC & _ & _ & Hp & _).
    destruct (weak_moves_elem b ms b0 m HC Hp Hw Hm) as [?|(? & ? & _)]; [by left|by right].
  - by apply (Booked_pop b).
Qed.

(** ** What the bookkeeping gives *)

(** On a reachable position the two counters of stones are the numbers of
    black and of white stones on the grid, so that [diff_stones_board] is
    the difference of these numbers. *)
Theorem stone_counters_count_stones b :
  reachable b →
  _nbBLACK b = count_col (_board b) _BLACK ∧
  _nbWHITE b = count_col (_board b) _WHITE ∧
  diff_stones_board b = count_col (_board b) _BLACK - count_col (_board b) _WHITE.
Proof.
  intros ([[HB HW] _] & _)%reachable_Booked. unfold diff_stones_board.
  split; [done|]. split; [done|]. by rewrite HB, HW.
Qed.

Lemma stone_counters_count_stones_witness :
  let b := demo_after ko_moves in
  reachable b ∧ _nbBLACK b = count_col (_board b) _BLACK.
Proof.
  split; [exact ko_reachable|].
  exact (proj1 (stone_counters_count_stones (demo_after ko_moves) ko_reachable)).
Defined.

(** On a reachable position [pop] succeeds exactly when a push is
    pending, and raises [IndexError] when the trail is empty; the board
    it returns has one frame less and the game is not over on it. *)
Theorem pop_needs_a_push b :
  reachable b →
  ((∃ b', pop b = Ok b') ↔ _trailMoves b ≠ []) ∧
  (_trailMoves b = [] → pop b = Raise IndexError) ∧
  (∀ b', pop b = Ok b' →
     _gameOver b' = false ∧
     length (_trailMoves b) = S (length (_trailMoves b'))).
Proof.
  intros HB%reachable_Booked. split; [split|split].
  - intros [b' Hpop] Htr. unfold pop in Hpop.
    by rewrite (popBoard_notrail b Htr) in Hpop.
  - intros Htr. destruct HB as (_ & Hf & Hlen).
    destruct (_trailMoves b) as [|f0 tr0 _] eqn:Etr using rev_ind; [done|].
    apply Forall_app in Hf as [_ Hf0].
    apply Forall_singleton in Hf0 as (b0 & -> & _).
    destruct (_historyMoveNames b) as [|x0 h0 _] eqn:Eh using rev_ind.
    { rewrite length_app in Hlen. simpl in Hlen. lia. }
    unfold pop. rewrite (popBoard_frame b0 b tr0 h0 x0 Etr Eh).
    cbn [mbind res_bind]. case_bool_decide; by eexists.
  - intros Htr. unfold pop. by rewrite (popBoard_notrail b Htr).
  - intros b' Hpop.
    destruct (pop_booked b b' HB Hpop) as (b0 & t & h & x & Etr & _ & _ & Hgo0 & ->).
    split; [exact Hgo0|]. rewrite Etr, length_app. cbn. lia.
Qed.

Lemma pop_needs_a_push_witness :
  let b := demo_after ko_moves in
  reachable b ∧ ∃ b', pop b = Ok b' ∧ _gameOver b' = false.
Proof.
  split; [exact ko_reachable|].
  destruct (pop_needs_a_push (demo_after ko_moves) ko_reachable) as (H1 & _ & H3).
  destruct (proj2 H1) as [b' Hpop].
  { intros E. apply (f_equal length) in E. vm_compute in E. discriminate E. }
  exists b'. split; [exact Hpop|]. exact (proj1 (H3 b' Hpop)).
Defined.

(** On a reachable position the game is over only after a pass.  While
    it is not over, a pass is always accepted, leaves the grid alone and
    ends the game exactly when the move before it was a pass too; a stone
    that is accepted clears the pass flag and does not end the game. *)
Theorem game_ends_on_second_pass b :
  reachable b →
  (_gameOver b = true → _lastPlayerHasPassed b = true) ∧
  (_gameOver b = false →
     (∃ b', play_move b (-1) = Ok (Some true, b') ∧
        _gameOver b' = _lastPlayerHasPassed b ∧ _lastPlayerHasPassed b' = true ∧
        _board b' = _board b ∧ _nextPlayer b' = flip (_nextPlayer b)) ∧
     (∀ m b', cell m → at_ (_board b) m = 0 →
        play_move b m = Ok (Some true, b') →
        _gameOver b' = false ∧ _lastPlayerHasPassed b' = false ∧
        _nextPlayer b' = flip (_nextPlayer b))).
Proof.
  intros Hr. pose proof (reachable_Booked b Hr) as ([_ Hg] & _).
  split; [exact Hg|]. intros Hgo. split.
  - unfold play_move. rewrite Hgo.
    cbn [Z.eqb negb mbind res_bind flat_to_name].
    eexists. split; [reflexivity|].
    destruct (_lastPlayerHasPassed b) eqn:E; cbn; rewrite ?E, ?Hgo; done.
  - intros m b' Hm Hm0 Hplay.
    apply reachable_Inv in Hr as (HC & _ & Ht & Hp & _).
    destruct (play_move_stone b m HC Ht Hp Hgo Hm Hm0) as (b1 & nm & _ & _ & Hcase).
    destruct (bool_decide _); [by rewrite Hcase in Hplay|].
    destruct Hcase as (b2 & Hplay2 & Hrest). rewrite Hplay2 in Hplay.
    injection Hplay as <-.
    destruct Hrest as (_ & _ & _ & _ & _ & Hnp & _ & _ & _ & _ & Hgo2 & Hlp2 & _).
    done.
Qed.

Lemma game_ends_on_second_pass_witness :
  let b := demo_after [-1] in
  reachable b ∧ _gameOver b = false ∧
  ∃ b', play_move b (-1) = Ok (Some true, b') ∧ _gameOver b' = true.
Proof.
  assert (legal_run (Board_init demo_rand) [-1] = true) as Hrun
    by (vm_compute; reflexivity).
  pose proof (demo_after_reachable _ Hrun) as [_ Hr].
  assert (_gameOver (demo_after [-1]) = false) as Hgo by (vm_compute; reflexivity).
  assert (_lastPlayerHasPassed (demo_after [-1]) = true) as Hlp
    by (vm_compute; reflexivity).
  split; [exact Hr|]. split; [exact Hgo|].
  destruct (proj1 (proj2 (game_ends_on_second_pass (demo_after [-1]) Hr) Hgo))
    as (b' & H1 & H2 & _).
  exists b'. split; [exact H1|]. rewrite H2. exact Hlp.
Defined.

(** Stones are conserved: when a stone is accepted on a reachable
    position, the stones on the board plus the stones captured so far go
    up by one for the colour that played and stay the same for the other
    colour, whatever the move captures. *)
Theorem stones_are_conserved b m b' :
  reachable b → _gameOver b = false → cell m → at_ (_board b) m = 0 →
  play_move b m = Ok (Some true, b') →
  _nbBLACK b' + _capturedBLACK b'
  = _nbBLACK b + _capturedBLACK b + Z.b2z (_nextPlayer b =? _BLACK) ∧
  _nbWHITE b' + _capturedWHITE b'
  = _nbWHITE b + _capturedWHITE b + Z.b2z (_nextPlayer b =? _WHITE).
Proof.
  intros (HC & _ & Ht & Hp & _)%reachable_Inv Hgo Hm Hm0 Hplay.
  by destruct (play_move_stone_excess b m b' HC Ht Hp Hgo Hm Hm0 Hplay) as [_ ?].
Qed.

Lemma stones_are_conserved_witness :
  let b := Board_init demo_rand in
  let b' := after_play b 40 in
  reachable b ∧ _gameOver b = false ∧ cell 40 ∧ at_ (_board b) 40 = 0 ∧
  play_move b 40 = Ok (Some true, b') ∧
  _nbBLACK b' + _capturedBLACK b' = _nbBLACK b + _capturedBLACK b + 1.
Proof.
  assert (cell 40) as Hc by (unfold cell, ncells, _BOARDSIZE; lia).
  assert (play_move (Board_init demo_rand) 40
          = Ok (Some true, after_play (Board_init demo_rand) 40)) as Hplay
    by (vm_compute; reflexivity).
  split; [apply reachable_init|]. split; [reflexivity|]. split; [exact Hc|].
  split; [reflexivity|]. split; [exact Hplay|].
  exact (proj1 (stones_are_conserved (Board_init demo_rand) 40 _
                  (reachable_init demo_rand) eq_refl Hc eq_refl Hplay)).
Defined.

(** ** The suicide test is exact *)

(** A chain of stones from the stone just placed on [c] stays on [c] or
    leaves it through a neighbour of its colour, along stones that stood
    there before. *)
Lemma conn_through_new_stone brd c col j :
  length brd = Z.to_nat ncells → cell c → at_ brd c = 0 → col ≠ 0 →
  conn (upd brd c col) c j →
  j = c ∨ ∃ f, f ∈ _get_neighbors c ∧ at_ brd f = col ∧ conn brd f j ∧ j ≠ c.
Proof.
  intros Hl Hc Hempty Hcol H. revert j H. apply rtc_ind_r; [by left|].
  intros y z Hcy (Hy & Hz & Hyz) IH.
  destruct (decide (z = c)) as [->|Hzc]; [by left|right].
  assert (cell z) as Hzcell by (by apply (nbrs_cell y)).
  assert (at_ (upd brd c col) y = col) as Hycol.
  { rewrite <- (conn_colour _ _ _ Hcy). by apply at_upd_eq. }
  assert (at_ brd z = col) as Hzcol.
  { rewrite <- Hycol, Hyz. by rewrite at_upd_ne. }
  destruct IH as [->|(f & Hf & Hfcol & Hfy & Hyc)].
  - exists z. split; [done|]. split; [done|]. split; [apply rtc_refl|done].
  - exists f. split; [done|]. split; [done|]. split; [|done].
    eapply rtc_r; [exact Hfy|]. split; [done|]. split; [done|].
    rewrite at_upd_ne in Hycol by done. congruence.
Qed.

Lemma lib_after_nonneg b c col r :
  Core b → cell c → at_ (_board b) c = 0 → col = 1 ∨ col = 2 →
  cell r → at_ (_board b) r ≠ 0 → at_ (_stringUnionFind b) r = -1 →
  0 ≤ lib_after b c r.
Proof.
  intros HC Hc Hempty Hcol Hr Hocc Hroot.
  rewrite (lib_after_plib b c col) by done. apply plib_nonneg.
Qed.

(** When [suicide_spec] holds, the string of the stone placed on [c] has
    no liberty on the new grid. *)
Lemma suicide_no_lib b c col :
  Core b → cell c → at_ (_board b) c = 0 → col = 1 ∨ col = 2 →
  suicide_spec b c col = true →
  (∀ n, n ∈ _get_neighbors c → at_ (_board b) n ≠ 0) ∧
  (∀ n, n ∈ _get_neighbors c → at_ (_board b) n ≠ col →
        lib_after b c (rootf (_stringUnionFind b) n) ≠ 0) ∧
  ¬ has_lib (upd (_board b) c col) c.
Proof.
  intros HC Hc Hempty Hcol Hs.
  assert (∀ i, i ∉ (∅ : gset Z)) as H0 by (intros; apply not_elem_of_empty).
  assert (col ≠ 0) as Hcol0 by (destruct Hcol; lia).
  unfold suicide_spec in Hs.
  destruct (existsb (fun n => at_ _ n =? 0) _) eqn:E1; [done|].
  destruct (existsb (fun n => negb _ && _) _) eqn:E2; [done|].
  assert (∀ n, n ∈ _get_neighbors c → at_ (_board b) n ≠ 0) as Hocc.
  { intros n Hn E. apply not_true_iff_false in E1. apply E1, existsb_exists.
    exists n. split; [by apply list_elem_of_In|by apply Z.eqb_eq]. }
  assert (∀ n, n ∈ _get_neighbors c → at_ (_board b) n ≠ col →
            lib_after b c (rootf (_stringUnionFind b) n) ≠ 0) as Hen.
  { intros n Hn Hncol E. apply not_true_iff_false in E2. apply E2, existsb_exists.
    exists n. split; [by apply list_elem_of_In|].
    apply andb_true_iff. split; [by apply negb_true_iff, Z.eqb_neq|by apply Z.eqb_eq]. }
  split; [done|]. split; [done|].
  assert (∀ n, n ∈ _get_neighbors c → at_ (_board b) n = col →
            lib_after b c (rootf (_stringUnionFind b) n) = 0) as Hfr.
  { intros n Hn Hncol.
    assert (rootf (_stringUnionFind b) n ∈ friend_roots b c col) as Hin.
    { apply friend_roots_spec. by exists n. }
    destruct (length _ =? 0)%nat eqn:E3 in Hs.
    { apply Nat.eqb_eq, nil_length_inv in E3. rewrite E3 in Hin.
      by apply elem_of_nil in Hin. }
    apply Z.eqb_eq in Hs.
    apply (sumZ_zero_inv (lib_after b c) (friend_roots b c col)); [|done|done].
    intros f (m & Hm & Hmcol & <-)%friend_roots_spec.
    assert (cell m) as Hmc by (by apply (nbrs_cell c)).
    apply (lib_after_nonneg b c col); try done.
    - by apply (cg_root_cell _ _ _ _ HC).
    - rewrite (cg_root_colour _ _ _ _ HC m Hmc (H0 m)). congruence.
    - by apply (cg_root_is_root _ _ _ _ HC). }
  intros (j' & e & Hconn & He & He0).
  destruct (conn_through_new_stone _ c col j' (cg_len_board _ _ _ _ HC) Hc Hempty Hcol0 Hconn)
    as [->|(f & Hf & Hfcol & Hfj & Hjc)].
  - assert (e ≠ c) as Hec by (intros ->; by apply (nbrs_irrefl c)).
    rewrite at_upd_ne in He0; [|done|by apply (nbrs_cell c)|done].
    by apply (Hocc e).
  - assert (cell f) as Hfc by (by apply (nbrs_cell c)).
    assert (at_ (_board b) f ≠ 0) as Hf0 by congruence.
    pose proof (proj1 (class_conn b f j' HC Hfc Hf0) Hfj) as (Hj'c & Hj'0 & Hj'r).
    pose proof (Hfr f Hf Hfcol) as Hz.
    set (r := rootf (_stringUnionFind b) f) in *.
    rewrite (lib_after_plib b c col) in Hz; try done.
    2:{ by apply (cg_root_cell _ _ _ _ HC). }
    2:{ unfold r. rewrite (cg_root_colour _ _ _ _ HC f Hfc (H0 f)). done. }
    2:{ by apply (cg_root_is_root _ _ _ _ HC). }
    assert (0 < plib (upd (_board b) c col) (_stringUnionFind b) r); [|lia].
    unfold plib. apply (sumZ_pos _ _ j'); [|by apply cell_in_cells|].
    + intros y Hy%cell_in_cells. destruct (in_string _ _ _ y); [|done].
      by destruct (nb_empty_bounds (upd (_board b) c col) y Hy).
    + unfold in_string. rewrite at_upd_ne by done.
      destruct (Z.eqb_spec (at_ (_board b) j') 0); [done|].
      rewrite Hj'r, Z.eqb_refl. cbn [negb andb].
      apply nb_empty_pos. by exists e.
Qed.

(** [_is_suicide] is exact on the empty cells of a reachable position: it
    answers [True] exactly when placing the stone and capturing the
    strings it leaves without liberty would leave a string without liberty
    on the board.  In that case nothing is captured and the string
    without liberty is that of the new stone; otherwise every string of
    the new position has an empty neighbour. *)
Theorem suicide_iff_dead_string b c col :
  reachable b → cell c → at_ (_board b) c = 0 → col = 1 ∨ col = 2 →
  ∃ r b0 noLib b2 b3,
    _is_suicide b c col = Ok (r, b0) ∧
    _put_stone b c col = Ok (noLib, b2) ∧ capture_all b2 noLib = Ok b3 ∧
    (r = true ↔ ∃ s, cell s ∧ at_ (_board b3) s ≠ 0 ∧
                     at_ (_stringUnionFind b3) s = -1 ∧
                     at_ (_stringLiberties b3) s = 0) ∧
    (r = true → noLib = [] ∧ ¬ has_lib (_board b3) c) ∧
    (r = false → ∀ j, cell j → at_ (_board b3) j ≠ 0 → has_lib (_board b3) j).
Proof.
  intros (HC & Ha & Ht & _)%reachable_Inv Hc Hempty Hcol.
  assert (∀ i, i ∉ (∅ : gset Z)) as H0 by (intros; apply not_elem_of_empty).
  assert (col ≠ 0) as Hcol0 by (destruct Hcol; lia).
  destruct (is_suicide_spec b c col HC Hc Hcol) as (b0 & Hsui & _).
  destruct (move_spec b c col HC Ht Hc Hempty Hcol)
    as (noLib & b2 & b3 & Hput & Hcap & (HC2 & Hb2 & HNL & Hkeep) & HC3 & Hst & _ & _ & Hb3).
  exists (suicide_spec b c col), b0, noLib, b2, b3.
  split; [done|]. split; [done|]. split; [done|].
  destruct (suicide_spec b c col) eqn:Hs.
  - destruct (suicide_no_lib b c col HC Hc Hempty Hcol Hs) as (Hocc & Hen & Hno).
    assert (noLib = []) as ->.
    { destruct noLib as [|s l]; [done|]. exfalso.
      destruct (proj1 (proj2 HNL s) ltac:(left)) as [(n & Hn & [Hn0 Hncol] & Hr) Hz].
      assert (cell n) as Hnc by (by apply (nbrs_cell c)).
      assert (n ≠ c) as Hnne by (intros ->; by apply (nbrs_irrefl c)).
      rewrite Hb2, at_upd_ne in Hn0, Hncol by done.
      assert (rootf (_stringUnionFind b2) n = rootf (_stringUnionFind b) n) as Er.
      { apply Hkeep; [done|]. by rewrite at_upd_ne. }
      apply (Hen n Hn Hncol). rewrite <- Er, Hr, <- Hz. symmetry.
      apply (mv_enemy_lib b c col b2 HC Hc Hempty Hcol HC2 Hb2 Hkeep).
      - rewrite <- Hr. by apply (cg_root_cell _ _ _ _ HC2).
      - rewrite <- Hr, <- Hb2, (cg_root_colour _ _ _ _ HC2 n Hnc (H0 n)).
        by rewrite Hb2, at_upd_ne.
      - rewrite <- Hr, <- Hb2, (cg_root_colour _ _ _ _ HC2 n Hnc (H0 n)).
        by rewrite Hb2, at_upd_ne.
      - rewrite <- Hr. by apply (cg_root_is_root _ _ _ _ HC2). }
    injection Hcap as <-.
    assert (at_ (_board b2) c = col) as Hc2 by (rewrite Hb2; apply at_upd_eq; [apply HC|done]).
    assert (at_ (_board b2) c ≠ 0) as Hc20 by congruence.
    split; [|split; [|done]].
    + split; [intros _|done].
      exists (rootf (_stringUnionFind b2) c).
      split; [by apply (cg_root_cell _ _ _ _ HC2)|].
      split; [by rewrite (cg_root_colour _ _ _ _ HC2 c Hc (H0 c))|].
      split; [by apply (cg_root_is_root _ _ _ _ HC2)|].
      pose proof (lib_nonneg b2 c HC2 Hc Hc20) as Hge.
      destruct (decide (0 < at_ (_stringLiberties b2) (rootf (_stringUnionFind b2) c)))
        as [Hpos|Hnpos]; [|lia].
      exfalso. apply Hno. rewrite <- Hb2. by apply (lib_pos_iff b2 c HC2 Hc Hc20).
    + intros _. split; [done|]. by rewrite Hb2.
  - assert (alive b3) as Ha3.
    { by apply (move_alive b c col noLib b2 b3). }
    split; [|split; [done|]].
    + split; [done|]. intros (s & Hs1 & Hs2 & Hs3 & Hs4).
      pose proof (Ha3 s Hs1 Hs2 Hs3). lia.
    + intros _. by apply (alive_iff b3 HC3).
Qed.

Lemma suicide_iff_dead_string_witness :
  let b := demo_after ko_moves in
  reachable b ∧ cell 0 ∧ at_ (_board b) 0 = 0 ∧
  ∃ r b0, _is_suicide b 0 2 = Ok (r, b0).
Proof.
  assert (cell 0) as Hc by (unfold cell, ncells, _BOARDSIZE; lia).
  assert (at_ (_board (demo_after ko_moves)) 0 = 0) as H0 by (vm_compute; reflexivity).
  split; [exact ko_reachable|]. split; [exact Hc|]. split; [exact H0|].
  destruct (suicide_iff_dead_string (demo_after ko_moves) 0 2 ko_reachable Hc H0
              (or_intror eq_refl)) as (r & b0 & _ & _ & _ & H1 & _).
  exists r, b0. exact H1.
Defined.

(** ** Counting the areas: the exploration of one region *)

Lemma area_new_elem brd T nbrs n :
  n ∈ area_new brd T nbrs ↔ n ∈ nbrs ∧ at_ brd n = 0 ∧ n ∈ T.
Proof.
  unfold area_new. rewrite !list_elem_of_In, filter_In, andb_true_iff.
  rewrite Z.eqb_eq, bool_decide_eq_true. done.
Qed.

Lemma area_new_NoDup brd T nbrs : NoDup nbrs → NoDup (area_new brd T nbrs).
Proof. intros H. by apply NoDup_ListNoDup, List.NoDup_filter, NoDup_ListNoDup. Qed.

Lemma area_new_drop brd T n nbrs :
  n ∉ nbrs → area_new brd (T ∖ {[n]}) nbrs = area_new brd T nbrs.
Proof.
  intros Hn. unfold area_new. apply filter_ext_in. intros m Hm%list_elem_of_In.
  f_equal. apply bool_decide_ext. rewrite elem_of_difference, elem_of_singleton.
  split; [by intros [? _]|]. intros ?. split; [done|]. by intros ->.
Qed.

Lemma area_nbrs_spec b : ∀ nbrs T F tb tw,
  length (_board b) = Z.to_nat ncells → (∀ n, n ∈ nbrs → cell n) → NoDup nbrs →
  area_nbrs b nbrs T F tb tw
  = Ok (T ∖ list_to_set (area_new (_board b) T nbrs),
        rev (area_new (_board b) T nbrs) ++ F,
        tb + sumZ (fun n => Z.b2z (at_ (_board b) n =? 1)) nbrs,
        tw + sumZ (fun n => Z.b2z (at_ (_board b) n =? 2)) nbrs).
Proof.
  induction nbrs as [|n nbrs IH]; intros T F tb tw Hl Hn Hnd.
  { cbn. rewrite !Z.add_0_r. do 4 f_equal. apply leibniz_equiv. set_solver. }
  apply NoDup_cons in Hnd as [Hni Hnd].
  assert (∀ n, n ∈ nbrs → cell n) as Hn' by (intros; apply Hn; by right).
  cbn [area_nbrs]. rewrite aget_cell by (done || apply Hn; by left).
  cbn [mbind res_bind]. unfold _EMPTY, _BLACK, _WHITE.
  cbn [sumZ foldr]. fold (sumZ (fun n => Z.b2z (at_ (_board b) n =? 1)) nbrs).
  fold (sumZ (fun n => Z.b2z (at_ (_board b) n =? 2)) nbrs).
  unfold area_new at 1 2. cbn [List.filter]. fold (area_new (_board b) T nbrs).
  destruct ((at_ (_board b) n =? 0) && bool_decide (n ∈ T)) eqn:E.
  - apply andb_true_iff in E as [E0%Z.eqb_eq _].
    rewrite IH by done. rewrite area_new_drop by done. rewrite E0. cbn [Z.eqb Z.b2z].
    rewrite !Z.add_0_l. cbn [rev]. rewrite <- app_assoc. cbn [app].
    do 4 f_equal. apply leibniz_equiv. set_solver.
  - destruct (Z.eqb_spec (at_ (_board b) n) 1) as [E1|E1].
    { rewrite IH by done. rewrite E1. cbn [Z.eqb Pos.eqb Z.b2z].
      by rewrite !Z.add_assoc, Z.add_0_r. }
    destruct (Z.eqb_spec (at_ (_board b) n) 2) as [E2|E2].
    { rewrite IH by done. cbn [Z.b2z]. by rewrite !Z.add_assoc, Z.add_0_r. }
    rewrite IH by done. cbn [Z.b2z]. by rewrite !Z.add_0_l.
Qed.

Section area.
  Context (b : Board) (s : Z) (T0 : gset Z).
  Hypothesis Hl : length (_board b) = Z.to_nat ncells.
  Hypothesis Hs : cell s.
  Hypothesis Hs0 : at_ (_board b) s = 0.
  Hypothesis HsT : s ∉ T0.
  Hypothesis Hcl0 : ∀ x n, x = s ∨ x ∈ T0 → n ∈ _get_neighbors x →
    at_ (_board b) n = 0 → n = s ∨ n ∈ T0.

  Local Abbreviation brd := (_board b).

Lemma area_inv_init : area_inv brd s T0 T0 [s] [] 0 0.
  Proof using All.
    constructor; cbn [app].
    - apply NoDup_singleton.
    - intros x. rewrite list_elem_of_singleton. split; [by left|]. by intros [?|[? ?]].
    - done.
    - intros x ->%list_elem_of_singleton. apply rtc_refl.
    - intros x n Hx. by apply elem_of_nil in Hx.
    - split; [done|]. split; [lia|]. intros (x & n & Hx & _). by apply elem_of_nil in Hx.
    - split; [done|]. split; [lia|]. intros (x & n & Hx & _). by apply elem_of_nil in Hx.
  Qed.

Lemma count_pos col l :
    0 ≤ sumZ (fun n => Z.b2z (at_ brd n =? col)) l ∧
    (0 < sumZ (fun n => Z.b2z (at_ brd n =? col)) l ↔ ∃ n, n ∈ l ∧ at_ brd n = col).
  Proof using All.
    split; [apply sumZ_nonneg; intros; by destruct (_ =? _)|]. split.
    - intros (n & Hn & Hp)%sumZ_pos_inv. exists n. split; [done|].
      by destruct (Z.eqb_spec (at_ brd n) col).
    - intros (n & Hn & Hc). apply (sumZ_pos _ _ n); [|done|].
      + intros; by destruct (_ =? _).
      + by rewrite Hc, Z.eqb_refl.
  Qed.

Lemma area_inv_step T x below cs tb tw :
    area_inv brd s T0 T (x :: below) cs tb tw →
    area_inv brd s T0 (T ∖ list_to_set (area_new brd T (_get_neighbors x)))
      (rev (area_new brd T (_get_neighbors x)) ++ below) (cs ++ [x])
      (tb + sumZ (fun n => Z.b2z (at_ brd n =? 1)) (_get_neighbors x))
      (tw + sumZ (fun n => Z.b2z (at_ brd n =? 2)) (_get_neighbors x)).
  Proof using All.
    intros HI. set (new := area_new brd T (_get_neighbors x)).
    assert (conn brd s x) as Hcx by (apply (ai_conn _ _ _ _ _ _ _ _ HI), elem_of_app; right; by left).
    assert (cell x) as Hx by (by apply (conn_cell brd s)).
    assert (at_ brd x = 0) as Hx0 by (by rewrite <- (conn_colour _ _ _ Hcx)).
    assert (∀ n, n ∈ rev new ↔ n ∈ _get_neighbors x ∧ at_ brd n = 0 ∧ n ∈ T) as Hnew.
    { intros n. rewrite elem_of_rev. apply area_new_elem. }
    assert (∀ y, y ∈ cs ++ x :: below → y ∉ T) as Hfound.
    { intros y [->|[_ Hy]]%(ai_found _ _ _ _ _ _ _ _ HI); [|done].
      intros Hy. by apply HsT, (ai_sub _ _ _ _ _ _ _ _ HI). }
    assert (∀ y, y ∈ (cs ++ [x]) ++ rev new ++ below ↔ y ∈ rev new ∨ y ∈ cs ++ x :: below)
      as Hsplit.
    { intros y. rewrite !elem_of_app, !elem_of_cons, elem_of_nil. tauto. }
    constructor.
    - rewrite <- app_assoc. cbn [app].
      pose proof (ai_nodup _ _ _ _ _ _ _ _ HI) as Hnd.
      apply NoDup_app in Hnd as (Hcs & Hdis & Hxb).
      apply NoDup_cons in Hxb as [Hxb Hb].
      apply NoDup_app. split; [done|]. split.
      + intros y Hy [->|[Hy'|Hy']%elem_of_app]%elem_of_cons.
        * apply (Hdis x Hy). by left.
        * apply Hnew in Hy' as (_ & _ & HyT).
          apply (Hfound y); [apply elem_of_app; by left|done].
        * apply (Hdis y Hy). by right.
      + apply NoDup_cons. split.
        * intros [Hy'|Hy']%elem_of_app; [|done].
          apply Hnew in Hy' as (_ & _ & HyT).
          apply (Hfound x); [apply elem_of_app; right; by left|done].
        * apply NoDup_app. split; [apply NoDup_ListNoDup, List.NoDup_rev, NoDup_ListNoDup, area_new_NoDup, nbrs_NoDup, Hx|].
          split; [|done]. intros y Hy' Hy.
          apply Hnew in Hy' as (_ & _ & HyT).
          apply (Hfound y); [apply elem_of_app; right; by right|done].
    - intros y. rewrite Hsplit, (ai_found _ _ _ _ _ _ _ _ HI).
      rewrite elem_of_difference, elem_of_list_to_set.
      fold new. rewrite <- (elem_of_rev new). split.
      + intros [Hy|[->|[Hy1 Hy2]]]; [|by left|].
        * right. apply Hnew in Hy as Hy'. destruct Hy' as (_ & _ & HyT).
          split; [by apply (ai_sub _ _ _ _ _ _ _ _ HI)|]. intros [_ Hn]. done.
        * right. split; [done|]. by intros [? _].
      + intros [->|[Hy1 Hy2]]; [right; by left|].
        destruct (decide (y ∈ T)) as [HyT|HyT]; [|right; by right].
        left. destruct (decide (y ∈ rev new)); [done|]. exfalso. by apply Hy2.
    - intros y [Hy _]%elem_of_difference. by apply (ai_sub _ _ _ _ _ _ _ _ HI).
    - intros y [Hy|Hy]%Hsplit; [|by apply (ai_conn _ _ _ _ _ _ _ _ HI)].
      apply Hnew in Hy as (Hn & Hn0 & _).
      eapply rtc_r; [exact Hcx|]. split; [done|]. split; [done|congruence].
    - intros y n Hy Hn Hn0. apply Hsplit.
      apply elem_of_app in Hy as [Hy|Hy%list_elem_of_singleton].
      + right. by apply (ai_closed _ _ _ _ _ _ _ _ HI y n).
      + subst y.
        destruct (decide (n ∈ T)) as [HnT|HnT]; [left; by apply Hnew|right].
        apply (ai_found _ _ _ _ _ _ _ _ HI).
        assert (x ∈ cs ++ x :: below) as Hxin by (apply elem_of_app; right; by left).
        destruct (Hcl0 x n) as [->|HnT0]; [|done|done|by left|by right].
        apply (ai_found _ _ _ _ _ _ _ _ HI) in Hxin as [->|[? _]]; [by left|by right].
    - destruct (ai_tb _ _ _ _ _ _ _ _ HI) as [Hge Hiff].
      destruct (count_pos 1 (_get_neighbors x)) as [Hge' Hiff'].
      split; [lia|]. split.
      + intros Hp. destruct (decide (0 < tb)) as [Ht|Ht].
        * apply Hiff in Ht as (y & n & Hy & Hn & Hc). exists y, n.
          split; [apply elem_of_app; by left|done].
        * assert (0 < sumZ (fun n => Z.b2z (at_ brd n =? 1)) (_get_neighbors x)) as Hp'
            by lia.
          apply Hiff' in Hp' as (n & Hn & Hc). exists x, n.
          split; [apply elem_of_app; right; by left|done].
      + intros (y & n & Hy & Hn & Hc).
        apply elem_of_app in Hy as [Hy|Hy%list_elem_of_singleton]; [|subst y].
        * assert (0 < tb) by (apply Hiff; by exists y, n). lia.
        * assert (0 < sumZ (fun n => Z.b2z (at_ brd n =? 1)) (_get_neighbors x))
            by (apply Hiff'; by exists n). lia.
    - destruct (ai_tw _ _ _ _ _ _ _ _ HI) as [Hge Hiff].
      destruct (count_pos 2 (_get_neighbors x)) as [Hge' Hiff'].
      split; [lia|]. split.
      + intros Hp. destruct (decide (0 < tw)) as [Ht|Ht].
        * apply Hiff in Ht as (y & n & Hy & Hn & Hc). exists y, n.
          split; [apply elem_of_app; by left|done].
        * assert (0 < sumZ (fun n => Z.b2z (at_ brd n =? 2)) (_get_neighbors x)) as Hp'
            by lia.
          apply Hiff' in Hp' as (n & Hn & Hc). exists x, n.
          split; [apply elem_of_app; right; by left|done].
      + intros (y & n & Hy & Hn & Hc).
        apply elem_of_app in Hy as [Hy|Hy%list_elem_of_singleton]; [|subst y].
        * assert (0 < tw) by (apply Hiff; by exists y, n). lia.
        * assert (0 < sumZ (fun n => Z.b2z (at_ brd n =? 2)) (_get_neighbors x))
            by (apply Hiff'; by exists n). lia.
  Qed.

Lemma area_loop_spec : ∀ fuel T F cs tb tw,
    area_inv brd s T0 T F cs tb tw →
    (size T + length F < fuel)%nat →
    ∃ T' cs' tb' tw',
      area_loop fuel b T F cs (Z.of_nat (length cs)) tb tw
      = Ok (T', cs', Z.of_nat (length cs'), tb', tw') ∧
      area_inv brd s T0 T' [] cs' tb' tw'.
  Proof using All.
    induction fuel as [|fuel IH]; intros T F cs tb tw HI Hf; [lia|].
    destruct F as [|x below].
    { cbn. by exists T, cs, tb, tw. }
    cbn [area_loop].
    assert (x ∈ cs ++ x :: below) as Hxin by (apply elem_of_app; right; by left).
    assert (cell x) as Hx
      by (apply (conn_cell brd s); [done|by apply (ai_conn _ _ _ _ _ _ _ _ HI)]).
    assert (x ∉ T) as HxT.
    { apply (ai_found _ _ _ _ _ _ _ _ HI) in Hxin as [->|[_ Hy]]; [|done].
      intros Hy. by apply HsT, (ai_sub _ _ _ _ _ _ _ _ HI). }
    rewrite (bool_decide_eq_false_2 _ HxT). cbn [negb assert_ mbind res_bind].
    rewrite neighbors_of_cell by done. cbn [mbind res_bind].
    rewrite area_nbrs_spec;
      [|done|intros n Hn; by apply (nbrs_cell x)|by apply nbrs_NoDup].
    cbn [mbind res_bind].
    replace (Z.of_nat (length cs) + 1) with (Z.of_nat (length (cs ++ [x])))
      by (rewrite length_app; cbn; lia).
    apply IH; [by apply area_inv_step|].
    set (new := area_new brd T (_get_neighbors x)).
    assert (NoDup new) as Hnd by (by apply area_new_NoDup, nbrs_NoDup).
    assert (list_to_set new ⊆ T) as Hsub.
    { intros y Hy%elem_of_list_to_set. by apply area_new_elem in Hy as (_ & _ & ?). }
    rewrite size_difference by done.
    rewrite size_list_to_set by done.
    assert (length new ≤ size T)%nat.
    { rewrite <- (size_list_to_set (C := gset Z) new) by done.
      by apply subseteq_size. }
    rewrite length_app, length_rev. cbn [length] in Hf. lia.
  Qed.

  (** What the exploration has found when its stack is empty. *)
Lemma area_inv_done T cs tb tw :
    area_inv brd s T0 T [] cs tb tw →
    NoDup cs ∧ (∀ x, x ∈ cs ↔ conn brd s x) ∧
    T = T0 ∖ list_to_set cs ∧ s ∈ cs ∧
    0 ≤ tb ∧ 0 ≤ tw ∧ (0 < tb ↔ sees brd 1 s) ∧ (0 < tw ↔ sees brd 2 s).
  Proof using All.
    intros HI.
    pose proof (ai_nodup _ _ _ _ _ _ _ _ HI) as Hnd.
    pose proof (ai_found _ _ _ _ _ _ _ _ HI) as Hfound.
    pose proof (ai_conn _ _ _ _ _ _ _ _ HI) as Hconn.
    pose proof (ai_closed _ _ _ _ _ _ _ _ HI) as Hclosed.
    rewrite app_nil_r in Hnd.
    assert (∀ x, x ∈ cs ↔ x = s ∨ (x ∈ T0 ∧ x ∉ T)) as Hfound'
      by (intros x; rewrite <- Hfound, app_nil_r; done).
    assert (s ∈ cs) as Hscs by (apply Hfound'; by left).
    assert (∀ x, x ∈ cs ↔ conn brd s x) as Hreg.
    { intros x. split.
      - intros Hx. apply Hconn. by rewrite app_nil_r.
      - intros Hc. revert x Hc. apply (rtc_ind_r (fun x => x ∈ cs)); [done|].
        intros y x Hsy (Hcy & Hn & Hcol) IH.
        assert (at_ brd x = 0)
          by (rewrite <- Hcol, <- (conn_colour _ _ _ Hsy); done).
        specialize (Hclosed y x IH Hn). rewrite app_nil_r in Hclosed. auto. }
    split; [done|]. split; [done|]. split.
    { apply leibniz_equiv. intros x.
      rewrite elem_of_difference, elem_of_list_to_set, Hfound'. split.
      - intros HxT. split; [by apply (ai_sub _ _ _ _ _ _ _ _ HI)|].
        intros [->|[_ Hn]]; [|done]. by apply HsT, (ai_sub _ _ _ _ _ _ _ _ HI).
      - intros [Hx0 Hn]. destruct (decide (x ∈ T)); [done|].
        exfalso. apply Hn. by right. }
    split; [done|].
    destruct (ai_tb _ _ _ _ _ _ _ _ HI) as [Hb Hbi].
    destruct (ai_tw _ _ _ _ _ _ _ _ HI) as [Hw Hwi].
    split; [done|]. split; [done|]. unfold sees. split.
    - rewrite Hbi. split; intros (x & n & Hx & Hn); exists x, n;
        (split; [by apply Hreg|done]).
    - rewrite Hwi. split; intros (x & n & Hx & Hn); exists x, n;
        (split; [by apply Hreg|done]).
  Qed.
End area.

(** ** Counting the areas: the grid is in one piece *)

Lemma smaller_nbr_all :
  forallb (fun x => (x =? 0) || existsb (fun n => n <? x) (_get_neighbors x)) cells = true.
Proof. vm_compute. reflexivity. Qed.

Lemma smaller_nbr x : cell x → x ≠ 0 → ∃ n, n ∈ _get_neighbors x ∧ 0 ≤ n < x.
Proof.
  intros Hx Hx0. pose proof smaller_nbr_all as H.
  rewrite forallb_forall in H. specialize (H x).
  rewrite <- list_elem_of_In, <- cell_in_cells in H. specialize (H Hx).
  apply orb_true_iff in H as [H%Z.eqb_eq|H]; [done|].
  apply existsb_exists in H as (n & Hn%list_elem_of_In & Hlt%Z.ltb_lt).
  exists n. split; [done|]. pose proof (nbrs_cell x n Hx Hn) as [? _]. lia.
Qed.

Lemma grid_connected (P : Z → Prop) s :
  cell s → P s → (∀ x n, cell x → P x → n ∈ _get_neighbors x → P n) →
  ∀ x, cell x → P x.
Proof.
  intros Hs HPs Hcl.
  assert (∀ k, 0 ≤ k → ∀ y, cell y → P y → y ≤ k → P 0) as Hdown.
  { intros k Hk. pattern k. apply (natlike_ind); [| |done].
    - intros y [Hy _] HPy Hle. by replace 0 with y by lia.
    - intros k' Hk' IH y Hy HPy Hle.
      destruct (decide (y = 0)) as [->|Hy0]; [done|].
      destruct (smaller_nbr y Hy Hy0) as (n & Hn & Hlt).
      apply (IH n); [by apply (nbrs_cell y)|by apply (Hcl y)|lia]. }
  assert (P 0) as HP0 by (apply (Hdown s (proj1 Hs) s); [done|done|lia]).
  assert (∀ k, 0 ≤ k → ∀ y, cell y → y ≤ k → P y) as Hup.
  { intros k Hk. pattern k. apply (natlike_ind); [| |done].
    - intros y [Hy _] Hle. by replace y with 0 by lia.
    - intros k' Hk' IH y Hy Hle.
      destruct (decide (y = 0)) as [->|Hy0]; [done|].
      destruct (smaller_nbr y Hy Hy0) as (n & Hn & Hlt).
      assert (cell n) as Hcn by (by apply (nbrs_cell y)).
      apply (Hcl n); [done|apply IH; [done|lia]|by apply nbrs_sym]. }
  intros x Hx. apply (Hup x (proj1 Hx) x); [done|lia].
Qed.

(** A region of empty cells that has no stone next to it is the whole
    grid. *)
Lemma blind_region_empty_board brd s :
  (∀ i, cell i → 0 ≤ at_ brd i ≤ 2) → cell s → at_ brd s = 0 →
  ¬ sees brd 1 s → ¬ sees brd 2 s → ∀ j, cell j → at_ brd j = 0.
Proof.
  intros Hcol Hs Hs0 H1 H2 j Hj.
  rewrite <- Hs0. symmetry. apply conn_colour.
  revert j Hj. apply (grid_connected (fun j => conn brd s j) s); [done|apply rtc_refl|].
  intros x n Hx Hc Hn.
  assert (at_ brd x = 0) as Hx0 by (by rewrite <- (conn_colour _ _ _ Hc)).
  assert (at_ brd n = 0) as Hn0.
  { pose proof (Hcol n (nbrs_cell x n Hx Hn)).
    destruct (decide (at_ brd n = 1)) as [E1|E1]; [exfalso; apply H1; by exists x, n|].
    destruct (decide (at_ brd n = 2)) as [E2|E2]; [exfalso; apply H2; by exists x, n|].
    lia. }
  eapply rtc_r; [exact Hc|]. split; [done|]. split; [done|congruence].
Qed.

Lemma count_col_zero brd col :
  col ≠ 0 → (∀ j, cell j → at_ brd j = 0) → count_col brd col = 0.
Proof.
  intros Hc H. unfold count_col. apply sumZ_zero. intros j Hj%cell_in_cells.
  rewrite (H j Hj). by destruct (Z.eqb_spec 0 col).
Qed.

Lemma sees_conn brd col x y : cell x → conn brd x y → sees brd col x ↔ sees brd col y.
Proof.
  intros Hx Hc. unfold sees. split; intros (e & n & He & Hn); exists e, n.
  - split; [|done]. etrans; [|exact He]. by apply conn_sym.
  - split; [|done]. etrans; [exact Hc|exact He].
Qed.

Lemma size_cells (T : gset Z) : (∀ i, i ∈ T → cell i) → (size T ≤ Z.to_nat ncells)%nat.
Proof.
  intros H. rewrite <- length_cells, <- (size_list_to_set (C := gset Z) cells NoDup_cells).
  apply subseteq_size. intros i Hi. apply elem_of_list_to_set, cell_in_cells, H, Hi.
Qed.

(** ** Counting the areas: the loop over the regions *)

Section areas.
  Context (b : Board) (E : gset Z).
  Hypothesis HE : ∀ i, i ∈ E → cell i ∧ at_ (_board b) i = 0.

  Local Abbreviation brd := (_board b).

Lemma areas_region T B W O s x :
    areas_inv brd E T B W O → s ∈ T → conn brd s x → x ∈ T.
  Proof using All.
    intros HI Hs. revert x. apply (rtc_ind_r (fun x => x ∈ T)); [done|].
    intros y x Hsy (Hcy & Hn & Hcol) IH.
    apply (oi_closed _ _ _ _ _ _ HI y x IH Hn).
    rewrite <- Hcol. apply HE, (oi_part _ _ _ _ _ _ HI). by left.
  Qed.

Lemma areas_inv_step T B W O s cs :
    areas_inv brd E T B W O → s ∈ T → NoDup cs → (∀ x, x ∈ cs ↔ conn brd s x) →
    let R : gset Z := list_to_set cs in
    R ⊆ T ∧ size R = length cs ∧
    (sees brd 1 s ∧ ¬ sees brd 2 s → areas_inv brd E (T ∖ R) (B ∪ R) W O) ∧
    (sees brd 2 s ∧ ¬ sees brd 1 s → areas_inv brd E (T ∖ R) B (W ∪ R) O) ∧
    ((sees brd 1 s ↔ sees brd 2 s) → areas_inv brd E (T ∖ R) B W (O ∪ R)).
  Proof using All.
    intros HI Hs Hnd Hreg R.
    pose proof (oi_part _ _ _ _ _ _ HI) as Hpart.
    destruct (oi_disj _ _ _ _ _ _ HI) as (HTB & HTW & HTO & HBW & HBO & HWO).
    assert (R ⊆ T) as HRT.
    { intros x Hx%elem_of_list_to_set. by apply (areas_region T B W O s), Hreg. }
    assert (cell s) as Hcs by (apply HE, Hpart; by left).
    assert (∀ col e, e ∈ R → sees brd col e ↔ sees brd col s) as Hsees.
    { intros col e He%elem_of_list_to_set%Hreg. symmetry. by apply sees_conn. }
    assert (∀ x n, x ∈ T ∖ R → n ∈ _get_neighbors x → at_ brd n = 0 → n ∈ T ∖ R) as Hcl.
    { intros x n [HxT HxR]%elem_of_difference Hn Hn0. apply elem_of_difference.
      split; [by apply (oi_closed _ _ _ _ _ _ HI x n)|].
      intros HnR%elem_of_list_to_set%Hreg. apply HxR, elem_of_list_to_set, Hreg.
      eapply rtc_r; [exact HnR|].
      assert (cell x ∧ at_ brd x = 0) as [Hcx Hx0] by (apply HE, Hpart; by left).
      split; [by apply (nbrs_cell x)|]. split; [by apply nbrs_sym|congruence]. }
    split; [done|]. split; [by apply size_list_to_set|].
    split; [|split].
    - intros [H1 H2]. constructor.
      + done.
      + intros x. rewrite Hpart. destruct (decide (x ∈ R)); set_solver.
      + repeat split; set_solver.
      + intros e [He|He]%elem_of_union; [by apply (oi_B _ _ _ _ _ _ HI)|].
        rewrite !(Hsees _ e He). done.
      + apply (oi_W _ _ _ _ _ _ HI).
      + apply (oi_O _ _ _ _ _ _ HI).
    - intros [H2 H1]. constructor.
      + done.
      + intros x. rewrite Hpart. destruct (decide (x ∈ R)); set_solver.
      + repeat split; set_solver.
      + apply (oi_B _ _ _ _ _ _ HI).
      + intros e [He|He]%elem_of_union; [by apply (oi_W _ _ _ _ _ _ HI)|].
        rewrite !(Hsees _ e He). done.
      + apply (oi_O _ _ _ _ _ _ HI).
    - intros H12. constructor.
      + done.
      + intros x. rewrite Hpart. destruct (decide (x ∈ R)); set_solver.
      + repeat split; set_solver.
      + apply (oi_B _ _ _ _ _ _ HI).
      + apply (oi_W _ _ _ _ _ _ HI).
      + intros e [He|He]%elem_of_union; [by apply (oi_O _ _ _ _ _ _ HI)|].
        rewrite !(Hsees _ e He). done.
  Qed.
End areas.

Section count.
  Context (pick : gset Z → Z) (b : Board).
  Hypothesis Hpick : ∀ S : gset Z, S ≠ ∅ → pick S ∈ S.
  Hypothesis HC : Core b.
  Hypothesis Hcnt : counts_ok b.

  Local Abbreviation brd := (_board b).

Lemma areas_loop_spec : ∀ fuel T B W O,
    areas_inv brd (_empties b) T B W O → (size T < fuel)%nat →
    ∃ B' W' O',
      areas_loop pick fuel b T (Z.of_nat (size B)) (Z.of_nat (size W)) (Z.of_nat (size O))
      = Ok (Z.of_nat (size B'), Z.of_nat (size W'), Z.of_nat (size O')) ∧
      areas_inv brd (_empties b) ∅ B' W' O'.
  Proof using All.
    assert (∀ i, i ∈ _empties b → cell i ∧ at_ brd i = 0) as HE
      by (intros i; apply (cg_empties _ _ _ _ HC)).
    pose proof (cg_len_board _ _ _ _ HC) as Hl.
    induction fuel as [|fuel IH]; intros T B W O HI Hf; [lia|].
    cbn [areas_loop]. case_bool_decide as HT.
    2: { assert (T = ∅) as -> by (apply leibniz_equiv, size_empty_inv; lia). by exists B, W, O. }
    assert (T ≠ ∅) as HT0 by (intros ->; rewrite size_empty in HT; lia).
    cbv zeta. pose proof (Hpick T HT0) as Hs.
    remember (pick T) as s eqn:Es. clear Es.
    pose proof (oi_part _ _ _ _ _ _ HI) as Hpart.
    destruct (oi_disj _ _ _ _ _ _ HI) as (HTB & HTW & HTO & _).
    assert (cell s ∧ at_ brd s = 0) as [Hcs Hs0] by (apply HE, Hpart; by left).
    rewrite aget_cell by done. cbn [mbind res_bind]. rewrite Hs0.
    unfold _EMPTY. cbn [Z.eqb assert_ mbind res_bind].
    assert (s ∉ T ∖ {[s]}) as HsT by set_solver.
    assert (∀ x n, x = s ∨ x ∈ T ∖ {[s]} → n ∈ _get_neighbors x →
                   at_ brd n = 0 → n = s ∨ n ∈ T ∖ {[s]}) as Hcl0.
    { intros x n Hx Hn Hn0. assert (x ∈ T) as HxT by set_solver.
      pose proof (oi_closed _ _ _ _ _ _ HI x n HxT Hn Hn0).
      destruct (decide (n = s)); [by left|right; set_solver]. }
    assert (size T ≤ Z.to_nat ncells)%nat as Hsz.
    { apply size_cells. intros i Hi. apply HE, Hpart. by left. }
    assert (size (T ∖ {[s]}) + length [s] < area_fuel)%nat as Hfuel.
    { assert (size (T ∖ {[s]}) ≤ size T)%nat by (apply subseteq_size; set_solver).
      cbn [length]. unfold area_fuel. change (Z.to_nat ncells) with 81%nat in Hsz. lia. }
    destruct (area_loop_spec b s (T ∖ {[s]}) Hl Hcs Hs0 HsT Hcl0 area_fuel
                (T ∖ {[s]}) [s] [] 0 0
                (area_inv_init b s (T ∖ {[s]}) Hl Hcs Hs0 HsT Hcl0) Hfuel)
      as (T' & cs & tb & tw & Hrun & HI').
    change (Z.of_nat (length (@nil Z))) with 0 in Hrun. rewrite Hrun. cbn [mbind res_bind].
    rewrite Z.eqb_refl. cbn [assert_ mbind res_bind].
    destruct (area_inv_done b s (T ∖ {[s]}) Hl Hcs Hs0 HsT Hcl0 T' cs tb tw HI')
      as (Hnd & Hreg & HT' & Hscs & Hb0 & Hw0 & Hb & Hw).
    destruct (areas_inv_step b (_empties b) HE T B W O s cs HI Hs Hnd Hreg)
      as (HRT & HsR & HstepB & HstepW & HstepO).
    assert (T' = T ∖ list_to_set cs) as ->.
    { rewrite HT'. apply leibniz_equiv. intros x.
      rewrite !elem_of_difference, elem_of_singleton, elem_of_list_to_set.
      split; [tauto|]. intros [? Hx]. split; [|done]. split; [done|]. by intros ->. }
    assert (size (T ∖ list_to_set cs) < fuel)%nat as Hf'.
    { rewrite size_difference by done. rewrite HsR.
      assert (0 < length cs)%nat by (destruct cs; [by apply elem_of_nil in Hscs|cbn; lia]).
      lia. }
    assert (∀ X : gset Z, T ## X →
              Z.of_nat (size X) + Z.of_nat (length cs)
              = Z.of_nat (size (X ∪ list_to_set cs))) as Hadd.
    { intros X HX. rewrite size_union; [rewrite HsR; lia|].
      intros x HxX HxR. apply (HX x); [by apply HRT|done]. }
    assert ((_nbBLACK b =? 0) && (_nbWHITE b =? 0) || (0 <? tb) || (0 <? tw) = true)
      as ->.
    { destruct (Z.ltb_spec 0 tb) as [?|Hb']; [by rewrite orb_true_r|].
      destruct (Z.ltb_spec 0 tw) as [?|Hw']; [by rewrite orb_true_r|].
      rewrite !orb_false_r.
      assert (∀ j, cell j → at_ brd j = 0) as Hall.
      { apply (blind_region_empty_board brd s); [apply (cg_colours _ _ _ _ HC)|done|done| |].
        - intros H%Hb. lia.
        - intros H%Hw. lia. }
      destruct Hcnt as [HnB HnW]. rewrite HnB, HnW.
      rewrite !count_col_zero by done. done. }
    cbn [assert_ mbind res_bind].
    destruct (Z.eqb_spec tb 0) as [Eb|Eb]; cbn [andb].
    - destruct (Z.ltb_spec 0 tw) as [Ew|Ew].
      + rewrite (Hadd W HTW). apply IH; [|done]. apply HstepW. split.
        * by apply Hw.
        * intros H%Hb. lia.
      + destruct (Z.eqb_spec tw 0) as [Ew'|Ew']; [|lia]. cbn [andb].
        destruct (Z.ltb_spec 0 tb) as [?|_]; [lia|].
        rewrite (Hadd O HTO). apply IH; [|done]. apply HstepO.
        rewrite <- Hb, <- Hw. lia.
    - destruct (Z.eqb_spec tw 0) as [Ew|Ew]; cbn [andb].
      + destruct (Z.ltb_spec 0 tb) as [Hb'|Hb']; [|lia].
        rewrite (Hadd B HTB). apply IH; [|done]. apply HstepB. split.
        * by apply Hb.
        * intros H%Hw. lia.
      + rewrite (Hadd O HTO). apply IH; [|done]. apply HstepO.
        rewrite <- Hb, <- Hw. lia.
  Qed.

Lemma areas_inv_init : areas_inv brd (_empties b) (_empties b) ∅ ∅ ∅.
  Proof using All.
    constructor.
    - intros x n Hx Hn Hn0. apply (cg_empties _ _ _ _ HC). split; [|done].
      apply (nbrs_cell x); [|done]. by apply (cg_empties _ _ _ _ HC).
    - set_solver.
    - repeat split; set_solver.
    - set_solver.
    - set_solver.
    - set_solver.
  Qed.

  (** The three numbers are the sizes of the three sets of empty cells:
      those whose region sees black stones only, white stones only, and
      the others. *)
Lemma count_areas_spec :
    ∃ B W O : gset Z,
      _count_areas pick b
      = Ok (Z.of_nat (size B), Z.of_nat (size W), Z.of_nat (size O)) ∧
      (∀ e, e ∈ B ↔ e ∈ _empties b ∧ sees brd 1 e ∧ ¬ sees brd 2 e) ∧
      (∀ e, e ∈ W ↔ e ∈ _empties b ∧ sees brd 2 e ∧ ¬ sees brd 1 e) ∧
      (∀ e, e ∈ O ↔ e ∈ _empties b ∧ (sees brd 1 e ↔ sees brd 2 e)) ∧
      (size B + size W + size O = size (_empties b))%nat.
  Proof using All.
    assert (size (_empties b) < area_fuel)%nat as Hf.
    { assert (size (_empties b) ≤ Z.to_nat ncells)%nat as Hsz
        by (apply size_cells; intros i Hi; by apply (cg_empties _ _ _ _ HC)).
      unfold area_fuel. change (Z.to_nat ncells) with 81%nat in Hsz. lia. }
    destruct (areas_loop_spec area_fuel (_empties b) ∅ ∅ ∅ areas_inv_init Hf)
      as (B & W & O & Hrun & HI).
    rewrite size_empty in Hrun. exists B, W, O. split; [exact Hrun|].
    pose proof (oi_part _ _ _ _ _ _ HI) as Hpart.
    destruct (oi_disj _ _ _ _ _ _ HI) as (_ & _ & _ & HBW & HBO & HWO).
    pose proof (oi_B _ _ _ _ _ _ HI) as HB.
    pose proof (oi_W _ _ _ _ _ _ HI) as HW.
    pose proof (oi_O _ _ _ _ _ _ HI) as HO.
    split; [|split; [|split; [|]]].
    - intros e. split.
      + intros He. split; [apply Hpart; auto|by apply HB].
      + intros [[He|[He|[He|He]]]%Hpart [H1 H2]].
        * by apply elem_of_empty in He.
        * done.
        * apply HW in He as [? ?]. done.
        * apply HO in He. tauto.
    - intros e. split.
      + intros He. split; [apply Hpart; auto|by apply HW].
      + intros [[He|[He|[He|He]]]%Hpart [H2 H1]].
        * by apply elem_of_empty in He.
        * apply HB in He as [? ?]. done.
        * done.
        * apply HO in He. tauto.
    - intros e. split.
      + intros He. split; [apply Hpart; auto|by apply HO].
      + intros [[He|[He|[He|He]]]%Hpart H12].
        * by apply elem_of_empty in He.
        * apply HB in He as [? ?]. tauto.
        * apply HW in He as [? ?]. tauto.
        * done.
    - assert (_empties b = B ∪ W ∪ O) as ->.
      { apply leibniz_equiv. intros x.
        rewrite Hpart, !elem_of_union, elem_of_empty. tauto. }
      rewrite size_union.
      + rewrite size_union by done. done.
      + intros x [Hx|Hx]%elem_of_union; [by apply HBO|by apply HWO].
  Qed.
End count.

(** ** The scores *)

Lemma pick_first_ok (S : gset Z) : S ≠ ∅ → pick_first S ∈ S.
Proof.
  intros HS. unfold pick_first. destruct (elements S) as [|x l] eqn:E.
  - by apply elements_empty_inv, leibniz_equiv in E.
  - cbn. apply elem_of_elements. rewrite E. by left.
Qed.

Lemma length_filter_sumZ {A} (p : A → bool) l :
  Z.of_nat (length (List.filter p l)) = sumZ (fun x => Z.b2z (p x)) l.
Proof.
  induction l as [|a l IH]; [done|]. cbn [List.filter sumZ foldr].
  fold (sumZ (fun x => Z.b2z (p x)) l). rewrite <- IH.
  destruct (p a); cbn [length Z.b2z]; lia.
Qed.

Lemma empties_count b :
  Core b → Z.of_nat (size (_empties b)) = count_col (_board b) 0.
Proof.
  intros HC. unfold count_col. rewrite <- length_filter_sumZ.
  assert (_empties b = list_to_set (List.filter (fun j => at_ (_board b) j =? 0) cells))
    as ->.
  { apply leibniz_equiv. intros x.
    rewrite elem_of_list_to_set, list_elem_of_In, filter_In, <- list_elem_of_In.
    rewrite <- cell_in_cells, Z.eqb_eq. apply (cg_empties _ _ _ _ HC). }
  rewrite size_list_to_set; [done|].
  apply NoDup_ListNoDup, List.NoDup_filter, NoDup_ListNoDup, NoDup_cells.
Qed.

Lemma count_col_total brd :
  (∀ i, cell i → 0 ≤ at_ brd i ≤ 2) →
  count_col brd 0 + count_col brd 1 + count_col brd 2 = ncells.
Proof.
  intros Hcol. unfold count_col. rewrite <- !sumZ_add.
  rewrite (sumZ_ext _ (fun _ => 1)).
  - rewrite sumZ_const, length_cells. done.
  - intros j Hj%cell_in_cells. specialize (Hcol j Hj).
    destruct (Z.eqb_spec (at_ brd j) 0), (Z.eqb_spec (at_ brd j) 1),
      (Z.eqb_spec (at_ brd j) 2); cbn [Z.b2z]; lia.
Qed.

Lemma compute_score_spec pick b :
  Core b → counts_ok b → (∀ S : gset Z, S ≠ ∅ → pick S ∈ S) →
  ∃ ob ow oo,
    _count_areas pick b = Ok (ob, ow, oo) ∧ 0 ≤ ob ∧ 0 ≤ ow ∧ 0 ≤ oo ∧
    _nbBLACK b + ob + (_nbWHITE b + ow) + oo = ncells.
Proof.
  intros HC Hcnt Hpick.
  destruct (count_areas_spec pick b Hpick HC Hcnt) as (B & W & O & Hrun & _ & _ & _ & Hsz).
  exists (Z.of_nat (size B)), (Z.of_nat (size W)), (Z.of_nat (size O)).
  split; [exact Hrun|]. split; [lia|]. split; [lia|]. split; [lia|].
  pose proof (empties_count b HC) as He.
  pose proof (count_col_total (_board b) (cg_colours _ _ _ _ HC)) as Ht.
  destruct Hcnt as [HnB HnW]. unfold _BLACK, _WHITE in HnB, HnW. lia.
Qed.

(** ** What the counting of the areas gives *)

(** On a reachable position [_count_areas] raises nothing, whichever
    elements [pop] takes out of the set: it returns the numbers of empty
    cells whose region of empty cells has black stones next to it and no
    white one, white stones and no black one, and both colours or no stone
    at all.  Every empty cell is counted once. *)
Theorem count_areas_counts_regions pick b :
  reachable b → (∀ S : gset Z, S ≠ ∅ → pick S ∈ S) →
  ∃ B W O : gset Z,
    _count_areas pick b = Ok (Z.of_nat (size B), Z.of_nat (size W), Z.of_nat (size O)) ∧
    (∀ e, e ∈ B ↔ e ∈ _empties b ∧ sees (_board b) 1 e ∧ ¬ sees (_board b) 2 e) ∧
    (∀ e, e ∈ W ↔ e ∈ _empties b ∧ sees (_board b) 2 e ∧ ¬ sees (_board b) 1 e) ∧
    (∀ e, e ∈ O ↔ e ∈ _empties b ∧ (sees (_board b) 1 e ↔ sees (_board b) 2 e)) ∧
    (size B + size W + size O = size (_empties b))%nat.
Proof.
  intros Hr Hpick.
  pose proof (reachable_Inv b Hr) as (HC & _).
  pose proof (reachable_Booked b Hr) as ((Hcnt & _) & _).
  exact (count_areas_spec pick b Hpick HC Hcnt).
Qed.

Lemma count_areas_counts_regions_witness :
  let b := demo_after ko_moves in
  reachable b ∧ (∀ S : gset Z, S ≠ ∅ → pick_first S ∈ S) ∧
  ∃ B W O : gset Z,
    _count_areas pick_first b
    = Ok (Z.of_nat (size B), Z.of_nat (size W), Z.of_nat (size O)) ∧
    (size B + size W + size O = size (_empties b))%nat.
Proof.
  cbv zeta. split; [exact ko_reachable|]. split; [exact pick_first_ok|].
  destruct (count_areas_counts_regions pick_first (demo_after ko_moves)
              ko_reachable pick_first_ok) as (B & W & O & Hrun & _ & _ & _ & Hsz).
  exists B, W, O. split; [exact Hrun|exact Hsz].
Defined.

(** The order in which [pop] hands out the empty cells does not change
    what [_count_areas] returns on a reachable position. *)
Theorem count_areas_any_pop_order pick pick' b :
  reachable b →
  (∀ S : gset Z, S ≠ ∅ → pick S ∈ S) → (∀ S : gset Z, S ≠ ∅ → pick' S ∈ S) →
  _count_areas pick b = _count_areas pick' b.
Proof.
  intros Hr Hpick Hpick'.
  pose proof (reachable_Inv b Hr) as (HC & _).
  pose proof (reachable_Booked b Hr) as ((Hcnt & _) & _).
  destruct (count_areas_spec pick b Hpick HC Hcnt)
    as (B & W & O & -> & HB & HW & HO & _).
  destruct (count_areas_spec pick' b Hpick' HC Hcnt)
    as (B' & W' & O' & -> & HB' & HW' & HO' & _).
  assert (B = B') as -> by (apply leibniz_equiv; intros e; by rewrite HB, HB').
  assert (W = W') as -> by (apply leibniz_equiv; intros e; by rewrite HW, HW').
  assert (O = O') as -> by (apply leibniz_equiv; intros e; by rewrite HO, HO').
  done.
Qed.

Lemma count_areas_any_pop_order_witness :
  let b := demo_after ko_moves in
  let pick_last (S : gset Z) := default 0 (last (elements S)) in
  reachable b ∧ (∀ S : gset Z, S ≠ ∅ → pick_first S ∈ S) ∧
  (∀ S : gset Z, S ≠ ∅ → pick_last S ∈ S) ∧
  _count_areas pick_first b = _count_areas pick_last b.
Proof.
  cbv zeta.
  assert (∀ S : gset Z, S ≠ ∅ → default 0 (last (elements S)) ∈ S) as Hlast.
  { intros S HS. destruct (elements S) as [|x l _] eqn:E using rev_ind.
    - by apply elements_empty_inv, leibniz_equiv in E.
    - rewrite last_snoc. cbn. apply elem_of_elements. rewrite E.
      apply elem_of_app. right. by left. }
  split; [exact ko_reachable|]. split; [exact pick_first_ok|]. split; [exact Hlast|].
  exact (count_areas_any_pop_order pick_first _ (demo_after ko_moves)
           ko_reachable pick_first_ok Hlast).
Defined.

(** On a reachable position [compute_score] raises nothing, each score
    is at least the number of stones of its colour, and the two scores
    and the cells that [_count_areas] gives to neither colour add up to
    the 81 cells of the board. *)
Theorem compute_score_shares_the_board pick b :
  reachable b → (∀ S : gset Z, S ≠ ∅ → pick S ∈ S) →
  ∃ score_black score_white others,
    compute_score pick b = Ok (score_black, score_white) ∧
    _count_areas pick b
    = Ok (score_black - _nbBLACK b, score_white - _nbWHITE b, others) ∧
    _nbBLACK b ≤ score_black ∧ _nbWHITE b ≤ score_white ∧ 0 ≤ others ∧
    score_black + score_white + others = 81.
Proof.
  intros Hr Hpick.
  pose proof (reachable_Inv b Hr) as (HC & _).
  pose proof (reachable_Booked b Hr) as ((Hcnt & _) & _).
  destruct (compute_score_spec pick b HC Hcnt Hpick)
    as (ob & ow & oo & Hrun & Hob & How & Hoo & Hsum).
  exists (_nbBLACK b + ob), (_nbWHITE b + ow), oo.
  unfold compute_score. rewrite Hrun. cbn [mbind res_bind].
  split; [done|]. split; [do 3 f_equal; lia|].
  change ncells with 81 in Hsum. lia.
Qed.

Lemma compute_score_shares_the_board_witness :
  let b := demo_after ko_moves in
  reachable b ∧ (∀ S : gset Z, S ≠ ∅ → pick_first S ∈ S) ∧
  ∃ score_black score_white others,
    compute_score pick_first b = Ok (score_black, score_white) ∧
    score_black + score_white + others = 81.
Proof.
  cbv zeta. split; [exact ko_reachable|]. split; [exact pick_first_ok|].
  destruct (compute_score_shares_the_board pick_first (demo_after ko_moves)
              ko_reachable pick_first_ok) as (sb & sw & oo & Hrun & _ & _ & _ & _ & Hsum).
  exists sb, sw, oo. split; [exact Hrun|exact Hsum].
Defined.

(** On a reachable position [result] and [final_go_score] raise nothing
    and go by the scores of [compute_score]: [result] names white as the
    winner exactly when the score of white is the greater one, black when
    the score of black is, and a draw when they are equal, and
    [final_go_score] gives the same winner with the margin. *)
Theorem result_follows_compute_score pick b :
  reachable b → (∀ S : gset Z, S ≠ ∅ → pick S ∈ S) →
  ∃ score_black score_white,
    compute_score pick b = Ok (score_black, score_white) ∧
    (result pick b = Ok "1-0"%string ↔ score_black < score_white) ∧
    (result pick b = Ok "0-1"%string ↔ score_white < score_black) ∧
    (result pick b = Ok "1/2-1/2"%string ↔ score_black = score_white) ∧
    (score_black < score_white →
     final_go_score pick b = Ok ("W+" +:+ pretty (score_white - score_black))) ∧
    (score_white < score_black →
     final_go_score pick b = Ok ("B+" +:+ pretty (score_black - score_white))) ∧
    (final_go_score pick b = Ok "0"%string ↔ score_black = score_white).
Proof.
  intros Hr Hpick.
  pose proof (reachable_Inv b Hr) as (HC & _).
  pose proof (reachable_Booked b Hr) as ((Hcnt & _) & _).
  destruct (compute_score_spec pick b HC Hcnt Hpick)
    as (ob & ow & oo & Hrun & _).
  exists (_nbBLACK b + ob), (_nbWHITE b + ow).
  unfold final_go_score, result, compute_score. rewrite Hrun. cbn [mbind res_bind].
  split; [done|].
  destruct (Z.ltb_spec (_nbBLACK b + ob) (_nbWHITE b + ow)) as [H1|H1].
  { repeat split; try done; try lia; intros; try lia; try discriminate. }
  destruct (Z.ltb_spec (_nbWHITE b + ow) (_nbBLACK b + ob)) as [H2|H2].
  { repeat split; try done; try lia; intros; try lia; try discriminate. }
  repeat split; try done; try lia; intros; try lia; try discriminate.
Qed.

Lemma result_follows_compute_score_witness :
  let b := demo_after ko_moves in
  reachable b ∧ (∀ S : gset Z, S ≠ ∅ → pick_first S ∈ S) ∧
  ∃ score_black score_white,
    compute_score pick_first b = Ok (score_black, score_white) ∧
    (result pick_first b = Ok "1/2-1/2"%string ↔ score_black = score_white).
Proof.
  cbv zeta. split; [exact ko_reachable|]. split; [exact pick_first_ok|].
  destruct (result_follows_compute_score pick_first (demo_after ko_moves)
              ko_reachable pick_first_ok) as (sb & sw & Hrun & _ & _ & Hd & _).
  exists sb, sw. split; [exact Hrun|exact Hd].
Defined.
